(* ===== verification/_CoqProject ===== *)
-Q . S2P
Prelude.v
Memory.v
BufferPool.v
StoreBuffer.v
Stoll.v
Kernel.v
PartitionStorage.v
Extents.v
RawDiskIO.v
RawDiskIOSteps.v
RawDiskIODemo.v
RawDiskIOSpec.v
RawDiskIOInv.v
RawDiskIOBounds.v
RawDiskIOSlots.v
RawDiskIOHandlers.v
RawDiskIOObservers.v
RawDiskIOView.v
RawDiskIOReads.v
RawDiskIOShutdown.v
Deployment.v
RawDiskIOSchedules.v
RawDiskIOLimits.v
Daemon.v
Service.v
ServiceSpec.v
Log.v
Lifecycle.v
System.v
Process.v
