(* ===== verification/Prelude.v ===== *)
(** * A verification development of EZIO

    EZIO deploys disk images over BitTorrent: a daemon around a libtorrent session
    whose disk back end reads and writes the blocks of a raw partition.  A torrent
    of EZIO is a partition; its files are runs of used blocks, each named by its
    partition offset in hexadecimal.

    ** The program and how its parts interact

    - [main] (main.cpp) parses the command line (config), makes a libtorrent session
      that uses [raw_disk_io] unless [--file] is given, wraps it in the daemon
      [ezio], starts the gRPC service and two reporting threads ([log]), waits for
      the shutdown flag and takes everything down.
    - [gRPCService] (service.cpp) turns RPCs into calls of the daemon [ezio]
      (daemon.cpp), which calls the libtorrent session.
    - libtorrent calls the disk back end [raw_disk_io] (raw_disk_io.cpp) from its
      network thread.  A write is copied to a buffer of the write [buffer_pool],
      entered in the [store_buffer] and posted to a pool of write threads; a read
      or a hash is served from the store buffer where it can be and from the
      partition, by other pools, where it cannot.  Completions are posted to the
      I/O context of libtorrent's thread.
    - [partition_storage] (raw_disk_io.cpp) maps a range of a piece to runs of the
      partition through libtorrent's [file_storage] and [std::stoll] of the file
      names, and transfers it with pread and pwrite.
    - [buffer_pool] (buffer_pool.cpp) bounds the buffers, and tells clients when to
      stop and, through their observers, when to go on.

    ** Which file models what

    - Prelude: faults and outcomes, machine integers ([int], [wrap_i32], [wrap_i64],
      [to_u64]), slices and overwrites of lists of bytes, shared tactics.
    - Memory: malloc, free and memcpy on a heap of byte arrays known by address.
    - BufferPool: [buffer_pool] (buffer_pool.hpp, .cpp), one function per member,
      with the heap threaded; [pool_exec] are the executions of a pool and clients
      that free what they were given.
    - StoreBuffer: [torrent_location], its equality and hash, and [store_buffer]
      (store_buffer.hpp).
    - Stoll: [std::stoll(name, 0, 16)] of the C++ library.
    - Kernel: what EZIO uses of POSIX (open, close, pread, pwrite) and of libtorrent's
      [file_storage], as interfaces with the laws they document, and an instance of
      each: a RAM disk and files laid end to end.
    - PartitionStorage: [partition_storage] (raw_disk_io.cpp, lines 14 to 112).
    - Extents: what is asked of the torrent of a disk image ([image_torrent]: runs of
      used blocks under hexadecimal names, as utils/partclone_create_torrent.py makes
      them, laid end to end), and where its bytes are.
    - RawDiskIO: [raw_disk_io] (raw_disk_io.hpp, .cpp): its state with the process
      around it ([disk_io]), a state-and-fault monad, one computation per member
      function and per posted lambda.
    - RawDiskIOSteps: the step function [exec] of the whole back end (calls, pool
      threads, the I/O context, handlers giving buffers back), what is asked of the
      callers ([disciplined]), executions, and the invariant [io_inv].
    - RawDiskIODemo: one concrete run, for the witnesses.
    - RawDiskIOSpec, RawDiskIOInv: every branch of [async_read]; the invariant is
      kept by every step, and no step faults.
    - RawDiskIOBounds: the ranges, buffers and [int]s of posted jobs.
    - RawDiskIOSlots: the indices that torrents get.
    - RawDiskIOHandlers: handlers are accounted for; posted work ends.
    - RawDiskIOObservers: the back pressure of [async_write] through its observers.
    - RawDiskIOView, RawDiskIOReads: the abstract contents of the torrents, which
      the back end refines, and what reads and hashes deliver.
    - RawDiskIOShutdown: the destructor of the back end.
    - Deployment: an image deployed, from [new_torrent] to the destructor, and served.
    - RawDiskIOSchedules: two orders of the same posted work.
    - RawDiskIOLimits: what happens where the callers do not keep the discipline.
    - Daemon: [ezio] (daemon.hpp, .cpp) over an interface of libtorrent's session.
    - Service: the RPC handlers of [gRPCService] (service.cpp) and the messages of
      ezio.proto.
    - ServiceSpec: the calls as one type, and the table of torrents that a client
      of the service sees, which the service refines.
    - Log: a turn of each reporting thread (log.cpp), with its lines as values.
    - Lifecycle: the command line (config.cpp), and main, the reporting threads
      (log.cpp), the start and stop of the service and a Shutdown call, as
      interleaved steps of one process.
    - System: that process with the daemon, the calls it serves, the session's own
      changes and the log put in.
    - Process: System and the disk back end in one process, where a path that cannot
      be opened ends both.

    ** What the theorems show

    - Deployment: a torrent made of the runs of an image, added to a fresh back end
      and written with the bytes of the image, in whatever order calls, pool threads
      and completions come, leaves the image on the partition when the back end is
      gone, and every other byte as it was; meanwhile, a read of bytes of the image
      that are on the partition or have been written delivers them; any two orders of
      the posted work end with the same devices and the same handlers called.
    - The back end: in every interleaving of calls, pool threads and completions,
      from construction on, no disciplined step touches dead memory, frees twice,
      overruns a buffer or dereferences a null storage; every buffer has one owner;
      the store buffer never dangles; every handler is called as often as it was
      handed over, but those that the code drops; all posted work ends, and then
      every observer told to wait has been notified; no [int] overflows, and every
      posted job is inside its torrent and its buffer; indices are reused in the
      order they are given back.
    - Refinement: the contents of the torrents (store buffer over partition) are
      at any time what the calls so far amount to, a write being visible at once;
      reads and hashes deliver those contents, whichever of store buffer and
      partition they come from; after the destructor all of it is on the partition.
    - Storage: what is written is read back, nothing else is touched; file names
      round-trip through [std::stoll]; errors that are reported and that are not.
    - The pool: the count is exact and within bounds, observers are neither lost nor
      duplicated, every answer of an allocation, the hysteresis between watermarks.
    - The daemon and the service: every history of calls is answered as a table of
      torrents would answer it; each branch of adding a torrent, the reply to a
      status request field by field.
    - The process: threads are joined before the service stops, a shutdown call
      ends the process, and how it ends; the whole process, back end and reports
      included, ends for no other reason but an AddTorrent call with a path that
      cannot be opened; every alert is logged once and in order.
    - Limits: where the code does less than its comments say or can go wrong, the
      behaviour is proved as it is (a stranded observer, hidden I/O errors, names
      with a suffix, a second write of a posted block, a torrent removed with work
      posted, a second join, a service that did not start, a path that does not open).

    ** Modelling choices, bounds

    No definition has fuel: loops recurse on the list they walk, and the loop of the
    hash lambda, whose turns other threads may interleave with, is steps of a job
    that counts down its turns.  Termination is by the measures [work] and
    [moves_left].  A sum or difference of [int]s in the storage and the back
    end that is not an [int] is a fault; the count of a pool and partition offsets
    ([int64_t]) wrap explicitly, and are shown not to; comparisons with the watermarks
    are those of [unsigned long long].  A member function that locks
    a mutex is one step.  A pool thread may take any posted job.  A write lambda is
    three steps (transfer, erase, completion), a hash lambda a step for each lookup
    and each read; a read lambda is one step.  BOOST_ASSERT is taken as enabled.
    [storages_[i]] on a missing index gives a null pointer, which every use in the
    code then dereferences.

    Code that is not EZIO's is a parameter: the kernel ([Kernel], [KernelLaws]),
    libtorrent's file_storage ([file_storage], [FileStorageLaws]), its SHA-1 hasher
    ([Hasher], [HasherLaws]), its session ([Libtorrent], [LibtorrentLaws],
    [SessionLaws]; of its flags those that EZIO sets or relies on being clear) and alert
    queue ([AlertQueue], [AlertQueueLaws], [AlertPosting], [AlertQueueFrame]),
    boost's hash_combine and command line parser; what [malloc] answers, which
    observers are alive, the clock and whether BuildAndStart succeeds are arguments.
    The theorems on images hold for any file_storage with [image_torrent].
    Each of these has an instance, with which the witnesses run.  In System a call, a
    turn of a reporting thread and a change of the session are one step each.  In
    Process, libtorrent adds, removes and moves no torrent of its own.
    [double] is the binary64 of [SpecFloat].

    ** Not modelled

    The text that spdlog makes of a line and the greetings of the reporting threads;
    the sizes of the thread pools; [gRPCService::wait], which nothing calls; the gRPC
    transport, libtorrent, boost and the generated protobuf code; data races on
    [storages_] and [free_slots_], which the code marks as to do, beyond the steps
    above; the Python tools under utils and the build files.

    ** Plan

    Further stages: splitting a read lambda and [partition_storage::write] by
    transfer, so that a read may see part of a write; the storage pointer that a hash
    lambda keeps while its torrent is removed; a status request that reads torrents
    one by one while calls arrive. *)

From Stdlib Require Export ZArith Lia.
From Stdlib Require Export Init.Byte.
From Stdlib Require Strings.Byte.
From stdpp Require Export prelude gmap strings list list_numbers relations.
From stdpp Require Import options.

(** ** Scope of the development's own notations *)

Declare Scope ezio_scope.
Delimit Scope ezio_scope with ezio.
#[global] Open Scope ezio_scope.
#[global] Open Scope Z_scope.

(** ** Bytes *)

#[global] Instance byte_eq_dec : EqDecision byte.
Proof. intros x y. destruct (Strings.Byte.eqb x y) eqn:E.
  - left. by apply Strings.Byte.byte_dec_bl.
  - right. intros ->. by rewrite (Strings.Byte.byte_dec_lb eq_refl) in E.
Defined.

#[global] Instance byte_inhabited : Inhabited byte := populate x00.

(** ** Faults

    What the C++ abstract machine does not give a meaning to, or ends the
    process with: a computation of the model that reaches one stops there. *)

Inductive fault :=
| Null_deref          (** a member call through a null pointer *)
| Invalid_pointer     (** an access to, or a free of, memory that is not live *)
| Out_of_bounds       (** a copy past the end of a buffer *)
| Assert_failed       (** a BOOST_ASSERT that does not hold *)
| Int_overflow        (** a sum of [int]s that is not an [int] *)
| Bad_fd              (** an I/O call on a descriptor that is not open *)
| Process_exit (code : Z)  (** a call of exit(code) *)
| Std_terminate.      (** std::terminate: an exception left a noexcept function *)

#[global] Instance fault_eq_dec : EqDecision fault.
Proof. solve_decision. Defined.

(** Outcome of a computation: a value, or the fault that stopped it. *)
Inductive outcome (A : Type) :=
| Ret (a : A)
| Fault (f : fault).
Arguments Ret {A} a.
Arguments Fault {A} f.

#[global] Instance outcome_eq_dec {A} `{EqDecision A} : EqDecision (outcome A).
Proof. solve_decision. Defined.

Definition obind {A B} (c : outcome A) (k : A → outcome B) : outcome B :=
  match c with
  | Ret a => k a
  | Fault f => Fault f
  end.

Notation "'let!' x ':=' c 'in' k" := (obind c (λ x, k))
  (at level 10, x pattern, c at level 100, k at level 200)
  : ezio_scope.

(** [is_ret c]: the computation ends without a fault. *)
Definition is_ret {A} (c : outcome A) : bool :=
  match c with Ret _ => true | Fault _ => false end.

Definition of_option {A} (f : fault) (o : option A) : outcome A :=
  match o with Some a => Ret a | None => Fault f end.

Lemma obind_ret_inv {A B} (c : outcome A) (k : A → outcome B) b :
  obind c k = Ret b → ∃ a, c = Ret a ∧ k a = Ret b.
Proof. destruct c; simpl; naive_solver. Qed.

Lemma of_option_ret_inv {A} f (o : option A) a :
  of_option f o = Ret a → o = Some a.
Proof. destruct o; simpl; naive_solver. Qed.

(** ** Machine integers

    A w-bit integer is a [Z].  A sum of the [int]s of a request or a piece that
    does not fit the type is undefined, and is a fault ([int]); where the code is
    kept total instead, the wrap-around is written out. *)

Definition wrap_i32 (z : Z) : Z := (z + 2 ^ 31) mod 2 ^ 32 - 2 ^ 31.
Definition wrap_i64 (z : Z) : Z := (z + 2 ^ 63) mod 2 ^ 64 - 2 ^ 63.
(** The conversion of a signed integer to [unsigned long long]. *)
Definition to_u64 (z : Z) : Z := z mod 2 ^ 64.

Definition is_i32 (z : Z) : Prop := - 2 ^ 31 ≤ z < 2 ^ 31.
Definition is_i64 (z : Z) : Prop := - 2 ^ 63 ≤ z < 2 ^ 63.

Lemma wrap_i32_id z : is_i32 z → wrap_i32 z = z.
Proof. unfold is_i32, wrap_i32. intros. rewrite Z.mod_small; lia. Qed.

Lemma wrap_i64_id z : is_i64 z → wrap_i64 z = z.
Proof. unfold is_i64, wrap_i64. intros. rewrite Z.mod_small; lia. Qed.

Lemma wrap_i32_is_i32 z : is_i32 (wrap_i32 z).
Proof.
  unfold is_i32, wrap_i32.
  pose proof (Z.mod_pos_bound (z + 2 ^ 31) (2 ^ 32)). lia.
Qed.

(** The value of an expression of type [int] *)
Definition int (z : Z) : outcome Z :=
  if (- 2 ^ 31 <=? z) && (z <? 2 ^ 31) then Ret z else Fault Int_overflow.

Lemma int_ret z : is_i32 z → int z = Ret z.
Proof.
  unfold is_i32, int. intros [? ?]. rewrite (proj2 (Z.leb_le _ _)) by lia.
  by rewrite (proj2 (Z.ltb_lt _ _)) by lia.
Qed.

Lemma int_ret_inv z v : int z = Ret v → v = z ∧ is_i32 z.
Proof.
  unfold int, is_i32. destruct (Z.leb_spec (- 2 ^ 31) z), (Z.ltb_spec z (2 ^ 31)); simpl; try done.
  intros [= <-]. lia.
Qed.

Lemma to_u64_id z : 0 ≤ z < 2 ^ 64 → to_u64 z = z.
Proof. intros. by apply Z.mod_small. Qed.

Lemma to_u64_neg z : - 2 ^ 64 ≤ z < 0 → to_u64 z = z + 2 ^ 64.
Proof.
  intros. unfold to_u64. symmetry.
  apply (Z.mod_unique_pos _ _ (-1)); lia.
Qed.

(** ** Tactics and hint databases *)

Create HintDb ezio.
Create Rewrite HintDb ezio_len.

#[export] Hint Rewrite @length_app @length_take @length_drop @length_replicate : ezio_len.

(** Turns the boolean tests of the code into propositions. *)
Ltac boolify :=
  repeat match goal with
  | H : (_ && _) = true |- _ => apply andb_true_iff in H as [? ?]
  | H : (_ || _) = false |- _ => apply orb_false_iff in H as [? ?]
  | H : negb _ = true |- _ => apply negb_true_iff in H
  | H : negb _ = false |- _ => apply negb_false_iff in H
  | H : (_ <? _) = true |- _ => apply Z.ltb_lt in H
  | H : (_ <? _) = false |- _ => apply Z.ltb_ge in H
  | H : (_ <=? _) = true |- _ => apply Z.leb_le in H
  | H : (_ <=? _) = false |- _ => apply Z.leb_gt in H
  | H : (_ =? _) = true |- _ => apply Z.eqb_eq in H
  | H : (_ =? _) = false |- _ => apply Z.eqb_neq in H
  end.

(** Inverts the binds of a computation that returned. *)
Ltac outcome_inv :=
  repeat match goal with
  | H : obind _ _ = Ret _ |- _ =>
      let a := fresh "a" in let Ha := fresh "Ha" in
      apply obind_ret_inv in H as (a & Ha & H)
  | H : of_option _ _ = Ret _ |- _ => apply of_option_ret_inv in H
  | H : Ret _ = Ret _ |- _ => injection H as H; try subst
  | H : Fault _ = Ret _ |- _ => discriminate H
  | p : (_ * _)%type |- _ => destruct p
  end; simplify_eq/=.

(** Case analysis on the tests and matches of a goal or hypothesis. *)
Ltac split_cases :=
  repeat (case_match; simplify_eq/=); boolify.

(** ** Lists *)

Lemma elem_of_snoc {A} (l : list A) x y : x ∈ l ++ [y] ↔ x ∈ l ∨ x = y.
Proof. by rewrite elem_of_app, list_elem_of_singleton. Qed.

(** ** Slices of lists

    [slice i n l] is the segment of [n] elements from position [i];
    [blit i k l] overwrites the segment of [length k] elements from [i]. *)

Definition slice {A} (i n : nat) (l : list A) : list A := take n (drop i l).
Definition blit {A} (i : nat) (k l : list A) : list A :=
  take i l ++ k ++ drop (i + length k) l.

Section slices.
Context {A : Type}.
Implicit Types l k : list A.

Lemma lookup_slice i n l j :
  slice i n l !! j = if decide (j < n)%nat then l !! (i + j)%nat else None.
Proof.
  unfold slice. case_decide.
  - by rewrite lookup_take_lt, lookup_drop by lia.
  - apply lookup_take_ge. lia.
Qed.

Lemma length_slice i n l : (i + n ≤ length l)%nat → length (slice i n l) = n.
Proof. intros. unfold slice. rewrite length_take, length_drop. lia. Qed.

Lemma length_blit i k l : (i + length k ≤ length l)%nat → length (blit i k l) = length l.
Proof.
  intros. unfold blit. rewrite !length_app, length_take, length_drop. lia.
Qed.

Lemma lookup_blit_inside i k l j :
  (i + length k ≤ length l)%nat → (i ≤ j < i + length k)%nat →
  blit i k l !! j = k !! (j - i)%nat.
Proof.
  intros. unfold blit. rewrite lookup_app_r; rewrite length_take; [|lia].
  rewrite lookup_app_l by lia. f_equal. lia.
Qed.

Lemma lookup_blit_outside i k l j :
  (i + length k ≤ length l)%nat → (j < i ∨ i + length k ≤ j)%nat →
  blit i k l !! j = l !! j.
Proof.
  intros Hlen [?|?]; unfold blit.
  - rewrite lookup_app_l by (rewrite length_take; lia). by apply lookup_take_lt.
  - rewrite lookup_app_r; rewrite length_take; [|lia].
    rewrite lookup_app_r by lia. rewrite lookup_drop. f_equal. lia.
Qed.

Lemma slice_blit_same i k l :
  (i + length k ≤ length l)%nat → slice i (length k) (blit i k l) = k.
Proof.
  intros. apply list_eq. intros j. rewrite lookup_slice. case_decide.
  - rewrite lookup_blit_inside by lia. f_equal. lia.
  - symmetry. apply lookup_ge_None. lia.
Qed.

Lemma slice_blit_disjoint i k l j n :
  (i + length k ≤ length l)%nat → (j + n ≤ i ∨ i + length k ≤ j)%nat →
  slice j n (blit i k l) = slice j n l.
Proof.
  intros. apply list_eq. intros m. rewrite !lookup_slice. case_decide; [|done].
  apply lookup_blit_outside; lia.
Qed.

Lemma slice_app_split i n m l :
  slice i (n + m) l = slice i n l ++ slice (i + n) m l.
Proof.
  apply list_eq. intros j. rewrite lookup_slice.
  destruct (decide (j < n)%nat) as [?|?].
  - rewrite decide_True by lia. destruct (l !! (i + j)%nat) eqn:E.
    + erewrite lookup_app_l_Some; [done|]. by rewrite lookup_slice, decide_True.
    + symmetry. apply lookup_ge_None in E. apply lookup_ge_None.
      unfold slice. autorewrite with ezio_len. lia.
  - destruct (decide (i + n ≤ length l)%nat).
    + rewrite lookup_app_r; rewrite length_slice by done; [|lia].
      rewrite lookup_slice. repeat case_decide; try lia; [|done]. f_equal. lia.
    + rewrite (proj2 (lookup_ge_None (_ ++ _) j)).
      * case_decide; [|done]. apply lookup_ge_None. lia.
      * unfold slice. autorewrite with ezio_len. lia.
Qed.

Lemma slice_all l : slice 0 (length l) l = l.
Proof. unfold slice. by rewrite drop_0, firstn_all. Qed.

Lemma blit_nil i l : blit i [] l = l.
Proof. unfold blit. simpl. rewrite Nat.add_0_r. apply take_drop. Qed.

Lemma blit_app i k1 k2 l :
  (i + length k1 + length k2 ≤ length l)%nat →
  blit (i + length k1) k2 (blit i k1 l) = blit i (k1 ++ k2) l.
Proof.
  intros. pose proof (length_blit i k1 l).
  apply list_eq. intros j. destruct (decide (i + length k1 ≤ j < i + length k1 + length k2)%nat).
  - rewrite lookup_blit_inside by lia. rewrite lookup_blit_inside by (rewrite ?length_app; lia).
    rewrite lookup_app_r by lia. f_equal. lia.
  - rewrite lookup_blit_outside by lia. destruct (decide (i ≤ j < i + length k1)%nat).
    + rewrite !lookup_blit_inside by (rewrite ?length_app; lia). by rewrite lookup_app_l by lia.
    + rewrite !lookup_blit_outside by (rewrite ?length_app; lia). done.
Qed.
End slices.
