(* ===== verification/Memory.v ===== *)
(** * The C heap

    The block buffers of EZIO are [malloc]ed arrays of bytes that several
    components share by pointer: the buffer pool allocates and frees them, the
    store buffer and the disk jobs read them.  The heap is explicit so that the
    aliasing is explicit: a pointer names one live array.  Every access that C++
    gives no meaning to (a dead pointer, a copy past the end) is a [Fault]. *)

From S2P Require Import Prelude.

Abbreviation ptr := positive.
Abbreviation heap := (gmap positive (list byte)).

(** What [malloc(n)] may answer: nothing, or the address of a fresh array with
    indeterminate contents. *)
Abbreviation malloc_result := (option (positive * list byte)).

(** The answers [malloc(n)] may give in a heap. *)
Definition malloc_ok (h : heap) (n : Z) (m : malloc_result) : Prop :=
  match m with
  | Some (p, junk) => h !! p = None ∧ Z.of_nat (length junk) = n
  | None => True
  end.

#[global] Instance malloc_ok_dec h n m : Decision (malloc_ok h n m).
Proof. destruct m as [[p junk]|]; simpl; apply _. Defined.

Definition malloc (m : malloc_result) (h : heap) : option ptr * heap :=
  match m with
  | Some (p, junk) => (Some p, <[p := junk]> h)
  | None => (None, h)
  end.

(** [free(nullptr)] does nothing; freeing what is not live is undefined. *)
Definition free (buf : option ptr) (h : heap) : outcome heap :=
  match buf with
  | None => Ret h
  | Some p => match h !! p with
              | Some _ => Ret (delete p h)
              | None => Fault Invalid_pointer
              end
  end.

Definition in_bounds (off n : Z) (l : list byte) : bool :=
  (0 <=? off) && (0 <=? n) && (off + n <=? Z.of_nat (length l)).

(** [load p off n h]: the [n] bytes from [p + off], as [memcpy] reads them. *)
Definition load (p : ptr) (off n : Z) (h : heap) : outcome (list byte) :=
  let! l := of_option Invalid_pointer (h !! p) in
  if in_bounds off n l then Ret (slice (Z.to_nat off) (Z.to_nat n) l)
  else Fault Out_of_bounds.

(** [store p off bs h]: the bytes [bs] written from [p + off] on. *)
Definition store (p : ptr) (off : Z) (bs : list byte) (h : heap) : outcome heap :=
  let! l := of_option Invalid_pointer (h !! p) in
  if in_bounds off (Z.of_nat (length bs)) l
  then Ret (<[p := blit (Z.to_nat off) bs l]> h)
  else Fault Out_of_bounds.

(** A zeroed array of [n] bytes. *)
Definition zeros (n : Z) : list byte := replicate (Z.to_nat n) x00.

Lemma length_zeros n : 0 ≤ n → Z.of_nat (length (zeros n)) = n.
Proof. intros. unfold zeros. rewrite length_replicate. lia. Qed.

Section heap_lemmas.
Implicit Types h : heap.

Lemma load_ret p off n h l :
  h !! p = Some l → 0 ≤ off → 0 ≤ n → off + n ≤ Z.of_nat (length l) →
  load p off n h = Ret (slice (Z.to_nat off) (Z.to_nat n) l).
Proof.
  intros Hp ???. unfold load. rewrite Hp. simpl. unfold in_bounds.
  by rewrite !(proj2 (Z.leb_le _ _)) by lia.
Qed.

Lemma load_ret_inv p off n h bs :
  load p off n h = Ret bs →
  ∃ l, h !! p = Some l ∧ 0 ≤ off ∧ 0 ≤ n ∧ off + n ≤ Z.of_nat (length l) ∧
       bs = slice (Z.to_nat off) (Z.to_nat n) l.
Proof.
  unfold load, in_bounds. intros. outcome_inv.
  destruct (_ && _) eqn:?; simplify_eq. boolify. eauto 10.
Qed.

Lemma store_ret p off bs h l :
  h !! p = Some l → 0 ≤ off → off + Z.of_nat (length bs) ≤ Z.of_nat (length l) →
  store p off bs h = Ret (<[p := blit (Z.to_nat off) bs l]> h).
Proof.
  intros Hp ??. unfold store. rewrite Hp. simpl. unfold in_bounds.
  by rewrite !(proj2 (Z.leb_le _ _)) by lia.
Qed.

Lemma store_ret_inv p off bs h h' :
  store p off bs h = Ret h' →
  ∃ l, h !! p = Some l ∧ 0 ≤ off ∧ off + Z.of_nat (length bs) ≤ Z.of_nat (length l) ∧
       h' = <[p := blit (Z.to_nat off) bs l]> h.
Proof.
  unfold store, in_bounds. intros. outcome_inv.
  destruct (_ && _) eqn:?; simplify_eq. boolify. eauto 10.
Qed.

Lemma free_some_ret_inv p h h' :
  free (Some p) h = Ret h' → is_Some (h !! p) ∧ h' = delete p h.
Proof. unfold free. intros. case_match; naive_solver. Qed.

Lemma load_insert_ne p q off n l h :
  p ≠ q → load p off n (<[q := l]> h) = load p off n h.
Proof. intros. unfold load. by rewrite lookup_insert_ne. Qed.
End heap_lemmas.
