(* ===== verification/BufferPool.v ===== *)
(** * buffer_pool (buffer_pool.hpp, buffer_pool.cpp)

    The pool hands out [malloc]ed blocks of [DEFAULT_BLOCK_SIZE] bytes, counts
    them, and throttles its clients between two watermarks: past the high one
    (or when it is out of memory) a client is told that the pool is exceeded and
    its observer is queued; when frees bring the count back to the low one, the
    queued observers are handed to the I/O context in one [watermark_callback].

    [buffer_pool] is the object's state; each operation also threads the heap.
    The mutex makes every operation atomic, so an operation is one function. *)

From S2P Require Import Prelude Memory.

(** ** Constants (buffer_pool.hpp) *)

Definition MAX_BUFFER_POOL_SIZE : Z := 16 * 1024 * 1024.
Definition DEFAULT_BLOCK_SIZE : Z := 16 * 1024.
Definition BUFFER_COUNT : Z := MAX_BUFFER_POOL_SIZE / DEFAULT_BLOCK_SIZE.
Definition LOW_WATERMARK : Z := MAX_BUFFER_POOL_SIZE / DEFAULT_BLOCK_SIZE / 2.
Definition HIGH_WATERMARK : Z := MAX_BUFFER_POOL_SIZE / DEFAULT_BLOCK_SIZE / 8 * 7.

(** A [disk_observer], by identity. *)
Abbreviation observer := nat.

(** ** State *)

Record buffer_pool := mkPool {
  m_size : Z;                      (** int *)
  m_exceeded_max_size : bool;
  m_observers : list observer;     (** std::vector<std::weak_ptr<disk_observer>> *)
}.

#[global] Instance buffer_pool_eq_dec : EqDecision buffer_pool.
Proof. solve_decision. Defined.

(** ** Operations *)

(** buffer_pool::buffer_pool *)
Definition new_buffer_pool : buffer_pool :=
  {| m_size := 0; m_exceeded_max_size := false; m_observers := [] |}.

Definition set_exceeded (b : bool) (p : buffer_pool) : buffer_pool :=
  {| m_size := m_size p; m_exceeded_max_size := b; m_observers := m_observers p |}.

Definition set_size (n : Z) (p : buffer_pool) : buffer_pool :=
  {| m_size := n; m_exceeded_max_size := m_exceeded_max_size p;
     m_observers := m_observers p |}.

Definition set_observers (os : list observer) (p : buffer_pool) : buffer_pool :=
  {| m_size := m_size p; m_exceeded_max_size := m_exceeded_max_size p;
     m_observers := os |}.

(** buffer_pool::allocate_buffer_impl.  [m] is what [malloc] answers if it is
    called; the comparisons convert [m_size] to [unsigned long long]. *)
Definition allocate_buffer_impl (m : malloc_result) (h : heap) (p : buffer_pool)
    : option ptr * heap * buffer_pool :=
  (* no memory *)
  if BUFFER_COUNT <=? to_u64 (m_size p) then (None, h, set_exceeded true p)
  else
    (* reach high watermark, but still has some buffer to use *)
    let p := if HIGH_WATERMARK <? to_u64 (m_size p) then set_exceeded true p else p in
    let '(buf, h) := malloc m h in
    match buf with
    | None => (None, h, set_exceeded true p)
    | Some a => (Some a, h, set_size (wrap_i32 (m_size p + 1)) p)
    end.

(** char *buffer_pool::allocate_buffer() *)
Definition allocate_buffer (m : malloc_result) (h : heap) (p : buffer_pool)
    : option ptr * heap * buffer_pool :=
  allocate_buffer_impl m h p.

(** char *buffer_pool::allocate_buffer(bool &exceeded, shared_ptr<disk_observer> o);
    the second component is the new value of [exceeded]. *)
Definition allocate_buffer_observed (m : malloc_result) (exceeded : bool)
    (o : option observer) (h : heap) (p : buffer_pool)
    : option ptr * bool * heap * buffer_pool :=
  let '(buf, h, p) := allocate_buffer_impl m h p in
  if m_exceeded_max_size p then
    let p := match o with
             | Some o => set_observers (m_observers p ++ [o]) p
             | None => p
             end in
    (buf, true, h, p)
  else (buf, exceeded, h, p).

(** buffer_pool::check_buffer_level: the second component is the observers of
    the [watermark_callback] posted to the I/O context, if one is. *)
Definition check_buffer_level (p : buffer_pool) : buffer_pool * option (list observer) :=
  if negb (m_exceeded_max_size p) || (LOW_WATERMARK <? to_u64 (m_size p)) then
    (* still high usage *)
    (p, None)
  else
    (* lower than LOW_WATERMARK, reopen *)
    let p := set_exceeded false p in
    let cbs := m_observers p in
    (set_observers [] p, Some cbs).

(** buffer_pool::free_disk_buffer *)
Definition free_disk_buffer (buf : option ptr) (h : heap) (p : buffer_pool)
    : outcome (heap * buffer_pool * option (list observer)) :=
  let! h := free buf h in
  let p := set_size (wrap_i32 (m_size p - 1)) p in
  let '(p, posted) := check_buffer_level p in
  Ret (h, p, posted).

(** watermark_callback: the observers whose [on_disk] is called, in order;
    [alive o] tells whether the weak pointer can still be locked. *)
Fixpoint watermark_callback (alive : observer → bool) (cbs : list observer)
    : list observer :=
  match cbs with
  | [] => []
  | o :: cbs => if alive o then o :: watermark_callback alive cbs
                else watermark_callback alive cbs
  end.

(** ** The pool and its clients

    A client allocates, with or without an observer, and frees what it was
    given.  [pw_live], [pw_registered] and [pw_posted] are history: the buffers
    handed out and not yet freed, the observers queued so far, and the callbacks
    posted so far. *)

Record pool_world := mkPW {
  pw_heap : heap;
  pw_pool : buffer_pool;
  pw_live : gset ptr;
  pw_registered : list observer;
  pw_posted : list (list observer);
}.

Inductive pool_op :=
| Op_allocate (m : malloc_result)
| Op_allocate_observed (m : malloc_result) (o : option observer)
| Op_free (a : ptr).

(** Does the operation ask [malloc] and get nothing? *)
Definition op_malloc_fails (op : pool_op) : bool :=
  match op with
  | Op_allocate None | Op_allocate_observed None _ => true
  | _ => false
  end.

Definition grant (buf : option ptr) (live : gset ptr) : gset ptr :=
  match buf with Some a => {[a]} ∪ live | None => live end.

(** What the world lets happen: [malloc] answers fresh memory, a client frees
    only what it holds. *)
Definition op_ok (op : pool_op) (w : pool_world) : Prop :=
  match op with
  | Op_allocate m | Op_allocate_observed m _ => malloc_ok (pw_heap w) DEFAULT_BLOCK_SIZE m
  | Op_free a => a ∈ pw_live w
  end.

Definition run_op (op : pool_op) (w : pool_world) : outcome pool_world :=
  match op with
  | Op_allocate m =>
      let '(buf, h, p) := allocate_buffer m (pw_heap w) (pw_pool w) in
      Ret (mkPW h p (grant buf (pw_live w)) (pw_registered w) (pw_posted w))
  | Op_allocate_observed m o =>
      let '(buf, exceeded, h, p) :=
        allocate_buffer_observed m false o (pw_heap w) (pw_pool w) in
      let reg := match o with
                 | Some o => if exceeded then [o] else []
                 | None => []
                 end in
      Ret (mkPW h p (grant buf (pw_live w)) (pw_registered w ++ reg) (pw_posted w))
  | Op_free a =>
      let! (h, p, posted) := free_disk_buffer (Some a) (pw_heap w) (pw_pool w) in
      Ret (mkPW h p (pw_live w ∖ {[a]}) (pw_registered w)
             (pw_posted w ++ match posted with Some cbs => [cbs] | None => [] end))
  end.

Inductive pool_step (op : pool_op) (w w' : pool_world) : Prop :=
| pool_step_intro : op_ok op w → run_op op w = Ret w' → pool_step op w w'.

Definition pool_init (h : heap) : pool_world := mkPW h new_buffer_pool ∅ [] [].

(** Executions, as the list of operations performed. *)
Inductive pool_exec : pool_world → list pool_op → pool_world → Prop :=
| pool_exec_nil w : pool_exec w [] w
| pool_exec_snoc w ops w1 op w2 :
    pool_exec w ops w1 → pool_step op w1 w2 → pool_exec w (ops ++ [op]) w2.

(** ** Invariant *)

(** The buffers handed out are live blocks of the block size, the count is
    their number and never passes [BUFFER_COUNT], and nobody waits on an open
    pool. *)
Record pool_inv (live : gset ptr) (h : heap) (p : buffer_pool) : Prop := {
  inv_size : m_size p = Z.of_nat (size live);
  inv_count : Z.of_nat (size live) ≤ BUFFER_COUNT;
  inv_blocks : ∀ a, a ∈ live →
    ∃ l, h !! a = Some l ∧ Z.of_nat (length l) = DEFAULT_BLOCK_SIZE;
  inv_waiting : m_exceeded_max_size p = false → m_observers p = [];
}.

(** As long as [malloc] answers, an exceeded pool is above the low watermark. *)
Definition pool_armed (p : buffer_pool) : Prop :=
  m_exceeded_max_size p = true → LOW_WATERMARK < m_size p.

Section pool_lemmas.
Implicit Types (h : heap) (p : buffer_pool) (live : gset ptr).

Lemma watermark_values :
  BUFFER_COUNT = 1024 ∧ LOW_WATERMARK = 512 ∧ HIGH_WATERMARK = 896.
Proof. done. Qed.

Lemma pool_inv_to_u64 live h p : pool_inv live h p → to_u64 (m_size p) = m_size p.
Proof.
  intros [Hs Hc _ _]. apply to_u64_id.
  pose proof watermark_values as (? & ? & ?). lia.
Qed.

Lemma pool_inv_new h : pool_inv ∅ h new_buffer_pool.
Proof. split; simpl; [done| |set_solver|done]. by vm_compute. Qed.

(** The heap may change outside the pool's buffers. *)
Lemma pool_inv_heap live h h' p :
  pool_inv live h p → (∀ a, a ∈ live → h' !! a = h !! a) → pool_inv live h' p.
Proof.
  intros [Hs Hc Hb Hw] Hh. split; [done..| |done].
  intros a Ha. rewrite Hh by done. by apply Hb.
Qed.

Lemma pool_inv_heap_size live h h' p :
  pool_inv live h p →
  (∀ a l, a ∈ live → h !! a = Some l →
     ∃ l', h' !! a = Some l' ∧ length l' = length l) →
  pool_inv live h' p.
Proof.
  intros [Hs Hc Hb Hw] Hh. split; [done..| |done].
  intros a Ha. destruct (Hb a Ha) as (l & Hl & Hlen).
  destruct (Hh a l Ha Hl) as (l' & Hl' & Heq). exists l'. by rewrite Heq.
Qed.

(** *** Allocation *)

Definition allocation_exceeds (m : malloc_result) (p : buffer_pool) : bool :=
  m_exceeded_max_size p || (HIGH_WATERMARK <? m_size p) || bool_decide (m = None).

Lemma allocate_buffer_impl_spec live h p m :
  pool_inv live h p →
  allocate_buffer_impl m h p =
    match m with
    | Some (a, junk) =>
        if m_size p <? BUFFER_COUNT
        then (Some a, <[a := junk]> h,
              mkPool (m_size p + 1) (allocation_exceeds m p) (m_observers p))
        else (None, h, mkPool (m_size p) true (m_observers p))
    | None => (None, h, mkPool (m_size p) true (m_observers p))
    end.
Proof.
  intros Hinv. pose proof (pool_inv_to_u64 _ _ _ Hinv) as Hu.
  destruct Hinv as [Hs Hc _ _]. pose proof watermark_values as (Hbc & Hlo & Hhi).
  unfold allocate_buffer_impl, allocation_exceeds. rewrite Hu.
  destruct (Z.leb_spec BUFFER_COUNT (m_size p)).
  - rewrite (proj2 (Z.ltb_ge (m_size p) _)) by lia. by destruct m as [[]|].
  - rewrite (proj2 (Z.ltb_lt (m_size p) _)) by lia.
    destruct m as [[a junk]|]; simpl.
    + unfold set_size, set_exceeded. destruct (Z.ltb_spec HIGH_WATERMARK (m_size p)); simpl;
        rewrite wrap_i32_id by (unfold is_i32; lia); rewrite ?orb_true_r, ?orb_false_r; done.
    + by destruct (Z.ltb_spec HIGH_WATERMARK (m_size p)).
Qed.

Lemma pool_inv_allocate live h p m buf h' p' :
  pool_inv live h p → malloc_ok h DEFAULT_BLOCK_SIZE m →
  allocate_buffer_impl m h p = (buf, h', p') →
  pool_inv (grant buf live) h' p' ∧ m_observers p' = m_observers p ∧
  match buf with
  | Some a => ∃ junk, m = Some (a, junk) ∧ h !! a = None ∧ (a ∉ live) ∧ h' = <[a := junk]> h
  | None => h' = h ∧ m_exceeded_max_size p' = true
  end.
Proof.
  intros Hinv Hm Heq. rewrite (allocate_buffer_impl_spec live) in Heq by done.
  destruct Hinv as [Hs Hc Hb Hw].
  destruct m as [[a junk]|]; [destruct (Z.ltb_spec (m_size p) BUFFER_COUNT)|]; simplify_eq/=.
  - destruct Hm as [Hfresh Hlen].
    assert (a ∉ live) as Hnew by (intros Ha; destruct (Hb a Ha) as (? & ? & ?); congruence).
    split; [|split; [done|exists junk; by split_and!]]. split; simpl.
    + rewrite size_union, size_singleton by set_solver. lia.
    + rewrite size_union, size_singleton by set_solver. lia.
    + intros b [->%elem_of_singleton|Hb']%elem_of_union.
      * exists junk. by rewrite lookup_insert_eq.
      * rewrite lookup_insert_ne by set_solver. by apply Hb.
    + unfold allocation_exceeds. intros Hex. apply Hw. by destruct (m_exceeded_max_size p).
  - split; [by split|done].
  - split; [by split|done].
Qed.

Lemma pool_armed_allocate live h p m buf h' p' :
  pool_inv live h p → pool_armed p → m ≠ None →
  allocate_buffer_impl m h p = (buf, h', p') → pool_armed p'.
Proof.
  intros Hinv Harm Hm Heq. rewrite (allocate_buffer_impl_spec live) in Heq by done.
  pose proof watermark_values as (Hbc & Hlo & Hhi).
  destruct m as [[a junk]|]; [|done].
  unfold pool_armed, allocation_exceeds in *.
  destruct (Z.ltb_spec (m_size p) BUFFER_COUNT); simplify_eq/=; [|lia].
  rewrite orb_false_r. intros [Hex|Hhigh%Z.ltb_lt]%orb_true_iff; [specialize (Harm Hex)|]; lia.
Qed.

(** *** Freeing *)

(** A buffer comes from [malloc]. *)
Lemma allocate_buffer_from m h p a h' p' :
  allocate_buffer_impl m h p = (Some a, h', p') → fst <$> m = Some a.
Proof.
  unfold allocate_buffer_impl, malloc. intros Halloc.
  destruct m as [[b junk]|]; repeat case_match; by simplify_eq/=.
Qed.

(** Whatever the pool holds, a free drops the one array. *)
Lemma free_disk_buffer_heap a h p h' p' posted :
  free_disk_buffer (Some a) h p = Ret (h', p', posted) → h' = delete a h.
Proof.
  unfold free_disk_buffer. intros Hf. apply obind_ret_inv in Hf as (h1 & Hfree & Hf).
  destruct (check_buffer_level _). apply free_some_ret_inv in Hfree as [_ ->]. by simplify_eq.
Qed.

Lemma free_disk_buffer_spec live h p a :
  pool_inv live h p → a ∈ live →
  free_disk_buffer (Some a) h p =
    let n := m_size p - 1 in
    if m_exceeded_max_size p && (n <=? LOW_WATERMARK)
    then Ret (delete a h, mkPool n false [], Some (m_observers p))
    else Ret (delete a h, mkPool n (m_exceeded_max_size p) (m_observers p), None).
Proof.
  intros [Hs Hc Hb _] Ha. destruct (Hb a Ha) as (l & Hl & _).
  pose proof watermark_values as (Hbc & Hlo & Hhi).
  assert (0 < m_size p) as Hpos.
  { rewrite Hs. assert (size live ≠ 0%nat); [|lia]. intros ?%size_empty_inv. set_solver. }
  unfold free_disk_buffer, free. rewrite Hl. simpl.
  rewrite wrap_i32_id by (unfold is_i32; lia).
  unfold check_buffer_level, set_size, set_exceeded, set_observers. simpl.
  rewrite to_u64_id by lia.
  destruct (m_exceeded_max_size p); simpl; [|done].
  rewrite Z.ltb_antisym. by destruct (Z.leb_spec (m_size p - 1) LOW_WATERMARK).
Qed.

Lemma pool_inv_free live h p a h' p' posted :
  pool_inv live h p → a ∈ live →
  free_disk_buffer (Some a) h p = Ret (h', p', posted) →
  h' = delete a h ∧ pool_inv (live ∖ {[a]}) h' p' ∧
  match posted with
  | Some cbs => cbs = m_observers p ∧ m_observers p' = [] ∧ m_exceeded_max_size p' = false
  | None => m_observers p' = m_observers p ∧ m_exceeded_max_size p' = m_exceeded_max_size p
  end.
Proof.
  intros Hinv Ha Heq. rewrite (free_disk_buffer_spec live) in Heq by done.
  destruct Hinv as [Hs Hc Hb Hw].
  assert (Z.of_nat (size (live ∖ {[a]})) = m_size p - 1) as Hsz.
  { rewrite size_difference, size_singleton by set_solver.
    assert (size live ≠ 0%nat); [|lia]. intros ?%size_empty_inv. set_solver. }
  assert (∀ b, b ∈ live ∖ {[a]} →
    ∃ l, delete a h !! b = Some l ∧ Z.of_nat (length l) = DEFAULT_BLOCK_SIZE).
  { intros b ?. rewrite lookup_delete_ne by set_solver. apply Hb. set_solver. }
  simpl in Heq.
  destruct (_ && _) eqn:Hcase; simplify_eq/=; (split; [done|split; [|done]]);
    split; simpl; auto; lia.
Qed.

Lemma pool_armed_free live h p a h' p' posted :
  pool_inv live h p → a ∈ live → pool_armed p →
  free_disk_buffer (Some a) h p = Ret (h', p', posted) → pool_armed p'.
Proof.
  intros Hinv Ha Harm Heq. rewrite (free_disk_buffer_spec live) in Heq by done.
  unfold pool_armed in *. simpl in Heq.
  destruct (_ && _) eqn:Hcase; simplify_eq/=; [done|].
  intros Hex. rewrite Hex in Hcase. simpl in Hcase. boolify. lia.
Qed.

Lemma free_disk_buffer_ret live h p a :
  pool_inv live h p → a ∈ live → ∃ r, free_disk_buffer (Some a) h p = Ret r.
Proof.
  intros Hinv Ha. rewrite (free_disk_buffer_spec live) by done.
  simpl. destruct (_ && _); eauto.
Qed.
End pool_lemmas.

#[export] Hint Resolve pool_inv_new pool_inv_heap : ezio.

(** ** Every execution of the pool *)

Definition world_inv (w : pool_world) : Prop :=
  pool_inv (pw_live w) (pw_heap w) (pw_pool w) ∧
  pw_registered w = concat (pw_posted w) ++ m_observers (pw_pool w).

Lemma world_inv_step op w w' : pool_step op w w' → world_inv w → world_inv w'.
Proof.
  intros [Hok Hrun] [Hinv Hreg]. destruct op as [m|m o|a]; simpl in Hok, Hrun.
  - unfold allocate_buffer in Hrun.
    destruct (allocate_buffer_impl _ _ _) as [[buf h] p] eqn:E. simplify_eq.
    eapply pool_inv_allocate in E as (Hinv' & Hobs & _); [|done..].
    split; [done|]. simpl. by rewrite Hobs.
  - unfold allocate_buffer_observed in Hrun.
    destruct (allocate_buffer_impl _ _ _) as [[buf h] p] eqn:E.
    eapply pool_inv_allocate in E as (Hinv' & Hobs & _); [|done..].
    destruct Hinv' as [Hs Hc Hb Hw]. rewrite <-Hobs in Hreg.
    destruct (m_exceeded_max_size p) eqn:Hex, o as [o|]; simplify_eq/=;
      (split; [split; simpl; try done; by rewrite Hex|]); simpl;
      rewrite Hreg, ?app_nil_r, ?app_assoc; done.
  - outcome_inv. eapply pool_inv_free in Ha as (-> & Hinv' & Hpost); [|done..].
    split; [done|]. simpl. rewrite concat_app.
    destruct o as [cbs|]; simpl; destruct Hpost as [H1 H2].
    + destruct H2 as [-> _]. by rewrite Hreg, H1, !app_nil_r.
    + by rewrite H1, app_nil_r.
Qed.

Lemma world_inv_exec w ops w' : pool_exec w ops w' → world_inv w → world_inv w'.
Proof. induction 1; eauto using world_inv_step. Qed.

Lemma world_inv_init h : world_inv (pool_init h).
Proof. split; [apply pool_inv_new|done]. Qed.

(** Executions in which every call of [malloc] answers. *)
Definition malloc_answers (ops : list pool_op) : Prop :=
  Forall (λ op, op_malloc_fails op = false) ops.

Lemma pool_armed_step op w w' :
  pool_step op w w' → op_malloc_fails op = false → world_inv w →
  pool_armed (pw_pool w) → pool_armed (pw_pool w').
Proof.
  intros [Hok Hrun] Hm [Hinv _] Harm. destruct op as [m|m o|a]; simpl in Hok, Hrun.
  - unfold allocate_buffer in Hrun.
    destruct (allocate_buffer_impl _ _ _) as [[buf h] p] eqn:E. simplify_eq/=.
    eapply pool_armed_allocate; [done..| |done]. by destruct m.
  - unfold allocate_buffer_observed in Hrun.
    destruct (allocate_buffer_impl _ _ _) as [[buf h] p] eqn:E.
    eapply pool_armed_allocate in E; [|done..|by destruct m].
    destruct (m_exceeded_max_size p) eqn:Hex, o as [o|]; simplify_eq/=; done.
  - outcome_inv. eapply pool_armed_free; [| |done..]; done.
Qed.

Lemma pool_armed_exec h ops w :
  pool_exec (pool_init h) ops w → malloc_answers ops → pool_armed (pw_pool w).
Proof.
  remember (pool_init h) as w0 eqn:Hw0. induction 1 as [|w0' ops w1 op w2 Hex IH Hstep];
    intros Hm; [by subst|].
  apply Forall_app in Hm as [Hm Hop]. apply Forall_cons in Hop as [Hop _].
  subst. eapply pool_armed_step; eauto using world_inv_exec, world_inv_init.
Qed.

(** C23: in every execution of a buffer pool from its construction, [m_size] is
    exactly the number of buffers handed out and not yet freed, it stays between
    0 and [BUFFER_COUNT] (so the [int] never wraps), every buffer handed out is
    live memory of the block size, and no observer waits while the pool is not
    exceeded. *)
Theorem pool_count_exact h ops w :
  pool_exec (pool_init h) ops w →
  m_size (pw_pool w) = Z.of_nat (size (pw_live w)) ∧
  0 ≤ m_size (pw_pool w) ≤ BUFFER_COUNT ∧
  (∀ a, a ∈ pw_live w →
     ∃ l, pw_heap w !! a = Some l ∧ Z.of_nat (length l) = DEFAULT_BLOCK_SIZE) ∧
  (m_exceeded_max_size (pw_pool w) = false → m_observers (pw_pool w) = []).
Proof.
  intros Hex. destruct (world_inv_exec _ _ _ Hex (world_inv_init h)) as [[Hs Hc Hb Hw] _].
  split; [done|]. split; [|done]. rewrite Hs. split; [lia|done].
Qed.

(** No observer is lost, duplicated or reordered: in every execution, the
    observers registered so far are, in order, those of the callbacks posted so
    far followed by those still waiting in the pool. *)
Theorem observers_conserved h ops w :
  pool_exec (pool_init h) ops w →
  pw_registered w = concat (pw_posted w) ++ m_observers (pw_pool w).
Proof. intros Hex. by destruct (world_inv_exec _ _ _ Hex (world_inv_init h)). Qed.

(** Freeing a list of buffers, in the order of the list. *)
Fixpoint free_all (bufs : list ptr) (w : pool_world) : outcome pool_world :=
  match bufs with
  | [] => Ret w
  | a :: bufs => let! w := run_op (Op_free a) w in free_all bufs w
  end.

Lemma free_all_spec bufs w :
  world_inv w → pool_armed (pw_pool w) → NoDup bufs → list_to_set bufs = pw_live w →
  ∃ w', free_all bufs w = Ret w' ∧ world_inv w' ∧ pool_armed (pw_pool w') ∧
        pw_live w' = ∅ ∧ pw_registered w' = pw_registered w.
Proof.
  revert w. induction bufs as [|a bufs IH]; intros w Hw Harm Hnd Hset; simpl in *.
  { exists w. by rewrite <-Hset. }
  apply NoDup_cons in Hnd as [Hnotin Hnd].
  assert (a ∈ pw_live w) as Ha by set_solver.
  destruct (free_disk_buffer_ret _ _ _ _ (proj1 Hw) Ha) as [[[h p] posted] Hfree].
  rewrite Hfree. simpl.
  match goal with |- context [free_all bufs ?x] => set (w1 := x) end.
  assert (pool_step (Op_free a) w w1) as Hstep by (split; [done|]; simpl; by rewrite Hfree).
  destruct (IH w1) as (w' & ? & ? & ? & ? & Hreg); eauto using world_inv_step, pool_armed_step.
  { simpl. clear -Hset Hnotin. rewrite <-Hset. set_solver. }
  exists w'. by split_and!.
Qed.

(** C22: no lost wake-up.  If [malloc] has always answered, then whatever the
    execution so far, a pool with a waiting observer has buffers outstanding,
    and once all outstanding buffers are freed (in any order, never faulting)
    the pool is open again, nobody waits and every observer ever registered is
    in a posted callback. *)
Theorem observers_all_notified h ops w bufs :
  pool_exec (pool_init h) ops w → malloc_answers ops →
  NoDup bufs → list_to_set bufs = pw_live w →
  (m_observers (pw_pool w) ≠ [] → bufs ≠ []) ∧
  ∃ w', free_all bufs w = Ret w' ∧ m_size (pw_pool w') = 0 ∧
        m_exceeded_max_size (pw_pool w') = false ∧ m_observers (pw_pool w') = [] ∧
        concat (pw_posted w') = pw_registered w.
Proof.
  intros Hex Hm Hnd Hset.
  pose proof (world_inv_exec _ _ _ Hex (world_inv_init h)) as Hw.
  pose proof (pool_armed_exec _ _ _ Hex Hm) as Harm.
  pose proof watermark_values as (_ & Hlo & _).
  split.
  - intros Hobs ->. destruct Hw as [[Hs _ _ Hwait] _].
    destruct (m_exceeded_max_size (pw_pool w)) eqn:Hflag; [|by rewrite Hwait in Hobs].
    specialize (Harm Hflag). rewrite Hs, <-Hset in Harm. by vm_compute in Harm.
  - destruct (free_all_spec bufs w) as (w' & ? & [[Hs _ _ Hwait] Hreg] & Harm' & Hlive & Hr);
      [done..|]. rewrite Hlive, size_empty in Hs.
    assert (m_exceeded_max_size (pw_pool w') = false) as Hflag.
    { destruct (m_exceeded_max_size _) eqn:E; [|done]. specialize (Harm' E). lia. }
    specialize (Hwait Hflag). rewrite Hwait, app_nil_r, Hr in Hreg. eauto 10.
Qed.

(** C25: the answer of [allocate_buffer(exceeded, o)] on every branch.  The
    caller is told the pool is exceeded exactly when it already was, holds more
    than [HIGH_WATERMARK] buffers, or [malloc] fails; it gets a buffer exactly
    when fewer than [BUFFER_COUNT] are out and [malloc] answers; its observer is
    queued exactly when it is told and gave one; the flag is what it was told. *)
Theorem allocate_observed_answer live h p m o buf told h' p' :
  pool_inv live h p →
  allocate_buffer_observed m false o h p = (buf, told, h', p') →
  told = m_exceeded_max_size p || (HIGH_WATERMARK <? m_size p) || bool_decide (m = None) ∧
  buf = (if m_size p <? BUFFER_COUNT then fst <$> m else None) ∧
  m_exceeded_max_size p' = told ∧
  m_size p' = m_size p + match buf with Some _ => 1 | None => 0 end ∧
  m_observers p' = m_observers p ++ (if told then option_list o else []).
Proof.
  intros Hinv. unfold allocate_buffer_observed.
  rewrite (allocate_buffer_impl_spec live) by done. unfold allocation_exceeds.
  pose proof watermark_values as (Hbc & Hlo & Hhi).
  destruct m as [[a junk]|]; [destruct (Z.ltb_spec (m_size p) BUFFER_COUNT)|]; simpl.
  - rewrite orb_false_r. intros. destruct (_ || _), o; simplify_eq/=;
      rewrite ?app_nil_r; auto with lia.
  - rewrite (proj2 (Z.ltb_lt HIGH_WATERMARK _)) by lia. rewrite orb_true_r.
    intros; destruct o; simplify_eq/=; rewrite ?app_nil_r; auto with lia.
  - rewrite orb_true_r. intros. by destruct (_ <? _), o; simplify_eq/=;
      rewrite ?app_nil_r; auto with lia.
Qed.

(** C24: hysteresis.  From any state an execution reaches, an exceeded pool is
    reopened by a step exactly when the step is a free that leaves at most
    [LOW_WATERMARK] buffers out, and that step posts one callback, holding all
    the observers that were waiting. *)
Theorem reopened_exactly_at_low h ops w op w' :
  pool_exec (pool_init h) ops w → pool_step op w w' →
  m_exceeded_max_size (pw_pool w) = true →
  (m_exceeded_max_size (pw_pool w') = false ↔
     (∃ a, op = Op_free a) ∧ m_size (pw_pool w') ≤ LOW_WATERMARK) ∧
  (m_exceeded_max_size (pw_pool w') = false →
     pw_posted w' = pw_posted w ++ [m_observers (pw_pool w)]).
Proof.
  intros Hex [Hok Hrun] Hflag.
  destruct (world_inv_exec _ _ _ Hex (world_inv_init h)) as [Hinv _].
  destruct op as [m|m o|a]; simpl in Hok, Hrun.
  - unfold allocate_buffer in Hrun. rewrite (allocate_buffer_impl_spec (pw_live w)) in Hrun by done.
    unfold allocation_exceeds in Hrun. rewrite Hflag in Hrun.
    destruct m as [[]|]; [destruct (_ <? _)|]; simplify_eq/=; naive_solver.
  - unfold allocate_buffer_observed in Hrun.
    rewrite (allocate_buffer_impl_spec (pw_live w)) in Hrun by done.
    unfold allocation_exceeds in Hrun. rewrite Hflag in Hrun.
    destruct m as [[]|]; [destruct (_ <? _)|]; destruct o; simplify_eq/=; naive_solver.
  - rewrite (free_disk_buffer_spec (pw_live w)) in Hrun by done. rewrite Hflag in Hrun.
    simpl in Hrun. destruct (Z.leb_spec (m_size (pw_pool w) - 1) LOW_WATERMARK);
      simplify_eq/=; [naive_solver|].
    split; [|done]. split; [done|]. intros [_ ?]. lia.
Qed.

(** A world with no buffer out and somebody waiting on a closed pool *)
Record stranded (o : observer) (w : pool_world) : Prop := {
  str_live : pw_live w = ∅;
  str_size : m_size (pw_pool w) = 0;
  str_waits : o ∈ m_observers (pw_pool w);
  str_posted : pw_posted w = [];
}.

(** The operation gets no memory from [malloc]. *)
Definition no_memory (op : pool_op) : Prop :=
  match op with Op_allocate m | Op_allocate_observed m _ => m = None | Op_free _ => True end.

Lemma stranded_step o op w w' :
  stranded o w → pool_step op w w' → no_memory op → stranded o w'.
Proof.
  intros [Hlive Hsize Ho Hposted] [Hok Hrun] Hno. destruct op as [m|m o'|a]; simpl in *; subst.
  - unfold allocate_buffer, allocate_buffer_impl in Hrun. rewrite Hsize in Hrun. simpl in Hrun.
    injection Hrun as <-. by split.
  - unfold allocate_buffer_observed, allocate_buffer_impl in Hrun. rewrite Hsize in Hrun.
    simpl in Hrun. destruct o' as [o'|]; injection Hrun as <-; split; simpl;
      try done; apply elem_of_app; by left.
  - rewrite Hlive in Hok. set_solver.
Qed.

Lemma stranded_exec o w ops w' :
  pool_exec w ops w' → stranded o w → Forall no_memory ops → stranded o w'.
Proof.
  induction 1 as [w|w ops w1 op w2 _ IH Hstep]; [done|]. intros Hs Hops.
  apply Forall_app in Hops as [Hops Hop]. apply Forall_cons in Hop as [Hop _].
  eapply stranded_step; [by apply IH|done..].
Qed.

(** C37: a failing [malloc] can strand an observer.  On a pool with no buffer out, an
    observed allocation for which [malloc] fails queues the observer and closes the
    pool.  From then on, whatever is called, nothing is posted and the observer
    waits, for as long as [malloc] fails: there is no buffer whose release would
    notify it.  What does notify it is the release of a buffer that a later
    allocation is given. *)
Theorem malloc_failure_strands_observer h o :
  ∃ w, pool_exec (pool_init h) [Op_allocate_observed None (Some o)] w ∧
       m_exceeded_max_size (pw_pool w) = true ∧ m_observers (pw_pool w) = [o] ∧
       (∀ ops w', pool_exec w ops w' → Forall no_memory ops →
          pw_posted w' = [] ∧ o ∈ m_observers (pw_pool w') ∧ ∀ a w'', ¬ pool_step (Op_free a) w' w'') ∧
       (∀ a, h !! a = None →
          ∃ w', pool_exec w [Op_allocate (Some (a, zeros DEFAULT_BLOCK_SIZE)); Op_free a] w' ∧
            pw_posted w' = [[o]]).
Proof.
  eexists. split; [|split; [|split; [|split]]].
  - eapply (pool_exec_snoc _ []); [apply pool_exec_nil|]. split; [done|]. reflexivity.
  - done.
  - done.
  - intros ops w' Hex Hops. eapply (stranded_exec o) in Hex as [Hlive _ Ho Hp]; [|split; try done; simpl; by left|done].
    split; [done|]. split; [done|]. intros a w'' [Hok _]. simpl in Hok. rewrite Hlive in Hok.
    set_solver.
  - intros a Ha. eexists. split.
    + eapply (pool_exec_snoc _ [_]); [eapply (pool_exec_snoc _ []); [apply pool_exec_nil|]|].
      * split; [split; [exact Ha|by apply length_zeros]|reflexivity].
      * split; [set_solver|]. simpl. unfold free_disk_buffer, free.
        rewrite lookup_insert_eq. reflexivity.
    + reflexivity.
Qed.

(** ** Witnesses *)

Definition one_block : malloc_result := Some (1%positive, zeros DEFAULT_BLOCK_SIZE).

Definition one_block_world : pool_world :=
  mkPW {[1%positive := zeros DEFAULT_BLOCK_SIZE]} (mkPool 1 false []) {[1%positive]} [] [].

Lemma one_block_exec : pool_exec (pool_init ∅) [Op_allocate one_block] one_block_world.
Proof.
  eapply (pool_exec_snoc _ []); [apply pool_exec_nil|]. split.
  - split; [done|]. by apply length_zeros.
  - reflexivity.
Qed.

Lemma pool_count_exact_witness :
  m_size (pw_pool one_block_world) = 1 ∧ 0 ≤ m_size (pw_pool one_block_world) ≤ BUFFER_COUNT.
Proof.
  destruct (pool_count_exact _ _ _ one_block_exec) as (? & ? & _). by split.
Defined.

Lemma observers_conserved_witness : pw_registered one_block_world = [].
Proof. exact (observers_conserved _ _ _ one_block_exec). Defined.

Lemma observers_all_notified_witness :
  ∃ w', free_all [1%positive] one_block_world = Ret w' ∧ m_size (pw_pool w') = 0.
Proof.
  destruct (observers_all_notified ∅ [Op_allocate one_block] one_block_world [1%positive])
    as (_ & w' & ? & ? & _).
  - exact one_block_exec.
  - repeat constructor.
  - repeat constructor. set_solver.
  - by vm_compute.
  - eauto.
Defined.

Lemma allocate_observed_answer_witness :
  ∃ h' p', allocate_buffer_observed one_block false (Some 7%nat) ∅ new_buffer_pool =
             (Some 1%positive, false, h', p') ∧ m_size p' = 1 ∧ m_observers p' = [].
Proof.
  eexists _, _. split; [reflexivity|].
  destruct (allocate_observed_answer ∅ ∅ new_buffer_pool one_block (Some 7%nat) _ _ _ _
              (pool_inv_new ∅) eq_refl) as (_ & _ & _ & Hs & Ho).
  by split.
Defined.

(** A pool that a failed [malloc] marked exceeded reopens at the next free. *)
Definition refused_world : pool_world :=
  mkPW {[1%positive := zeros DEFAULT_BLOCK_SIZE]} (mkPool 1 true [7%nat]) {[1%positive]} [7%nat] [].

Lemma refused_exec :
  pool_exec (pool_init ∅) [Op_allocate one_block; Op_allocate_observed None (Some 7%nat)] refused_world.
Proof.
  eapply (pool_exec_snoc _ [_]); [exact one_block_exec|]. split; [done|]. reflexivity.
Qed.

Lemma reopened_exactly_at_low_witness :
  ∃ w', pool_step (Op_free 1%positive) refused_world w' ∧
        m_exceeded_max_size (pw_pool w') = false ∧ pw_posted w' = [[7%nat]].
Proof.
  assert (pool_step (Op_free 1%positive) refused_world
            (mkPW (delete 1%positive {[1%positive := zeros DEFAULT_BLOCK_SIZE]})
               (mkPool 0 false []) ({[1%positive]} ∖ {[1%positive]}) [7%nat] [[7%nat]])) as Hstep
    by (split; [set_solver|reflexivity]).
  eexists. split; [exact Hstep|]. split; [done|].
  by apply (proj2 (reopened_exactly_at_low _ _ _ _ _ refused_exec Hstep eq_refl)).
Defined.
