(* ===== verification/StoreBuffer.v ===== *)
(** * store_buffer and torrent_location (store_buffer.hpp)

    The store buffer maps the location of a block that has been accepted for
    writing, and is not on disk yet, to the buffer that holds it, so that reads
    and hashes see the block.  [std::unordered_map::insert] keeps the entry that
    is already there: the model keeps that.  The callbacks of [get] and [get2]
    change what they capture by reference: they are state transformers here.
    Every operation runs under the mutex, so it is one function. *)

From S2P Require Import Prelude Memory.

(** ** torrent_location *)

Record torrent_location := mkLoc {
  torrent : Z;   (** storage_index_t *)
  piece : Z;     (** piece_index_t *)
  offset : Z;    (** int *)
}.

#[global] Instance torrent_location_eq_dec : EqDecision torrent_location.
Proof. solve_decision. Defined.

#[global] Instance torrent_location_countable : Countable torrent_location.
Proof.
  refine (inj_countable' (λ l, (torrent l, piece l, offset l))
            (λ '(t, p, o), mkLoc t p o) _). by intros [].
Defined.

(** torrent_location::operator==, the comparison of the three-fold tie *)
Definition location_eqb (l r : torrent_location) : bool :=
  (torrent l =? torrent r) && (piece l =? piece r) && (offset l =? offset r).

(** std::hash<torrent_location>::operator(); [hash_combine] is boost's, and
    [hash_index] and [hash_int] are the standard hashes of the fields. *)
Definition location_hash (hash_combine : Z → Z → Z) (hash_index hash_int : Z → Z)
    (l : torrent_location) : Z :=
  let ret := 0 in
  let ret := hash_combine ret (hash_index (torrent l)) in
  let ret := hash_combine ret (hash_index (piece l)) in
  let ret := hash_combine ret (hash_int (offset l)) in
  ret.

(** ** store_buffer *)

Abbreviation store_buffer := (gmap torrent_location positive).

(** store_buffer::get *)
Definition get {S} (loc : torrent_location) (f : ptr → S → outcome S)
    (sb : store_buffer) (s : S) : outcome (bool * S) :=
  match sb !! loc with
  | Some buf => let! s := f buf s in Ret (true, s)
  | None => Ret (false, s)
  end.

(** store_buffer::get2 *)
Definition get2 {S} (loc1 loc2 : torrent_location)
    (f : option ptr → option ptr → S → outcome (Z * S))
    (sb : store_buffer) (s : S) : outcome (Z * S) :=
  let buf1 := sb !! loc1 in
  let buf2 := sb !! loc2 in
  match buf1, buf2 with
  | None, None => Ret (0, s)
  | _, _ => f buf1 buf2 s
  end.

(** store_buffer::insert: an entry that is present stays *)
Definition insert (loc : torrent_location) (buf : ptr) (sb : store_buffer) : store_buffer :=
  match sb !! loc with
  | Some _ => sb
  | None => <[loc := buf]> sb
  end.

(** store_buffer::erase *)
Definition erase (loc : torrent_location) (sb : store_buffer) : store_buffer :=
  match sb !! loc with
  | Some _ => delete loc sb
  | None => sb
  end.

(** store_buffer::size *)
Definition store_buffer_size (sb : store_buffer) : Z := Z.of_nat (size sb).

(** ** Histories *)

Inductive sb_op :=
| Sb_insert (loc : torrent_location) (buf : ptr)
| Sb_erase (loc : torrent_location).

Definition sb_run (op : sb_op) (sb : store_buffer) : store_buffer :=
  match op with
  | Sb_insert loc buf => insert loc buf sb
  | Sb_erase loc => erase loc sb
  end.

(** The store buffer after a history, oldest operation first. *)
Fixpoint sb_runs (ops : list sb_op) (sb : store_buffer) : store_buffer :=
  match ops with
  | [] => sb
  | op :: ops => sb_runs ops (sb_run op sb)
  end.

Definition inserts_at (loc : torrent_location) (op : sb_op) : Prop :=
  match op with Sb_insert l _ => l = loc | Sb_erase _ => False end.
Definition erases_at (loc : torrent_location) (op : sb_op) : Prop :=
  match op with Sb_insert _ _ => False | Sb_erase l => l = loc end.

(** ** Lemmas *)

Section store_buffer_lemmas.
Implicit Types sb : store_buffer.

Lemma lookup_insert_sb loc buf sb loc' :
  insert loc buf sb !! loc' =
    if decide (loc = loc') then Some (default buf (sb !! loc)) else sb !! loc'.
Proof.
  unfold insert. case_decide as Hloc; [subst loc'|]; destruct (sb !! loc) eqn:E; simpl.
  - done.
  - apply lookup_insert_eq.
  - done.
  - by apply lookup_insert_ne.
Qed.

Lemma lookup_erase_sb loc sb loc' :
  erase loc sb !! loc' = if decide (loc = loc') then None else sb !! loc'.
Proof.
  unfold erase. case_decide as Hloc; [subst loc'|]; destruct (sb !! loc) eqn:E.
  - apply lookup_delete_eq.
  - done.
  - by apply lookup_delete_ne.
  - done.
Qed.

Lemma erase_delete loc sb : erase loc sb = delete loc sb.
Proof.
  apply map_eq. intros loc'. rewrite lookup_erase_sb.
  case_decide; simplify_map_eq; done.
Qed.

Lemma insert_fresh loc buf sb : sb !! loc = None → insert loc buf sb = <[loc := buf]> sb.
Proof. intros H. unfold insert. by rewrite H. Qed.

Lemma sb_runs_app ops1 ops2 sb : sb_runs (ops1 ++ ops2) sb = sb_runs ops2 (sb_runs ops1 sb).
Proof. revert sb. induction ops1; simpl; auto. Qed.

Lemma sb_run_keeps op sb loc buf :
  sb !! loc = Some buf → ¬ erases_at loc op → sb_run op sb !! loc = Some buf.
Proof.
  intros Hl Hne. destruct op as [l b|l]; simpl in *.
  - rewrite lookup_insert_sb. case_decide; subst; by rewrite ?Hl.
  - rewrite lookup_erase_sb. by case_decide.
Qed.

Lemma sb_runs_keep ops sb loc buf :
  sb !! loc = Some buf → Forall (λ op, ¬ erases_at loc op) ops →
  sb_runs ops sb !! loc = Some buf.
Proof.
  intros Hl Hops. revert sb Hl. induction Hops; simpl; eauto using sb_run_keeps.
Qed.

Lemma sb_run_none op sb loc :
  sb !! loc = None → ¬ inserts_at loc op → sb_run op sb !! loc = None.
Proof.
  intros Hl Hne. destruct op as [l b|l]; simpl in *.
  - rewrite lookup_insert_sb. by case_decide.
  - rewrite lookup_erase_sb. by case_decide.
Qed.
End store_buffer_lemmas.

#[export] Hint Resolve insert_fresh erase_delete : ezio.

(** The key contract of the unordered map.  [operator==] is true exactly
    on equal locations (all three fields), and locations that compare equal
    hash equally whatever boost's combiner and the field hashes are. *)
Theorem location_key_contract comb hidx hint l r :
  (location_eqb l r = true ↔ l = r) ∧
  (location_eqb l r = true →
     location_hash comb hidx hint l = location_hash comb hidx hint r).
Proof.
  assert (location_eqb l r = true ↔ l = r) as Heq.
  { unfold location_eqb. destruct l, r; simpl.
    rewrite !andb_true_iff, !Z.eqb_eq. naive_solver. }
  split; [done|]. by intros ->%Heq.
Qed.

(** C28: after any history of inserts and erases of an initially empty store
    buffer, the buffer found at a location is that of the first insert since
    the location was last empty: a later insert neither replaces it nor counts,
    and an erase forgets it whichever insert it was meant for. *)
Theorem store_buffer_history ops loc buf :
  sb_runs ops ∅ !! loc = Some buf ↔
  ∃ before after, ops = before ++ Sb_insert loc buf :: after ∧
    sb_runs before ∅ !! loc = None ∧ Forall (λ op, ¬ erases_at loc op) after.
Proof.
  split.
  - induction ops as [|op ops IH] using rev_ind; [done|].
    rewrite sb_runs_app. simpl. intros Hl.
    destruct (sb_runs ops ∅ !! loc) as [b|] eqn:Hbefore.
    + assert (¬ erases_at loc op) as Hop.
      { destruct op as [l b'|l]; simpl in *; [tauto|]. intros ->.
        by rewrite lookup_erase_sb, decide_True in Hl. }
      pose proof (sb_run_keeps op _ _ _ Hbefore Hop). simplify_eq.
      destruct IH as (bf & af & -> & ? & ?); [done|].
      exists bf, (af ++ [op]). rewrite <-app_assoc. split_and!; [done..|].
      apply Forall_app_2; [done|]. by constructor.
    + exists ops, []. destruct op as [l b'|l]; simpl in Hl.
      * rewrite lookup_insert_sb in Hl. case_decide; [|congruence].
        subst l. rewrite Hbefore in Hl. simplify_eq/=. auto.
      * rewrite lookup_erase_sb in Hl. case_decide; [done|]. congruence.
  - intros (before & after & -> & Hnone & Hafter).
    rewrite sb_runs_app. simpl. apply sb_runs_keep; [|done].
    rewrite lookup_insert_sb, decide_True by done. by rewrite Hnone.
Qed.
