(* ===== verification/Stoll.v ===== *)
(** * std::stoll(s, 0, 16), as partition_storage uses it

    EZIO stores the partition offset of a run of blocks in the name of the file
    that holds it, in hexadecimal; [partition_storage] reads it back with
    [std::stoll(file_name, 0, 16)].  This file models that call of the standard
    library (leading white space, sign, 0x prefix, the longest run of digits, the
    two exceptions) and shows that it inverts the fixed-width hexadecimal names
    that the torrents carry. *)

From Stdlib Require Import Ascii.
From S2P Require Import Prelude.

(** The exceptions std::stoll throws. *)
Inductive stoll_error := Invalid_argument | Out_of_range.

#[global] Instance stoll_error_eq_dec : EqDecision stoll_error.
Proof. solve_decision. Defined.

(** isspace in the "C" locale *)
Definition is_space (c : ascii) : bool :=
  let n := Z.of_N (N_of_ascii c) in (n =? 32) || ((9 <=? n) && (n <=? 13)).

Definition hex_digit (c : ascii) : option Z :=
  let n := Z.of_N (N_of_ascii c) in
  if (48 <=? n) && (n <=? 57) then Some (n - 48)
  else if (97 <=? n) && (n <=? 102) then Some (n - 87)
  else if (65 <=? n) && (n <=? 70) then Some (n - 55)
  else None.

Fixpoint skip_space (s : string) : string :=
  match s with
  | String c s' => if is_space c then skip_space s' else s
  | EmptyString => s
  end.

(** The sign: the factor, and what follows. *)
Definition take_sign (s : string) : Z * string :=
  match s with
  | String "-" s' => (-1, s')
  | String "+" s' => (1, s')
  | _ => (1, s)
  end%char.

(** "0x" counts as a prefix only when a digit follows. *)
Definition skip_0x (s : string) : string :=
  match s with
  | String "0" (String "x" (String c _ as s')) | String "0" (String "X" (String c _ as s')) =>
      match hex_digit c with Some _ => s' | None => s end
  | _ => s
  end%char.

(** The longest run of hexadecimal digits. *)
Fixpoint hex_run (s : string) : list Z :=
  match s with
  | String c s' => match hex_digit c with Some d => d :: hex_run s' | None => [] end
  | EmptyString => []
  end.

Definition hex_value (ds : list Z) : Z := foldl (λ acc d, 16 * acc + d) 0 ds.

(** std::stoll(s, 0, 16) *)
Definition stoll16 (s : string) : stoll_error + Z :=
  let '(sign, s) := take_sign (skip_space s) in
  match hex_run (skip_0x s) with
  | [] => inl Invalid_argument
  | ds => let v := sign * hex_value ds in
          if (- 2 ^ 63 <=? v) && (v <=? 2 ^ 63 - 1) then inr v else inl Out_of_range
  end.

(** ** The names that torrents carry *)

Definition hex_char (d : Z) : ascii :=
  ascii_of_N (Z.to_N (if d <? 10 then d + 48 else d + 87)).

(** The [w] lower-case digits of [z]; the torrents of the README have [w = 16]. *)
Fixpoint hex_name (w : nat) (z : Z) : string :=
  match w with
  | O => EmptyString
  | S w => String (hex_char ((z / 16 ^ Z.of_nat w) mod 16)) (hex_name w z)
  end.

Section stoll_lemmas.

Lemma digit_cases (P : Z → Prop) d :
  0 ≤ d < 16 →
  P 0 → P 1 → P 2 → P 3 → P 4 → P 5 → P 6 → P 7 → P 8 → P 9 → P 10 → P 11 → P 12 →
  P 13 → P 14 → P 15 → P d.
Proof.
  intros Hd. intros.
  enough (d = 0 ∨ d = 1 ∨ d = 2 ∨ d = 3 ∨ d = 4 ∨ d = 5 ∨ d = 6 ∨ d = 7 ∨ d = 8 ∨ d = 9 ∨
          d = 10 ∨ d = 11 ∨ d = 12 ∨ d = 13 ∨ d = 14 ∨ d = 15)
    by (repeat match goal with H : _ ∨ _ |- _ => destruct H end; by subst).
  lia.
Qed.

Lemma append_cons c s t : String c s +:+ t = String c (s +:+ t).
Proof. done. Qed.

Lemma append_nil s : s +:+ EmptyString = s.
Proof. induction s as [|c s IH]; [done|]. by rewrite append_cons, IH. Qed.

Ltac by_digit d := pattern d; apply digit_cases; [assumption|..].

Lemma hex_digit_char d : 0 ≤ d < 16 → hex_digit (hex_char d) = Some d.
Proof. intros Hd. by by_digit d. Qed.

(** A digit is neither white space nor a sign nor the x of a prefix. *)
Lemma hex_char_plain d : 0 ≤ d < 16 →
  is_space (hex_char d) = false ∧ hex_char d ≠ "-"%char ∧ hex_char d ≠ "+"%char ∧
  hex_char d ≠ "x"%char ∧ hex_char d ≠ "X"%char.
Proof. intros Hd. by by_digit d. Qed.

Lemma hex_name_digit z w : 0 ≤ (z / 16 ^ Z.of_nat w) mod 16 < 16.
Proof. by apply Z.mod_pos_bound. Qed.

Lemma take_sign_digit d s : 0 ≤ d < 16 →
  take_sign (String (hex_char d) s) = (1, String (hex_char d) s).
Proof. intros Hd. by by_digit d. Qed.

Lemma skip_0x_digits d1 d2 s : 0 ≤ d1 < 16 → 0 ≤ d2 < 16 →
  skip_0x (String (hex_char d1) (String (hex_char d2) s)) =
  String (hex_char d1) (String (hex_char d2) s).
Proof.
  intros H1 H2. by_digit d1; by_digit d2; by destruct s.
Qed.

Lemma skip_0x_digit d : 0 ≤ d < 16 →
  skip_0x (String (hex_char d) EmptyString) = String (hex_char d) EmptyString.
Proof. intros Hd. by by_digit d. Qed.

Lemma hex_value_snoc ds d : hex_value (ds ++ [d]) = 16 * hex_value ds + d.
Proof. unfold hex_value. by rewrite foldl_app. Qed.

Lemma hex_value_shift ds acc :
  foldl (λ acc d, 16 * acc + d) acc ds = acc * 16 ^ Z.of_nat (length ds) + hex_value ds.
Proof.
  unfold hex_value. induction ds as [|d ds IH] using rev_ind; simpl.
  - lia.
  - rewrite !foldl_app, length_app, Nat2Z.inj_add, Z.pow_add_r by lia. simpl.
    rewrite IH. change (16 ^ Z.of_nat 1) with 16. lia.
Qed.

(** The digits of a name, and what they say. *)
Lemma hex_run_name w z s : hex_run s = [] →
  ∃ ds, hex_run (hex_name w z +:+ s) = ds ∧ length ds = w ∧
        hex_value ds = z mod 16 ^ Z.of_nat w.
Proof.
  intros Hs. induction w as [|w (ds & Hrun & Hlen & Hval)].
  - exists []. by rewrite Z.mod_1_r.
  - eexists. split; [done|]. cbn [hex_name]. rewrite append_cons. cbn [hex_run].
    rewrite hex_digit_char by apply hex_name_digit. rewrite Hrun. simpl. split; [lia|].
    unfold hex_value. simpl. rewrite hex_value_shift, Hlen, Hval.
    replace (Z.of_nat (S w)) with (Z.of_nat w + 1) by lia.
    rewrite Z.pow_add_r, Z.pow_1_r by lia.
    rewrite (Z.rem_mul_r z (16 ^ Z.of_nat w) 16) by lia. lia.
Qed.

Lemma stoll16_name_suffix w z s :
  w ≠ 0%nat → 0 ≤ z < 16 ^ Z.of_nat w → z < 2 ^ 63 →
  hex_run s = [] → (w = 1%nat → s = EmptyString) →
  stoll16 (hex_name w z +:+ s) = inr z.
Proof.
  intros Hw Hz Hmax Hs Hone. destruct (hex_run_name w z s Hs) as (ds & Hrun & Hlen & Hval).
  rewrite Z.mod_small in Hval by done.
  assert (skip_0x (hex_name w z +:+ s) = hex_name w z +:+ s) as Hskip.
  { destruct w as [|[|w]]; [done|rewrite Hone by done|].
    - apply skip_0x_digit, hex_name_digit.
    - apply skip_0x_digits; apply hex_name_digit. }
  destruct w as [|w]; [done|]. unfold stoll16.
  set (full := hex_name (S w) z +:+ s) in *.
  assert (skip_space full = full) as ->.
  { unfold full. cbn [hex_name]. rewrite append_cons. cbn [skip_space].
    by rewrite (proj1 (hex_char_plain _ (hex_name_digit z w))). }
  assert (take_sign full = (1, full)) as -> by apply take_sign_digit, hex_name_digit.
  rewrite Hskip, Hrun. destruct ds as [|d ds]; [done|].
  rewrite Hval, Z.mul_1_l. by rewrite !(proj2 (Z.leb_le _ _)) by lia.
Qed.
End stoll_lemmas.

(** C26: round trip of the file names.  The offset of a run of blocks, written
    with any number [w] of hexadecimal digits that holds it (16 in the torrents of
    the README), is read back by [std::stoll(name, 0, 16)] whenever it fits
    a [long long]. *)
Theorem stoll16_hex_name w z :
  (0 < w)%nat → 0 ≤ z < 16 ^ Z.of_nat w → z < 2 ^ 63 →
  stoll16 (hex_name w z) = inr z.
Proof.
  intros. rewrite <-(append_nil (hex_name w z)). apply stoll16_name_suffix; try done. lia.
Qed.

(** C39: trailing characters are not an error.  A name of two or more digits
    followed by anything that is not a digit is read as the number the digits
    say, so a file name that is not a number at all but begins with digits (such
    as "data.img") is taken for a partition offset. *)
Theorem stoll16_ignores_suffix w z s :
  (2 ≤ w)%nat → 0 ≤ z < 16 ^ Z.of_nat w → z < 2 ^ 63 → hex_run s = [] →
  stoll16 (hex_name w z +:+ s) = inr z.
Proof. intros. apply stoll16_name_suffix; try done; lia. Qed.

(** ** Witnesses *)

Lemma stoll16_hex_name_witness :
  hex_name 16 131072 = "0000000000020000" ∧ stoll16 "0000000000020000" = inr 131072.
Proof.
  split; [reflexivity|].
  change "0000000000020000" with (hex_name 16 131072).
  apply stoll16_hex_name; [lia|by split|done].
Defined.

Lemma stoll16_ignores_suffix_witness : stoll16 "data.img" = inr 218.
Proof.
  change "data.img" with (hex_name 2 218 +:+ "ta.img").
  apply stoll16_ignores_suffix; [lia|by split|done|done].
Defined.
