(* ===== verification/Kernel.v ===== *)
(** * The operating system and libtorrent's file_storage, as interfaces

    [partition_storage] calls two things that are not EZIO's code: the POSIX
    calls open, close, pread and pwrite, and libtorrent's [file_storage].  Both
    are type classes: the operations are parameters of the model, and the laws
    state their documented behaviour.  The laws of a kernel are about a device
    without I/O errors; the model itself does not use them, and the theorems about
    error paths do without.  A RAM disk and a storage of files laid end to end are
    the instances that show the laws can hold. *)

From S2P Require Import Prelude.

(** ** POSIX *)

(** [pread] answers the bytes it transferred (none when it fails): that is all
    that EZIO, which ignores the returned count, depends on. *)
Class Kernel (K : Type) := {
  k_open : string → K → Z * K;                    (** open(path, O_RDWR) *)
  k_close : Z → K → Z * K;                        (** close(fd) *)
  k_pread : Z → Z → Z → K → list byte;            (** pread(fd, _, size, offset) *)
  k_pwrite : Z → list byte → Z → K → K;           (** pwrite(fd, bytes, size, offset) *)
}.

(** Behaviour on a device without I/O errors: [k_dev fd] is the device a
    descriptor is open on, [k_byte d a] the byte at address [a] of device [d], if
    the device reaches that far. *)
Class KernelLaws (K : Type) `{Kernel K} := {
  k_dev : Z → K → option string;
  k_byte : string → Z → K → option byte;
  k_pread_length fd n off k : 0 ≤ n → Z.of_nat (length (k_pread fd n off k)) ≤ n;
  k_pread_inside fd d n off bs k :
    k_dev fd k = Some d → 0 ≤ off →
    Forall2 (λ a b, k_byte d a k = Some b) (seqZ off n) bs →
    k_pread fd n off k = bs;
  k_pwrite_dev fd bs off k fd' : k_dev fd' (k_pwrite fd bs off k) = k_dev fd' k;
  k_pwrite_inside fd d bs off k a :
    k_dev fd k = Some d → 0 ≤ off →
    Forall (λ a, is_Some (k_byte d a k)) (seqZ off (Z.of_nat (length bs))) →
    off ≤ a < off + Z.of_nat (length bs) →
    k_byte d a (k_pwrite fd bs off k) = bs !! Z.to_nat (a - off);
  k_pwrite_outside fd d bs off k d' a :
    k_dev fd k = Some d → 0 ≤ off →
    Forall (λ a, is_Some (k_byte d a k)) (seqZ off (Z.of_nat (length bs))) →
    d' ≠ d ∨ a < off ∨ off + Z.of_nat (length bs) ≤ a →
    k_byte d' a (k_pwrite fd bs off k) = k_byte d' a k;
  k_open_fresh path k : 0 ≤ fst (k_open path k) → k_dev (fst (k_open path k)) k = None;
  k_open_dev path k fd' :
    fd' ≠ fst (k_open path k) → k_dev fd' (snd (k_open path k)) = k_dev fd' k;
  k_open_byte path k d a : k_byte d a (snd (k_open path k)) = k_byte d a k;
  k_close_dev fd k fd' : fd' ≠ fd → k_dev fd' (snd (k_close fd k)) = k_dev fd' k;
  k_close_byte fd k d a : k_byte d a (snd (k_close fd k)) = k_byte d a k;
}.

(** ** libtorrent's file_storage *)

Record file_slice := mkSlice {
  file_index : Z;
  slice_offset : Z;  (** int64_t *)
  slice_size : Z;    (** int64_t *)
}.

Record file_storage := mkFS {
  fs_num_pieces : Z;
  fs_piece_size : Z → Z;
  fs_file_name : Z → string;
  fs_map_block : Z → Z → Z → list file_slice;
}.

(** The bytes of the torrent's files a slice stands for, in order. *)
Definition slice_bytes (s : file_slice) : list (Z * Z) :=
  pair (file_index s) <$> seqZ (slice_offset s) (slice_size s).

Definition valid_range (fs : file_storage) (p off len : Z) : Prop :=
  0 ≤ p < fs_num_pieces fs ∧ 0 ≤ off ∧ 0 ≤ len ∧ off + len ≤ fs_piece_size fs p.

#[global] Instance valid_range_dec fs p off len : Decision (valid_range fs p off len).
Proof. unfold valid_range. apply _. Defined.

(** The file, and the offset in it, of byte [i] of a piece: where [map_block]
    puts the range of that one byte. *)
Definition locate (fs : file_storage) (p i : Z) : Z * Z :=
  match fs_map_block fs p i 1 with
  | s :: _ => (file_index s, slice_offset s)
  | [] => (0, 0)
  end.

(** [map_block] lists the parts of files that a range of a piece overlaps, in
    order and none of them empty, and different bytes of a torrent are different
    bytes of its files. *)
Class FileStorageLaws (fs : file_storage) : Prop := {
  map_block_bytes p off len :
    valid_range fs p off len →
    concat (slice_bytes <$> fs_map_block fs p off len) = locate fs p <$> seqZ off len;
  map_block_sizes p off len :
    valid_range fs p off len → Forall (λ s, 0 < slice_size s) (fs_map_block fs p off len);
  locate_inj p1 i1 p2 i2 :
    valid_range fs p1 i1 1 → valid_range fs p2 i2 1 →
    locate fs p1 i1 = locate fs p2 i2 → p1 = p2 ∧ i1 = i2;
}.

(** ** A RAM disk *)

Module RamDisk.

Record ramdisk := mkRam {
  ram_fds : gmap Z string;
  ram_disks : gmap string (list byte);
}.

(** The next descriptor: above every one in use. *)
Definition next_fd (r : ramdisk) : Z := 1 + foldr Z.max 2 (fst <$> map_to_list (ram_fds r)).

Definition ram_open (path : string) (r : ramdisk) : Z * ramdisk :=
  match ram_disks r !! path with
  | Some _ => (next_fd r, mkRam (<[next_fd r := path]> (ram_fds r)) (ram_disks r))
  | None => (-1, r)
  end.

Definition ram_close (fd : Z) (r : ramdisk) : Z * ramdisk :=
  (0, mkRam (delete fd (ram_fds r)) (ram_disks r)).

Definition ram_contents (fd : Z) (r : ramdisk) : option (string * list byte) :=
  d ← ram_fds r !! fd; l ← ram_disks r !! d; Some (d, l).

Definition ram_pread (fd n off : Z) (r : ramdisk) : list byte :=
  match ram_contents fd r with
  | Some (_, l) => if 0 <=? off then slice (Z.to_nat off) (Z.to_nat n) l else []
  | None => []
  end.

(** A write that would pass the end of the disk is refused as a whole. *)
Definition ram_pwrite (fd : Z) (bs : list byte) (off : Z) (r : ramdisk) : ramdisk :=
  match ram_contents fd r with
  | Some (d, l) =>
      if (0 <=? off) && (off + Z.of_nat (length bs) <=? Z.of_nat (length l))
      then mkRam (ram_fds r) (<[d := blit (Z.to_nat off) bs l]> (ram_disks r))
      else r
  | None => r
  end.

#[export] Instance ram_kernel : Kernel ramdisk := {
  k_open := ram_open;
  k_close := ram_close;
  k_pread := ram_pread;
  k_pwrite := ram_pwrite;
}.

Definition ram_dev (fd : Z) (r : ramdisk) : option string := ram_fds r !! fd.

Definition ram_byte (d : string) (a : Z) (r : ramdisk) : option byte :=
  if 0 <=? a then l ← ram_disks r !! d; l !! Z.to_nat a else None.

Lemma ram_byte_some d a r b :
  ram_byte d a r = Some b ↔
  0 ≤ a ∧ ∃ l, ram_disks r !! d = Some l ∧ l !! Z.to_nat a = Some b.
Proof.
  unfold ram_byte. destruct (Z.leb_spec 0 a).
  - rewrite bind_Some. naive_solver lia.
  - split; [done|]. lia.
Qed.

Lemma ram_contents_some fd r d l :
  ram_contents fd r = Some (d, l) ↔ ram_fds r !! fd = Some d ∧ ram_disks r !! d = Some l.
Proof.
  unfold ram_contents. destruct (ram_fds r !! fd) as [d'|]; simpl; [|naive_solver].
  destruct (ram_disks r !! d') eqn:E; simpl; naive_solver.
Qed.

Lemma ram_pread_length fd n off r :
  0 ≤ n → Z.of_nat (length (ram_pread fd n off r)) ≤ n.
Proof.
  intros Hn. unfold ram_pread. destruct (ram_contents fd r) as [[d l]|]; [|simpl; lia].
  destruct (0 <=? off); [|simpl; lia]. unfold slice. rewrite length_take. lia.
Qed.

Lemma ram_pread_inside fd d n off bs r :
  ram_dev fd r = Some d → 0 ≤ off →
  Forall2 (λ a b, ram_byte d a r = Some b) (seqZ off n) bs →
  ram_pread fd n off r = bs.
Proof.
  unfold ram_dev, ram_pread. intros Hd Hoff Hbs.
  pose proof (Forall2_length _ _ _ Hbs) as Hlen. rewrite length_seqZ in Hlen.
  destruct (ram_disks r !! d) as [l|] eqn:Hl.
  - rewrite (proj2 (ram_contents_some fd r d l)) by done.
    rewrite (proj2 (Z.leb_le 0 off)) by done.
    apply list_eq. intros i. rewrite lookup_slice. case_decide as Hi.
    + destruct (bs !! i) as [b|] eqn:Hb.
      2: { apply lookup_ge_None in Hb. lia. }
      eapply (Forall2_lookup_lr _ _ _ i (off + Z.of_nat i)) in Hbs; [|apply lookup_seqZ; lia|done].
      apply ram_byte_some in Hbs as (_ & l' & ? & Hb'). simplify_eq.
      rewrite <-Hb'. f_equal. lia.
    + symmetry. apply lookup_ge_None. lia.
  - destruct bs as [|b bs].
    + case_match; [|done]. destruct (_ : string * _). apply ram_contents_some in H as [??].
      congruence.
    + inversion Hbs as [|a ? ? ? Hb]; subst. apply ram_byte_some in Hb as (_ & ? & ? & _).
      congruence.
Qed.

Lemma ram_pwrite_dev fd bs off r fd' : ram_dev fd' (ram_pwrite fd bs off r) = ram_dev fd' r.
Proof.
  unfold ram_dev, ram_pwrite. destruct (ram_contents fd r) as [[d l]|]; [|done].
  by destruct (_ && _).
Qed.

Lemma ram_inside fd d bs off r :
  ram_dev fd r = Some d → 0 ≤ off → bs ≠ [] →
  Forall (λ a, is_Some (ram_byte d a r)) (seqZ off (Z.of_nat (length bs))) →
  ∃ l, ram_disks r !! d = Some l ∧ off + Z.of_nat (length bs) ≤ Z.of_nat (length l) ∧
       ram_pwrite fd bs off r = mkRam (ram_fds r) (<[d := blit (Z.to_nat off) bs l]> (ram_disks r)).
Proof.
  unfold ram_dev. intros Hd Hoff Hne Hin.
  assert (0 < length bs)%nat by (destruct bs; simpl; [done|lia]).
  assert (is_Some (ram_byte d (off + Z.of_nat (length bs) - 1) r)) as [b Hb].
  { eapply Forall_forall in Hin; [exact Hin|]. apply elem_of_seqZ. lia. }
  apply ram_byte_some in Hb as (_ & l & Hl & Hb). apply lookup_lt_Some in Hb.
  exists l. split; [done|]. assert (off + Z.of_nat (length bs) ≤ Z.of_nat (length l)) by lia.
  split; [done|]. unfold ram_pwrite. rewrite (proj2 (ram_contents_some fd r d l)) by done.
  by rewrite !(proj2 (Z.leb_le _ _)) by done.
Qed.

Lemma ram_pwrite_inside fd d bs off r a :
  ram_dev fd r = Some d → 0 ≤ off →
  Forall (λ a, is_Some (ram_byte d a r)) (seqZ off (Z.of_nat (length bs))) →
  off ≤ a < off + Z.of_nat (length bs) →
  ram_byte d a (ram_pwrite fd bs off r) = bs !! Z.to_nat (a - off).
Proof.
  intros Hd Hoff Hin Ha.
  destruct (ram_inside fd d bs off r) as (l & Hl & Hlen & ->); [done..| |done|].
  { intros ->. simpl in Ha. lia. }
  unfold ram_byte. rewrite (proj2 (Z.leb_le 0 a)) by lia. simpl.
  rewrite lookup_insert_eq. simpl. rewrite lookup_blit_inside by lia. f_equal. lia.
Qed.

Lemma ram_pwrite_outside fd d bs off r d' a :
  ram_dev fd r = Some d → 0 ≤ off →
  Forall (λ a, is_Some (ram_byte d a r)) (seqZ off (Z.of_nat (length bs))) →
  d' ≠ d ∨ a < off ∨ off + Z.of_nat (length bs) ≤ a →
  ram_byte d' a (ram_pwrite fd bs off r) = ram_byte d' a r.
Proof.
  intros Hd Hoff Hin Ha. destruct (decide (bs = [])) as [->|Hne].
  - unfold ram_pwrite, ram_byte. destruct (ram_contents fd r) as [[d0 l]|] eqn:Hc; [|done].
    apply ram_contents_some in Hc as [_ Hl]. rewrite blit_nil.
    rewrite insert_id by done. by destruct (_ && _).
  - destruct (ram_inside fd d bs off r) as (l & Hl & Hlen & ->); [done..|].
    unfold ram_byte. destruct (Z.leb_spec 0 a); [|done]. simpl.
    destruct (decide (d' = d)) as [->|]; [|by rewrite lookup_insert_ne].
    rewrite lookup_insert_eq, Hl. simpl. apply lookup_blit_outside; [lia|].
    destruct Ha as [?|[?|?]]; [done|lia..].
Qed.

Lemma ram_next_fd r : ram_fds r !! next_fd r = None.
Proof.
  apply eq_None_not_Some. intros [d Hd%elem_of_map_to_list].
  assert (∀ l x, x ∈ l → x ≤ foldr Z.max 2 l) as Hmax.
  { intros l x Hx. induction l as [|y l IH]; [by apply elem_of_nil in Hx|].
    apply elem_of_cons in Hx as [->|Hx%IH]; simpl; lia. }
  assert (next_fd r ≤ foldr Z.max 2 (fst <$> map_to_list (ram_fds r))); [|unfold next_fd in *; lia].
  apply Hmax, list_elem_of_fmap. by exists (next_fd r, d).
Qed.

Lemma ram_open_fresh path r : 0 ≤ fst (ram_open path r) → ram_dev (fst (ram_open path r)) r = None.
Proof. unfold ram_open. destruct (ram_disks r !! path); simpl; [intros; apply ram_next_fd|lia]. Qed.

Lemma ram_open_dev path r fd' :
  fd' ≠ fst (ram_open path r) → ram_dev fd' (snd (ram_open path r)) = ram_dev fd' r.
Proof.
  unfold ram_open, ram_dev. destruct (ram_disks r !! path); simpl; [|done].
  intros. by rewrite lookup_insert_ne.
Qed.

Lemma ram_open_byte path r d a : ram_byte d a (snd (ram_open path r)) = ram_byte d a r.
Proof. unfold ram_open. by destruct (ram_disks r !! path). Qed.

Lemma ram_close_dev fd r fd' : fd' ≠ fd → ram_dev fd' (snd (ram_close fd r)) = ram_dev fd' r.
Proof. intros. unfold ram_dev. simpl. by rewrite lookup_delete_ne. Qed.

Lemma ram_close_byte fd r d a : ram_byte d a (snd (ram_close fd r)) = ram_byte d a r.
Proof. done. Qed.

#[export] Instance ram_kernel_laws : KernelLaws ramdisk := {
  k_dev := ram_dev;
  k_byte := ram_byte;
  k_pread_length := ram_pread_length;
  k_pread_inside := ram_pread_inside;
  k_pwrite_dev := ram_pwrite_dev;
  k_pwrite_inside := ram_pwrite_inside;
  k_pwrite_outside := ram_pwrite_outside;
  k_open_fresh := ram_open_fresh;
  k_open_dev := ram_open_dev;
  k_open_byte := ram_open_byte;
  k_close_dev := ram_close_dev;
  k_close_byte := ram_close_byte;
}.
End RamDisk.

(** ** Files laid end to end *)

Module LinearStorage.

(** The files of a torrent, [(name, size)] each, laid end to end and cut into
    pieces of [plen] bytes: the layout that libtorrent documents. *)
Fixpoint walk (idx : Z) (files : list (string * Z)) (g len : Z) : list file_slice :=
  match files with
  | [] => []
  | (_, sz) :: files =>
      if sz <=? g then walk (idx + 1) files (g - sz) len
      else if len <=? sz - g then (if 0 <? len then [mkSlice idx g len] else [])
      else mkSlice idx g (sz - g) :: walk (idx + 1) files 0 (len - (sz - g))
  end.

Definition total_size (files : list (string * Z)) : Z :=
  foldr (λ f acc, snd f + acc) 0 files.

Definition laid_out (files : list (string * Z)) (plen : Z) : file_storage := {|
  fs_num_pieces := (total_size files + plen - 1) / plen;
  fs_piece_size := λ p, Z.min plen (total_size files - p * plen);
  fs_file_name := λ i, from_option fst "" (files !! Z.to_nat i);
  fs_map_block := λ p off len, walk 0 files (p * plen + off) len;
|}.

(** The place of one byte. *)
Fixpoint place (idx : Z) (files : list (string * Z)) (g : Z) : Z * Z :=
  match files with
  | [] => (0, 0)
  | (_, sz) :: files => if sz <=? g then place (idx + 1) files (g - sz) else (idx, g)
  end.

Lemma place_index idx files g :
  0 ≤ g < total_size files → idx ≤ fst (place idx files g).
Proof.
  revert idx g. induction files as [|[n sz] files IH]; intros idx g Hg; simpl in *; [lia|].
  destruct (Z.leb_spec sz g); simpl; [|lia].
  specialize (IH (idx + 1) (g - sz)). lia.
Qed.

Lemma place_inj idx files g1 g2 :
  0 ≤ g1 < total_size files → 0 ≤ g2 < total_size files →
  place idx files g1 = place idx files g2 → g1 = g2.
Proof.
  revert idx g1 g2.
  induction files as [|[n sz] files IH]; intros idx g1 g2 H1 H2; simpl in *; [lia|].
  destruct (Z.leb_spec sz g1), (Z.leb_spec sz g2); intros Heq.
  - apply IH in Heq; lia.
  - pose proof (place_index (idx + 1) files (g1 - sz)) as Hi. rewrite Heq in Hi. simpl in Hi. lia.
  - pose proof (place_index (idx + 1) files (g2 - sz)) as Hi. rewrite <-Heq in Hi. simpl in Hi. lia.
  - by simplify_eq.
Qed.

Lemma walk_bytes idx files g len :
  0 ≤ g → 0 ≤ len → g + len ≤ total_size files →
  concat (slice_bytes <$> walk idx files g len) = place idx files <$> seqZ g len.
Proof.
  revert idx g len. induction files as [|[n sz] files IH]; intros idx g len Hg Hl Ht; simpl in *.
  { assert (len = 0) as -> by lia. done. }
  destruct (Z.leb_spec sz g).
  - rewrite IH by lia.
    replace (seqZ g len) with (seqZ (sz + (g - sz)) len) by (f_equal; lia).
    rewrite <-(fmap_add_seqZ sz (g - sz)), <-list_fmap_compose.
    apply list_fmap_ext. intros i x Hx%list_elem_of_lookup_2%elem_of_seqZ. simpl.
    rewrite (proj2 (Z.leb_le _ _)) by lia. f_equal. lia.
  - destruct (Z.leb_spec len (sz - g)).
    + destruct (Z.ltb_spec 0 len); simpl; [|by rewrite seqZ_nil by lia].
      rewrite app_nil_r. unfold slice_bytes. simpl.
      apply list_fmap_ext. intros i x Hx%list_elem_of_lookup_2%elem_of_seqZ. simpl.
      by rewrite (proj2 (Z.leb_gt _ _)) by lia.
    + simpl. rewrite IH by lia. unfold slice_bytes. simpl.
      replace (seqZ g len) with (seqZ g ((sz - g) + (len - (sz - g)))) by (f_equal; lia).
      rewrite seqZ_app, fmap_app by lia. f_equal.
      * apply list_fmap_ext. intros i x Hx%list_elem_of_lookup_2%elem_of_seqZ. simpl.
        by rewrite (proj2 (Z.leb_gt _ _)) by lia.
      * replace (g + (sz - g)) with (sz + 0) by lia.
        rewrite <-(fmap_add_seqZ sz 0), <-list_fmap_compose.
        apply list_fmap_ext. intros i x Hx%list_elem_of_lookup_2%elem_of_seqZ. simpl.
        rewrite (proj2 (Z.leb_le _ _)) by lia. f_equal. lia.
Qed.

Lemma walk_sizes idx files g len :
  0 ≤ g → Forall (λ s, 0 < slice_size s) (walk idx files g len).
Proof.
  revert idx g len. induction files as [|[n sz] files IH]; intros idx g len Hg; simpl; [done|].
  destruct (Z.leb_spec sz g); [apply IH; lia|].
  destruct (Z.leb_spec len (sz - g)).
  - destruct (Z.ltb_spec 0 len); by repeat constructor.
  - constructor; [simpl; lia|]. by apply IH.
Qed.

Lemma laid_out_locate files plen p i :
  0 < plen → valid_range (laid_out files plen) p i 1 →
  locate (laid_out files plen) p i = place 0 files (p * plen + i).
Proof.
  unfold valid_range, locate. simpl. intros Hp (? & ? & _ & Ht).
  pose proof (walk_bytes 0 files (p * plen + i) 1) as Hb.
  pose proof (walk_sizes 0 files (p * plen + i) 1) as Hs.
  rewrite seqZ_cons, seqZ_nil in Hb by lia. simpl in Hb.
  destruct (walk 0 files (p * plen + i) 1) as [|s l].
  - discriminate Hb; nia.
  - specialize (Hs ltac:(nia)). apply Forall_inv in Hs. simpl in Hb.
    unfold slice_bytes in Hb at 1. rewrite seqZ_cons in Hb by lia. simpl in Hb.
    specialize (Hb ltac:(nia) ltac:(lia) ltac:(nia)). by injection Hb.
Qed.

Lemma laid_out_laws files plen : 0 < plen → FileStorageLaws (laid_out files plen).
Proof.
  intros Hp. split.
  - intros p off len Hv. rewrite (list_fmap_ext _ (place 0 files ∘ Z.add (p * plen))).
    + pose proof Hv as (? & ? & ? & Hsz). simpl in *.
      rewrite walk_bytes by nia. rewrite list_fmap_compose, fmap_add_seqZ. done.
    + intros j i Hi%list_elem_of_lookup_2%elem_of_seqZ. simpl.
      apply laid_out_locate; [done|]. unfold valid_range in *. lia.
  - intros p off len (? & ? & _). simpl. apply walk_sizes. nia.
  - intros p1 i1 p2 i2 H1 H2. rewrite !laid_out_locate by done.
    unfold valid_range in *. simpl in *. intros Heq%place_inj; [|nia..].
    assert (p1 = p2) by nia. subst. lia.
Qed.
End LinearStorage.
