(* ===== verification/PartitionStorage.v ===== *)
(** * partition_storage (raw_disk_io.cpp)

    A partition is one device; the torrent's files are runs of its blocks, named
    by their partition offset in hexadecimal.  [read] and [write] cut a range of a
    piece into file slices with libtorrent's [map_block], find each slice's
    partition offset from the file name, and transfer it with pread or pwrite.
    The counts that pread and pwrite return are ignored, as in the code. *)

From S2P Require Import Prelude Memory Stoll Kernel.

(** ** storage_error (libtorrent), as EZIO fills it *)

Inductive error_code :=
| No_error | Parse_failed | Invalid_request | No_memory | Operation_not_supported.
Inductive operation := Op_unknown | File_read | File_write | Alloc_cache_piece.

Record storage_error := mkErr {
  err_file : option Z;
  err_ec : error_code;
  err_operation : operation;
}.

#[global] Instance error_code_eq_dec : EqDecision error_code.
Proof. solve_decision. Defined.
#[global] Instance operation_eq_dec : EqDecision operation.
Proof. solve_decision. Defined.
#[global] Instance storage_error_eq_dec : EqDecision storage_error.
Proof. solve_decision. Defined.

(** The default constructor. *)
Definition no_storage_error : storage_error := mkErr None No_error Op_unknown.

(** ** State *)

(** [mapping_addr_] and [mapping_len_] are never used by the code. *)
Record partition_storage := mkStorage {
  fd_ : Z;
  fs_ : file_storage;
}.

Section operations.
Context {K : Type} `{Kernel K}.

(** partition_storage::partition_storage *)
Definition new_partition_storage (path : string) (fs : file_storage) (k : K)
    : outcome (partition_storage * K) :=
  let '(fd, k) := k_open path k in
  if fd <? 0 then Fault (Process_exit 1)
  else Ret (mkStorage fd fs, k).

(** partition_storage::~partition_storage: an error of close is only logged. *)
Definition delete_partition_storage (st : partition_storage) (k : K) : K :=
  let '(_, k) := k_close (fd_ st) k in k.

(** partition_storage::piece_size *)
Definition piece_size (st : partition_storage) (p : Z) : Z := fs_piece_size (fs_ st) p.

(** The partition offset of a slice: std::stoll of the file name plus the
    offset of the slice in the file, in [int64_t]. *)
Definition partition_offset (fs : file_storage) (s : file_slice) : stoll_error + Z :=
  match stoll16 (fs_file_name fs (file_index s)) with
  | inr v => inr (wrap_i64 (v + slice_offset s))
  | inl e => inl e
  end.

(** The loop of partition_storage::read; [buffer + pos] is the advancing
    pointer, [ret] the int that accumulates the sizes. *)
Fixpoint read_slices (st : partition_storage) (buffer : ptr) (pos ret : Z)
    (slices : list file_slice) (error : storage_error) (k : K) (h : heap)
    : outcome (Z * storage_error * heap) :=
  match slices with
  | [] => Ret (ret, error, h)
  | s :: slices =>
      match partition_offset (fs_ st) s with
      | inl _ => Ret (ret, mkErr (Some (file_index s)) Parse_failed File_read, h)
      | inr off =>
          let! h := store buffer pos (k_pread (fd_ st) (slice_size s) off k) h in
          let! ret := int (ret + slice_size s) in
          read_slices st buffer (pos + slice_size s) ret slices error k h
      end
  end.

(** partition_storage::read into [buffer + pos] *)
Definition read (st : partition_storage) (buffer : ptr) (pos : Z)
    (p offset length : Z) (error : storage_error) (k : K) (h : heap)
    : outcome (Z * storage_error * heap) :=
  let file_slices := fs_map_block (fs_ st) p offset length in
  read_slices st buffer pos 0 file_slices error k h.

(** The loop of partition_storage::write. *)
Fixpoint write_slices (st : partition_storage) (buffer : ptr) (pos : Z)
    (slices : list file_slice) (error : storage_error) (k : K) (h : heap)
    : outcome (storage_error * K) :=
  match slices with
  | [] => Ret (error, k)
  | s :: slices =>
      match partition_offset (fs_ st) s with
      | inl _ => Ret (mkErr (Some (file_index s)) Parse_failed File_write, k)
      | inr off =>
          let! bytes := load buffer pos (slice_size s) h in
          write_slices st buffer (pos + slice_size s) slices error
            (k_pwrite (fd_ st) bytes off k) h
      end
  end.

(** partition_storage::write from [buffer + 0] *)
Definition write (st : partition_storage) (buffer : ptr) (p offset length : Z)
    (error : storage_error) (k : K) (h : heap) : outcome (storage_error * K) :=
  let file_slices := fs_map_block (fs_ st) p offset length in
  write_slices st buffer 0 file_slices error k h.
End operations.

(** A read changes no array but its buffer. *)
Lemma read_slices_frame {K} `{Kernel K} st buffer slices : ∀ pos ret e (k : K) h n e' h',
  read_slices st buffer pos ret slices e k h = Ret (n, e', h') →
  ∀ b, b ≠ buffer → h' !! b = h !! b.
Proof.
  induction slices as [|s slices IH]; intros pos ret e k h n e' h' Hr b Hb; simpl in Hr;
    [by outcome_inv|].
  destruct (partition_offset (fs_ st) s) as [|off]; [by outcome_inv|].
  apply obind_ret_inv in Hr as (h1 & Hst & Hr). apply obind_ret_inv in Hr as (ret1 & _ & Hr).
  rewrite (IH _ _ _ _ _ _ _ _ Hr b Hb).
  apply store_ret_inv in Hst as (l & _ & _ & _ & ->). by apply lookup_insert_ne.
Qed.

Lemma read_frame {K} `{Kernel K} st buffer pos p off len e (k : K) h n e' h' :
  read st buffer pos p off len e k h = Ret (n, e', h') → ∀ b, b ≠ buffer → h' !! b = h !! b.
Proof. apply read_slices_frame. Qed.

(** ** Where a byte of a piece is on the partition *)

(** The partition address of a byte of a file. *)
Definition file_address (fs : file_storage) (fo : Z * Z) : option Z :=
  match stoll16 (fs_file_name fs (fst fo)) with
  | inr v => Some (v + snd fo)
  | inl _ => None
  end.

Section placement.
Context {K : Type} `{KernelLaws K}.
Implicit Types (st : partition_storage) (k : K) (h : heap).

(** The address of byte [i] of piece [p], once it is known that there is one. *)
Definition address (st : partition_storage) (p i : Z) : Z :=
  default 0 (file_address (fs_ st) (locate (fs_ st) p i)).

(** A storage is placed on device [d] when every byte of every piece has a
    partition address, within [int64_t] and on the device. *)
Record placed (st : partition_storage) (d : string) (k : K) : Prop := {
  placed_laws : FileStorageLaws (fs_ st);
  placed_dev : k_dev (fd_ st) k = Some d;
  placed_address p i : valid_range (fs_ st) p i 1 →
    file_address (fs_ st) (locate (fs_ st) p i) = Some (address st p i) ∧
    0 ≤ address st p i < 2 ^ 63;
  placed_inside p i : valid_range (fs_ st) p i 1 → is_Some (k_byte d (address st p i) k);
}.

(** Runs of blocks do not overlap on the partition. *)
Definition addresses_distinct (st : partition_storage) : Prop :=
  ∀ p1 i1 p2 i2, valid_range (fs_ st) p1 i1 1 → valid_range (fs_ st) p2 i2 1 →
    address st p1 i1 = address st p2 i2 → p1 = p2 ∧ i1 = i2.

(** What the device holds for a range of a piece. *)
Definition on_disk (st : partition_storage) (d : string) (p off len : Z) (k : K) : list byte :=
  (λ i, default x00 (k_byte d (address st p i) k)) <$> seqZ off len.

(** *** Addresses of slices *)

Definition resolves (fs : file_storage) (fo : Z * Z) (a : Z) : Prop :=
  file_address fs fo = Some a ∧ 0 ≤ a < 2 ^ 63.

Lemma slice_addresses fs s addrs :
  0 < slice_size s → Forall2 (resolves fs) (slice_bytes s) addrs →
  ∃ off, partition_offset fs s = inr off ∧ 0 ≤ off ∧ addrs = seqZ off (slice_size s).
Proof.
  unfold slice_bytes, partition_offset, resolves, file_address. intros Hpos Hres.
  rewrite Forall2_fmap_l in Hres.
  destruct (stoll16 (fs_file_name fs (file_index s))) as [e|v] eqn:Hs.
  - rewrite seqZ_cons in Hres by lia. inversion Hres as [|????[Hbad _]]; subst.
    simpl in Hbad. by rewrite Hs in Hbad.
  - exists (v + slice_offset s).
    assert (addrs = Z.add v <$> seqZ (slice_offset s) (slice_size s)) as Haddrs.
    { clear Hpos. induction Hres as [|o a os addrs [Ho _] _ IH]; [done|].
      simpl in Ho. rewrite Hs in Ho. simplify_eq/=. by f_equal. }
    rewrite fmap_add_seqZ in Haddrs. split_and!; [|..|done].
    + f_equal. apply wrap_i64_id. rewrite seqZ_cons in Hres by lia.
      inversion Hres as [|????[Ho ?]]; subst. simpl in Ho. rewrite Hs in Ho. simplify_eq/=.
      unfold is_i64. lia.
    + rewrite seqZ_cons in Hres by lia.
      inversion Hres as [|????[Ho ?]]; subst. simpl in Ho. rewrite Hs in Ho. simplify_eq/=. lia.
Qed.

Lemma valid_range_byte fs p off len i :
  valid_range fs p off len → off ≤ i < off + len → valid_range fs p i 1.
Proof. unfold valid_range. lia. Qed.

Lemma valid_range_sub fs p off len off' len' :
  valid_range fs p off len → off ≤ off' → 0 ≤ len' → off' + len' ≤ off + len →
  valid_range fs p off' len'.
Proof. unfold valid_range. lia. Qed.

Lemma placed_resolves st d k p off len :
  placed st d k → valid_range (fs_ st) p off len →
  Forall2 (resolves (fs_ st))
    (concat (slice_bytes <$> fs_map_block (fs_ st) p off len)) (address st p <$> seqZ off len).
Proof.
  intros Hp Hr. pose proof (placed_laws _ _ _ Hp).
  rewrite map_block_bytes by done. rewrite Forall2_fmap. apply Forall_Forall2_diag.
  apply Forall_forall. intros i Hi%elem_of_seqZ.
  by apply (placed_address _ _ _ Hp), (valid_range_byte _ _ off len).
Qed.

Lemma on_disk_bytes st d k p off len :
  placed st d k → valid_range (fs_ st) p off len →
  Forall2 (λ a b, k_byte d a k = Some b) (address st p <$> seqZ off len)
    (on_disk st d p off len k).
Proof.
  intros Hp Hr. unfold on_disk. rewrite Forall2_fmap. apply Forall_Forall2_diag.
  apply Forall_forall. intros i Hi%elem_of_seqZ.
  destruct (placed_inside _ _ _ Hp p i) as [b Hb]; [by apply (valid_range_byte _ _ off len)|].
  by rewrite Hb.
Qed.

Lemma length_on_disk st d p off len k : length (on_disk st d p off len k) = Z.to_nat len.
Proof. unfold on_disk. by rewrite length_fmap, length_seqZ. Qed.

Lemma lookup_on_disk st d p off len k i :
  (i < Z.to_nat len)%nat →
  on_disk st d p off len k !! i = Some (default x00 (k_byte d (address st p (off + Z.of_nat i)) k)).
Proof. intros. unfold on_disk. rewrite list_lookup_fmap, lookup_seqZ_lt by lia. done. Qed.

(** *** The loops *)

Lemma read_slices_ok st d k buffer slices : ∀ pos ret error h l addrs bytes,
  k_dev (fd_ st) k = Some d → Forall (λ s, 0 < slice_size s) slices →
  Forall2 (resolves (fs_ st)) (concat (slice_bytes <$> slices)) addrs →
  Forall2 (λ a b, k_byte d a k = Some b) addrs bytes →
  h !! buffer = Some l → 0 ≤ pos → pos + Z.of_nat (length bytes) ≤ Z.of_nat (length l) →
  0 ≤ ret → ret + Z.of_nat (length bytes) < 2 ^ 31 →
  read_slices st buffer pos ret slices error k h =
    Ret (ret + Z.of_nat (length bytes), error, <[buffer := blit (Z.to_nat pos) bytes l]> h).
Proof.
  induction slices as [|s slices IH];
    intros pos ret error h l addrs bytes Hdev Hpos Hres Hbytes Hbuf Hp Hlen Hret Hmax; simpl in *.
  { inversion Hres; subst. inversion Hbytes; subst. rewrite blit_nil, insert_id by done.
    simpl. by rewrite Z.add_0_r. }
  apply Forall_cons in Hpos as [Hs Hpos].
  apply Forall2_app_inv_l in Hres as (addrs1 & addrs2 & Hres1 & Hres2 & ->).
  apply Forall2_app_inv_l in Hbytes as (bs1 & bs2 & Hbs1 & Hbs2 & ->).
  destruct (slice_addresses _ _ _ Hs Hres1) as (off & -> & Hoff & ->).
  pose proof (Forall2_length _ _ _ Hbs1) as Hlen1. rewrite length_seqZ in Hlen1.
  rewrite length_app in *.
  rewrite (k_pread_inside _ d _ _ bs1) by done.
  rewrite (store_ret _ _ _ _ l) by (done || lia). simpl.
  rewrite int_ret by (unfold is_i32; lia). cbn [obind].
  erewrite IH; [|done..| | | | |]; [|by rewrite lookup_insert_eq|lia| |lia|lia].
  - rewrite insert_insert_eq.
    replace (Z.to_nat (pos + slice_size s)) with (Z.to_nat pos + length bs1)%nat by lia.
    rewrite blit_app by lia. do 3 f_equal. lia.
  - rewrite length_blit; lia.
Qed.

Lemma write_slices_ok st d buffer slices : ∀ pos error k h l addrs bytes,
  k_dev (fd_ st) k = Some d → Forall (λ s, 0 < slice_size s) slices →
  Forall2 (resolves (fs_ st)) (concat (slice_bytes <$> slices)) addrs →
  Forall (λ a, is_Some (k_byte d a k)) addrs → NoDup addrs →
  h !! buffer = Some l → 0 ≤ pos → length bytes = length addrs →
  pos + Z.of_nat (length bytes) ≤ Z.of_nat (length l) →
  bytes = slice (Z.to_nat pos) (length bytes) l →
  ∃ k', write_slices st buffer pos slices error k h = Ret (error, k') ∧
    (∀ fd', k_dev fd' k' = k_dev fd' k) ∧
    Forall2 (λ a b, k_byte d a k' = Some b) addrs bytes ∧
    (∀ d' a, d' ≠ d ∨ a ∉ addrs → k_byte d' a k' = k_byte d' a k).
Proof.
  induction slices as [|s slices IH];
    intros pos error k h l addrs bytes Hdev Hpos Hres Hin Hnd Hbuf Hp Hlen Hroom Hbytes; simpl in *.
  { inversion Hres; subst. destruct bytes; [|done]. exists k. split_and!; auto. }
  apply Forall_cons in Hpos as [Hs Hpos].
  apply Forall2_app_inv_l in Hres as (addrs1 & addrs2 & Hres1 & Hres2 & ->).
  destruct (slice_addresses _ _ _ Hs Hres1) as (off & -> & Hoff & ->).
  rewrite length_app, length_seqZ in Hlen. apply Forall_app in Hin as [Hin1 Hin2].
  apply NoDup_app in Hnd as (_ & Hdisj & Hnd2).
  set (n := Z.to_nat (slice_size s)) in *.
  rewrite (load_ret _ _ _ _ l) by (done || lia). simpl. fold n.
  set (bs1 := slice (Z.to_nat pos) n l).
  assert (length bs1 = n) as Hlen1 by (apply length_slice; lia).
  replace (length bytes) with (n + length addrs2)%nat in Hbytes by lia.
  rewrite slice_app_split in Hbytes. fold bs1 in Hbytes.
  set (bs2 := slice (Z.to_nat pos + n) (length addrs2) l) in *.
  assert (length bs2 = length addrs2) as Hlen2 by (apply length_slice; lia).
  assert (seqZ off (Z.of_nat (length bs1)) = seqZ off (slice_size s)) as Hseq
    by (f_equal; lia).
  destruct (IH (pos + slice_size s) error (k_pwrite (fd_ st) bs1 off k) h l addrs2 bs2)
    as (k' & -> & Hdev' & Hbs2 & Hframe);
    [by rewrite k_pwrite_dev|done|done| |done|done|lia|done|lia| |].
  - apply Forall_forall. intros a Ha.
    assert (¬ off ≤ a < off + slice_size s)
      by (intros ?; apply (Hdisj a); [apply elem_of_seqZ; lia|done]).
    rewrite (k_pwrite_outside _ d) by (rewrite ?Hseq; try done; right; lia).
    by eapply Forall_forall in Hin2.
  - rewrite Hlen2. unfold bs2. f_equal. lia.
  - exists k'. split_and!; [done|..].
    + intros fd'. rewrite Hdev'. apply k_pwrite_dev.
    + rewrite Hbytes. apply Forall2_app; [|done].
      apply Forall2_same_length_lookup. rewrite length_seqZ. split; [lia|].
      intros i a b Ha Hb. apply lookup_seqZ in Ha as [-> ?].
      rewrite Hframe by (right; apply Hdisj, elem_of_seqZ; lia).
      rewrite k_pwrite_inside by (rewrite ?Hseq; done || lia).
      rewrite <-Hb. f_equal. lia.
    + intros d' a Ha. rewrite Hframe by set_solver.
      eapply k_pwrite_outside; [done..|by rewrite Hseq|].
      destruct Ha as [?|Ha]; [by left|right]. rewrite elem_of_app, elem_of_seqZ in Ha. lia.
Qed.

(** *** read and write on a placed storage *)

Lemma read_spec st d k buffer pos p off len error h l :
  placed st d k → valid_range (fs_ st) p off len → h !! buffer = Some l →
  0 ≤ pos → pos + len ≤ Z.of_nat (length l) → len < 2 ^ 31 →
  read st buffer pos p off len error k h =
    Ret (len, error, <[buffer := blit (Z.to_nat pos) (on_disk st d p off len k) l]> h).
Proof.
  intros Hp Hr Hbuf Hpos Hroom Hmax. unfold read. pose proof (placed_laws _ _ _ Hp).
  pose proof (length_on_disk st d p off len k) as Hlen.
  assert (0 ≤ len) by (unfold valid_range in Hr; lia).
  rewrite (read_slices_ok st d k buffer _ pos 0 error h l (address st p <$> seqZ off len)
             (on_disk st d p off len k)
             (placed_dev _ _ _ Hp));
    [|by apply map_block_sizes|by eapply placed_resolves
     |by apply on_disk_bytes|done|done|lia|lia|lia].
  rewrite Hlen. do 3 f_equal. lia.
Qed.

Lemma write_spec st d k buffer p off len error h l :
  placed st d k → addresses_distinct st → valid_range (fs_ st) p off len →
  h !! buffer = Some l → len ≤ Z.of_nat (length l) →
  ∃ k', write st buffer p off len error k h = Ret (error, k') ∧
    (∀ fd', k_dev fd' k' = k_dev fd' k) ∧
    (∀ i, off ≤ i < off + len → k_byte d (address st p i) k' = l !! Z.to_nat (i - off)) ∧
    (∀ d' a, d' ≠ d ∨ (∀ i, off ≤ i < off + len → a ≠ address st p i) →
       k_byte d' a k' = k_byte d' a k).
Proof.
  intros Hp Hdist Hr Hbuf Hroom. unfold write. pose proof (placed_laws _ _ _ Hp).
  assert (0 ≤ len) by (unfold valid_range in Hr; lia).
  destruct (write_slices_ok st d buffer (fs_map_block (fs_ st) p off len) 0 error k h l
              (address st p <$> seqZ off len) (take (Z.to_nat len) l))
    as (k' & Hw & Hdev & Hbytes & Hframe).
  - apply Hp.
  - by apply map_block_sizes.
  - by eapply placed_resolves.
  - apply Forall_fmap, Forall_forall. intros i Hi%elem_of_seqZ. simpl.
    by apply (placed_inside _ _ _ Hp), (valid_range_byte _ _ off len).
  - apply NoDup_fmap_2_strong; [|apply NoDup_seqZ].
    intros i j Hi%elem_of_seqZ Hj%elem_of_seqZ Heq.
    by eapply Hdist in Heq as [_ ?]; [|by eapply valid_range_byte..].
  - done.
  - done.
  - rewrite length_fmap, length_seqZ, length_take. lia.
  - rewrite length_take. lia.
  - rewrite length_take. unfold slice. rewrite drop_0. f_equal. lia.
  - exists k'. split_and!; [done|done|..].
    + intros i Hi. apply Forall2_same_length_lookup in Hbytes as [_ Hbytes].
      destruct (lookup_lt_is_Some_2 l (Z.to_nat (i - off))) as [b Hb]; [lia|].
      rewrite Hb. apply (Hbytes (Z.to_nat (i - off))).
      * rewrite list_lookup_fmap, lookup_seqZ_lt by lia. simpl. do 2 f_equal. lia.
      * rewrite lookup_take_lt by lia. done.
    + intros d' a [?|Ha]; apply Hframe; [by left|right].
      intros (i & -> & Hi%elem_of_seqZ)%list_elem_of_fmap. by apply (Ha i).
Qed.

(** A write changes no descriptor and no size, so storages stay placed. *)
Lemma placed_kernel st d k k' :
  placed st d k → (∀ fd, k_dev fd k' = k_dev fd k) →
  (∀ d' a, is_Some (k_byte d' a k) → is_Some (k_byte d' a k')) → placed st d k'.
Proof.
  intros [Hl Hd Ha Hi] Hdev Hin. split; [done|by rewrite Hdev|done|]. auto.
Qed.
End placement.

(** ** Error paths

    These use no law of the kernel: they hold on a device that fails. *)

Section errors.
Context {K : Type} `{Kernel K}.
Implicit Types (st : partition_storage) (k : K) (h : heap).

Definition total (slices : list file_slice) : Z :=
  foldr (λ s acc, slice_size s + acc) 0 slices.

Definition parses (fs : file_storage) (s : file_slice) : Prop :=
  ∃ off, partition_offset fs s = inr off.

Lemma total_nonneg slices : Forall (λ s, 0 < slice_size s) slices → 0 ≤ total slices.
Proof. induction 1; simpl; lia. Qed.

Lemma total_bytes slices :
  Forall (λ s, 0 < slice_size s) slices →
  total slices = Z.of_nat (length (concat (slice_bytes <$> slices))).
Proof.
  induction 1 as [|s slices Hs _ IH]; [done|].
  rewrite fmap_cons. cbn [concat total foldr]. fold (total slices). rewrite length_app, IH.
  unfold slice_bytes. rewrite length_fmap, length_seqZ. lia.
Qed.

(** The slices before the first unparsable name are transferred. *)
Lemma read_slices_prefix st buffer good : ∀ rest pos ret error k h l,
  Forall (parses (fs_ st)) good → Forall (λ s, 0 < slice_size s) good →
  (∀ fd n off, 0 ≤ n → Z.of_nat (length (k_pread fd n off k)) ≤ n) →
  h !! buffer = Some l → 0 ≤ pos → pos + total good ≤ Z.of_nat (length l) →
  0 ≤ ret → ret + total good < 2 ^ 31 →
  ∃ l', length l' = length l ∧
    read_slices st buffer pos ret (good ++ rest) error k h =
    read_slices st buffer (pos + total good) (ret + total good) rest error k
      (<[buffer := l']> h).
Proof.
  induction good as [|s good IH]; intros rest pos ret error k h l Hparse Hsz Hk Hbuf Hpos Hroom Hret Hmax;
    simpl in *.
  { exists l. split; [done|]. by rewrite !Z.add_0_r, insert_id. }
  apply Forall_cons in Hparse as [[off ->] Hparse]. apply Forall_cons in Hsz as [Hs Hsz].
  pose proof (total_nonneg _ Hsz) as Hn. specialize (Hk (fd_ st) (slice_size s) off) as Hread.
  rewrite (store_ret _ _ _ _ l) by (done || lia). simpl.
  rewrite int_ret by (unfold is_i32; lia). cbn [obind].
  destruct (IH rest (pos + slice_size s) (ret + slice_size s) error k
              (<[buffer := blit (Z.to_nat pos) (k_pread (fd_ st) (slice_size s) off k) l]> h)
              (blit (Z.to_nat pos) (k_pread (fd_ st) (slice_size s) off k) l))
    as (l' & Hlen & ->); try done; try lia.
  - by rewrite lookup_insert_eq.
  - rewrite length_blit; lia.
  - exists l'. rewrite Hlen, length_blit by lia. split; [done|].
    rewrite insert_insert_eq. f_equal; lia.
Qed.

Lemma total_map_block fs p off len :
  FileStorageLaws fs → valid_range fs p off len → total (fs_map_block fs p off len) = len.
Proof.
  intros Hl Hr. rewrite total_bytes by by apply map_block_sizes.
  rewrite map_block_bytes, length_fmap, length_seqZ by done. unfold valid_range in Hr. lia.
Qed.

(** Neither loop leaves its buffer, whatever the names and the device say. *)
Lemma read_slices_safe st buffer slices : ∀ pos ret error k h l,
  Forall (λ s, 0 < slice_size s) slices →
  (∀ fd n off, 0 ≤ n → Z.of_nat (length (k_pread fd n off k)) ≤ n) →
  h !! buffer = Some l → 0 ≤ pos → pos + total slices ≤ Z.of_nat (length l) →
  0 ≤ ret → ret + total slices < 2 ^ 31 →
  ∃ n e l', read_slices st buffer pos ret slices error k h = Ret (n, e, <[buffer := l']> h) ∧
            length l' = length l ∧ ret ≤ n ≤ ret + total slices.
Proof.
  induction slices as [|s slices IH];
    intros pos ret error k h l Hsz Hk Hbuf Hpos Hroom Hret Hmax; simpl in *.
  { exists ret, error, l. rewrite insert_id by done. auto with lia. }
  apply Forall_cons in Hsz as [Hs Hsz]. pose proof (total_nonneg _ Hsz).
  destruct (partition_offset (fs_ st) s) as [?|off].
  { eexists _, _, l. rewrite insert_id by done. auto with lia. }
  specialize (Hk (fd_ st) (slice_size s) off) as Hread.
  rewrite (store_ret _ _ _ _ l) by (done || lia). simpl.
  rewrite int_ret by (unfold is_i32; lia). cbn [obind].
  edestruct (IH (pos + slice_size s) (ret + slice_size s) error k
    (<[buffer := blit (Z.to_nat pos) (k_pread (fd_ st) (slice_size s) off k) l]> h))
    as (n & e & l' & -> & Hlen & Hn); [done|done|by rewrite lookup_insert_eq|lia| |lia|lia|].
  { rewrite length_blit; lia. }
  exists n, e, l'. rewrite insert_insert_eq, Hlen, length_blit by lia. auto with lia.
Qed.

Lemma write_slices_safe st buffer slices : ∀ pos error k h l,
  Forall (λ s, 0 < slice_size s) slices →
  h !! buffer = Some l → 0 ≤ pos → pos + total slices ≤ Z.of_nat (length l) →
  ∃ e k', write_slices st buffer pos slices error k h = Ret (e, k').
Proof.
  induction slices as [|s slices IH]; intros pos error k h l Hsz Hbuf Hpos Hroom; simpl in *.
  { by eexists _, _. }
  apply Forall_cons in Hsz as [Hs Hsz]. pose proof (total_nonneg _ Hsz).
  destruct (partition_offset (fs_ st) s) as [?|off]; [by eexists _, _|].
  rewrite (load_ret _ _ _ _ l) by (done || lia). simpl. eapply IH; [done..|lia|lia].
Qed.
End errors.

(** On lawful interfaces no read or write of a valid range faults. *)
Lemma read_safe {K} `{KernelLaws K} (k : K) st buffer pos p off len e h l :
  FileStorageLaws (fs_ st) → valid_range (fs_ st) p off len →
  h !! buffer = Some l → 0 ≤ pos → pos + len ≤ Z.of_nat (length l) → len < 2 ^ 31 →
  ∃ n e' l', read st buffer pos p off len e k h = Ret (n, e', <[buffer := l']> h) ∧
             length l' = length l ∧ 0 ≤ n ≤ len.
Proof.
  intros Hl Hr Hbuf Hpos Hroom Hmax.
  destruct (read_slices_safe st buffer (fs_map_block (fs_ st) p off len) pos 0 e k h l)
    as (n & e' & l' & Hread & Hlen & Hn); rewrite ?total_map_block in * by done; try done.
  - by apply map_block_sizes.
  - intros. by apply k_pread_length.
  - by exists n, e', l'.
Qed.

Lemma write_safe {K} `{Kernel K} (k : K) st buffer p off len e h l :
  FileStorageLaws (fs_ st) → valid_range (fs_ st) p off len →
  h !! buffer = Some l → len ≤ Z.of_nat (length l) →
  ∃ e' k', write st buffer p off len e k h = Ret (e', k').
Proof.
  intros Hl Hr Hbuf Hroom. eapply write_slices_safe; try done.
  - by apply map_block_sizes.
  - by rewrite total_map_block.
Qed.

(** C11: write, then read, any range inside what was written.  On a placed
    storage whose runs of blocks do not overlap, a write from a buffer ends
    without error, the storage stays placed, and reading a part of the written
    range afterwards answers its whole length without error and puts exactly
    those bytes of the source buffer into the destination, and nothing else. *)
Theorem write_then_read {K} `{KernelLaws K} (k : K) st d src p off len h l dst pos off' len' m e :
  placed st d k → addresses_distinct st → valid_range (fs_ st) p off len → len < 2 ^ 31 →
  h !! src = Some l → len ≤ Z.of_nat (length l) →
  off ≤ off' → 0 ≤ len' → off' + len' ≤ off + len →
  h !! dst = Some m → 0 ≤ pos → pos + len' ≤ Z.of_nat (length m) →
  ∃ k', write st src p off len e k h = Ret (e, k') ∧ placed st d k' ∧
    read st dst pos p off' len' e k' h =
      Ret (len', e, <[dst := blit (Z.to_nat pos)
                               (slice (Z.to_nat (off' - off)) (Z.to_nat len') l) m]> h).
Proof.
  intros Hp Hdist Hr Hmax Hsrc Hl Hoff Hlen' Hsub Hdst Hpos Hroom.
  destruct (write_spec st d k src p off len e h l) as (k' & Hw & Hdev & Hin & Hout); try done.
  exists k'. split; [done|].
  assert (placed st d k') as Hp'.
  { apply (placed_kernel st d k); [done..|]. intros d' a [b Hb].
    destruct (decide (d' = d)) as [->|]; [|rewrite Hout by (by left); by eauto].
    destruct (decide (a ∈ address st p <$> seqZ off len)) as [Ha|Ha].
    - apply list_elem_of_fmap in Ha as (i & -> & Hi%elem_of_seqZ).
      rewrite Hin by done. apply lookup_lt_is_Some_2. lia.
    - rewrite Hout; [by eauto|]. right. intros i Hi ->. apply Ha.
      apply list_elem_of_fmap. exists i. by rewrite elem_of_seqZ. }
  split; [done|].
  rewrite (read_spec st d) with (l := m); try done; [|by eapply valid_range_sub|lia].
  do 3 f_equal. f_equal. apply list_eq. intros i.
  destruct (decide (i < Z.to_nat len')%nat) as [Hi|Hi].
  - rewrite lookup_on_disk by done. rewrite Hin by lia.
    rewrite lookup_slice, decide_True by done.
    replace (Z.to_nat (off' - off) + i)%nat with (Z.to_nat (off' + Z.of_nat i - off)) by lia.
    destruct (lookup_lt_is_Some_2 l (Z.to_nat (off' + Z.of_nat i - off))) as [b ->]; [lia|]. done.
  - rewrite !(proj2 (lookup_ge_None _ _)); [done| |]; rewrite ?length_on_disk; [|lia].
    unfold slice. rewrite length_take. lia.
Qed.

(** C12: a write touches only the range it is for: every byte of every device
    that is not the partition address of a byte of the range keeps its value, and
    no descriptor changes. *)
Theorem write_frame {K} `{KernelLaws K} (k k' : K) st d src p off len h l e e' d' a :
  placed st d k → addresses_distinct st → valid_range (fs_ st) p off len →
  h !! src = Some l → len ≤ Z.of_nat (length l) →
  write st src p off len e k h = Ret (e', k') →
  d' ≠ d ∨ (∀ i, off ≤ i < off + len → a ≠ address st p i) →
  k_byte d' a k' = k_byte d' a k ∧ e' = e ∧ ∀ fd, k_dev fd k' = k_dev fd k.
Proof.
  intros Hp Hdist Hr Hsrc Hl Hw Ha.
  destruct (write_spec st d k src p off len e h l) as (k'' & Hw' & Hdev & _ & Hout); [done..|].
  rewrite Hw in Hw'. simplify_eq. split_and!; auto.
Qed.

(** C29: a file name that does not parse.  On any kernel, [read] transfers the
    slices before the first unparsable name, stops there, answers the bytes
    transferred so far and reports the file, [parse_failed] and [file_read]. *)
Theorem read_unparsable_name {K} `{Kernel K} (k : K) st buffer pos p off len good bad rest err e h l :
  fs_map_block (fs_ st) p off len = good ++ bad :: rest →
  Forall (parses (fs_ st)) good → Forall (λ s, 0 < slice_size s) good →
  partition_offset (fs_ st) bad = inl err →
  (∀ fd n off, 0 ≤ n → Z.of_nat (length (k_pread fd n off k)) ≤ n) →
  h !! buffer = Some l → 0 ≤ pos → pos + total good ≤ Z.of_nat (length l) →
  total good < 2 ^ 31 →
  ∃ h', read st buffer pos p off len e k h =
          Ret (total good, mkErr (Some (file_index bad)) Parse_failed File_read, h').
Proof.
  intros Hmap Hgood Hsz Hbad Hk Hbuf Hpos Hroom Hmax. unfold read. rewrite Hmap.
  destruct (read_slices_prefix st buffer good (bad :: rest) pos 0 e k h l)
    as (l' & _ & ->); try done.
  simpl. rewrite Hbad. eauto.
Qed.

(** C38: a failing device goes unnoticed.  When every pread transfers nothing
    (an I/O error, or a range past the end of the partition), [read] of a range
    whose names parse still answers the full length with no error set, and the
    buffer keeps whatever it held. *)
Theorem read_hides_io_errors {K} `{Kernel K} (k : K) st buffer pos p off len e h l :
  FileStorageLaws (fs_ st) → valid_range (fs_ st) p off len →
  Forall (parses (fs_ st)) (fs_map_block (fs_ st) p off len) →
  (∀ fd n a, k_pread fd n a k = []) →
  h !! buffer = Some l → 0 ≤ pos → pos + len ≤ Z.of_nat (length l) → len < 2 ^ 31 →
  read st buffer pos p off len e k h = Ret (len, e, h).
Proof.
  intros Hlaws Hr Hparse Hk Hbuf Hpos Hroom Hmax. unfold read.
  pose proof (map_block_sizes _ _ _ Hr) as Hsz.
  pose proof (total_bytes _ Hsz) as Htot.
  rewrite map_block_bytes, length_fmap, length_seqZ in Htot by done.
  assert (0 ≤ len) by (unfold valid_range in Hr; lia).
  assert (total (fs_map_block (fs_ st) p off len) = len) as Hlen by lia. clear Htot.
  assert (∀ slices pos ret, Forall (parses (fs_ st)) slices →
    Forall (λ s, 0 < slice_size s) slices → 0 ≤ pos → 0 ≤ ret →
    pos + total slices ≤ Z.of_nat (length l) → ret + total slices < 2 ^ 31 →
    read_slices st buffer pos ret slices e k h = Ret (ret + total slices, e, h)) as Hloop.
  { clear -Hk Hbuf. induction slices as [|s slices IH]; intros pos ret Hparse Hsz ????; simpl in *.
    - by rewrite Z.add_0_r.
    - apply Forall_cons in Hparse as [[o ->] Hparse]. apply Forall_cons in Hsz as [Hs Hsz].
      pose proof (total_nonneg _ Hsz).
      rewrite Hk, (store_ret _ _ _ _ l) by (simpl; done || lia). simpl.
      rewrite blit_nil, insert_id by done. rewrite int_ret by (unfold is_i32; lia). cbn [obind].
      rewrite IH by (done || lia). do 3 f_equal. lia. }
  rewrite Hloop by (done || lia). do 3 f_equal. lia.
Qed.

(** ** Witnesses: a piece of eight bytes in two runs, at 0x10 and at 0x2, of a
    partition of 32 bytes *)

Module Demo.
Import RamDisk.

Definition demo_fs : file_storage := LinearStorage.laid_out [("10", 4); ("2", 4)] 8.
Definition demo_disk : ramdisk := mkRam {[3 := "/dev/sda1"]} {["/dev/sda1" := zeros 32]}.
Definition demo_st : partition_storage := mkStorage 3 demo_fs.
Definition demo_src : list byte := [x01; x02; x03; x04; x05; x06; x07; x08].
Definition demo_heap : heap := {[1%positive := demo_src; 2%positive := zeros 8]}.

Lemma demo_valid p i : valid_range demo_fs p i 1 →
  p = 0 ∧ (i = 0 ∨ i = 1 ∨ i = 2 ∨ i = 3 ∨ i = 4 ∨ i = 5 ∨ i = 6 ∨ i = 7).
Proof.
  unfold valid_range. change (fs_num_pieces demo_fs) with 1. simpl. lia.
Qed.

Lemma demo_placed : placed demo_st "/dev/sda1" demo_disk.
Proof.
  split.
  - by apply LinearStorage.laid_out_laws.
  - reflexivity.
  - intros p i [-> Hi]%demo_valid.
    destruct_or! Hi; subst i; (split; [reflexivity|]); vm_compute; by split.
  - intros p i [-> Hi]%demo_valid. destruct_or! Hi; subst i; by eexists.
Qed.

Lemma demo_distinct : addresses_distinct demo_st.
Proof.
  intros p1 i1 p2 i2 [-> H1]%demo_valid [-> H2]%demo_valid.
  destruct_or! H1; destruct_or! H2; subst; vm_compute; by intros [=].
Qed.

Lemma write_then_read_witness :
  ∃ k', write demo_st 1%positive 0 0 8 no_storage_error demo_disk demo_heap =
          Ret (no_storage_error, k') ∧
    read demo_st 2%positive 1 0 2 5 no_storage_error k' demo_heap =
      Ret (5, no_storage_error,
           <[2%positive := [x00; x03; x04; x05; x06; x07; x00; x00]]> demo_heap).
Proof.
  destruct (write_then_read demo_disk demo_st "/dev/sda1" 1%positive 0 0 8 demo_heap demo_src
              2%positive 1 2 5 (zeros 8) no_storage_error) as (k' & Hw & _ & Hr);
    first [exact demo_placed|exact demo_distinct|done|idtac].
  by exists k'.
Defined.

Lemma write_frame_witness :
  ∃ k', write demo_st 1%positive 0 0 8 no_storage_error demo_disk demo_heap =
          Ret (no_storage_error, k') ∧ k_byte "/dev/sda1" 9 k' = Some x00.
Proof.
  eexists. split; [vm_compute; reflexivity|].
  refine (proj1 (write_frame demo_disk _ demo_st "/dev/sda1" 1%positive 0 0 8 demo_heap demo_src
            no_storage_error no_storage_error "/dev/sda1" 9 demo_placed demo_distinct _ _ _ _ _));
    [done|done|done|vm_compute; reflexivity|].
  right. intros i Hi.
  assert (i = 0 ∨ i = 1 ∨ i = 2 ∨ i = 3 ∨ i = 4 ∨ i = 5 ∨ i = 6 ∨ i = 7) as Hc by lia.
  destruct_or! Hc; subst i; vm_compute; discriminate.
Defined.

(** The second run has a name that is not a number. *)
Definition bad_fs : file_storage := LinearStorage.laid_out [("10", 4); ("readme", 4)] 8.

Lemma read_unparsable_name_witness :
  ∃ h', read (mkStorage 3 bad_fs) 2%positive 0 0 0 8 no_storage_error demo_disk demo_heap =
          Ret (4, mkErr (Some 1) Parse_failed File_read, h').
Proof.
  apply (read_unparsable_name demo_disk (mkStorage 3 bad_fs) 2%positive 0 0 0 8
           [mkSlice 0 0 4] (mkSlice 1 0 4) [] Invalid_argument no_storage_error demo_heap (zeros 8));
    try done.
  - repeat constructor. eexists. vm_compute. reflexivity.
  - by repeat constructor.
  - intros fd n off. apply ram_pread_length.
Defined.

(** No descriptor is open: every pread fails. *)
Lemma read_hides_io_errors_witness :
  read demo_st 2%positive 0 0 0 8 no_storage_error (mkRam ∅ ∅) demo_heap =
    Ret (8, no_storage_error, demo_heap).
Proof.
  apply (read_hides_io_errors (mkRam ∅ ∅) demo_st 2%positive 0 0 0 8 no_storage_error demo_heap
           (zeros 8)); try done.
  - by apply LinearStorage.laid_out_laws.
  - repeat constructor; eexists; vm_compute; reflexivity.
Defined.
End Demo.
