(* ===== verification/Extents.v ===== *)
(** * Torrents of disk images

    The torrent of an image has one file per run of used blocks (an extent): its
    name is the partition offset of the run in hexadecimal, its size the length of
    the run, and the pieces are cut from the files laid end to end (README, and
    utils/partclone_create_torrent.py).  Here such torrents are shown to be what
    the theorems on storages ask for: every byte has an address on the device,
    inside it, and no two bytes share one. *)

From S2P Require Import Prelude Memory Stoll Kernel PartitionStorage.
Import LinearStorage.

(** An extent: where the run starts on the partition, and its length. *)
Abbreviation extent := (Z * Z)%type.

Definition extent_files (w : nat) (es : list extent) : list (string * Z) :=
  (λ e, (hex_name w (fst e), snd e)) <$> es.

(** The documented layout of the files of an image with extents [es], names of [w]
    digits and pieces of [plen] bytes; only witnesses use it. *)
Definition image_files (w : nat) (es : list extent) (plen : Z) : file_storage :=
  laid_out (extent_files w es) plen.

(** The device addresses of the bytes of the image, in the order of the image. *)
Definition disk_order (es : list extent) : list Z :=
  concat ((λ e, seqZ (fst e) (snd e)) <$> es).

(** Extents of a device of [size] bytes that names of [w] digits can say, no two
    of them overlapping. *)
Record extents_ok (w : nat) (size : Z) (es : list extent) : Prop := {
  ext_digits : (0 < w)%nat ∧ size ≤ 16 ^ Z.of_nat w;
  ext_size : size ≤ 2 ^ 63;
  ext_inside : Forall (λ e, 0 ≤ fst e ∧ 0 ≤ snd e ∧ fst e + snd e ≤ size ∧ fst e < size) es;
  ext_apart : NoDup (disk_order es);
}.

Lemma disk_order_cons e es : disk_order (e :: es) = seqZ (fst e) (snd e) ++ disk_order es.
Proof. done. Qed.

Lemma length_disk_order es :
  Forall (λ e, 0 ≤ snd e) es →
  Z.of_nat (length (disk_order es)) = total_size (extent_files 0 es).
Proof.
  induction 1 as [|[o l] es Hl _ IH]; [done|]. rewrite disk_order_cons, length_app, length_seqZ.
  simpl in *. lia.
Qed.

Lemma total_size_digits w es : total_size (extent_files w es) = total_size (extent_files 0 es).
Proof. induction es as [|[o l] es IH]; [done|]. simpl. by rewrite IH. Qed.

(** Where a byte is among the files, and where on the device. *)
Lemma place_extent w es : ∀ idx g,
  Forall (λ e, 0 ≤ snd e) es → 0 ≤ g < total_size (extent_files w es) →
  ∃ i o l off, place idx (extent_files w es) g = (idx + Z.of_nat i, off) ∧
    es !! i = Some (o, l) ∧ 0 ≤ off < l ∧ disk_order es !! Z.to_nat g = Some (o + off).
Proof.
  induction es as [|[o l] es IH]; intros idx g Hes Hg; simpl in *; [lia|].
  apply Forall_cons in Hes as [Hl Hes]. simpl in Hl. rewrite disk_order_cons. simpl.
  destruct (Z.leb_spec l g).
  - destruct (IH (idx + 1) (g - l) Hes) as (i & o' & l' & off & Hp & Hi & Hoff & Hd); [lia|].
    exists (S i), o', l', off. rewrite Hp. split_and!; [f_equal; lia|done|lia|lia|].
    rewrite lookup_app_r by (rewrite length_seqZ; lia). rewrite length_seqZ, <-Hd.
    f_equal. lia.
  - exists 0%nat, o, l, g. split_and!; [f_equal; lia|done|lia|lia|].
    rewrite lookup_app_l by (rewrite length_seqZ; lia). rewrite lookup_seqZ_lt by lia.
    f_equal. lia.
Qed.

(** What the storage relies on of libtorrent's [file_storage] for the torrent of such
    an image: the laws every torrent has; file [j] carries the name of extent [j];
    the pieces are [plen] bytes each, but for the last, and cover the files; and the
    files lie end to end, in their order. *)
Record image_torrent (w : nat) (es : list extent) (plen : Z) (fs : file_storage) : Prop := {
  it_laws : FileStorageLaws fs;
  it_name j o l : es !! j = Some (o, l) → fs_file_name fs (Z.of_nat j) = hex_name w o;
  it_pieces : fs_num_pieces fs = (total_size (extent_files w es) + plen - 1) / plen;
  it_piece_size p : 0 ≤ p < fs_num_pieces fs →
    fs_piece_size fs p = Z.min plen (total_size (extent_files w es) - p * plen);
  it_locate p i : valid_range fs p i 1 →
    locate fs p i = place 0 (extent_files w es) (p * plen + i);
}.

(** The layout that libtorrent documents is one. *)
Lemma image_files_torrent w es plen : 0 < plen → image_torrent w es plen (image_files w es plen).
Proof.
  intros Hplen. split; [by apply laid_out_laws| |done|done|].
  - intros j o l Hj. simpl. unfold extent_files. by rewrite Nat2Z.id, list_lookup_fmap, Hj.
  - intros p i Hr. by apply laid_out_locate.
Qed.

Section image.
Context (w : nat) (size : Z) (es : list extent) (plen : Z) (fs : file_storage).
Hypothesis Hok : extents_ok w size es.
Hypothesis Hplen : 0 < plen.
Hypothesis Hfs : image_torrent w es plen fs.

Lemma ext_lengths : Forall (λ e, 0 ≤ snd e) es.
Proof. eapply Forall_impl; [apply Hok|]. simpl. intros e. lia. Qed.

(** Byte [i] of piece [p] is byte [p * plen + i] of the image. *)
Lemma image_byte p i : valid_range fs p i 1 →
  0 ≤ p * plen + i < total_size (extent_files w es) ∧ 0 ≤ p ∧ 0 ≤ i < plen.
Proof.
  intros (Hp & Hi & _ & Hsz). rewrite (it_piece_size _ _ _ _ Hfs) in Hsz by done. nia.
Qed.

Lemma image_address p i : valid_range fs p i 1 →
  ∃ a, file_address fs (locate fs p i) = Some a ∧
    disk_order es !! Z.to_nat (p * plen + i) = Some a ∧ 0 ≤ a < size.
Proof.
  intros Hr. destruct (image_byte p i Hr) as [Hg _].
  destruct (place_extent w es 0 (p * plen + i) ext_lengths Hg)
    as (j & o & l & off & Hpl & Hj & Hoff & Hd).
  pose proof (proj1 (Forall_lookup _ _) (ext_inside _ _ _ Hok) j (o, l) Hj) as Hin. simpl in Hin.
  destruct (ext_digits _ _ _ Hok). pose proof (ext_size _ _ _ Hok).
  exists (o + off). split_and!; [|done|lia|lia].
  rewrite (it_locate _ _ _ _ Hfs), Hpl by done. unfold file_address. cbn [fst snd].
  rewrite Z.add_0_l, (it_name _ _ _ _ Hfs j o l Hj).
  rewrite <-(append_nil (hex_name w o)), stoll16_name_suffix; [done|lia..|done|done].
Qed.

Lemma image_address_order fd p i : valid_range fs p i 1 →
  disk_order es !! Z.to_nat (p * plen + i) = Some (address (mkStorage fd fs) p i).
Proof.
  intros Hr. destruct (image_address p i Hr) as (a & Ha & Ho & _). unfold address. simpl.
  by rewrite Ha.
Qed.

(** No two bytes of the torrent share an address. *)
Lemma image_distinct fd : addresses_distinct (mkStorage fd fs).
Proof.
  intros p1 i1 p2 i2 Hr1 Hr2 Heq. simpl in Hr1, Hr2.
  pose proof (image_address_order fd p1 i1 Hr1) as H1.
  pose proof (image_address_order fd p2 i2 Hr2) as H2. rewrite Heq in H1.
  pose proof (NoDup_lookup _ _ _ _ (ext_apart _ _ _ Hok) H1 H2) as Hn.
  destruct (image_byte p1 i1 Hr1) as (? & ? & ?), (image_byte p2 i2 Hr2) as (? & ? & ?).
  assert (p1 = p2) by nia. subst. lia.
Qed.

(** On a device that reaches [size], each has an address there. *)
Lemma image_placed {K} `{KernelLaws K} fd d (k : K) :
  k_dev fd k = Some d → (∀ a, 0 ≤ a < size → is_Some (k_byte d a k)) →
  placed (mkStorage fd fs) d k.
Proof.
  intros Hdev Hdisk. split; simpl; [apply Hfs|done|..]; intros p i Hr;
    destruct (image_address p i Hr) as (a & Ha & _ & Hb); pose proof (ext_size _ _ _ Hok);
    unfold address; simpl; rewrite Ha; simpl; [split; [done|lia]|by apply Hdisk].
Qed.

(** Every byte of the image is a byte of a piece. *)
Lemma image_pieces g a : disk_order es !! g = Some a →
  valid_range fs (Z.of_nat g / plen) (Z.of_nat g mod plen) 1 ∧
  Z.to_nat (Z.of_nat g / plen * plen + Z.of_nat g mod plen) = g.
Proof.
  intros Hg%lookup_lt_Some. pose proof (length_disk_order es ext_lengths) as Hlen.
  rewrite <-(total_size_digits w) in Hlen.
  pose proof (Z.div_mod (Z.of_nat g) plen). pose proof (Z.mod_pos_bound (Z.of_nat g) plen).
  assert (Z.of_nat g / plen * plen + Z.of_nat g mod plen = Z.of_nat g) as E by lia.
  split; [|by rewrite E, Nat2Z.id].
  assert (0 ≤ Z.of_nat g / plen < fs_num_pieces fs) as Hq.
  { rewrite (it_pieces _ _ _ _ Hfs). set (t := total_size (extent_files w es)) in *.
    set (q := Z.of_nat g / plen) in *. split; [by apply Z.div_pos; lia|].
    enough (q + 1 ≤ (t + plen - 1) / plen) by lia. apply Z.div_le_lower_bound; nia. }
  unfold valid_range. rewrite (it_piece_size _ _ _ _ Hfs) by done.
  split_and!; [apply Hq..|lia|lia|nia].
Qed.

Lemma image_piece_size p : 0 ≤ p < fs_num_pieces fs → 0 < fs_piece_size fs p ≤ plen.
Proof.
  intros Hp. rewrite (it_piece_size _ _ _ _ Hfs) by done. rewrite (it_pieces _ _ _ _ Hfs) in Hp.
  set (t := total_size (extent_files w es)) in *.
  pose proof (Z.div_mod (t + plen - 1) plen). pose proof (Z.mod_pos_bound (t + plen - 1) plen).
  nia.
Qed.
End image.
