(* ===== verification/RawDiskIO.v ===== *)
(** * raw_disk_io (raw_disk_io.hpp, raw_disk_io.cpp)

    The disk back end that EZIO plugs into libtorrent.  An [async_*] call runs on
    the caller's thread; it may call its handler at once, post a completion to the
    I/O context, or post a job to one of three thread pools, which later transfers
    the data and posts the completion.

    [disk_io] is the object's state together with what it shares with the rest of
    the process: the heap, the kernel, the queue of the I/O context, the handlers
    called so far and the read buffers that the handlers hold.  The member
    functions are computations [M A] over it, written in the order of the code.
    A job is a value of a thread pool's queue: the variables its lambda captured.
    What [malloc] answers is an argument of the operations that allocate.
    [std::function] handlers are known by a number. *)

From S2P Require Import Prelude Memory BufferPool StoreBuffer Kernel PartitionStorage.

(** ** libtorrent's data *)

Record peer_request := mkReq {
  r_piece : Z;
  r_start : Z;   (** int *)
  r_length : Z;  (** int *)
}.

Inductive status_t := St_no_error | St_fatal_disk_error.

(** libtorrent::hasher *)
Class Hasher (HS digest : Type) := {
  hasher_new : HS;
  hasher_update : HS → list byte → HS;
  hasher_final : HS → digest;
}.

Abbreviation handler := nat.

(** ** Jobs and completions *)

(** The read lambdas of async_read: read [rj_length] bytes at [rj_offset] of
    the piece into [rj_buf + rj_pos]. *)
Record read_job := mkReadJob {
  rj_handler : handler;
  rj_storage : Z;
  rj_piece : Z;
  rj_buf : ptr;
  rj_pos : Z;
  rj_offset : Z;
  rj_length : Z;
}.

(** How far the write lambda has got: posted, data transferred, store buffer
    entry erased. *)
Inductive write_phase :=
| W_posted
| W_written (e : storage_error)
| W_erased (e : storage_error).

Record write_job := mkWriteJob {
  wj_handler : handler;
  wj_storage : Z;
  wj_request : peer_request;
  wj_buf : ptr;
  wj_phase : write_phase;
}.

(** How far the hash lambda has got: posted, about to look up the block at
    [offset] with [n] turns of the loop left (the loop is over at none), or to
    read it from disk because the lookup missed. *)
Inductive hash_phase (HS : Type) :=
| H_posted
| H_get (n : nat) (offset : Z) (ph : HS) (e : storage_error)
| H_read (n : nat) (offset : Z) (ph : HS) (e : storage_error).
Arguments H_posted {HS}.
Arguments H_get {HS} n offset ph e.
Arguments H_read {HS} n offset ph e.

Record hash_job (HS : Type) := mkHashJob {
  hj_handler : handler;
  hj_storage : Z;
  hj_piece : Z;
  hj_buf : ptr;
  hj_phase : hash_phase HS;
}.
Arguments mkHashJob {HS}.
Arguments hj_handler {HS}.
Arguments hj_storage {HS}.
Arguments hj_piece {HS}.
Arguments hj_buf {HS}.
Arguments hj_phase {HS}.

(** Calls of handlers, with their arguments: what is posted to the I/O context
    and what has been called. *)
Inductive completion (digest : Type) :=
| C_read (h : handler) (buf : option ptr) (e : storage_error)
| C_write (h : handler) (e : storage_error)
| C_hash (h : handler) (p : Z) (hash : option digest) (e : storage_error)
| C_move_storage (h : handler) (s : status_t) (path : string) (e : storage_error)
| C_check_files (h : handler) (s : status_t) (e : storage_error)
| C_stop_torrent (h : handler)
| C_rename_file (h : handler) (name : string) (index : Z) (e : storage_error)
| C_delete_files (h : handler) (e : storage_error)
| C_set_file_priority (h : handler) (e : storage_error) (prio : list Z)
| C_clear_piece (h : handler) (index : Z)
| C_watermark (cbs : list observer).
Arguments C_read {digest} h buf e.
Arguments C_write {digest} h e.
Arguments C_hash {digest} h p hash e.
Arguments C_move_storage {digest} h s path e.
Arguments C_check_files {digest} h s e.
Arguments C_stop_torrent {digest} h.
Arguments C_rename_file {digest} h name index e.
Arguments C_delete_files {digest} h e.
Arguments C_set_file_priority {digest} h e prio.
Arguments C_clear_piece {digest} h index.
Arguments C_watermark {digest} cbs.

(** ** State *)

Record disk_io (K HS digest : Type) := mkIO {
  heap_ : heap;
  kernel_ : K;
  read_buffer_pool_ : buffer_pool;
  write_buffer_pool_ : buffer_pool;
  store_buffer_ : store_buffer;
  read_thread_pool_ : list read_job;
  write_thread_pool_ : list write_job;
  hash_thread_pool_ : list (hash_job HS);
  ioc_ : list (completion digest);          (** posted and not yet run *)
  storages_ : gmap Z partition_storage;
  free_slots_ : list Z;
  called_ : list (completion digest);       (** handlers called so far *)
  held_ : list ptr;                         (** read buffers the handlers hold *)
}.
Arguments mkIO {K HS digest}.
Arguments heap_ {K HS digest}.
Arguments kernel_ {K HS digest}.
Arguments read_buffer_pool_ {K HS digest}.
Arguments write_buffer_pool_ {K HS digest}.
Arguments store_buffer_ {K HS digest}.
Arguments read_thread_pool_ {K HS digest}.
Arguments write_thread_pool_ {K HS digest}.
Arguments hash_thread_pool_ {K HS digest}.
Arguments ioc_ {K HS digest}.
Arguments storages_ {K HS digest}.
Arguments free_slots_ {K HS digest}.
Arguments called_ {K HS digest}.
Arguments held_ {K HS digest}.

Section raw_disk_io.
Context {K HS digest : Type} `{Kernel K} `{Hasher HS digest}.

Abbreviation io := (disk_io K HS digest).

(** raw_disk_io::raw_disk_io *)
Definition new_raw_disk_io (h : heap) (k : K) : io :=
  mkIO h k new_buffer_pool new_buffer_pool ∅ [] [] [] [] ∅ [] [] [].

(** ** Field updates *)

Definition set_heap (v : heap) (s : io) : io :=
  mkIO v (kernel_ s) (read_buffer_pool_ s) (write_buffer_pool_ s) (store_buffer_ s)
    (read_thread_pool_ s) (write_thread_pool_ s) (hash_thread_pool_ s) (ioc_ s)
    (storages_ s) (free_slots_ s) (called_ s) (held_ s).
Definition set_kernel (v : K) (s : io) : io :=
  mkIO (heap_ s) v (read_buffer_pool_ s) (write_buffer_pool_ s) (store_buffer_ s)
    (read_thread_pool_ s) (write_thread_pool_ s) (hash_thread_pool_ s) (ioc_ s)
    (storages_ s) (free_slots_ s) (called_ s) (held_ s).
Definition set_read_buffer_pool (v : buffer_pool) (s : io) : io :=
  mkIO (heap_ s) (kernel_ s) v (write_buffer_pool_ s) (store_buffer_ s)
    (read_thread_pool_ s) (write_thread_pool_ s) (hash_thread_pool_ s) (ioc_ s)
    (storages_ s) (free_slots_ s) (called_ s) (held_ s).
Definition set_write_buffer_pool (v : buffer_pool) (s : io) : io :=
  mkIO (heap_ s) (kernel_ s) (read_buffer_pool_ s) v (store_buffer_ s)
    (read_thread_pool_ s) (write_thread_pool_ s) (hash_thread_pool_ s) (ioc_ s)
    (storages_ s) (free_slots_ s) (called_ s) (held_ s).
Definition set_store_buffer (v : store_buffer) (s : io) : io :=
  mkIO (heap_ s) (kernel_ s) (read_buffer_pool_ s) (write_buffer_pool_ s) v
    (read_thread_pool_ s) (write_thread_pool_ s) (hash_thread_pool_ s) (ioc_ s)
    (storages_ s) (free_slots_ s) (called_ s) (held_ s).
Definition set_read_thread_pool (v : list read_job) (s : io) : io :=
  mkIO (heap_ s) (kernel_ s) (read_buffer_pool_ s) (write_buffer_pool_ s) (store_buffer_ s)
    v (write_thread_pool_ s) (hash_thread_pool_ s) (ioc_ s)
    (storages_ s) (free_slots_ s) (called_ s) (held_ s).
Definition set_write_thread_pool (v : list write_job) (s : io) : io :=
  mkIO (heap_ s) (kernel_ s) (read_buffer_pool_ s) (write_buffer_pool_ s) (store_buffer_ s)
    (read_thread_pool_ s) v (hash_thread_pool_ s) (ioc_ s)
    (storages_ s) (free_slots_ s) (called_ s) (held_ s).
Definition set_hash_thread_pool (v : list (hash_job HS)) (s : io) : io :=
  mkIO (heap_ s) (kernel_ s) (read_buffer_pool_ s) (write_buffer_pool_ s) (store_buffer_ s)
    (read_thread_pool_ s) (write_thread_pool_ s) v (ioc_ s)
    (storages_ s) (free_slots_ s) (called_ s) (held_ s).
Definition set_ioc (v : list (completion digest)) (s : io) : io :=
  mkIO (heap_ s) (kernel_ s) (read_buffer_pool_ s) (write_buffer_pool_ s) (store_buffer_ s)
    (read_thread_pool_ s) (write_thread_pool_ s) (hash_thread_pool_ s) v
    (storages_ s) (free_slots_ s) (called_ s) (held_ s).
Definition set_storages (v : gmap Z partition_storage) (s : io) : io :=
  mkIO (heap_ s) (kernel_ s) (read_buffer_pool_ s) (write_buffer_pool_ s) (store_buffer_ s)
    (read_thread_pool_ s) (write_thread_pool_ s) (hash_thread_pool_ s) (ioc_ s)
    v (free_slots_ s) (called_ s) (held_ s).
Definition set_free_slots (v : list Z) (s : io) : io :=
  mkIO (heap_ s) (kernel_ s) (read_buffer_pool_ s) (write_buffer_pool_ s) (store_buffer_ s)
    (read_thread_pool_ s) (write_thread_pool_ s) (hash_thread_pool_ s) (ioc_ s)
    (storages_ s) v (called_ s) (held_ s).
Definition set_called (v : list (completion digest)) (s : io) : io :=
  mkIO (heap_ s) (kernel_ s) (read_buffer_pool_ s) (write_buffer_pool_ s) (store_buffer_ s)
    (read_thread_pool_ s) (write_thread_pool_ s) (hash_thread_pool_ s) (ioc_ s)
    (storages_ s) (free_slots_ s) v (held_ s).
Definition set_held (v : list ptr) (s : io) : io :=
  mkIO (heap_ s) (kernel_ s) (read_buffer_pool_ s) (write_buffer_pool_ s) (store_buffer_ s)
    (read_thread_pool_ s) (write_thread_pool_ s) (hash_thread_pool_ s) (ioc_ s)
    (storages_ s) (free_slots_ s) (called_ s) v.

(** ** The state-and-fault monad *)

Definition M (A : Type) : Type := io → outcome (A * io).

Definition ret {A} (a : A) : M A := λ s, Ret (a, s).
Definition bind {A B} (m : M A) (f : A → M B) : M B :=
  λ s, let! (a, s) := m s in f a s.
Definition fail {A} (f : fault) : M A := λ _, Fault f.

Local Notation "x <- m ; k" := (bind m (λ x, k))
  (at level 100, m at next level, k at level 200, right associativity).
Local Notation "m ;; k" := (bind m (λ _, k)) (at level 100, k at level 200, right associativity).

Definition boost_assert (b : bool) : M unit := if b then ret tt else fail Assert_failed.

Definition lift {A} (c : outcome A) : M A := λ s, let! a := c in Ret (a, s).

Definition gets {A} (f : io → A) : M A := λ s, Ret (f s, s).
Definition modify (f : io → io) : M unit := λ s, Ret (tt, f s).

(** memcpy(dst + dst_off, src + src_off, n) *)
Definition memcpy (dst : ptr) (dst_off : Z) (src : ptr) (src_off n : Z) (h : heap)
    : outcome heap :=
  let! bytes := load src src_off n h in
  store dst dst_off bytes h.

Definition with_heap (f : heap → outcome heap) : M unit := λ s,
  let! h := f (heap_ s) in Ret (tt, set_heap h s).

(** post(ioc_, ...) *)
Definition post_ioc (c : completion digest) : M unit :=
  modify (λ s, set_ioc (ioc_ s ++ [c]) s).

(** The buffer a completion hands to its handler. *)
Definition handed (c : completion digest) : list ptr :=
  match c with
  | C_read _ (Some a) _ => [a]
  | _ => []
  end.

(** Calling a handler; a buffer it is given is the handler's from then on. *)
Definition call (c : completion digest) : M unit :=
  modify (λ s, set_held (held_ s ++ handed c) (set_called (called_ s ++ [c]) s)).

Definition post_read_job (j : read_job) : M unit :=
  modify (λ s, set_read_thread_pool (read_thread_pool_ s ++ [j]) s).
Definition post_write_job (j : write_job) : M unit :=
  modify (λ s, set_write_thread_pool (write_thread_pool_ s ++ [j]) s).
Definition post_hash_job (j : hash_job HS) : M unit :=
  modify (λ s, set_hash_thread_pool (hash_thread_pool_ s ++ [j]) s).

(** read_buffer_pool_.allocate_buffer() *)
Definition allocate_read_buffer (m : malloc_result) : M (option ptr) := λ s,
  let '(buf, h, p) := allocate_buffer m (heap_ s) (read_buffer_pool_ s) in
  Ret (buf, set_read_buffer_pool p (set_heap h s)).

(** write_buffer_pool_.allocate_buffer(exceeded, o) *)
Definition allocate_write_buffer (m : malloc_result) (exceeded : bool) (o : option observer)
    : M (option ptr * bool) := λ s,
  let '(buf, exceeded, h, p) :=
    allocate_buffer_observed m exceeded o (heap_ s) (write_buffer_pool_ s) in
  Ret ((buf, exceeded), set_write_buffer_pool p (set_heap h s)).

Definition watermark_post (posted : option (list observer)) : list (completion digest) :=
  match posted with Some cbs => [C_watermark cbs] | None => [] end.

(** A disk_buffer_holder of the read pool lets go of its buffer. *)
Definition free_read_buffer (a : ptr) : M unit := λ s,
  let! (h, p, posted) := free_disk_buffer (Some a) (heap_ s) (read_buffer_pool_ s) in
  Ret (tt, set_ioc (ioc_ s ++ watermark_post posted) (set_read_buffer_pool p (set_heap h s))).

(** A disk_buffer_holder of the write pool lets go of its buffer. *)
Definition free_write_buffer (a : ptr) : M unit := λ s,
  let! (h, p, posted) := free_disk_buffer (Some a) (heap_ s) (write_buffer_pool_ s) in
  Ret (tt, set_ioc (ioc_ s ++ watermark_post posted) (set_write_buffer_pool p (set_heap h s))).

(** *storages_[idx]: an index that is not there gives a null pointer. *)
Definition storage_at (idx : Z) : M partition_storage := λ s,
  let! st := of_option Null_deref (storages_ s !! idx) in Ret (st, s).

(** storages_[idx]->read(buf + pos, piece, offset, length, error) *)
Definition storage_read (st : partition_storage) (buf : ptr) (pos p off len : Z)
    (error : storage_error) : M (Z * storage_error) := λ s,
  let! (n, e, h) := read st buf pos p off len error (kernel_ s) (heap_ s) in
  Ret ((n, e), set_heap h s).

(** storages_[idx]->write(buf, piece, offset, length, error) *)
Definition storage_write (st : partition_storage) (buf : ptr) (p off len : Z)
    (error : storage_error) : M storage_error := λ s,
  let! (e, k) := write st buf p off len error (kernel_ s) (heap_ s) in
  Ret (e, set_kernel k s).

(** store_buffer_.get(loc, f), for an [f] that copies within the heap *)
Definition store_buffer_get (loc : torrent_location) (f : ptr → heap → outcome heap) : M bool :=
  λ s, let! (hit, h) := get loc f (store_buffer_ s) (heap_ s) in Ret (hit, set_heap h s).

Definition store_buffer_get2 (loc1 loc2 : torrent_location)
    (f : option ptr → option ptr → heap → outcome (Z * heap)) : M Z :=
  λ s, let! (n, h) := get2 loc1 loc2 f (store_buffer_ s) (heap_ s) in Ret (n, set_heap h s).

(** store_buffer_.insert and store_buffer_.erase *)
Definition store_buffer_insert (loc : torrent_location) (buf : ptr) : M unit :=
  modify (λ s, set_store_buffer (insert loc buf (store_buffer_ s)) s).
Definition store_buffer_erase (loc : torrent_location) : M unit :=
  modify (λ s, set_store_buffer (erase loc (store_buffer_ s)) s).

(** ** new_torrent and remove_torrent *)

(** raw_disk_io::new_torrent; the index is that of the storage_holder. *)
Definition new_torrent (path : string) (files : file_storage) : M Z := λ s,
  let idx := Z.of_nat (size (storages_ s)) in
  let '(idx, slots) := match free_slots_ s with
                       | [] => (idx, [])
                       | front :: slots => (front, slots)
                       end in
  let! (st, k) := new_partition_storage path files (kernel_ s) in
  (* emplace keeps an entry that is there; the new storage is then dropped *)
  let '(sts, k) := match storages_ s !! idx with
                   | Some _ => (storages_ s, delete_partition_storage st k)
                   | None => (<[idx := st]> (storages_ s), k)
                   end in
  Ret (idx, set_free_slots slots (set_storages sts (set_kernel k s))).

(** raw_disk_io::remove_torrent *)
Definition remove_torrent (idx : Z) : M unit := λ s,
  let k := match storages_ s !! idx with
           | Some st => delete_partition_storage st (kernel_ s)
           | None => kernel_ s
           end in
  Ret (tt, set_free_slots (free_slots_ s ++ [idx])
             (set_storages (delete idx (storages_ s)) (set_kernel k s))).

(** raw_disk_io::~raw_disk_io: each join returns once its pool has nothing left to
    run (none: it blocks); the storages go with the members, and their
    descriptors are closed. *)
Definition delete_raw_disk_io (s : io) : option K :=
  match read_thread_pool_ s, write_thread_pool_ s, hash_thread_pool_ s with
  | [], [], [] =>
      Some (foldr delete_partition_storage (kernel_ s) (map_to_list (storages_ s)).*2)
  | _, _, _ => None
  end.

(** ** async_read *)

(** The lambda async_read gives to get2: copy the tail of the first block and
    the head of the second, whichever are there, and say which were. *)
Definition copy_two_blocks (buf : ptr) (read_offset len1 length : Z)
    (buf1 buf2 : option ptr) (h : heap) : outcome (Z * heap) :=
  let! h := match buf1 with
            | Some b => memcpy buf 0 b read_offset len1 h
            | None => Ret h
            end in
  let! h := match buf2 with
            | Some b => memcpy buf len1 b 0 (length - len1) h
            | None => Ret h
            end in
  Ret (Z.lor (match buf1 with Some _ => 2 | None => 0 end)
             (match buf2 with Some _ => 1 | None => 0 end), h).

(** raw_disk_io::async_read *)
Definition async_read (m : malloc_result) (idx : Z) (r : peer_request) (handler : handler)
    : M unit :=
  boost_assert (r_length r <=? DEFAULT_BLOCK_SIZE);;
  if (r_length r <=? 0) || (r_start r <? 0) then
    call (C_read handler None (mkErr None Invalid_request File_read))
  else
    buf <- allocate_read_buffer m;
    match buf with
    | None => call (C_read handler None (mkErr None No_memory Alloc_cache_piece))
    | Some buf =>
        block_offset <- lift (int (r_start r - Z.rem (r_start r) DEFAULT_BLOCK_SIZE));
        read_offset <- lift (int (r_start r - block_offset));
        (* the job of the normal case *)
        let normal := mkReadJob handler idx (r_piece r) buf 0 (r_start r) (r_length r) in
        (* it might be unaligned request *)
        read_end <- lift (int (read_offset + r_length r));
        if DEFAULT_BLOCK_SIZE <? read_end then
          (* unaligned *)
          block2 <- lift (int (block_offset + DEFAULT_BLOCK_SIZE));
          let loc1 := mkLoc idx (r_piece r) block_offset in
          let loc2 := mkLoc idx (r_piece r) block2 in
          len1 <- lift (int (DEFAULT_BLOCK_SIZE - read_offset));
          boost_assert (len1 <? r_length r);;
          ret_ <- store_buffer_get2 loc1 loc2 (copy_two_blocks buf read_offset len1 (r_length r));
          if ret_ =? 3 then
            (* success get whole piece, return immediately *)
            call (C_read handler (Some buf) no_storage_error)
          else if negb (ret_ =? 0) then
            (* partial *)
            let offset := if ret_ =? 1 then r_start r else block2 in
            let len := if ret_ =? 1 then len1 else r_length r - len1 in
            let buf_offset := if ret_ =? 1 then 0 else len1 in
            post_read_job (mkReadJob handler idx (r_piece r) buf buf_offset offset len)
          else
            (* if we cannot find any block, post it as normal job *)
            post_read_job normal
        else
          (* aligned block *)
          hit <- store_buffer_get (mkLoc idx (r_piece r) block_offset)
                   (λ buf1, memcpy buf 0 buf1 read_offset (r_length r));
          if (hit : bool) then call (C_read handler (Some buf) no_storage_error)
          else post_read_job normal
    end.

(** The body of the posted read lambdas. *)
Definition run_read_job (j : read_job) : M unit :=
  st <- storage_at (rj_storage j);
  res <- storage_read st (rj_buf j) (rj_pos j) (rj_piece j) (rj_offset j) (rj_length j)
           no_storage_error;
  let '(_, error) := res in
  post_ioc (C_read (rj_handler j) (Some (rj_buf j)) error).

(** ** async_write *)

(** raw_disk_io::async_write; the answer is [exceeded]. *)
Definition async_write (m : malloc_result) (storage : Z) (r : peer_request) (buf : ptr)
    (o : option observer) (handler : handler) : M bool :=
  boost_assert (r_length r <=? DEFAULT_BLOCK_SIZE);;
  res <- allocate_write_buffer m false o;
  let '(buffer, exceeded) := res in
  match buffer with
  | Some buffer =>
      (* async *)
      with_heap (memcpy buffer 0 buf 0 (r_length r));;
      store_buffer_insert (mkLoc storage (r_piece r) (r_start r)) buffer;;
      post_write_job (mkWriteJob handler storage r buffer W_posted);;
      ret exceeded
  | None =>
      (* sync *)
      st <- storage_at storage;
      error <- storage_write st buf (r_piece r) (r_start r) (r_length r) no_storage_error;
      post_ioc (C_write handler error);;
      ret exceeded
  end.

Definition wj_loc (j : write_job) : torrent_location :=
  mkLoc (wj_storage j) (r_piece (wj_request j)) (r_start (wj_request j)).

Definition set_phase (ph : write_phase) (j : write_job) : write_job :=
  mkWriteJob (wj_handler j) (wj_storage j) (wj_request j) (wj_buf j) ph.

(** The body of the posted write lambda up to its next effect that others can
    see; the answer is what is left of the job. *)
Definition run_write_job (j : write_job) : M (option write_job) :=
  match wj_phase j with
  | W_posted =>
      st <- storage_at (wj_storage j);
      error <- storage_write st (wj_buf j) (r_piece (wj_request j)) (r_start (wj_request j))
                 (r_length (wj_request j)) no_storage_error;
      ret (Some (set_phase (W_written error) j))
  | W_written error =>
      store_buffer_erase (wj_loc j);;
      ret (Some (set_phase (W_erased error) j))
  | W_erased error =>
      (* post the completion; the lambda and its buffer go *)
      post_ioc (C_write (wj_handler j) error);;
      free_write_buffer (wj_buf j);;
      ret None
  end.

(** ** async_hash *)

(** raw_disk_io::async_hash; [v2] and [flags] are not used. *)
Definition async_hash (m : malloc_result) (storage p : Z) (handler : handler) : M unit :=
  buf <- allocate_read_buffer m;
  match buf with
  | None => post_ioc (C_hash handler p None (mkErr None No_memory Alloc_cache_piece))
  | Some buf => post_hash_job (mkHashJob handler storage p buf H_posted)
  end.

(** The lambda that the hash loop gives to get: hash the buffer in place. *)
Definition hash_from_buffer (len : Z) (buf1 : ptr) (s : heap * HS * Z) : outcome (heap * HS * Z) :=
  let '(h, ph, _) := s in
  let! bytes := load buf1 0 len h in
  Ret (h, hasher_update ph bytes, len).

Definition set_hash_phase (ph : hash_phase HS) (j : hash_job HS) : hash_job HS :=
  mkHashJob (hj_handler j) (hj_storage j) (hj_piece j) (hj_buf j) ph.

(** The end of a turn of the loop: [break], or the next turn. *)
Definition next_block (n : nat) (offset ret_ : Z) (ph : HS) (error : storage_error)
    : outcome (hash_phase HS) :=
  if ret_ <=? 0 then Ret (H_get 0 offset ph error)
  else let! offset := int (offset + ret_) in Ret (H_get n offset ph error).

(** blocks_in_piece *)
Definition blocks_of (piece_size : Z) : outcome nat :=
  let! sum := int (piece_size + DEFAULT_BLOCK_SIZE) in
  let! sum := int (sum - 1) in
  let! blocks_in_piece := int (Z.quot sum DEFAULT_BLOCK_SIZE) in
  Ret (Z.to_nat blocks_in_piece).

(** std::min(DEFAULT_BLOCK_SIZE, piece_size - offset) *)
Definition block_len (piece_size offset : Z) : outcome Z :=
  let! left_ := int (piece_size - offset) in
  Ret (Z.min DEFAULT_BLOCK_SIZE left_).

(** The body of the posted hash lambda up to its next access to what it shares:
    the storage, the store buffer, the disk, the I/O context.  The lambda keeps
    [st] and [piece_size]; here they are found again in [storages_] at each access,
    the same ones for as long as the torrent is not removed. *)
Definition run_hash_job (j : hash_job HS) : M (option (hash_job HS)) :=
  match hj_phase j with
  | H_posted =>
      st <- storage_at (hj_storage j);
      blocks_to_read <- lift (blocks_of (piece_size st (hj_piece j)));
      ret (Some (set_hash_phase (H_get blocks_to_read 0 hasher_new no_storage_error) j))
  | H_get O _ ph error =>
      (* the loop is over *)
      post_ioc (C_hash (hj_handler j) (hj_piece j) (Some (hasher_final ph)) error);;
      free_read_buffer (hj_buf j);;
      ret None
  | H_get (S n) offset ph error =>
      st <- storage_at (hj_storage j);
      len <- lift (block_len (piece_size st (hj_piece j)) offset);
      res <- (λ s, let! (hit, (_, ph, ret_)) :=
                get (mkLoc (hj_storage j) (hj_piece j) offset) (hash_from_buffer len)
                  (store_buffer_ s) (heap_ s, ph, 0) in Ret ((hit, ph, ret_), s));
      let '(hit, ph, ret_) := res in
      phase <- lift (if (hit : bool) then next_block n offset ret_ ph error
                     else Ret (H_read n offset ph error));
      ret (Some (set_hash_phase phase j))
  | H_read n offset ph error =>
      st <- storage_at (hj_storage j);
      len <- lift (block_len (piece_size st (hj_piece j)) offset);
      res <- storage_read st (hj_buf j) 0 (hj_piece j) offset len error;
      let '(ret_, error) := res in
      ph <- (if 0 <? ret_ then
               λ s, let! bytes := load (hj_buf j) 0 ret_ (heap_ s) in
                    Ret (hasher_update ph bytes, s)
             else ret ph);
      phase <- lift (next_block n offset ret_ ph error);
      ret (Some (set_hash_phase phase j))
  end.

(** ** The other operations *)

Definition not_supported : storage_error := mkErr None Operation_not_supported Op_unknown.

(** raw_disk_io::async_hash2: an empty body *)
Definition async_hash2 (storage p offset : Z) (handler : handler) : M unit := ret tt.

Definition async_move_storage (storage : Z) (path : string) (handler : handler) : M unit :=
  post_ioc (C_move_storage handler St_fatal_disk_error path not_supported).

(** raw_disk_io::async_release_files: an empty body *)
Definition async_release_files (storage : Z) (handler : handler) : M unit := ret tt.

Definition async_check_files (storage : Z) (handler : handler) : M unit :=
  post_ioc (C_check_files handler St_no_error no_storage_error).

Definition async_stop_torrent (storage : Z) (handler : handler) : M unit :=
  post_ioc (C_stop_torrent handler).

Definition async_rename_file (storage index : Z) (name : string) (handler : handler) : M unit :=
  post_ioc (C_rename_file handler name index no_storage_error).

Definition async_delete_files (storage : Z) (handler : handler) : M unit :=
  post_ioc (C_delete_files handler no_storage_error).

Definition async_set_file_priority (storage : Z) (prio : list Z) (handler : handler) : M unit :=
  post_ioc (C_set_file_priority handler not_supported prio).

Definition async_clear_piece (storage index : Z) (handler : handler) : M unit :=
  post_ioc (C_clear_piece handler index).

(** abort, submit_jobs, settings_updated and update_stats_counters do nothing;
    get_status answers no open file. *)
Definition abort_disk (wait : bool) : M unit := ret tt.
Definition submit_jobs : M unit := ret tt.
Definition settings_updated : M unit := ret tt.
Definition update_stats_counters : M unit := ret tt.
Definition get_status (storage : Z) : M (list Z) := ret [].

End raw_disk_io.
