(* ===== verification/RawDiskIOSteps.v ===== *)
(** * Executions of raw_disk_io

    One step of the process, as far as the disk back end can tell: a call of a
    member function from libtorrent's thread, a pool thread running a posted job
    (a write job
    in its three visible effects, a hash job block by block), the I/O context running the
    completion at its head, a handler letting go of a read buffer, or the client
    filling memory of its own.  A pool thread may take any posted job: this covers
    every order in which eight threads can finish them.

    [disciplined] is what the back end needs of its callers: requests inside the
    torrent, memory that is theirs, and no [remove_torrent] while jobs of the
    torrent are posted. *)

From S2P Require Import Prelude Memory BufferPool StoreBuffer Kernel PartitionStorage.
From S2P Require Import RawDiskIO.

(** The operations that only post a completion, or do nothing. *)
Inductive simple_op :=
| Op_hash2 (storage p offset : Z) (h : handler)
| Op_move_storage (storage : Z) (path : string) (h : handler)
| Op_release_files (storage : Z) (h : handler)
| Op_check_files (storage : Z) (h : handler)
| Op_stop_torrent (storage : Z) (h : handler)
| Op_rename_file (storage index : Z) (name : string) (h : handler)
| Op_delete_files (storage : Z) (h : handler)
| Op_set_file_priority (storage : Z) (prio : list Z) (h : handler)
| Op_clear_piece (storage index : Z) (h : handler)
| Op_abort (wait : bool)
| Op_submit_jobs
| Op_settings_updated
| Op_update_stats_counters
| Op_get_status (storage : Z).

Inductive label :=
| L_new_torrent (path : string) (files : file_storage)
| L_remove_torrent (idx : Z)
| L_async_read (m : malloc_result) (idx : Z) (r : peer_request) (h : handler)
| L_async_write (m : malloc_result) (idx : Z) (r : peer_request) (buf : ptr)
    (o : option observer) (h : handler)
| L_async_hash (m : malloc_result) (idx p : Z) (h : handler)
| L_simple (op : simple_op)
| L_read_job (i : nat)
| L_write_job (i : nat)
| L_hash_job (i : nat)
| L_run_ioc (alive : observer → bool)
| L_release (i : nat)
| L_client_memory (a : ptr) (l : list byte).

Section steps.
Context {K HS digest : Type} `{Kernel K} `{Hasher HS digest}.
Abbreviation io := (disk_io K HS digest).

Definition run_simple (op : simple_op) : M (K := K) (HS := HS) (digest := digest) unit :=
  match op with
  | Op_hash2 st p off h => async_hash2 st p off h
  | Op_move_storage st path h => async_move_storage st path h
  | Op_release_files st h => async_release_files st h
  | Op_check_files st h => async_check_files st h
  | Op_stop_torrent st h => async_stop_torrent st h
  | Op_rename_file st i name h => async_rename_file st i name h
  | Op_delete_files st h => async_delete_files st h
  | Op_set_file_priority st prio h => async_set_file_priority st prio h
  | Op_clear_piece st i h => async_clear_piece st i h
  | Op_abort w => abort_disk w
  | Op_submit_jobs => submit_jobs
  | Op_settings_updated => settings_updated
  | Op_update_stats_counters => update_stats_counters
  | Op_get_status st => bind (get_status st) (λ _, ret tt)
  end.

(** The I/O context runs a completion: handlers are called as they are, the
    watermark callback calls the observers that are still there. *)
Definition run_completion (alive : observer → bool) (c : completion digest) : M (K := K) (HS := HS) unit :=
  match c with
  | C_watermark cbs => call (C_watermark (watermark_callback alive cbs))
  | c => call c
  end.

Definition exec (l : label) (s : io) : outcome io :=
  match l with
  | L_new_torrent path files => let! (_, s) := new_torrent path files s in Ret s
  | L_remove_torrent idx => let! (_, s) := remove_torrent idx s in Ret s
  | L_async_read m idx r h => let! (_, s) := async_read m idx r h s in Ret s
  | L_async_write m idx r buf o h => let! (_, s) := async_write m idx r buf o h s in Ret s
  | L_async_hash m idx p h => let! (_, s) := async_hash m idx p h s in Ret s
  | L_simple op => let! (_, s) := run_simple op s in Ret s
  | L_read_job i =>
      match read_thread_pool_ s !! i with
      | Some j =>
          let! (_, s) := run_read_job j (set_read_thread_pool (delete i (read_thread_pool_ s)) s)
          in Ret s
      | None => Ret s
      end
  | L_write_job i =>
      match write_thread_pool_ s !! i with
      | Some j =>
          let! (rest, s) := run_write_job j s in
          Ret (set_write_thread_pool
                 (match rest with
                  | Some j => <[i := j]> (write_thread_pool_ s)
                  | None => delete i (write_thread_pool_ s)
                  end) s)
      | None => Ret s
      end
  | L_hash_job i =>
      match hash_thread_pool_ s !! i with
      | Some j =>
          let! (rest, s) := run_hash_job j s in
          Ret (set_hash_thread_pool
                 (match rest with
                  | Some j => <[i := j]> (hash_thread_pool_ s)
                  | None => delete i (hash_thread_pool_ s)
                  end) s)
      | None => Ret s
      end
  | L_run_ioc alive =>
      match ioc_ s with
      | c :: cs => let! (_, s) := run_completion alive c (set_ioc cs s) in Ret s
      | [] => Ret s
      end
  | L_release i =>
      match held_ s !! i with
      | Some a => let! (_, s) := free_read_buffer a (set_held (delete i (held_ s)) s) in Ret s
      | None => Ret s
      end
  | L_client_memory a l => Ret (set_heap (<[a := l]> (heap_ s)) s)
  end.

(** ** Who owns which buffer *)

Definition read_owned (s : io) : list ptr :=
  (rj_buf <$> read_thread_pool_ s) ++ (hj_buf <$> hash_thread_pool_ s) ++
  concat (handed <$> ioc_ s) ++ held_ s.

Definition write_owned (s : io) : list ptr := wj_buf <$> write_thread_pool_ s.

(** ** The discipline of the callers *)

(** The files of a torrent: lawful, with pieces an [int] can count in blocks. *)
Definition files_ok (fs : file_storage) : Prop :=
  FileStorageLaws fs ∧
  ∀ p, 0 ≤ p < fs_num_pieces fs → 0 ≤ fs_piece_size fs p < 2 ^ 31 - DEFAULT_BLOCK_SIZE.

Definition request_ok (s : io) (idx p off len : Z) : Prop :=
  ∃ st, storages_ s !! idx = Some st ∧ valid_range (fs_ st) p off len.

Definition unused (idx : Z) (s : io) : Prop :=
  Forall (λ j, rj_storage j ≠ idx) (read_thread_pool_ s) ∧
  Forall (λ j, wj_storage j ≠ idx) (write_thread_pool_ s) ∧
  Forall (λ j, hj_storage j ≠ idx) (hash_thread_pool_ s).

Definition disciplined (l : label) (s : io) : Prop :=
  match l with
  | L_new_torrent path files => 0 ≤ fst (k_open path (kernel_ s)) ∧ files_ok files
  | L_remove_torrent idx => is_Some (storages_ s !! idx) ∧ unused idx s
  | L_async_read m idx r h =>
      malloc_ok (heap_ s) DEFAULT_BLOCK_SIZE m ∧ r_length r ≤ DEFAULT_BLOCK_SIZE ∧
      (r_length r ≤ 0 ∨ r_start r < 0 ∨ request_ok s idx (r_piece r) (r_start r) (r_length r))
  | L_async_write m idx r buf o h =>
      malloc_ok (heap_ s) DEFAULT_BLOCK_SIZE m ∧ r_length r ≤ DEFAULT_BLOCK_SIZE ∧
      request_ok s idx (r_piece r) (r_start r) (r_length r) ∧
      ∃ l, heap_ s !! buf = Some l ∧ r_length r ≤ Z.of_nat (length l)
  | L_async_hash m idx p h =>
      malloc_ok (heap_ s) DEFAULT_BLOCK_SIZE m ∧ request_ok s idx p 0 0
  | L_client_memory a l => a ∉ read_owned s ++ write_owned s
  | _ => True
  end.

Inductive step (l : label) (s s' : io) : Prop :=
| step_intro : disciplined l s → exec l s = Ret s' → step l s s'.

Inductive execution : io → list label → io → Prop :=
| execution_nil s : execution s [] s
| execution_snoc s ls s1 l s2 :
    execution s ls s1 → step l s1 s2 → execution s (ls ++ [l]) s2.

(** ** Running a list of labels *)

Definition request_okb (s : io) (idx p off len : Z) : bool :=
  match storages_ s !! idx with
  | Some st => bool_decide (valid_range (fs_ st) p off len)
  | None => false
  end.

(** The discipline as a test, but for the laws of a new torrent's files. *)
Definition disciplinedb (l : label) (s : io) : bool :=
  match l with
  | L_new_torrent path files => 0 <=? fst (k_open path (kernel_ s))
  | L_remove_torrent idx =>
      bool_decide (is_Some (storages_ s !! idx)) &&
      bool_decide (Forall (λ j, rj_storage j ≠ idx) (read_thread_pool_ s)) &&
      bool_decide (Forall (λ j, wj_storage j ≠ idx) (write_thread_pool_ s)) &&
      bool_decide (Forall (λ j, hj_storage j ≠ idx) (hash_thread_pool_ s))
  | L_async_read m idx r h =>
      bool_decide (malloc_ok (heap_ s) DEFAULT_BLOCK_SIZE m) &&
      (r_length r <=? DEFAULT_BLOCK_SIZE) &&
      ((r_length r <=? 0) || (r_start r <? 0) ||
       request_okb s idx (r_piece r) (r_start r) (r_length r))
  | L_async_write m idx r buf o h =>
      bool_decide (malloc_ok (heap_ s) DEFAULT_BLOCK_SIZE m) &&
      (r_length r <=? DEFAULT_BLOCK_SIZE) &&
      request_okb s idx (r_piece r) (r_start r) (r_length r) &&
      match heap_ s !! buf with
      | Some l => r_length r <=? Z.of_nat (length l)
      | None => false
      end
  | L_async_hash m idx p h =>
      bool_decide (malloc_ok (heap_ s) DEFAULT_BLOCK_SIZE m) && request_okb s idx p 0 0
  | L_client_memory a l => bool_decide (a ∉ read_owned s ++ write_owned s)
  | _ => true
  end.

Definition lawful_label (l : label) : Prop :=
  match l with L_new_torrent _ files => files_ok files | _ => True end.

Lemma request_okb_ok s idx p off len :
  request_okb s idx p off len = true → request_ok s idx p off len.
Proof.
  unfold request_okb, request_ok. destruct (storages_ s !! idx) as [st|]; [|done].
  intros ?%bool_decide_eq_true. eauto.
Qed.

Lemma disciplinedb_ok l s : lawful_label l → disciplinedb l s = true → disciplined l s.
Proof.
  intros Hl Hd. destruct l; simpl in *; rewrite ?andb_true_iff, ?orb_true_iff,
    ?bool_decide_eq_true, ?Z.leb_le in Hd; unfold unused; try tauto.
  - destruct Hd as [[? ?] [[?|?]|?%request_okb_ok]]; boolify; tauto.
  - destruct Hd as [[[? ?] ?%request_okb_ok] Hbuf]. destruct (heap_ s !! buf) as [d|]; [|done].
    boolify. naive_solver.
  - destruct Hd as [? ?%request_okb_ok]. tauto.
Qed.

Fixpoint run (ls : list label) (s : io) : option io :=
  match ls with
  | [] => Some s
  | l :: ls =>
      if disciplinedb l s then
        match exec l s with Ret s => run ls s | Fault _ => None end
      else None
  end.

Lemma execution_cons l s s1 ls s2 :
  step l s s1 → execution s1 ls s2 → execution s (l :: ls) s2.
Proof.
  intros Hl. remember s1 as s1' eqn:Heq. induction 1 as [|s1' ls s3 l' s4 _ IH Hstep]; subst.
  - by apply (execution_snoc s [] s l); [constructor|].
  - change (l :: ls ++ [l']) with ((l :: ls) ++ [l']). econstructor; [by apply IH|done].
Qed.

(** A run is an execution. *)
Lemma run_execution ls s s' :
  Forall lawful_label ls → run ls s = Some s' → execution s ls s'.
Proof.
  revert s. induction ls as [|l ls IH]; intros s Hl Hrun; simpl in Hrun.
  - simplify_eq. constructor.
  - apply Forall_cons in Hl as [Hl Hls].
    destruct (disciplinedb l s) eqn:Hd; [|done]. destruct (exec l s) as [s1|] eqn:Hex; [|done].
    eapply execution_cons; [|by apply IH]. split; [by apply disciplinedb_ok|done].
Qed.

Lemma run_step l s s0 :
  lawful_label l → match run [l] s with Some _ => true | None => false end = true →
  step l s (default s0 (run [l] s)).
Proof.
  intros Hl. simpl. destruct (disciplinedb l s) eqn:Hd; [|done].
  destruct (exec l s) eqn:Hex; [|done].
  intros _. split; [by apply disciplinedb_ok|done].
Qed.

(** ** The invariant *)

Definition is_erased (j : write_job) : bool :=
  match wj_phase j with W_erased _ => true | _ => false end.

(** Indices in use and free slots are, together and without overlap, the
    numbers below their count. *)
Definition slots_inv (sts : gmap Z partition_storage) (slots : list Z) : Prop :=
  NoDup slots ∧ (∀ i, i ∈ slots → sts !! i = None) ∧
  ∀ i, is_Some (sts !! i) ∨ i ∈ slots ↔ 0 ≤ i < Z.of_nat (size sts + length slots).

Definition rj_ok (s : io) (j : read_job) : Prop :=
  request_ok s (rj_storage j) (rj_piece j) (rj_offset j) (rj_length j) ∧
  0 ≤ rj_pos j ∧ rj_pos j + rj_length j ≤ DEFAULT_BLOCK_SIZE.

(** How far into its piece a hash job is. *)
Definition offset_of (ph : hash_phase HS) : Z :=
  match ph with H_posted => 0 | H_get _ off _ _ | H_read _ off _ _ => off end.

Definition wj_ok (s : io) (j : write_job) : Prop :=
  request_ok s (wj_storage j) (r_piece (wj_request j)) (r_start (wj_request j))
    (r_length (wj_request j)) ∧ r_length (wj_request j) ≤ DEFAULT_BLOCK_SIZE.

Definition hj_ok (s : io) (j : hash_job HS) : Prop :=
  request_ok s (hj_storage j) (hj_piece j) (offset_of (hj_phase j)) 0.

(** The invariant, while [er] and [ew] are buffers of the read and the write
    pool that the running operation holds. *)
Record io_inv_with (er ew : list ptr) (s : io) : Prop := {
  inv_read_pool : pool_inv (list_to_set (er ++ read_owned s)) (heap_ s) (read_buffer_pool_ s);
  inv_write_pool : pool_inv (list_to_set (ew ++ write_owned s)) (heap_ s) (write_buffer_pool_ s);
  inv_owned : NoDup ((er ++ read_owned s) ++ (ew ++ write_owned s));
  inv_store : ∀ loc a, store_buffer_ s !! loc = Some a →
    ∃ j, j ∈ write_thread_pool_ s ∧ wj_loc j = loc ∧ wj_buf j = a ∧ is_erased j = false;
  inv_slots : slots_inv (storages_ s) (free_slots_ s);
  inv_files : ∀ idx st, storages_ s !! idx = Some st → files_ok (fs_ st);
  inv_read_jobs : Forall (rj_ok s) (read_thread_pool_ s);
  inv_write_jobs : Forall (wj_ok s) (write_thread_pool_ s);
  inv_hash_jobs : Forall (hj_ok s) (hash_thread_pool_ s);
}.

(** The invariant between operations. *)
Definition io_inv (s : io) : Prop := io_inv_with [] [] s.
End steps.
