(* ===== verification/RawDiskIODemo.v ===== *)
(** * A run of raw_disk_io on a RAM disk

    One torrent of one piece, [16388] bytes long: a whole block and a last block
    of four bytes, kept in two extents of the partition.  The run writes the
    piece, reads across its two blocks while they are buffered and again while
    only one is, and hashes it.  It shows that the hypotheses of the theorems
    about executions can hold. *)

From S2P Require Import Prelude Memory BufferPool StoreBuffer Kernel PartitionStorage.
From S2P Require Import RawDiskIO RawDiskIOSteps.
Export RamDisk.

(** A hasher whose digest is the whole input. *)
#[export] Instance list_hasher : Hasher (list byte) (list byte) := {
  hasher_new := [];
  hasher_update := app;
  hasher_final := id;
}.

Abbreviation demo_io := (disk_io ramdisk (list byte) (list byte)).

Definition demo_files : file_storage :=
  LinearStorage.laid_out [("4", DEFAULT_BLOCK_SIZE); ("4004", 4)] (DEFAULT_BLOCK_SIZE + 4).

Definition demo_partition : ramdisk :=
  mkRam ∅ {["/dev/sda1" := zeros (DEFAULT_BLOCK_SIZE + 8)]}.

Definition demo_start : demo_io := new_raw_disk_io ∅ demo_partition.

Definition demo_data : list byte := replicate (Z.to_nat DEFAULT_BLOCK_SIZE) x01.

Definition got (p : ptr) : malloc_result := Some (p, zeros DEFAULT_BLOCK_SIZE).

Definition demo_writes : list label :=
  [L_new_torrent "/dev/sda1" demo_files;
   L_client_memory 1%positive demo_data;
   L_async_write (got 2) 0 (mkReq 0 0 DEFAULT_BLOCK_SIZE) 1%positive None 7%nat;
   L_async_write (got 3) 0 (mkReq 0 DEFAULT_BLOCK_SIZE 4) 1%positive None 8%nat].

Definition demo_labels : list label :=
  demo_writes ++
  [L_async_read (got 4) 0 (mkReq 0 16380 8) 9%nat;
   L_write_job 0; L_write_job 0;
   L_async_read (got 5) 0 (mkReq 0 16380 8) 10%nat;
   L_async_hash (got 6) 0 0 11%nat;
   L_read_job 0].

Definition demo_state (ls : list label) : demo_io := default demo_start (run ls demo_start).

Lemma demo_files_ok : files_ok demo_files.
Proof.
  split; [by apply LinearStorage.laid_out_laws|]. intros p Hp.
  change (fs_num_pieces demo_files) with 1 in Hp. assert (p = 0) as -> by lia. done.
Qed.

Lemma demo_execution ls :
  Forall (λ l, match l with L_new_torrent _ files => files = demo_files | _ => True end) ls →
  match run ls demo_start with Some _ => true | None => false end = true →
  execution demo_start ls (demo_state ls).
Proof.
  intros Hls Hrun. apply run_execution.
  - eapply Forall_impl; [exact Hls|]. intros [] Hl; simpl; try done. subst. apply demo_files_ok.
  - unfold demo_state. by destruct (run ls demo_start).
Qed.

Lemma demo_labels_run : execution demo_start demo_labels (demo_state demo_labels).
Proof. apply demo_execution; [by repeat constructor|by vm_compute]. Qed.

Lemma demo_writes_run : execution demo_start demo_writes (demo_state demo_writes).
Proof. apply demo_execution; [by repeat constructor|by vm_compute]. Qed.
