(* ===== verification/RawDiskIOSpec.v ===== *)
(** * What the member functions of raw_disk_io do, case by case

    Equations for [async_read], [async_write], [async_hash] and the jobs, free of
    the monad: which state each leaves, with the contents of the buffers involved.
    [buffered] is the byte that the store buffer holds for a byte of a piece. *)

From S2P Require Import Prelude Memory BufferPool StoreBuffer Kernel PartitionStorage.
From S2P Require Import RawDiskIO RawDiskIOSteps.

(** The block a byte of a piece belongs to. *)
Definition block_of (i : Z) : Z := i - i mod DEFAULT_BLOCK_SIZE.

Lemma block_size_value : DEFAULT_BLOCK_SIZE = 16384.
Proof. done. Qed.

Section block_arith.
Implicit Types start i : Z.

Lemma block_bounds i : block_of i ≤ i < block_of i + DEFAULT_BLOCK_SIZE.
Proof.
  unfold block_of. pose proof (Z.mod_pos_bound i DEFAULT_BLOCK_SIZE).
  rewrite block_size_value in *. lia.
Qed.

(** The bytes of a request that fall in the block of its start. *)
Lemma block_first start i :
  0 ≤ i → start mod DEFAULT_BLOCK_SIZE + i < DEFAULT_BLOCK_SIZE →
  block_of (start + i) = block_of start ∧
  (start + i) mod DEFAULT_BLOCK_SIZE = start mod DEFAULT_BLOCK_SIZE + i.
Proof.
  unfold block_of. rewrite block_size_value. intros.
  pose proof (Z.mod_pos_bound start 16384).
  assert ((start + i) mod 16384 = start mod 16384 + i); [|lia].
  rewrite (Z.div_mod start 16384) at 1 by lia.
  rewrite <-Z.add_assoc, Z.add_comm, Z.mul_comm, Z_mod_plus_full. apply Z.mod_small. lia.
Qed.

(** And those that fall in the next one. *)
Lemma block_second start i :
  DEFAULT_BLOCK_SIZE ≤ start mod DEFAULT_BLOCK_SIZE + i < 2 * DEFAULT_BLOCK_SIZE →
  block_of (start + i) = block_of start + DEFAULT_BLOCK_SIZE ∧
  (start + i) mod DEFAULT_BLOCK_SIZE = start mod DEFAULT_BLOCK_SIZE + i - DEFAULT_BLOCK_SIZE.
Proof.
  unfold block_of. rewrite block_size_value. intros.
  assert ((start + i) mod 16384 = start mod 16384 + i - 16384); [|lia].
  rewrite (Z.div_mod start 16384) at 1 by lia.
  replace (16384 * (start / 16384) + start mod 16384 + i)
    with ((start mod 16384 + i - 16384) + (start / 16384 + 1) * 16384) by lia.
  rewrite Z_mod_plus_full. apply Z.mod_small. lia.
Qed.

Lemma block_of_aligned i : i mod DEFAULT_BLOCK_SIZE = 0 → block_of i = i.
Proof. unfold block_of. lia. Qed.

Lemma block_of_idemp i : block_of i mod DEFAULT_BLOCK_SIZE = 0.
Proof.
  unfold block_of. rewrite Zminus_mod_idemp_r, Z.sub_diag. done.
Qed.
End block_arith.

Lemma memcpy_ret dst doff src soff n h ls ld :
  dst ≠ src → h !! src = Some ls → h !! dst = Some ld →
  0 ≤ soff → 0 ≤ n → soff + n ≤ Z.of_nat (length ls) →
  0 ≤ doff → doff + n ≤ Z.of_nat (length ld) →
  memcpy dst doff src soff n h =
    Ret (<[dst := blit (Z.to_nat doff) (slice (Z.to_nat soff) (Z.to_nat n) ls) ld]> h).
Proof.
  intros. unfold memcpy. rewrite (load_ret _ _ _ _ ls) by done. simpl.
  apply store_ret; [done..|]. rewrite length_slice; lia.
Qed.

Section specs.
Context {K HS digest : Type} `{Kernel K} `{Hasher HS digest}.
Abbreviation io := (disk_io K HS digest).
Implicit Types s : io.

(** The byte of a piece that the store buffer holds, if it holds its block. *)
Definition buffered (s : io) (idx p i : Z) : option byte :=
  a ← store_buffer_ s !! mkLoc idx p (block_of i);
  l ← heap_ s !! a;
  l !! Z.to_nat (i mod DEFAULT_BLOCK_SIZE).

(** Every entry of the store buffer is a live block. *)
Definition store_live (s : io) : Prop :=
  ∀ loc a, store_buffer_ s !! loc = Some a →
    ∃ l, heap_ s !! a = Some l ∧ Z.of_nat (length l) = DEFAULT_BLOCK_SIZE.

(** The state once a read buffer [a] is allocated and filled with [l]. *)
Definition with_read_buffer (s : io) (pool : buffer_pool) (a : ptr) (l : list byte) : io :=
  set_read_buffer_pool pool (set_heap (<[a := l]> (heap_ s)) s).

Definition deliver (c : completion digest) (s : io) : io :=
  set_held (held_ s ++ handed c) (set_called (called_ s ++ [c]) s).

Definition enqueue_read (j : read_job) (s : io) : io :=
  set_read_thread_pool (read_thread_pool_ s ++ [j]) s.

(** *** async_read *)

Lemma async_read_invalid m idx r h s :
  r_length r ≤ DEFAULT_BLOCK_SIZE → r_length r ≤ 0 ∨ r_start r < 0 →
  async_read m idx r h s =
    Ret (tt, deliver (C_read h None (mkErr None Invalid_request File_read)) s).
Proof.
  intros Hmax Hbad. unfold async_read, boost_assert. rewrite (proj2 (Z.leb_le _ _)) by done.
  unfold bind, ret. simpl.
  assert ((r_length r <=? 0) || (r_start r <? 0) = true) as ->; [|done].
  destruct Hbad; [rewrite (proj2 (Z.leb_le _ _))|rewrite (proj2 (Z.ltb_lt _ _)), orb_true_r]; done.
Qed.

Lemma async_read_no_memory m idx r h s pool h' :
  0 < r_length r ≤ DEFAULT_BLOCK_SIZE → 0 ≤ r_start r →
  allocate_buffer_impl m (heap_ s) (read_buffer_pool_ s) = (None, h', pool) →
  async_read m idx r h s =
    Ret (tt, deliver (C_read h None (mkErr None No_memory Alloc_cache_piece))
               (set_read_buffer_pool pool (set_heap h' s))).
Proof.
  intros Hlen Hstart Halloc. unfold async_read, boost_assert.
  rewrite (proj2 (Z.leb_le (r_length r) DEFAULT_BLOCK_SIZE)) by lia. unfold bind at 1, ret at 1.
  simpl.
  rewrite (proj2 (Z.leb_gt (r_length r) 0)), (proj2 (Z.ltb_ge (r_start r) 0)) by lia. simpl.
  unfold bind, allocate_read_buffer, allocate_buffer. by rewrite Halloc.
Qed.

(** What is left to read from disk is one stretch [pos, pos + n) of the request,
    none of whose blocks is in the store buffer; the rest is in the buffer. *)
Record read_plan (s : io) (idx : Z) (r : peer_request) (l : list byte) (pos n : Z) : Prop := {
  plan_bounds : 0 ≤ pos ∧ 0 ≤ n ∧ pos + n ≤ r_length r;
  plan_length : Z.of_nat (length l) = DEFAULT_BLOCK_SIZE;
  plan_filled i : 0 ≤ i < pos ∨ pos + n ≤ i < r_length r →
    is_Some (buffered s idx (r_piece r) (r_start r + i)) ∧
    l !! Z.to_nat i = buffered s idx (r_piece r) (r_start r + i);
  plan_missing i : pos ≤ i < pos + n →
    store_buffer_ s !! mkLoc idx (r_piece r) (block_of (r_start r + i)) = None;
}.

Lemma buffered_at s idx p i a l :
  store_buffer_ s !! mkLoc idx p (block_of i) = Some a → heap_ s !! a = Some l →
  buffered s idx p i = l !! Z.to_nat (i mod DEFAULT_BLOCK_SIZE).
Proof. intros Ha Hl. unfold buffered. rewrite Ha. simpl. by rewrite Hl. Qed.

(** The outcome of an accepted request: everything found in the store buffer
    and delivered at once, or a job for the stretch that is missing. *)
Definition read_outcome (s : io) (pool : buffer_pool) (a : ptr) (idx : Z) (r : peer_request)
    (h : handler) (res : outcome (unit * io)) : Prop :=
  ∃ l pos n, read_plan s idx r l pos n ∧
    ((n = 0 ∧ res = Ret (tt, deliver (C_read h (Some a) no_storage_error)
                               (with_read_buffer s pool a l))) ∨
     (0 < n ∧ res = Ret (tt, enqueue_read (mkReadJob h idx (r_piece r) a pos (r_start r + pos) n)
                               (with_read_buffer s pool a l)))).

(** One of the two copies of async_read: nothing when the block is absent. *)
Definition fill (b : option ptr) (pos soff n : Z) (h : heap) (l : list byte) : list byte :=
  match b with
  | Some b => blit (Z.to_nat pos) (slice (Z.to_nat soff) (Z.to_nat n) (default [] (h !! b))) l
  | None => l
  end.

Definition live_block (b : option ptr) (h : heap) : Prop :=
  match b with
  | Some b => ∃ d, h !! b = Some d ∧ Z.of_nat (length d) = DEFAULT_BLOCK_SIZE
  | None => True
  end.

Lemma fill_memcpy a b pos soff n (h : heap) l :
  h !! a = None → live_block b h → Z.of_nat (length l) = DEFAULT_BLOCK_SIZE →
  0 ≤ pos → 0 ≤ soff → 0 ≤ n → pos + n ≤ DEFAULT_BLOCK_SIZE → soff + n ≤ DEFAULT_BLOCK_SIZE →
  match b with
  | Some b => memcpy a pos b soff n (<[a := l]> h)
  | None => Ret (<[a := l]> h)
  end = Ret (<[a := fill b pos soff n h l]> h) ∧
  Z.of_nat (length (fill b pos soff n h l)) = DEFAULT_BLOCK_SIZE.
Proof.
  intros Ha Hb Hl ?????. destruct b as [b|]; simpl in *; [|done].
  destruct Hb as (d & Hd & Hlen). rewrite Hd. simpl.
  assert (a ≠ b) by congruence.
  rewrite (memcpy_ret _ _ _ _ _ _ d l);
    [|done|by rewrite lookup_insert_ne|by rewrite lookup_insert_eq|lia..].
  rewrite insert_insert_eq. split; [done|].
  rewrite length_blit; [done|]. rewrite length_slice; lia.
Qed.

Lemma fill_inside b d pos soff n h l i :
  h !! b = Some d → Z.of_nat (length d) = DEFAULT_BLOCK_SIZE →
  Z.of_nat (length l) = DEFAULT_BLOCK_SIZE →
  0 ≤ pos → 0 ≤ soff → 0 ≤ n → pos + n ≤ DEFAULT_BLOCK_SIZE → soff + n ≤ DEFAULT_BLOCK_SIZE →
  pos ≤ i < pos + n →
  fill (Some b) pos soff n h l !! Z.to_nat i = d !! Z.to_nat (soff + (i - pos)).
Proof.
  intros Hd ????????. simpl. rewrite Hd. simpl.
  assert (length (slice (Z.to_nat soff) (Z.to_nat n) d) = Z.to_nat n) as Hs
    by (apply length_slice; lia).
  rewrite lookup_blit_inside by (rewrite ?Hs; lia).
  rewrite lookup_slice, decide_True by lia. f_equal. lia.
Qed.

Lemma fill_outside b pos soff n h l i :
  live_block b h → Z.of_nat (length l) = DEFAULT_BLOCK_SIZE →
  0 ≤ pos → 0 ≤ soff → 0 ≤ n → pos + n ≤ DEFAULT_BLOCK_SIZE → soff + n ≤ DEFAULT_BLOCK_SIZE →
  0 ≤ i → i < pos ∨ pos + n ≤ i →
  fill b pos soff n h l !! Z.to_nat i = l !! Z.to_nat i.
Proof.
  intros Hb ????????. destruct b as [b|]; simpl in *; [|done].
  destruct Hb as (d & Hd & Hlen). rewrite Hd. simpl.
  assert (length (slice (Z.to_nat soff) (Z.to_nat n) d) = Z.to_nat n) as Hs
    by (apply length_slice; lia).
  apply lookup_blit_outside; rewrite Hs; lia.
Qed.

Lemma store_live_block s loc : store_live s → live_block (store_buffer_ s !! loc) (heap_ s).
Proof. intros Hs. unfold live_block. destruct (store_buffer_ s !! loc) eqn:E; [|done]. eauto. Qed.

(** A byte of the request that lies in a block of the store buffer. *)
Lemma buffered_filled s idx p i b d j :
  store_live s → store_buffer_ s !! mkLoc idx p (block_of i) = Some b → heap_ s !! b = Some d →
  j = i mod DEFAULT_BLOCK_SIZE →
  is_Some (buffered s idx p i) ∧ d !! Z.to_nat j = buffered s idx p i.
Proof.
  intros Hlive Hb Hd ->. rewrite (buffered_at _ _ _ _ b d) by done. split; [|done].
  destruct (Hlive _ _ Hb) as (d' & ? & Hlen). simplify_eq.
  apply lookup_lt_is_Some_2. pose proof (Z.mod_pos_bound i DEFAULT_BLOCK_SIZE).
  rewrite block_size_value in *. lia.
Qed.

(** An [int] expression that has a value *)
Lemma bind_lift {A B} (c : outcome A) v (f : A → M (K := K) (HS := HS) (digest := digest) B) s :
  c = Ret v → bind (lift c) f s = f v s.
Proof. by intros ->. Qed.

(** The [int] arithmetic of async_read does not overflow on a request inside a
    piece of legal size. *)
Lemma read_arith start len :
  0 ≤ start → 0 < len ≤ DEFAULT_BLOCK_SIZE → start + len < 2 ^ 31 - DEFAULT_BLOCK_SIZE →
  int (start - Z.rem start DEFAULT_BLOCK_SIZE) = Ret (block_of start) ∧
  int (start - block_of start) = Ret (start mod DEFAULT_BLOCK_SIZE) ∧
  int (start mod DEFAULT_BLOCK_SIZE + len) = Ret (start mod DEFAULT_BLOCK_SIZE + len) ∧
  int (block_of start + DEFAULT_BLOCK_SIZE) = Ret (block_of start + DEFAULT_BLOCK_SIZE) ∧
  int (DEFAULT_BLOCK_SIZE - start mod DEFAULT_BLOCK_SIZE) =
    Ret (DEFAULT_BLOCK_SIZE - start mod DEFAULT_BLOCK_SIZE).
Proof.
  intros. pose proof (block_bounds start). pose proof (Z.mod_pos_bound start DEFAULT_BLOCK_SIZE).
  assert (0 ≤ block_of start).
  { unfold block_of. pose proof (Z.mod_le start DEFAULT_BLOCK_SIZE).
    rewrite block_size_value in *. lia. }
  rewrite Z.rem_mod_nonneg by (rewrite ?block_size_value in *; lia).
  fold (block_of start). rewrite block_size_value in *.
  split_and!; rewrite int_ret by (unfold is_i32; lia); try done.
  f_equal. unfold block_of. rewrite block_size_value. lia.
Qed.

Section accepted.
Context (s : io) (m : malloc_result) (idx : Z) (r : peer_request) (h : handler).
Context (a : ptr) (junk : list byte) (pool : buffer_pool).
Hypothesis Hlive : store_live s.
Hypothesis Halloc :
  allocate_buffer_impl m (heap_ s) (read_buffer_pool_ s) = (Some a, <[a := junk]> (heap_ s), pool).
Hypothesis Hfresh : heap_ s !! a = None.
Hypothesis Hjunk : Z.of_nat (length junk) = DEFAULT_BLOCK_SIZE.
Hypothesis Hlen : 0 < r_length r ≤ DEFAULT_BLOCK_SIZE.
Hypothesis Hstart : 0 ≤ r_start r.
Hypothesis Hmax : r_start r + r_length r < 2 ^ 31 - DEFAULT_BLOCK_SIZE.

Let ro : Z := r_start r mod DEFAULT_BLOCK_SIZE.
Let len1 : Z := DEFAULT_BLOCK_SIZE - ro.
Let loc1 : torrent_location := mkLoc idx (r_piece r) (block_of (r_start r)).
Let loc2 : torrent_location := mkLoc idx (r_piece r) (block_of (r_start r) + DEFAULT_BLOCK_SIZE).

Lemma ro_bounds : 0 ≤ ro < DEFAULT_BLOCK_SIZE.
Proof. by apply Z.mod_pos_bound. Qed.

Lemma in_first i : 0 ≤ i < len1 →
  block_of (r_start r + i) = block_of (r_start r) ∧
  ro + i = (r_start r + i) mod DEFAULT_BLOCK_SIZE.
Proof. unfold len1, ro. intros. destruct (block_first (r_start r) i); lia. Qed.

Lemma in_second i : len1 ≤ i < r_length r →
  block_of (r_start r + i) = block_of (r_start r) + DEFAULT_BLOCK_SIZE ∧
  i - len1 = (r_start r + i) mod DEFAULT_BLOCK_SIZE.
Proof.
  unfold len1, ro. intros. pose proof ro_bounds. unfold ro in *.
  destruct (block_second (r_start r) i); lia.
Qed.

(** A request within one block. *)
Lemma aligned_filled i :
  ro + r_length r ≤ DEFAULT_BLOCK_SIZE → is_Some (store_buffer_ s !! loc1) →
  0 ≤ i < r_length r →
  is_Some (buffered s idx (r_piece r) (r_start r + i)) ∧
  fill (store_buffer_ s !! loc1) 0 ro (r_length r) (heap_ s) junk !! Z.to_nat i =
    buffered s idx (r_piece r) (r_start r + i).
Proof.
  intros Hal [b Hb] Hi. pose proof ro_bounds as Hro.
  destruct (Hlive _ _ Hb) as (d & Hd & Hdlen).
  destruct (in_first i) as [Hblk Hoff]; [unfold len1; lia|]. rewrite Hb.
  rewrite (fill_inside b d) by (done || lia).
  eapply buffered_filled; [done|by rewrite Hblk|done|lia].
Qed.

(** A request over two blocks: the buffer after both copies. *)
Definition two_blocks : list byte :=
  fill (store_buffer_ s !! loc2) len1 0 (r_length r - len1) (heap_ s)
    (fill (store_buffer_ s !! loc1) 0 ro len1 (heap_ s) junk).

Lemma two_blocks_copied :
  DEFAULT_BLOCK_SIZE < ro + r_length r →
  copy_two_blocks a ro len1 (r_length r) (store_buffer_ s !! loc1) (store_buffer_ s !! loc2)
    (<[a := junk]> (heap_ s)) =
  Ret (Z.lor (match store_buffer_ s !! loc1 with Some _ => 2 | None => 0 end)
             (match store_buffer_ s !! loc2 with Some _ => 1 | None => 0 end),
       <[a := two_blocks]> (heap_ s)) ∧
  Z.of_nat (length two_blocks) = DEFAULT_BLOCK_SIZE.
Proof.
  intros Hun. pose proof ro_bounds. unfold copy_two_blocks, two_blocks.
  destruct (fill_memcpy a (store_buffer_ s !! loc1) 0 ro len1 (heap_ s) junk)
    as [-> Hl1]; [done|by apply store_live_block|done|unfold len1; lia..|]. simpl.
  destruct (fill_memcpy a (store_buffer_ s !! loc2) len1 0 (r_length r - len1) (heap_ s)
              (fill (store_buffer_ s !! loc1) 0 ro len1 (heap_ s) junk))
    as [-> Hl2]; [done|by apply store_live_block|done|unfold len1; lia..|]. done.
Qed.

Lemma first_filled i :
  DEFAULT_BLOCK_SIZE < ro + r_length r → is_Some (store_buffer_ s !! loc1) → 0 ≤ i < len1 →
  is_Some (buffered s idx (r_piece r) (r_start r + i)) ∧
  two_blocks !! Z.to_nat i = buffered s idx (r_piece r) (r_start r + i).
Proof.
  intros Hun [b Hb] Hi. pose proof ro_bounds as Hro. unfold two_blocks.
  destruct (Hlive _ _ Hb) as (d & Hd & Hdlen). destruct (in_first i Hi) as [Hblk Hoff].
  destruct (fill_memcpy a (store_buffer_ s !! loc1) 0 ro len1 (heap_ s) junk)
    as [_ Hl1]; [done|by apply store_live_block|done|unfold len1; lia..|].
  rewrite fill_outside by (try apply store_live_block; unfold len1 in *; done || lia).
  rewrite Hb. rewrite (fill_inside b d) by (unfold len1 in *; done || lia).
  eapply buffered_filled; [done|by rewrite Hblk|done|lia].
Qed.

Lemma second_filled i :
  DEFAULT_BLOCK_SIZE < ro + r_length r → is_Some (store_buffer_ s !! loc2) →
  len1 ≤ i < r_length r →
  is_Some (buffered s idx (r_piece r) (r_start r + i)) ∧
  two_blocks !! Z.to_nat i = buffered s idx (r_piece r) (r_start r + i).
Proof.
  intros Hun [b Hb] Hi. pose proof ro_bounds as Hro. unfold two_blocks.
  destruct (Hlive _ _ Hb) as (d & Hd & Hdlen). destruct (in_second i Hi) as [Hblk Hoff].
  destruct (fill_memcpy a (store_buffer_ s !! loc1) 0 ro len1 (heap_ s) junk)
    as [_ Hl1]; [done|by apply store_live_block|done|unfold len1; lia..|].
  rewrite Hb. rewrite (fill_inside b d) by (unfold len1 in *; done || lia).
  eapply buffered_filled; [done|by rewrite Hblk|done|lia].
Qed.

Lemma first_missing i : store_buffer_ s !! loc1 = None → 0 ≤ i < len1 →
  store_buffer_ s !! mkLoc idx (r_piece r) (block_of (r_start r + i)) = None.
Proof. intros Hn Hi. by destruct (in_first i Hi) as [-> _]. Qed.

Lemma second_missing i : store_buffer_ s !! loc2 = None → len1 ≤ i < r_length r →
  store_buffer_ s !! mkLoc idx (r_piece r) (block_of (r_start r + i)) = None.
Proof. intros Hn Hi. by destruct (in_second i Hi) as [-> _]. Qed.

(** async_read once the request is accepted and the buffer is there. *)
Lemma async_read_two_blocks :
  DEFAULT_BLOCK_SIZE < ro + r_length r →
  async_read m idx r h s =
    let! (n, hp) := get2 loc1 loc2 (copy_two_blocks a ro len1 (r_length r)) (store_buffer_ s)
                      (<[a := junk]> (heap_ s)) in
    (if n =? 3 then call (C_read h (Some a) no_storage_error)
     else if negb (n =? 0) then
       post_read_job (mkReadJob h idx (r_piece r) a (if n =? 1 then 0 else len1)
         (if n =? 1 then r_start r else block_of (r_start r) + DEFAULT_BLOCK_SIZE)
         (if n =? 1 then len1 else r_length r - len1))
     else post_read_job (mkReadJob h idx (r_piece r) a 0 (r_start r) (r_length r)))
      (set_heap hp (set_read_buffer_pool pool s)).
Proof.
  intros Hun. destruct (read_arith (r_start r) (r_length r)) as (E1 & E2 & E3 & E4 & E5); [lia..|].
  unfold async_read, boost_assert.
  rewrite (proj2 (Z.leb_le (r_length r) DEFAULT_BLOCK_SIZE)) by lia.
  unfold bind at 1, ret at 1. cbn [obind].
  rewrite (proj2 (Z.leb_gt (r_length r) 0)), (proj2 (Z.ltb_ge (r_start r) 0)) by lia. cbn [orb].
  unfold bind at 1, allocate_read_buffer, allocate_buffer. rewrite Halloc. cbn [obind].
  rewrite (bind_lift _ _ _ _ E1), (bind_lift _ _ _ _ E2), (bind_lift _ _ _ _ E3). fold ro in E2, E3 |- *. rewrite (proj2 (Z.ltb_lt _ (ro + r_length r))) by done.
  rewrite (bind_lift _ _ _ _ E4), (bind_lift _ _ _ _ E5). fold len1.
  rewrite (proj2 (Z.ltb_lt len1 _)) by (unfold len1; lia).
  unfold bind at 1, ret at 1. cbn [obind]. unfold bind, store_buffer_get2. simpl.
  fold loc1 loc2. destruct (get2 _ _ _ _ _) as [[n hp]|]; [|done]. simpl.
  destruct (n =? 3); [done|]. by destruct (n =? 0).
Qed.

Lemma async_read_one_block :
  ro + r_length r ≤ DEFAULT_BLOCK_SIZE →
  async_read m idx r h s =
    let! (hit, hp) := get loc1 (λ b, memcpy a 0 b ro (r_length r)) (store_buffer_ s)
                        (<[a := junk]> (heap_ s)) in
    (if (hit : bool) then call (C_read h (Some a) no_storage_error)
     else post_read_job (mkReadJob h idx (r_piece r) a 0 (r_start r) (r_length r)))
      (set_heap hp (set_read_buffer_pool pool s)).
Proof.
  intros Hal. destruct (read_arith (r_start r) (r_length r)) as (E1 & E2 & E3 & _); [lia..|].
  unfold async_read, boost_assert.
  rewrite (proj2 (Z.leb_le (r_length r) DEFAULT_BLOCK_SIZE)) by lia.
  unfold bind at 1, ret at 1. cbn [obind].
  rewrite (proj2 (Z.leb_gt (r_length r) 0)), (proj2 (Z.ltb_ge (r_start r) 0)) by lia. cbn [orb].
  unfold bind at 1, allocate_read_buffer, allocate_buffer. rewrite Halloc. cbn [obind].
  rewrite (bind_lift _ _ _ _ E1), (bind_lift _ _ _ _ E2), (bind_lift _ _ _ _ E3). fold ro in E2, E3 |- *. rewrite (proj2 (Z.ltb_ge _ (ro + r_length r))) by done.
  unfold bind, store_buffer_get. simpl. fold loc1.
  by destruct (get _ _ _ _) as [[[] hp]|].
Qed.

Lemma async_read_unaligned :
  DEFAULT_BLOCK_SIZE < ro + r_length r →
  read_outcome s pool a idx r h (async_read m idx r h s).
Proof.
  intros Hun. pose proof ro_bounds as Hro. rewrite async_read_two_blocks by done.
  destruct (two_blocks_copied Hun) as [Hcopy Hl].
  assert (0 < len1 < r_length r) as Hlen1 by (unfold len1; lia).
  assert (block_of (r_start r) + DEFAULT_BLOCK_SIZE = r_start r + len1) as Hsecond
    by (unfold len1, ro, block_of; lia).
  unfold get2.
  destruct (store_buffer_ s !! loc1) as [b1|] eqn:Hb1, (store_buffer_ s !! loc2) as [b2|] eqn:Hb2;
    rewrite ?Hcopy; simpl.
  - exists two_blocks, 0, 0. split; [|by left]. split; [lia|done| |lia].
    intros i [?|?]; [lia|]. destruct (decide (i < len1)).
    + apply first_filled; [done|by rewrite Hb1|lia].
    + apply second_filled; [done|by rewrite Hb2|lia].
  - exists two_blocks, len1, (r_length r - len1). split; [|right].
    + split; [lia|done| |].
      * intros i [?|?]; [|lia]. apply first_filled; [done|by rewrite Hb1|lia].
      * intros i ?. apply second_missing; [done|lia].
    + split; [lia|]. by rewrite Hsecond.
  - exists two_blocks, 0, len1. split; [|right].
    + split; [lia|done| |].
      * intros i [?|?]; [lia|]. apply second_filled; [done|by rewrite Hb2|lia].
      * intros i ?. apply first_missing; [done|lia].
    + split; [lia|]. by rewrite Z.add_0_r.
  - exists junk, 0, (r_length r). split; [|right].
    + split; [lia|done|lia|]. intros i ?. destruct (decide (i < len1)).
      * apply first_missing; [done|lia].
      * apply second_missing; [done|lia].
    + split; [lia|]. by rewrite Z.add_0_r.
Qed.

Lemma async_read_aligned :
  ro + r_length r ≤ DEFAULT_BLOCK_SIZE →
  read_outcome s pool a idx r h (async_read m idx r h s).
Proof.
  intros Hal. pose proof ro_bounds as Hro. rewrite async_read_one_block by done.
  destruct (fill_memcpy a (store_buffer_ s !! loc1) 0 ro (r_length r) (heap_ s) junk)
    as [Hcopy Hl]; [done|by apply store_live_block|done|lia..|].
  unfold get. destruct (store_buffer_ s !! loc1) as [b1|] eqn:Hb1.
  - rewrite Hcopy. simpl.
    exists (fill (Some b1) 0 ro (r_length r) (heap_ s) junk), 0, 0.
    split; [|by left]. split; [lia|done| |lia]. intros i [?|?]; [lia|].
    rewrite <-Hb1. apply aligned_filled; [done|by rewrite Hb1|lia].
  - exists junk, 0, (r_length r). split; [|right].
    + split; [lia|done|lia|]. intros i ?. apply first_missing; [done|unfold len1; lia].
    + split; [lia|]. simpl. by rewrite Z.add_0_r.
Qed.

Lemma async_read_accepted : read_outcome s pool a idx r h (async_read m idx r h s).
Proof.
  destruct (decide (ro + r_length r ≤ DEFAULT_BLOCK_SIZE));
    [by apply async_read_aligned|apply async_read_unaligned; lia].
Qed.
End accepted.
End specs.
