(* ===== verification/RawDiskIOInv.v ===== *)
(** * Memory safety of raw_disk_io

    [io_inv] is preserved by every disciplined step, and no disciplined step
    faults: no dangling store buffer entry, no double free, no copy past a buffer,
    no null storage, no failing assertion.  The lemmas move the ownership of a
    buffer between the operation that runs, the job queues, the I/O context and
    the handlers. *)

From S2P Require Import Prelude Memory BufferPool StoreBuffer Kernel PartitionStorage.
From S2P Require Import RawDiskIO RawDiskIOSteps RawDiskIODemo RawDiskIOSpec.

Section invariant.
Context {K HS digest : Type} `{KernelLaws K} `{Hasher HS digest}.
Abbreviation io := (disk_io K HS digest).
Implicit Types s : io.

(** ** Pools and permutations *)

Lemma pool_inv_perm (l1 l2 : list ptr) h p :
  l1 ≡ₚ l2 → pool_inv (list_to_set l1) h p → pool_inv (list_to_set l2) h p.
Proof. intros Hp. by rewrite (list_to_set_perm_L _ _ Hp). Qed.

Lemma pool_inv_live (l : list ptr) h p a :
  pool_inv (list_to_set l) h p → a ∈ l →
  ∃ d, h !! a = Some d ∧ Z.of_nat (length d) = DEFAULT_BLOCK_SIZE.
Proof. intros Hinv Ha. apply (inv_blocks _ _ _ Hinv). by apply elem_of_list_to_set. Qed.

(** The invariant under a state that owns the same buffers. *)
Lemma io_inv_perm er ew s er' ew' :
  er ≡ₚ er' → ew ≡ₚ ew' → io_inv_with er ew s → io_inv_with er' ew' s.
Proof.
  intros Hr Hw []. split; try done.
  - by eapply pool_inv_perm; [|done]; rewrite Hr.
  - by eapply pool_inv_perm; [|done]; rewrite Hw.
  - by rewrite <-Hr, <-Hw.
Qed.

Lemma store_live_inv er ew s : io_inv_with er ew s → store_live s.
Proof.
  intros Hinv loc a Ha. destruct (inv_store _ _ _ Hinv loc a Ha) as (j & Hj & _ & <- & _).
  eapply pool_inv_live; [by eapply inv_write_pool|].
  apply elem_of_app. right. by apply list_elem_of_fmap_2.
Qed.

(** ** Moving buffers of the read pool *)

Lemma inv_allocate_read s m buf h p :
  io_inv s → malloc_ok (heap_ s) DEFAULT_BLOCK_SIZE m →
  allocate_buffer_impl m (heap_ s) (read_buffer_pool_ s) = (buf, h, p) →
  match buf with
  | Some a => heap_ s !! a = None ∧ ∃ junk, h = <[a := junk]> (heap_ s) ∧
      Z.of_nat (length junk) = DEFAULT_BLOCK_SIZE ∧
      ∀ l, Z.of_nat (length l) = DEFAULT_BLOCK_SIZE →
        io_inv_with [a] [] (with_read_buffer s p a l)
  | None => h = heap_ s ∧ io_inv (set_read_buffer_pool p s)
  end.
Proof.
  intros Hinv Hm Halloc. pose proof Hinv as [Hrp Hwp Hnd Hsb Hsl Hf Hrj Hwj Hhj].
  destruct (pool_inv_allocate _ _ _ _ _ _ _ Hrp Hm Halloc) as (Hrp' & _ & Hbuf).
  destruct buf as [a|].
  - destruct Hbuf as (junk & -> & Hfresh & Hnew & ->). destruct Hm as [_ Hjunk].
    split; [done|]. exists junk. do 2 (split; [done|]). intros l Hl.
    assert (∀ b, b ∈ read_owned s ++ write_owned s → b ≠ a) as Hne.
    { intros b [Hb|Hb]%elem_of_app ->; [eapply pool_inv_live in Hb as (d & ? & _); [|exact Hrp]
                                       |eapply pool_inv_live in Hb as (d & ? & _); [|exact Hwp]];
        congruence. }
    split; simpl; try done.
    + eapply pool_inv_heap_size; [exact Hrp'|]. intros b l' Hb Hl'.
      destruct (decide (b = a)) as [->|].
      * rewrite lookup_insert_eq in *. simplify_eq. exists l. split; [done|lia].
      * rewrite lookup_insert_ne in * by done. eauto.
    + eapply pool_inv_heap; [exact Hwp|]. intros b Hb%elem_of_list_to_set.
      apply lookup_insert_ne. symmetry. apply Hne. apply elem_of_app. by right.
    + constructor; [|done]. intros Ha. by apply (Hne a).
  - destruct Hbuf as [-> _]. split; [done|]. split; done.
Qed.

Lemma inv_heap_read s a l l' er ew :
  io_inv_with (a :: er) ew s → heap_ s !! a = Some l → length l' = length l →
  io_inv_with (a :: er) ew (set_heap (<[a := l']> (heap_ s)) s).
Proof.
  intros [Hrp Hwp Hnd Hsb Hsl Hf Hrj Hwj Hhj] Ha Hlen. split; simpl; try done.
  - eapply pool_inv_heap_size; [exact Hrp|]. intros b lb _ Hb.
    destruct (decide (b = a)) as [->|].
    + rewrite lookup_insert_eq. naive_solver.
    + rewrite lookup_insert_ne by done. eauto.
  - eapply pool_inv_heap; [exact Hwp|]. intros b Hb%elem_of_list_to_set.
    apply lookup_insert_ne. intros ->. simpl in Hnd. apply NoDup_cons in Hnd as [Hnot _].
    apply Hnot. apply elem_of_app. by right.
Qed.

(** From the operation to a handler, a job or the I/O context. *)
Lemma inv_deliver s c : io_inv_with (handed c) [] s → io_inv (deliver c s).
Proof.
  intros [Hrp Hwp Hnd Hsb Hsl Hf Hrj Hwj Hhj].
  assert (handed c ++ read_owned s ≡ₚ read_owned (deliver c s)) as Hp.
  { unfold read_owned. simpl. rewrite !(app_assoc _ _ (held_ s ++ _)), !(app_assoc _ _ (held_ s)).
    rewrite (app_assoc _ (held_ s) (handed c)). solve_Permutation. }
  split; simpl; try done.
  - exact (pool_inv_perm _ _ _ _ Hp Hrp).
  - unfold write_owned in *. simpl in *. by rewrite <-Hp.
Qed.

Lemma inv_enqueue_read s j :
  io_inv_with [rj_buf j] [] s → rj_ok s j → io_inv (enqueue_read j s).
Proof.
  intros [Hrp Hwp Hnd Hsb Hsl Hf Hrj Hwj Hhj] Hj.
  assert ([rj_buf j] ++ read_owned s ≡ₚ read_owned (enqueue_read j s)) as Hp.
  { unfold read_owned. simpl. rewrite fmap_app. simpl. solve_Permutation. }
  split; simpl; try done.
  - exact (pool_inv_perm _ _ _ _ Hp Hrp).
  - unfold write_owned in *. simpl in *. by rewrite <-Hp.
  - apply Forall_app_2; [done|by constructor].
Qed.

Lemma inv_post s c er ew :
  io_inv_with (handed c ++ er) ew s → io_inv_with er ew (set_ioc (ioc_ s ++ [c]) s).
Proof.
  intros [Hrp Hwp Hnd Hsb Hsl Hf Hrj Hwj Hhj].
  assert ((handed c ++ er) ++ read_owned s ≡ₚ er ++ read_owned (set_ioc (ioc_ s ++ [c]) s)) as Hp.
  { unfold read_owned. simpl. rewrite fmap_app, concat_app. simpl. rewrite app_nil_r.
    solve_Permutation. }
  split; simpl; try done.
  - exact (pool_inv_perm _ _ _ _ Hp Hrp).
  - unfold write_owned in *. simpl in *. by rewrite <-Hp.
Qed.

Lemma inv_post_hash_job s j :
  io_inv_with [hj_buf j] [] s → hj_ok s j →
  io_inv (set_hash_thread_pool (hash_thread_pool_ s ++ [j]) s).
Proof.
  intros [Hrp Hwp Hnd Hsb Hsl Hf Hrj Hwj Hhj] Hj.
  assert ([hj_buf j] ++ read_owned s ≡ₚ
          read_owned (set_hash_thread_pool (hash_thread_pool_ s ++ [j]) s)) as Hp.
  { unfold read_owned. simpl. rewrite fmap_app. simpl. solve_Permutation. }
  split; simpl; try done.
  - exact (pool_inv_perm _ _ _ _ Hp Hrp).
  - unfold write_owned in *. simpl in *. by rewrite <-Hp.
  - apply Forall_app_2; [done|by constructor].
Qed.

(** From a job, the I/O context or a handler to the operation. *)
Lemma inv_take_read s i j :
  io_inv s → read_thread_pool_ s !! i = Some j →
  io_inv_with [rj_buf j] [] (set_read_thread_pool (delete i (read_thread_pool_ s)) s) ∧ rj_ok s j.
Proof.
  intros [Hrp Hwp Hnd Hsb Hsl Hf Hrj Hwj Hhj] Hj.
  pose proof (delete_Permutation _ _ _ Hj) as Hdel.
  assert (read_owned s ≡ₚ
    [rj_buf j] ++ read_owned (set_read_thread_pool (delete i (read_thread_pool_ s)) s)) as Hp.
  { unfold read_owned. simpl. by rewrite Hdel at 1. }
  assert (Forall (rj_ok s) (j :: delete i (read_thread_pool_ s))) as Hjs by by rewrite <-Hdel.
  apply Forall_cons in Hjs as [Hok Hjs].
  split; [|done]. split; simpl; try done.
  - exact (pool_inv_perm _ _ _ _ Hp Hrp).
  - simpl in *. unfold write_owned in *. simpl in *. by rewrite Hp in Hnd.
Qed.

Lemma inv_take_ioc s c cs :
  io_inv s → ioc_ s = c :: cs → io_inv_with (handed c) [] (set_ioc cs s).
Proof.
  intros [Hrp Hwp Hnd Hsb Hsl Hf Hrj Hwj Hhj] Hioc.
  assert (read_owned s ≡ₚ handed c ++ read_owned (set_ioc cs s)) as Hp.
  { unfold read_owned. rewrite Hioc. simpl. solve_Permutation. }
  split; simpl; try done.
  - exact (pool_inv_perm _ _ _ _ Hp Hrp).
  - simpl in *. unfold write_owned in *. simpl in *. by rewrite Hp in Hnd.
Qed.

Lemma inv_take_held s i a :
  io_inv s → held_ s !! i = Some a → io_inv_with [a] [] (set_held (delete i (held_ s)) s).
Proof.
  intros [Hrp Hwp Hnd Hsb Hsl Hf Hrj Hwj Hhj] Ha.
  assert (read_owned s ≡ₚ [a] ++ read_owned (set_held (delete i (held_ s)) s)) as Hp.
  { unfold read_owned. simpl. rewrite (delete_Permutation _ _ _ Ha) at 1. solve_Permutation. }
  split; simpl; try done.
  - exact (pool_inv_perm _ _ _ _ Hp Hrp).
  - simpl in *. unfold write_owned in *. simpl in *. by rewrite Hp in Hnd.
Qed.

(** Back to the read pool. *)
Lemma inv_watermark s posted er ew :
  io_inv_with er ew s → io_inv_with er ew (set_ioc (ioc_ s ++ watermark_post posted) s).
Proof.
  intros Hinv. destruct posted as [cbs|]; simpl; [by apply inv_post|].
  rewrite app_nil_r. destruct Hinv. by split.
Qed.

Lemma inv_free_read s a :
  io_inv_with [a] [] s → ∃ s', free_read_buffer a s = Ret (tt, s') ∧ io_inv s' ∧
    ∃ p posted, s' = set_ioc (ioc_ s ++ watermark_post posted)
                       (set_read_buffer_pool p (set_heap (delete a (heap_ s)) s)).
Proof.
  intros [Hrp Hwp Hnd Hsb Hsl Hf Hrj Hwj Hhj].
  assert (a ∈ (list_to_set ([a] ++ read_owned s) : gset ptr)) as Ha by set_solver.
  destruct (free_disk_buffer_ret _ _ _ _ Hrp Ha) as [[[h p] posted] Hfree].
  destruct (pool_inv_free _ _ _ _ _ _ _ Hrp Ha Hfree) as (-> & Hrp' & _).
  simpl in Hnd. apply NoDup_cons in Hnd as [Hnot Hnd]. rewrite elem_of_app in Hnot.
  eexists. split; [|split; [|by eexists _, _]].
  - unfold free_read_buffer. by rewrite Hfree.
  - apply (inv_watermark (set_read_buffer_pool p (set_heap (delete a (heap_ s)) s)) posted).
    split; simpl; try done.
    + assert ((list_to_set ([a] ++ read_owned s) : gset ptr) ∖ {[a]} =
              list_to_set (read_owned s)) as Hset; [|by rewrite Hset in Hrp'].
      simpl. apply set_eq. intros b. rewrite elem_of_difference, elem_of_union,
        elem_of_singleton, elem_of_list_to_set. naive_solver.
    + eapply pool_inv_heap; [exact Hwp|]. intros b Hb%elem_of_list_to_set.
      apply lookup_delete_ne. intros ->. naive_solver.
Qed.

(** ** Moving buffers of the write pool *)

Lemma inv_allocate_write s m o buf told h p :
  io_inv s → malloc_ok (heap_ s) DEFAULT_BLOCK_SIZE m →
  allocate_buffer_observed m false o (heap_ s) (write_buffer_pool_ s) = (buf, told, h, p) →
  match buf with
  | Some a => heap_ s !! a = None ∧ ∃ junk, h = <[a := junk]> (heap_ s) ∧
      Z.of_nat (length junk) = DEFAULT_BLOCK_SIZE ∧
      ∀ l, Z.of_nat (length l) = DEFAULT_BLOCK_SIZE →
        io_inv_with [] [a] (set_write_buffer_pool p (set_heap (<[a := l]> (heap_ s)) s))
  | None => h = heap_ s ∧ io_inv (set_write_buffer_pool p s)
  end.
Proof.
  intros Hinv Hm Halloc. pose proof Hinv as [Hrp Hwp Hnd Hsb Hsl Hf Hrj Hwj Hhj].
  assert (∃ p0, allocate_buffer_impl m (heap_ s) (write_buffer_pool_ s) = (buf, h, p0) ∧
    m_size p = m_size p0 ∧ (m_exceeded_max_size p = false → m_observers p = m_observers p0 ∧
    m_exceeded_max_size p0 = false)) as (p0 & Halloc0 & Hsize & Hflag).
  { unfold allocate_buffer_observed in Halloc.
    destruct (allocate_buffer_impl _ _ _) as [[b h0] p0]. exists p0.
    destruct (m_exceeded_max_size p0) eqn:E, o; simplify_eq/=; rewrite ?E; naive_solver. }
  destruct (pool_inv_allocate _ _ _ _ _ _ _ Hwp Hm Halloc0) as (Hwp0 & _ & Hbuf).
  assert (pool_inv (grant buf (list_to_set ([] ++ write_owned s))) h p) as Hwp'.
  { destruct Hwp0 as [Hs Hc Hb Hw]. split; [by rewrite Hsize|done..|].
    intros [-> ?]%Hflag. by apply Hw. }
  destruct buf as [a|].
  - destruct Hbuf as (junk & -> & Hfresh & Hnew & ->). destruct Hm as [_ Hjunk].
    split; [done|]. exists junk. do 2 (split; [done|]). intros l Hl.
    assert (∀ b, b ∈ read_owned s ++ write_owned s → b ≠ a) as Hne.
    { intros b [Hb|Hb]%elem_of_app ->; [eapply pool_inv_live in Hb as (d & ? & _); [|exact Hrp]
                                       |eapply pool_inv_live in Hb as (d & ? & _); [|exact Hwp]];
        congruence. }
    split; simpl; try done.
    + eapply pool_inv_heap; [exact Hrp|]. intros b Hb%elem_of_list_to_set.
      apply lookup_insert_ne. symmetry. apply Hne. apply elem_of_app. by left.
    + eapply pool_inv_heap_size; [exact Hwp'|]. intros b l' Hb Hl'.
      destruct (decide (b = a)) as [->|].
      * rewrite lookup_insert_eq in *. simplify_eq. exists l. split; [done|lia].
      * rewrite lookup_insert_ne in * by done. eauto.
    + rewrite <-Permutation_middle.
      constructor; [|done]. intros Ha. by apply (Hne a).
  - destruct Hbuf as [-> _]. split; [done|]. by split.
Qed.

Lemma inv_enqueue_write s j :
  io_inv_with [] [wj_buf j] s → wj_ok s j → is_erased j = false →
  io_inv (set_write_thread_pool (write_thread_pool_ s ++ [j])
            (set_store_buffer (insert (wj_loc j) (wj_buf j) (store_buffer_ s)) s)).
Proof.
  intros [Hrp Hwp Hnd Hsb Hsl Hf Hrj Hwj Hhj] Hj Her.
  assert ([wj_buf j] ++ write_owned s ≡ₚ wj_buf <$> (write_thread_pool_ s ++ [j])) as Hp.
  { rewrite fmap_app. unfold write_owned. simpl. solve_Permutation. }
  split; simpl; try done.
  - exact (pool_inv_perm _ _ _ _ Hp Hwp).
  - unfold write_owned. simpl. by rewrite <-Hp.
  - intros loc a. rewrite lookup_insert_sb. case_decide as Hloc.
    + subst loc. intros [= Ha]. destruct (store_buffer_ s !! wj_loc j) as [b|] eqn:Hb; simpl in Ha.
      * subst b. destruct (Hsb _ _ Hb) as (j' & ? & ?). exists j'. rewrite elem_of_app. auto.
      * exists j. subst a. rewrite elem_of_app, list_elem_of_singleton. auto.
    + intros (j' & ? & ?)%Hsb. exists j'. rewrite elem_of_app. auto.
  - apply Forall_app_2; [done|by constructor].
Qed.

(** A write job moves to its next phase. *)
Lemma inv_write_phase s i j ph sb :
  io_inv s → write_thread_pool_ s !! i = Some j →
  (∀ loc a, sb !! loc = Some a → store_buffer_ s !! loc = Some a ∧
     (loc = wj_loc j → is_erased (set_phase ph j) = false)) →
  io_inv (set_write_thread_pool (<[i := set_phase ph j]> (write_thread_pool_ s))
            (set_store_buffer sb s)).
Proof.
  intros [Hrp Hwp Hnd Hsb Hsl Hf Hrj Hwj Hhj] Hj Hsub.
  assert (wj_buf <$> <[i := set_phase ph j]> (write_thread_pool_ s) = write_owned s) as Hp.
  { unfold write_owned. rewrite list_fmap_insert. simpl. apply list_insert_id.
    by rewrite list_lookup_fmap, Hj. }
  split; simpl; try done.
  - unfold write_owned. simpl. by rewrite Hp.
  - unfold write_owned. simpl. by rewrite Hp.
  - intros loc a [Ha Her]%Hsub. destruct (Hsb _ _ Ha) as (j' & Hj' & Hloc & Hbuf & Hphase).
    apply list_elem_of_lookup in Hj' as [i' Hi'].
    destruct (decide (i = i')) as [<-|Hne].
    + simplify_eq. exists (set_phase ph j). split_and!; [|done|done|by apply Her].
      apply list_elem_of_lookup. exists i. apply list_lookup_insert_eq.
      by eapply lookup_lt_Some.
    + exists j'. split_and!; [|done..]. apply list_elem_of_lookup. exists i'.
      by rewrite list_lookup_insert_ne.
  - apply Forall_insert; [done|]. exact (proj1 (Forall_lookup _ _) Hwj _ _ Hj).
Qed.

(** A hash job goes, and its buffer with it. *)
Lemma inv_finish_hash s i j :
  io_inv s → hash_thread_pool_ s !! i = Some j →
  io_inv_with [hj_buf j] [] (set_hash_thread_pool (delete i (hash_thread_pool_ s)) s).
Proof.
  intros [Hrp Hwp Hnd Hsb Hsl Hf Hrj Hwj Hhj] Hj.
  pose proof (delete_Permutation _ _ _ Hj) as Hdel.
  assert (read_owned s ≡ₚ
    [hj_buf j] ++ read_owned (set_hash_thread_pool (delete i (hash_thread_pool_ s)) s)) as Hp.
  { unfold read_owned. simpl. rewrite Hdel at 1. simpl. solve_Permutation. }
  assert (Forall (hj_ok s) (j :: delete i (hash_thread_pool_ s))) as Hjs by by rewrite <-Hdel.
  apply Forall_cons in Hjs as [_ Hjs].
  split; simpl; try done.
  - exact (pool_inv_perm _ _ _ _ Hp Hrp).
  - simpl in *. unfold write_owned in *. simpl in *. by rewrite Hp in Hnd.
Qed.

(** A hash job moves to its next phase, with new contents in its buffer. *)
Lemma inv_hash_phase s i j ph l l' :
  io_inv s → hash_thread_pool_ s !! i = Some j →
  heap_ s !! hj_buf j = Some l → length l' = length l → hj_ok s (set_hash_phase ph j) →
  io_inv (set_hash_thread_pool (<[i := set_hash_phase ph j]> (hash_thread_pool_ s))
            (set_heap (<[hj_buf j := l']> (heap_ s)) s)).
Proof.
  intros Hinv Hj Hl Hlen Hok.
  pose proof (inv_finish_hash _ _ _ Hinv Hj) as Hinv'.
  destruct (inv_heap_read _ _ _ l' _ _ Hinv' Hl Hlen) as [Hrp Hwp Hnd Hsb Hsl Hf Hrj Hwj Hhj].
  assert (<[i := set_hash_phase ph j]> (hash_thread_pool_ s) ≡ₚ
          set_hash_phase ph j :: delete i (hash_thread_pool_ s)) as Hins.
  { rewrite insert_take_drop by (by eapply lookup_lt_Some). rewrite delete_take_drop.
    solve_Permutation. }
  match type of Hrp with pool_inv (list_to_set ?l1) _ _ => match goal with |- io_inv ?s' =>
    assert (l1 ≡ₚ read_owned s') as Hp end end.
  { unfold read_owned. simpl. rewrite Hins. simpl. solve_Permutation. }
  split; simpl; try done.
  - exact (pool_inv_perm _ _ _ _ Hp Hrp).
  - by rewrite <-Hp.
  - by apply Forall_insert, Hok; apply (inv_hash_jobs _ _ _ Hinv).
Qed.

(** A write job goes, and its buffer with it. *)
Lemma inv_finish_write s i j c :
  io_inv s → write_thread_pool_ s !! i = Some j → is_erased j = true → handed c = [] →
  ∃ p posted, let s1 := set_ioc (ioc_ s ++ [c]) s in
    free_write_buffer (wj_buf j) s1 =
      Ret (tt, set_ioc (ioc_ s1 ++ watermark_post posted)
                 (set_write_buffer_pool p (set_heap (delete (wj_buf j) (heap_ s)) s1))) ∧
    io_inv (set_write_thread_pool (delete i (write_thread_pool_ s))
              (set_ioc (ioc_ s1 ++ watermark_post posted)
                 (set_write_buffer_pool p (set_heap (delete (wj_buf j) (heap_ s)) s1)))).
Proof.
  intros [Hrp Hwp Hnd Hsb Hsl Hf Hrj Hwj Hhj] Hj Her Hc.
  pose proof (delete_Permutation _ _ _ Hj) as Hdel.
  assert (write_owned s ≡ₚ wj_buf j :: (wj_buf <$> delete i (write_thread_pool_ s))) as Hp
    by (unfold write_owned; by rewrite Hdel at 1).
  assert (wj_buf j ∈ (list_to_set ([] ++ write_owned s) : gset ptr)) as Ha.
  { apply elem_of_list_to_set. simpl. rewrite Hp. by left. }
  destruct (free_disk_buffer_ret _ _ _ _ Hwp Ha) as [[[h p] posted] Hfree].
  destruct (pool_inv_free _ _ _ _ _ _ _ Hwp Ha Hfree) as (-> & Hwp' & _).
  exists p, posted. simpl. split; [unfold free_write_buffer; simpl; by rewrite Hfree|].
  simpl in Hnd. rewrite Hp, <-Permutation_middle in Hnd. apply NoDup_cons in Hnd as [Hnot Hnd].
  rewrite elem_of_app in Hnot.
  apply (inv_watermark (set_write_thread_pool (delete i (write_thread_pool_ s))
    (set_write_buffer_pool p (set_heap (delete (wj_buf j) (heap_ s)) (set_ioc (ioc_ s ++ [c]) s))))
    posted).
  assert (read_owned s = read_owned (set_ioc (ioc_ s ++ [c]) s)) as Hro.
  { unfold read_owned. simpl. rewrite fmap_app, concat_app. simpl. by rewrite Hc, !app_nil_r. }
  assert (Forall (wj_ok s) (j :: delete i (write_thread_pool_ s))) as Hjs by by rewrite <-Hdel.
  apply Forall_cons in Hjs as [_ Hjs].
  split; simpl; try done.
  - eapply pool_inv_heap; [|intros b Hb%elem_of_list_to_set; apply lookup_delete_ne; intros <-].
    + rewrite Hro in Hrp. exact Hrp.
    + apply Hnot. left. rewrite Hro. exact Hb.
  - assert ((list_to_set ([] ++ write_owned s) : gset ptr) ∖ {[wj_buf j]} =
            list_to_set (wj_buf <$> delete i (write_thread_pool_ s))) as Hset;
      [|by rewrite Hset in Hwp'].
    simpl. rewrite (list_to_set_perm_L _ _ Hp). simpl. apply set_eq. intros b.
    rewrite elem_of_difference, elem_of_union, elem_of_singleton, elem_of_list_to_set. naive_solver.
  - rewrite Hro in Hnd. exact Hnd.
  - intros loc a Hloc. destruct (Hsb _ _ Hloc) as (j' & Hj' & ? & ? & Hph).
    exists j'. split_and!; [|done..]. rewrite Hdel in Hj'.
    apply elem_of_cons in Hj' as [->|?]; [congruence|done].
Qed.

(** ** Jobs *)

Lemma block_length : DEFAULT_BLOCK_SIZE < 2 ^ 31 ∧ 0 < DEFAULT_BLOCK_SIZE.
Proof. done. Qed.

(** The length the hash loop asks for at an offset inside the piece. *)
Lemma hash_len fs p offset :
  files_ok fs → valid_range fs p offset 0 →
  ∃ len, block_len (fs_piece_size fs p) offset = Ret len ∧
    0 ≤ len ≤ DEFAULT_BLOCK_SIZE ∧ valid_range fs p offset len ∧
    ∀ m, 0 ≤ m ≤ len → is_i32 (offset + m).
Proof.
  intros [_ Hsize] (Hp & Hoff & _ & Hin). specialize (Hsize p Hp).
  pose proof block_length as [HB1 HB2].
  unfold block_len. rewrite int_ret by (unfold is_i32; lia). cbn [obind].
  eexists. split; [done|]. split_and!; [lia|lia|unfold valid_range; lia|].
  intros m ?. unfold is_i32. lia.
Qed.

Lemma next_block_range fs p n offset len m (ph : HS) e :
  valid_range fs p offset len → 0 ≤ m ≤ len → is_i32 (offset + m) →
  ∃ ph', next_block n offset m ph e = Ret ph' ∧ valid_range fs p (offset_of ph') 0.
Proof.
  unfold next_block, valid_range. intros. destruct (Z.leb_spec m 0).
  - eexists. split; [done|]. simpl. lia.
  - rewrite int_ret by done. eexists. split; [done|]. simpl. lia.
Qed.

(** The number of blocks of a piece *)
Lemma blocks_of_ret fs p :
  files_ok fs → 0 ≤ p < fs_num_pieces fs → ∃ n, blocks_of (fs_piece_size fs p) = Ret n.
Proof.
  intros [_ Hsize] Hp. specialize (Hsize p Hp). unfold blocks_of.
  rewrite block_size_value in *. rewrite int_ret by (unfold is_i32; lia). cbn [obind].
  rewrite int_ret by (unfold is_i32; lia). cbn [obind].
  rewrite Z.quot_div_nonneg by lia. rewrite int_ret; [eauto|].
  unfold is_i32. split; [|apply Z.div_lt_upper_bound; lia].
  pose proof (Z.div_pos (fs_piece_size fs p + 16384 - 1) 16384). lia.
Qed.

(** A turn of a hash job before its end. *)
Lemma run_hash_turn s j st l :
  store_live s → storages_ s !! hj_storage j = Some st → files_ok (fs_ st) →
  valid_range (fs_ st) (hj_piece j) (offset_of (hj_phase j)) 0 →
  heap_ s !! hj_buf j = Some l → Z.of_nat (length l) = DEFAULT_BLOCK_SIZE →
  (∀ off ph e, hj_phase j ≠ H_get 0 off ph e) →
  ∃ ph l', run_hash_job j s =
      Ret (Some (set_hash_phase ph j), set_heap (<[hj_buf j := l']> (heap_ s)) s) ∧
    length l' = length l ∧ valid_range (fs_ st) (hj_piece j) (offset_of ph) 0.
Proof.
  intros Hlive Hst Hf Hr Hbuf Hl Hend. unfold run_hash_job, bind, storage_at, lift.
  assert (set_heap (<[hj_buf j:=l]> (heap_ s)) s = s) as Hsame
    by (rewrite insert_id by done; by destruct s).
  destruct (hj_phase j) as [|[|n] off ph e|n off ph e] eqn:Hph; [|by destruct (Hend off ph e)|..];
    rewrite Hst; cbn [of_option obind offset_of] in *.
  - destruct (blocks_of_ret (fs_ st) (hj_piece j)) as [n Hn]; [done|by destruct Hr|].
    unfold piece_size. rewrite Hn. eexists _, l. by rewrite Hsame.
  - destruct (hash_len _ _ _ Hf Hr) as (len & Hlen & Hb & Hr' & Hw). unfold piece_size.
    rewrite Hlen. cbn [obind].
    unfold get. destruct (store_buffer_ s !! _) as [b|] eqn:Hsb; cbn [obind].
    + destruct (Hlive _ _ Hsb) as (d & Hd & Hdl). unfold hash_from_buffer.
      rewrite (load_ret _ _ _ _ d) by (done || lia). cbn [obind].
      match goal with |- context [next_block n off len ?ph1 e] =>
        destruct (next_block_range (fs_ st) (hj_piece j) n off len len ph1 e) as (ph' & -> & Hr'') end;
        [done|lia|apply Hw; lia|]. eexists ph', l. by rewrite Hsame.
    + eexists _, l. by rewrite Hsame.
  - destruct (hash_len _ _ _ Hf Hr) as (len & Hlen & Hb & Hr' & Hw). unfold piece_size.
    rewrite Hlen. cbn [obind].
    unfold storage_read.
    destruct (read_safe (kernel_ s) st (hj_buf j) 0 (hj_piece j) off len e (heap_ s) l)
      as (m & e' & l1 & -> & Hl1 & Hm); [apply Hf|done|done|lia|lia|pose proof block_length; lia|].
      cbn [obind].
    destruct (Z.ltb_spec 0 m).
    + rewrite (load_ret _ _ _ _ l1) by (simpl; rewrite ?lookup_insert_eq; done || lia). cbn [obind].
      match goal with |- context [next_block n off m ?ph1 e'] =>
        destruct (next_block_range (fs_ st) (hj_piece j) n off len m ph1 e') as (ph' & -> & Hr'') end;
        [done|lia|apply Hw; lia|]. by eexists ph', l1.
    + unfold ret at 1. cbn [obind].
      match goal with |- context [next_block n off m ?ph1 e'] =>
        destruct (next_block_range (fs_ st) (hj_piece j) n off len m ph1 e') as (ph' & -> & Hr'') end;
        [done|lia|apply Hw; lia|]. by eexists ph', l1.
Qed.

Lemma hash_job_safe s i j :
  io_inv s → hash_thread_pool_ s !! i = Some j →
  ∃ s', exec (HS := HS) (L_hash_job i) s = Ret s' ∧ io_inv s'.
Proof.
  intros Hinv Hj. unfold exec. rewrite Hj.
  pose proof (proj1 (Forall_lookup _ _) (inv_hash_jobs _ _ _ Hinv) _ _ Hj) as (st & Hst & Hr).
  assert (hj_buf j ∈ [] ++ read_owned s) as Hown.
  { unfold read_owned. simpl. rewrite !elem_of_app. right. left. apply list_elem_of_fmap_2.
    by eapply list_elem_of_lookup_2. }
  destruct (pool_inv_live _ _ _ _ (inv_read_pool _ _ _ Hinv) Hown) as (l & Hl & Hlen).
  assert ((∃ off ph e, hj_phase j = H_get 0 off ph e) ∨
          (∀ off ph e, hj_phase j ≠ H_get 0 off ph e)) as [(off & ph & e & Hph)|Hend].
  { destruct (hj_phase j) as [|[|]|]; naive_solver. }
  - unfold run_hash_job, bind, post_ioc, modify. rewrite Hph. cbn [obind].
    pose proof (inv_finish_hash _ _ _ Hinv Hj) as Hinv'.
    apply (inv_post _ (C_hash (hj_handler j) (hj_piece j) (Some (hasher_final ph)) e)) in Hinv'.
    destruct (inv_free_read _ _ Hinv') as (s' & Hfree & Hs' & p & posted & ->).
    unfold free_read_buffer in *. simpl in *.
    destruct (free_disk_buffer _ _ _) as [[[h' p'] posted']|] eqn:Hd; outcome_inv. simpl.
    eexists. split; [done|]. revert Hs'.
    match goal with E : _ = watermark_post posted |- _ => rewrite <-E end. exact id.
  - destruct (run_hash_turn s j st l) as (ph & l' & -> & Hl' & Hr'); [by eapply store_live_inv|done| |done..|].
    { by eapply inv_files. }
    simpl. eexists. split; [done|]. eapply inv_hash_phase; [done..|]. by exists st.
Qed.

Lemma run_read_job_safe s j :
  io_inv_with [rj_buf j] [] s → rj_ok s j →
  ∃ s', run_read_job j s = Ret (tt, s') ∧ io_inv s'.
Proof.
  intros Hinv ((st & Hst & Hr) & Hpos & Hroom). pose proof (inv_files _ _ _ Hinv _ _ Hst) as Hf.
  destruct (pool_inv_live _ _ _ (rj_buf j) (inv_read_pool _ _ _ Hinv)) as (l & Hl & Hlen);
    [by left|].
  pose proof block_length as [HB1 HB2].
  unfold run_read_job, bind at 1, storage_at. rewrite Hst. cbn [of_option obind].
  unfold bind, storage_read.
  destruct (read_safe (kernel_ s) st (rj_buf j) (rj_pos j) (rj_piece j) (rj_offset j) (rj_length j)
              no_storage_error (heap_ s) l) as (n & e & l' & -> & Hl' & _);
    [apply Hf|done|done|lia..|].
  cbn [obind]. eexists. split; [done|].
  apply (inv_post (set_heap (<[rj_buf j := l']> (heap_ s)) s)
           (C_read (rj_handler j) (Some (rj_buf j)) e) []).
  by apply (inv_heap_read s (rj_buf j) l).
Qed.

(** What a posted write leaves. *)
Definition enqueue_write (j : write_job) (pool : buffer_pool) (l : list byte) (s : io) : io :=
  set_write_thread_pool (write_thread_pool_ s ++ [j])
    (set_store_buffer (insert (wj_loc j) (wj_buf j) (store_buffer_ s))
       (set_write_buffer_pool pool (set_heap (<[wj_buf j := l]> (heap_ s)) s))).

Lemma async_write_posted s m idx r buf o h a told junk pool l :
  allocate_buffer_observed m false o (heap_ s) (write_buffer_pool_ s) =
    (Some a, told, <[a := junk]> (heap_ s), pool) →
  heap_ s !! a = None → Z.of_nat (length junk) = DEFAULT_BLOCK_SIZE →
  heap_ s !! buf = Some l → 0 ≤ r_length r ≤ DEFAULT_BLOCK_SIZE →
  r_length r ≤ Z.of_nat (length l) →
  async_write m idx r buf o h s =
    Ret (told, enqueue_write (mkWriteJob h idx r a W_posted) pool
                 (blit 0 (take (Z.to_nat (r_length r)) l) junk) s).
Proof.
  intros Halloc Hfresh Hjunk Hbuf Hlen Hl.
  unfold async_write, boost_assert. rewrite (proj2 (Z.leb_le _ _)) by lia.
  unfold bind at 1, ret at 1. cbn [obind]. unfold bind at 1, allocate_write_buffer.
  rewrite Halloc. cbn [obind]. unfold bind, with_heap. simpl.
  rewrite (memcpy_ret _ _ _ _ _ _ l junk);
    [|congruence|rewrite lookup_insert_ne by congruence; done|by rewrite lookup_insert_eq|lia..].
  cbn [obind]. rewrite insert_insert_eq. done.
Qed.

Lemma async_write_direct s m idx r buf o h told h' pool st e k :
  allocate_buffer_observed m false o (heap_ s) (write_buffer_pool_ s) = (None, told, h', pool) →
  r_length r ≤ DEFAULT_BLOCK_SIZE → storages_ s !! idx = Some st → h' = heap_ s →
  write st buf (r_piece r) (r_start r) (r_length r) no_storage_error (kernel_ s) (heap_ s) =
    Ret (e, k) →
  async_write m idx r buf o h s =
    Ret (told, set_ioc (ioc_ s ++ [C_write h e])
                 (set_kernel k (set_write_buffer_pool pool s))).
Proof.
  intros Halloc Hlen Hst -> Hw. unfold async_write, boost_assert.
  rewrite (proj2 (Z.leb_le _ _)) by lia.
  unfold bind at 1, ret at 1. cbn [obind]. unfold bind at 1, allocate_write_buffer.
  rewrite Halloc. cbn [obind]. unfold bind, storage_at, storage_write. simpl. rewrite Hst. simpl.
  by rewrite Hw.
Qed.

Lemma async_write_safe s m idx r buf o h :
  io_inv s → disciplined (L_async_write m idx r buf o h) s →
  ∃ told s', async_write m idx r buf o h s = Ret (told, s') ∧ io_inv s'.
Proof.
  intros Hinv (Hm & Hmax & Hreq & l & Hbuf & Hl).
  pose proof Hreq as (st & Hst & Hr). pose proof (inv_files _ _ _ Hinv _ _ Hst) as Hf.
  assert (0 ≤ r_length r) by (unfold valid_range in Hr; lia).
  destruct (allocate_buffer_observed m false o (heap_ s) (write_buffer_pool_ s))
    as [[[[a|] told] h'] pool] eqn:Halloc;
    pose proof (inv_allocate_write _ _ _ _ _ _ _ Hinv Hm Halloc) as Ha.
  - destruct Ha as (Hfresh & junk & -> & Hjunk & Hinv').
    eexists _, _. split; [by eapply async_write_posted|].
    apply (inv_enqueue_write (set_write_buffer_pool pool (set_heap _ s))
             (mkWriteJob h idx r a W_posted)); [|done|done].
    apply Hinv'. rewrite length_blit; [done|]. rewrite length_take. lia.
  - destruct Ha as [-> Hinv'].
    destruct (write_safe (kernel_ s) st buf (r_piece r) (r_start r) (r_length r) no_storage_error
                (heap_ s) l) as (e & k & Hw); [apply Hf|done..|].
    eexists _, _. split; [by eapply async_write_direct|].
    apply (inv_post (set_kernel k (set_write_buffer_pool pool s)) (C_write h e) [] []).
    by destruct Hinv'.
Qed.

(** What is left of a write job replaces it in the queue. *)
Lemma write_job_safe s i j :
  io_inv s → write_thread_pool_ s !! i = Some j →
  ∃ s', exec (HS := HS) (L_write_job i) s = Ret s' ∧ io_inv s'.
Proof.
  intros Hinv Hj. simpl. rewrite Hj. unfold run_write_job.
  pose proof (proj1 (Forall_lookup _ _) (inv_write_jobs _ _ _ Hinv) _ _ Hj)
    as [(st & Hst & Hr) Hmax].
  destruct (wj_phase j) as [|e|e] eqn:Hph.
  - destruct (pool_inv_live _ _ _ (wj_buf j) (inv_write_pool _ _ _ Hinv)) as (l & Hl & Hlen).
    { apply list_elem_of_fmap_2. by eapply list_elem_of_lookup_2. }
    destruct (write_safe (kernel_ s) st (wj_buf j) (r_piece (wj_request j))
                (r_start (wj_request j)) (r_length (wj_request j)) no_storage_error
                (heap_ s) l) as (e & k & Hw);
      [by apply (inv_files _ _ _ Hinv _ _ Hst)|done|done|lia|].
    unfold bind, storage_at, storage_write. rewrite Hst. simpl. rewrite Hw. simpl.
    eexists. split; [done|].
    assert (io_inv (set_kernel k s)) as Hinv' by by destruct Hinv.
    apply (inv_write_phase _ i j (W_written e) (store_buffer_ s)) in Hinv'; [done|done|].
    intros loc a Ha. done.
  - simpl. eexists. split; [done|].
    apply (inv_write_phase s i j); [done..|]. intros loc a.
    rewrite lookup_erase_sb. case_decide; [done|]. intros Ha. split; [done|]. by intros ->.
  - destruct (inv_finish_write s i j (C_write (wj_handler j) e)) as (p & posted & Hfree & Hinv');
      [done|done|unfold is_erased; by rewrite Hph|done|].
    unfold bind, post_ioc, modify. cbn [obind]. simpl in Hfree. rewrite Hfree. simpl.
    eexists. split; [done|]. exact Hinv'.
Qed.

(** A call of async_read, whatever it is asked: an error at once, or a buffer. *)
Lemma async_read_cases s m idx r h :
  io_inv s → disciplined (L_async_read m idx r h) s →
  (∃ e pool, async_read m idx r h s =
     Ret (tt, deliver (C_read h None e) (set_read_buffer_pool pool s)) ∧
     io_inv (set_read_buffer_pool pool s)) ∨
  (∃ a pool, heap_ s !! a = None ∧ fst <$> m = Some a ∧
     request_ok s idx (r_piece r) (r_start r) (r_length r) ∧
     read_outcome s pool a idx r h (async_read m idx r h s) ∧
     ∀ l, Z.of_nat (length l) = DEFAULT_BLOCK_SIZE → io_inv_with [a] [] (with_read_buffer s pool a l)).
Proof.
  intros Hinv (Hm & Hmax & Hreq).
  destruct (decide (r_length r ≤ 0 ∨ r_start r < 0)) as [Hbad|Hgood].
  { left. eexists _, (read_buffer_pool_ s). rewrite async_read_invalid by done.
    split; by destruct s. }
  destruct Hreq as [?|[?|(st & Hst & Hr)]]; [lia..|].
  destruct (allocate_buffer_impl m (heap_ s) (read_buffer_pool_ s)) as [[[a|] h'] pool] eqn:Halloc;
    pose proof (inv_allocate_read _ _ _ _ _ Hinv Hm Halloc) as Ha.
  - right. destruct Ha as (Hfresh & junk & -> & Hjunk & Hinv'). exists a, pool.
    destruct (proj2 (inv_files _ _ _ Hinv _ _ Hst) (r_piece r)) as [_ Hsz];
      [unfold valid_range in Hr; lia|].
    split_and!; [done|by eapply allocate_buffer_from|by exists st| |done].
    apply (async_read_accepted s m idx r h a junk pool);
      [by eapply store_live_inv|done|done|done|lia|lia|unfold valid_range in Hr; lia].
  - left. destruct Ha as [-> Hinv']. eexists _, pool.
    erewrite async_read_no_memory; [|lia|lia|done]. split; [by destruct s|done].
Qed.

Lemma async_read_safe s m idx r h :
  io_inv s → disciplined (L_async_read m idx r h) s →
  ∃ s', async_read m idx r h s = Ret (tt, s') ∧ io_inv s'.
Proof.
  intros Hinv Hd. destruct (async_read_cases s m idx r h Hinv Hd)
    as [(e & pool & -> & Hinv')|(a & pool & Hfresh & _ & (st & Hst & Hr) & Hout & Hinv')].
  { eexists. split; [done|]. by apply inv_deliver. }
  destruct Hd as (_ & Hmax & _). destruct Hout as (l & pos & n & Hplan & Hout).
  pose proof (plan_bounds _ _ _ _ _ _ Hplan) as Hb.
  specialize (Hinv' l (plan_length _ _ _ _ _ _ Hplan)).
  destruct Hout as [[-> ->]|[Hn ->]]; eexists; (split; [done|]).
  - by apply inv_deliver.
  - apply inv_enqueue_read; [done|]. split; simpl; [|lia].
    exists st. split; [done|]. eapply valid_range_sub; [done|lia..].
Qed.

(** ** Torrents come and go *)

Lemma slots_inv_fresh sts slots :
  slots_inv sts slots →
  sts !! (match slots with [] => Z.of_nat (size sts) | front :: _ => front end) = None.
Proof.
  intros (Hnd & Hnone & Hrange). destruct slots as [|front slots]; [|apply Hnone; by left].
  apply eq_None_not_Some. intros Hs. simpl in Hrange.
  assert (0 ≤ Z.of_nat (size sts) < Z.of_nat (size sts + 0)); [|lia].
  apply Hrange. by left.
Qed.

Lemma slots_inv_new sts slots st :
  slots_inv sts slots →
  let '(idx, rest) := match slots with
                      | [] => (Z.of_nat (size sts), [])
                      | front :: rest => (front, rest)
                      end in
  slots_inv (<[idx := st]> sts) rest.
Proof.
  intros Hs. pose proof (slots_inv_fresh _ _ Hs) as Hfresh. destruct Hs as (Hnd & Hnone & Hrange).
  destruct slots as [|front rest]; split_and!.
  - constructor.
  - intros i Hi. by apply elem_of_nil in Hi.
  - intros i. rewrite map_size_insert_None, lookup_insert_is_Some' by done. simpl.
    specialize (Hrange i). simpl in Hrange. rewrite elem_of_nil in *.
    split; [intros [[<-|?]|?]; [lia| |done]|].
    + assert (0 ≤ i < Z.of_nat (size sts + 0)) by tauto. lia.
    + intros ?. destruct (decide (i = Z.of_nat (size sts))) as [->|]; [by left; left|].
      left. right. assert (is_Some (sts !! i) ∨ False) by (apply Hrange; lia). tauto.
  - by apply NoDup_cons in Hnd as [_ ?].
  - apply NoDup_cons in Hnd as [Hnot _]. intros i Hi.
    rewrite lookup_insert_ne by (intros ->; done). apply Hnone. by right.
  - intros i. rewrite map_size_insert_None, lookup_insert_is_Some' by done.
    specialize (Hrange i). rewrite elem_of_cons in Hrange. simpl in Hrange.
    replace (S (size sts) + length rest)%nat with (size sts + S (length rest))%nat by lia.
    rewrite <-Hrange. naive_solver.
Qed.

Lemma slots_inv_remove sts slots idx :
  slots_inv sts slots → is_Some (sts !! idx) → slots_inv (delete idx sts) (slots ++ [idx]).
Proof.
  intros (Hnd & Hnone & Hrange) Hin. pose proof Hin as [st Hst]. split_and!.
  - apply NoDup_app. split_and!; [done| |apply NoDup_singleton].
    intros i Hi ->%list_elem_of_singleton. rewrite Hnone in Hst by done. done.
  - intros i [Hi| ->%list_elem_of_singleton]%elem_of_app.
    + rewrite lookup_delete_None. right. by apply Hnone.
    + apply lookup_delete_eq.
  - intros i. rewrite elem_of_app, list_elem_of_singleton, length_app. simpl.
    assert (size sts = S (size (delete idx sts))) as Hsz.
    { rewrite <-(insert_delete_id sts idx st) at 1 by done.
      apply map_size_insert_None, lookup_delete_eq. }
    specialize (Hrange i).
    replace (size (delete idx sts) + (length slots + 1))%nat with (size sts + length slots)%nat by lia.
    rewrite <-Hrange. rewrite lookup_delete_is_Some.
    destruct (decide (i = idx)) as [->|]; naive_solver.
Qed.

Lemma new_torrent_safe s path files :
  io_inv s → disciplined (L_new_torrent path files) s →
  ∃ idx st k, storages_ s !! idx = None ∧
    new_partition_storage path files (kernel_ s) = Ret (st, k) ∧ fs_ st = files ∧
    new_torrent path files s =
      Ret (idx, set_free_slots (tail (free_slots_ s))
                  (set_storages (<[idx := st]> (storages_ s)) (set_kernel k s))) ∧
    io_inv (set_free_slots (tail (free_slots_ s))
                  (set_storages (<[idx := st]> (storages_ s)) (set_kernel k s))).
Proof.
  intros [Hrp Hwp Hnd Hsb Hsl Hf Hrj Hwj Hhj] [Hopen Hfiles].
  pose proof (slots_inv_fresh _ _ Hsl) as Hfresh.
  unfold new_torrent, new_partition_storage.
  destruct (k_open path (kernel_ s)) as [fd k] eqn:Hk. simpl in Hopen.
  rewrite (proj2 (Z.ltb_ge fd 0)) by done. simpl.
  pose proof (slots_inv_new _ _ (mkStorage fd files) Hsl) as Hsl'.
  set (idx := match free_slots_ s with [] => Z.of_nat (size (storages_ s)) | front :: _ => front end)
    in *.
  exists idx, (mkStorage fd files), k. do 3 (split; [done|]).
  assert (∀ i p off len, request_ok s i p off len →
    ∃ st, <[idx := mkStorage fd files]> (storages_ s) !! i = Some st ∧
          valid_range (fs_ st) p off len) as Hreq.
  { intros i p off len (st & Hst & ?). exists st. rewrite lookup_insert_ne by congruence. done. }
  split.
  - unfold idx in *. by destruct (free_slots_ s); rewrite Hfresh.
  - split; simpl; try done.
    + unfold idx. by destruct (free_slots_ s).
    + intros i st. rewrite lookup_insert. case_decide; [by intros [= <-]|apply Hf].
    + eapply Forall_impl; [exact Hrj|]. intros j [? ?]. split; [by apply Hreq|done].
    + eapply Forall_impl; [exact Hwj|]. intros j [? ?]. split; [by apply Hreq|done].
    + eapply Forall_impl; [exact Hhj|]. intros j ?. by apply Hreq.
Qed.

Lemma remove_torrent_safe s idx :
  io_inv s → disciplined (L_remove_torrent idx) s →
  ∃ s', remove_torrent idx s = Ret (tt, s') ∧ io_inv s'.
Proof.
  intros [Hrp Hwp Hnd Hsb Hsl Hf Hrj Hwj Hhj] [Hin (Hur & Huw & Huh)].
  eexists. split; [done|].
  assert (∀ i p off len, i ≠ idx → request_ok s i p off len →
    ∃ st, delete idx (storages_ s) !! i = Some st ∧ valid_range (fs_ st) p off len) as Hreq.
  { intros i p off len Hi (st & Hst & ?). exists st. by rewrite lookup_delete_ne. }
  split; simpl; try done.
  - by apply slots_inv_remove.
  - intros i st [_ Hst]%lookup_delete_Some. by eapply Hf.
  - eapply Forall_impl; [exact (proj2 (Forall_and _ _) (conj Hrj Hur))|]. intros j [[? ?] ?].
    split; [by apply Hreq|done].
  - eapply Forall_impl; [exact (proj2 (Forall_and _ _) (conj Hwj Huw))|]. intros j [[? ?] ?].
    split; [by apply Hreq|done].
  - eapply Forall_impl; [exact (proj2 (Forall_and _ _) (conj Hhj Huh))|]. intros j [? ?].
    by apply Hreq.
Qed.

(** ** The remaining steps *)

Lemma async_hash_safe s m idx p h :
  io_inv s → disciplined (L_async_hash m idx p h) s →
  ∃ s', async_hash m idx p h s = Ret (tt, s') ∧ io_inv s'.
Proof.
  intros Hinv [Hm Hreq]. unfold async_hash, bind, allocate_read_buffer, allocate_buffer.
  destruct (allocate_buffer_impl m (heap_ s) (read_buffer_pool_ s)) as [[[a|] h'] pool] eqn:Halloc;
    pose proof (inv_allocate_read _ _ _ _ _ Hinv Hm Halloc) as Ha; simpl;
    (eexists; split; [done|]).
  - destruct Ha as (Hfresh & junk & -> & Hjunk & Hinv').
    by apply (inv_post_hash_job (with_read_buffer s pool a junk) (mkHashJob h idx p a H_posted)); [apply Hinv'|].
  - destruct Ha as [-> Hinv']. by apply (inv_post (set_read_buffer_pool pool s)).
Qed.

Lemma run_simple_safe s op :
  io_inv s → ∃ s', run_simple op s = Ret (tt, s') ∧ io_inv s'.
Proof.
  intros Hinv. destruct op; eexists; (split; [done|]); first [exact Hinv|by apply inv_post].
Qed.

Lemma run_completion_safe s alive c :
  io_inv_with (handed c) [] s →
  ∃ s', run_completion alive c s = Ret (tt, s') ∧ io_inv s'.
Proof.
  intros Hinv. destruct c; eexists; (split; [done|]);
    match goal with
    | |- io_inv (set_held (_ ++ handed ?c) _) => by apply (inv_deliver s c)
    | |- _ => by apply (inv_deliver s)
    end.
Qed.

Lemma client_memory_safe s a l :
  io_inv s → a ∉ read_owned s ++ write_owned s →
  io_inv (set_heap (<[a := l]> (heap_ s)) s).
Proof.
  intros [Hrp Hwp Hnd Hsb Hsl Hf Hrj Hwj Hhj] Ha. rewrite elem_of_app in Ha.
  split; simpl; try done; (eapply pool_inv_heap; [done|]);
    intros b Hb%elem_of_list_to_set; apply lookup_insert_ne; intros ->; naive_solver.
Qed.

Lemma step_safe l s :
  io_inv s → disciplined l s → ∃ s', exec (HS := HS) l s = Ret s' ∧ io_inv s'.
Proof.
  intros Hinv Hd. destruct l; unfold exec.
  - destruct (new_torrent_safe _ _ _ Hinv Hd) as (idx & st & k & _ & _ & _ & -> & ?). simpl. eauto.
  - destruct (remove_torrent_safe _ _ Hinv Hd) as (s' & -> & ?). simpl. eauto.
  - destruct (async_read_safe _ _ _ _ _ Hinv Hd) as (s' & -> & ?). simpl. eauto.
  - destruct (async_write_safe _ _ _ _ _ _ _ Hinv Hd) as (told & s' & -> & ?). simpl. eauto.
  - destruct (async_hash_safe _ _ _ _ _ Hinv Hd) as (s' & -> & ?). simpl. eauto.
  - destruct (run_simple_safe _ op Hinv) as (s' & -> & ?). simpl. eauto.
  - destruct (read_thread_pool_ s !! i) as [j|] eqn:Hj; [|by eauto].
    destruct (inv_take_read _ _ _ Hinv Hj) as [Hinv' Hok].
    destruct (run_read_job_safe _ _ Hinv' Hok) as (s' & -> & ?). simpl. eauto.
  - destruct (write_thread_pool_ s !! i) as [j|] eqn:Hj; [|by eauto].
    destruct (write_job_safe s i j Hinv Hj) as (s' & Hex & ?). unfold exec in Hex.
    rewrite Hj in Hex. eauto.
  - destruct (hash_thread_pool_ s !! i) as [j|] eqn:Hj; [|by eauto].
    destruct (hash_job_safe s i j Hinv Hj) as (s' & Hex & ?). unfold exec in Hex.
    rewrite Hj in Hex. eauto.
  - destruct (ioc_ s) as [|c cs] eqn:Hioc; [by eauto|].
    destruct (run_completion_safe _ alive _ (inv_take_ioc _ _ _ Hinv Hioc)) as (s' & -> & ?).
    simpl. eauto.
  - destruct (held_ s !! i) as [a|] eqn:Ha; [|by eauto].
    destruct (inv_free_read _ _ (inv_take_held _ _ _ Hinv Ha)) as (s' & -> & ? & _). simpl. eauto.
  - eexists. split; [done|]. by apply client_memory_safe.
Qed.

Lemma io_inv_new h (k : K) : io_inv (new_raw_disk_io (HS := HS) (digest := digest) h k).
Proof.
  split; simpl; try done; try apply pool_inv_new.
  - constructor.
  - split_and!; [constructor|intros i Hi; by apply elem_of_nil in Hi|].
    intros i. rewrite lookup_empty, elem_of_nil, map_size_empty. simpl.
    split; [intros [[? ?]|]; done|lia].
Qed.

Lemma io_inv_execution h k ls s :
  execution (HS := HS) (new_raw_disk_io h k) ls s → io_inv s.
Proof.
  remember (new_raw_disk_io h k) as s0 eqn:Hs0. induction 1 as [|s0' ls s1 l s2 Hex IH [Hd Hl]].
  - subst. apply io_inv_new.
  - destruct (step_safe l s1) as (s' & Hl' & Hinv); [by apply IH|done|]. congruence.
Qed.

Lemma size_owned (l : list ptr) : NoDup l → size (list_to_set l : gset ptr) = length l.
Proof. intros. apply size_list_to_set. done. Qed.
End invariant.

(** C5: no step of a disciplined client ever faults.  From the construction of
    the back end on, in every interleaving of calls, pool threads and
    completions, every disciplined step ends without touching a dead pointer,
    freeing twice, copying past a buffer, dereferencing a null storage, failing
    an assertion, overflowing an [int] or leaving the process. *)
Theorem disk_io_never_faults {K HS digest} `{KernelLaws K} `{Hasher HS digest}
    (h : heap) (k : K) ls (s : disk_io K HS digest) l :
  execution (HS := HS) (new_raw_disk_io h k) ls s → disciplined l s →
  ∃ s', step (HS := HS) l s s'.
Proof.
  intros Hex Hd. destruct (step_safe (HS := HS) l s) as (s' & ? & _);
    [by eapply io_inv_execution|done|]. by exists s'.
Qed.

(** C10: the store buffer never dangles.  In every reachable state, each of its
    entries is the live, block-sized buffer of a posted write of that very
    location whose entry has not been erased yet. *)
Theorem store_buffer_never_dangles {K HS digest} `{KernelLaws K} `{Hasher HS digest}
    (h : heap) (k : K) ls (s : disk_io K HS digest) loc a :
  execution (HS := HS) (new_raw_disk_io h k) ls s → store_buffer_ s !! loc = Some a →
  (∃ d, heap_ s !! a = Some d ∧ Z.of_nat (length d) = DEFAULT_BLOCK_SIZE) ∧
  ∃ j, j ∈ write_thread_pool_ s ∧ wj_loc j = loc ∧ wj_buf j = a ∧ is_erased j = false.
Proof.
  intros Hex Ha. pose proof (io_inv_execution _ _ _ _ Hex) as Hinv.
  split; [by eapply store_live_inv|by apply (inv_store _ _ _ Hinv)].
Qed.

(** C9: every buffer has exactly one owner.  In every reachable state, the
    buffers of the read jobs, hash jobs, posted completions and handlers, and
    those of the write jobs, are all different; each pool counts exactly the
    buffers so owned, and neither count passes [BUFFER_COUNT]. *)
Theorem buffers_have_one_owner {K HS digest} `{KernelLaws K} `{Hasher HS digest}
    (h : heap) (k : K) ls (s : disk_io K HS digest) :
  execution (HS := HS) (new_raw_disk_io h k) ls s →
  NoDup (read_owned s ++ write_owned s) ∧
  m_size (read_buffer_pool_ s) = Z.of_nat (length (read_owned s)) ∧
  m_size (write_buffer_pool_ s) = Z.of_nat (length (write_thread_pool_ s)) ∧
  Z.of_nat (length (read_owned s)) ≤ BUFFER_COUNT ∧
  Z.of_nat (length (write_thread_pool_ s)) ≤ BUFFER_COUNT.
Proof.
  intros Hex. destruct (io_inv_execution _ _ _ _ Hex) as [Hrp Hwp Hnd _ _ _ _ _ _]. simpl in *.
  pose proof Hnd as (Hr & _ & Hw)%NoDup_app.
  destruct Hrp as [Hrs Hrc _ _], Hwp as [Hws Hwc _ _].
  rewrite size_owned in * by done. unfold write_owned in *. rewrite length_fmap in *. auto.
Qed.

(** ** Witnesses: the run of RawDiskIODemo *)

Lemma disk_io_never_faults_witness :
  ∃ s', step (L_hash_job 0) (demo_state demo_labels) s'.
Proof.
  apply (disk_io_never_faults ∅ demo_partition demo_labels); [exact demo_labels_run|done].
Defined.

Lemma store_buffer_never_dangles_witness :
  store_buffer_ (demo_state demo_labels) !! mkLoc 0 0 DEFAULT_BLOCK_SIZE = Some 3%positive ∧
  ∃ d, heap_ (demo_state demo_labels) !! 3%positive = Some d ∧
       Z.of_nat (length d) = DEFAULT_BLOCK_SIZE.
Proof.
  split; [by vm_compute|].
  apply (store_buffer_never_dangles ∅ demo_partition demo_labels _
           (mkLoc 0 0 DEFAULT_BLOCK_SIZE)); [exact demo_labels_run|by vm_compute].
Defined.

Lemma buffers_have_one_owner_witness :
  read_owned (demo_state demo_labels) = [6; 5; 4]%positive ∧
  m_size (read_buffer_pool_ (demo_state demo_labels)) = 3.
Proof.
  assert (read_owned (demo_state demo_labels) = [6; 5; 4]%positive) as Ho by by vm_compute.
  split; [done|].
  destruct (buffers_have_one_owner ∅ demo_partition demo_labels _ demo_labels_run)
    as (_ & -> & _). by rewrite Ho.
Defined.
