(* ===== verification/RawDiskIOBounds.v ===== *)
(** * Posted jobs stay in range

    What the pool threads are left with: a range of a piece and a buffer.  In every
    reachable state each posted job asks for bytes that its torrent has, of a buffer
    that has room for them, in numbers that an [int] holds. *)

From S2P Require Import Prelude Memory BufferPool StoreBuffer Kernel PartitionStorage.
From S2P Require Import RawDiskIO RawDiskIOSteps RawDiskIODemo RawDiskIOSpec RawDiskIOInv.

Section bounds.
Context {K HS digest : Type} `{KernelLaws K} `{Hasher HS digest}.
Abbreviation io := (disk_io K HS digest).
Implicit Types s : io.

(** [len] bytes from [off] of piece [p] of torrent [idx], at [pos] in the buffer *)
Record job_in_range (s : io) (idx p off len : Z) (buf : ptr) (pos : Z) : Prop := {
  jr_torrent : ∃ st, storages_ s !! idx = Some st ∧ 0 ≤ p < fs_num_pieces (fs_ st) ∧
    0 ≤ off ∧ 0 ≤ len ∧ off + len ≤ piece_size st p;
  jr_buffer : ∃ l, heap_ s !! buf = Some l ∧ 0 ≤ pos ∧ pos + len ≤ Z.of_nat (length l);
  jr_int : is_i32 off ∧ is_i32 len ∧ is_i32 (off + len);
}.

Lemma request_in_range s idx p off len buf pos l :
  io_inv s → request_ok s idx p off len → heap_ s !! buf = Some l →
  0 ≤ pos → pos + len ≤ Z.of_nat (length l) → job_in_range s idx p off len buf pos.
Proof.
  intros Hinv (st & Hst & Hp & Hoff & Hlen & Hend) Hl Hpos Hroom.
  destruct (inv_files _ _ _ Hinv _ _ Hst) as [_ Hsz]. specialize (Hsz p Hp).
  split; [by exists st|by exists l|]. rewrite block_size_value in *. unfold is_i32. lia.
Qed.

Lemma read_buffer_live s a :
  io_inv s → a ∈ read_owned s →
  ∃ l, heap_ s !! a = Some l ∧ Z.of_nat (length l) = DEFAULT_BLOCK_SIZE.
Proof. intros Hinv Ha. by apply (pool_inv_live _ _ _ a (inv_read_pool _ _ _ Hinv)). Qed.

Lemma read_jobs_in_range s j :
  io_inv s → j ∈ read_thread_pool_ s →
  job_in_range s (rj_storage j) (rj_piece j) (rj_offset j) (rj_length j) (rj_buf j) (rj_pos j).
Proof.
  intros Hinv Hj. pose proof (proj1 (Forall_forall _ _) (inv_read_jobs _ _ _ Hinv) _ Hj) as (Hr & ? & ?).
  destruct (read_buffer_live s (rj_buf j) Hinv) as (l & Hl & Hlen).
  { unfold read_owned. rewrite elem_of_app. left. by apply list_elem_of_fmap_2. }
  eapply request_in_range; [done..|lia].
Qed.

Lemma write_jobs_in_range s j :
  io_inv s → j ∈ write_thread_pool_ s →
  job_in_range s (wj_storage j) (r_piece (wj_request j)) (r_start (wj_request j))
    (r_length (wj_request j)) (wj_buf j) 0.
Proof.
  intros Hinv Hj. pose proof (proj1 (Forall_forall _ _) (inv_write_jobs _ _ _ Hinv) _ Hj) as (Hr & ?).
  destruct (pool_inv_live _ _ _ (wj_buf j) (inv_write_pool _ _ _ Hinv)) as (l & Hl & Hlen).
  { by apply list_elem_of_fmap_2. }
  eapply request_in_range; [done..|lia].
Qed.

Lemma hash_jobs_in_range s j :
  io_inv s → j ∈ hash_thread_pool_ s →
  ∃ st, storages_ s !! hj_storage j = Some st ∧
    let off := offset_of (hj_phase j) in
    job_in_range s (hj_storage j) (hj_piece j) off
      (Z.min DEFAULT_BLOCK_SIZE (piece_size st (hj_piece j) - off)) (hj_buf j) 0.
Proof.
  intros Hinv Hj. pose proof (proj1 (Forall_forall _ _) (inv_hash_jobs _ _ _ Hinv) _ Hj)
    as (st & Hst & Hp & Hoff & _ & Hend).
  destruct (read_buffer_live s (hj_buf j) Hinv) as (l & Hl & Hlen).
  { unfold read_owned. rewrite !elem_of_app. right. left. by apply list_elem_of_fmap_2. }
  exists st. split; [done|]. eapply request_in_range; [done| |done|lia|lia].
  exists st. split; [done|]. unfold valid_range, piece_size. rewrite block_size_value in *. lia.
Qed.
End bounds.

(** C18: posted jobs stay in range.  In every reachable state, whatever calls were
    made, each read and write that is posted, and each next block of a posted hash,
    is a range inside a piece of a torrent that is there, fits its buffer from where
    it is put, and has offset, length and end that an [int] holds. *)
Theorem posted_jobs_in_range {K HS digest} `{KernelLaws K} `{Hasher HS digest}
    (h : heap) (k : K) ls (s : disk_io K HS digest) :
  execution (new_raw_disk_io h k) ls s →
  (∀ j, j ∈ read_thread_pool_ s →
     job_in_range s (rj_storage j) (rj_piece j) (rj_offset j) (rj_length j) (rj_buf j) (rj_pos j)) ∧
  (∀ j, j ∈ write_thread_pool_ s →
     job_in_range s (wj_storage j) (r_piece (wj_request j)) (r_start (wj_request j))
       (r_length (wj_request j)) (wj_buf j) 0) ∧
  (∀ j, j ∈ hash_thread_pool_ s →
     ∃ st, storages_ s !! hj_storage j = Some st ∧
       let off := offset_of (hj_phase j) in
       job_in_range s (hj_storage j) (hj_piece j) off
         (Z.min DEFAULT_BLOCK_SIZE (piece_size st (hj_piece j) - off)) (hj_buf j) 0).
Proof.
  intros Hinv%io_inv_execution. split_and!; intros j Hj.
  - by apply read_jobs_in_range.
  - by apply write_jobs_in_range.
  - by apply hash_jobs_in_range.
Qed.

(** ** Witness: the read of the demonstration whose first block only is on disk *)

Definition demo_half_read : list label :=
  demo_writes ++ [L_write_job 0; L_write_job 0; L_async_read (got 5) 0 (mkReq 0 16380 8) 10%nat].

Definition half_read : read_job := mkReadJob 10%nat 0 0 5%positive 0 16380 4.

Lemma posted_jobs_in_range_witness :
  job_in_range (demo_state demo_half_read) 0 0 16380 4 5%positive 0.
Proof.
  refine (proj1 (posted_jobs_in_range ∅ demo_partition demo_half_read (demo_state demo_half_read) _)
    half_read _).
  - apply demo_execution; [by repeat constructor|vm_compute; reflexivity].
  - assert (read_thread_pool_ (demo_state demo_half_read) = [half_read]) as ->
      by (vm_compute; reflexivity).
    by left.
Defined.
