(* ===== verification/RawDiskIOSlots.v ===== *)
(** * Which index a torrent gets

    [raw_disk_io] numbers its torrents and reuses the numbers of those removed.
    [slot_queue] says which numbers wait to be reused after a run, from the calls
    alone: each removed torrent's joins the end of a queue, and each new torrent
    takes the first one, if there is one. *)

From S2P Require Import Prelude Memory BufferPool StoreBuffer Kernel PartitionStorage.
From S2P Require Import RawDiskIO RawDiskIOSteps RawDiskIODemo RawDiskIOSpec RawDiskIOInv.

Definition queue_after (q : list Z) (l : label) : list Z :=
  match l with
  | L_remove_torrent idx => q ++ [idx]
  | L_new_torrent _ _ => tail q
  | _ => q
  end.

Definition slot_queue (ls : list label) : list Z := foldl queue_after [] ls.

Section slots.
Context {K HS digest : Type} `{KernelLaws K} `{Hasher HS digest}.
Abbreviation io := (disk_io K HS digest).
Implicit Types s : io.

(** Computations that leave the free slots alone *)
Definition keeps {A} (m : M (K := K) (HS := HS) (digest := digest) A) : Prop :=
  ∀ s a s', m s = Ret (a, s') → free_slots_ s' = free_slots_ s.

Lemma keeps_bind {A B} (m : M A) (f : A → M B) :
  keeps m → (∀ a, keeps (f a)) → keeps (bind m f).
Proof.
  intros Hm Hf s b s' Hb. unfold bind in Hb. apply obind_ret_inv in Hb as ([a s1] & E1 & E2).
  rewrite (Hf _ _ _ _ E2). by eapply Hm.
Qed.

Ltac keep :=
  lazymatch goal with
  | |- keeps (bind _ _) => apply keeps_bind; [keep|intros; keep]
  | |- keeps (if ?b then _ else _) => destruct b; keep
  | |- keeps (match ?x with _ => _ end) => destruct x; keep
  | |- _ =>
      intros s0 x0 s1 Heq;
      unfold boost_assert, lift, call, post_ioc, post_read_job, post_write_job,
        post_hash_job, with_heap, storage_at, storage_read, storage_write, store_buffer_get,
        store_buffer_get2, store_buffer_insert, store_buffer_erase, allocate_read_buffer,
        allocate_write_buffer, free_read_buffer, free_write_buffer, modify, ret, fail in Heq;
      repeat (outcome_inv; try case_match); done
  end.

Lemma keeps_async_read m idx r h : keeps (async_read m idx r h).
Proof. unfold async_read. keep. Qed.
Lemma keeps_async_write m idx r buf o h : keeps (async_write m idx r buf o h).
Proof. unfold async_write. keep. Qed.
Lemma keeps_async_hash m idx p h : keeps (async_hash m idx p h).
Proof. unfold async_hash. keep. Qed.
Lemma keeps_run_simple op : keeps (run_simple op).
Proof. destruct op; by intros s a s' [= _ <-]. Qed.
Lemma keeps_run_read_job j : keeps (run_read_job j).
Proof. unfold run_read_job. keep. Qed.
Lemma keeps_run_write_job j : keeps (run_write_job j).
Proof. unfold run_write_job. keep. Qed.
Lemma keeps_run_hash_job j : keeps (run_hash_job j).
Proof. unfold run_hash_job. keep. Qed.
Lemma keeps_completion alive c : keeps (run_completion alive c).
Proof. destruct c; by intros s0 a0 s1 [= _ <-]. Qed.
Lemma keeps_free_read a : keeps (free_read_buffer a).
Proof. keep. Qed.

(** A step changes the queue as its call says. *)
Lemma free_slots_step l s s' :
  io_inv s → step l s s' → free_slots_ s' = queue_after (free_slots_ s) l.
Proof.
  intros Hinv [Hd Hex]. destruct l; unfold exec in Hex; cbn [queue_after].
  - destruct (new_torrent_safe s _ _ Hinv Hd) as (idx & st & k & _ & _ & _ & E & _).
    rewrite E in Hex. by simplify_eq/=.
  - unfold remove_torrent in Hex. by simplify_eq/=.
  - outcome_inv. by eapply keeps_async_read.
  - outcome_inv. by eapply keeps_async_write.
  - outcome_inv. by eapply keeps_async_hash.
  - outcome_inv. by eapply keeps_run_simple.
  - destruct (_ !! i); outcome_inv; [|done]. by apply keeps_run_read_job in Ha.
  - destruct (_ !! i); outcome_inv; [|done]. by apply keeps_run_write_job in Ha.
  - destruct (_ !! i); outcome_inv; [|done]. by apply keeps_run_hash_job in Ha.
  - destruct (ioc_ s); outcome_inv; [done|]. by apply keeps_completion in Ha.
  - destruct (_ !! i); outcome_inv; [|done]. by apply keeps_free_read in Ha.
  - by simplify_eq/=.
Qed.

Lemma free_slots_execution h k ls s :
  execution (new_raw_disk_io h k) ls s → free_slots_ s = slot_queue ls.
Proof.
  remember (new_raw_disk_io h k) as s0 eqn:Hs0.
  induction 1 as [s0|s0 ls s1 l s2 Hex IH Hstep]; subst; [done|].
  unfold slot_queue. rewrite foldl_snoc. fold (slot_queue ls). rewrite <-IH by done.
  apply free_slots_step; [by eapply io_inv_execution|done].
Qed.
End slots.

(** C27: torrent indices.  After any run, a new torrent whose partition opens gets an
    index that no torrent has and becomes the storage at that index without
    disturbing the others; the index is, of those given back and not taken since,
    the one given back longest ago ([slot_queue], read off the calls), and the
    number of torrents if there is none. *)
Theorem new_torrent_index {K HS digest} `{KernelLaws K} `{Hasher HS digest}
    (h : heap) (k : K) ls (s : disk_io K HS digest) path files :
  execution (HS := HS) (new_raw_disk_io h k) ls s →
  0 ≤ fst (k_open path (kernel_ s)) → files_ok files →
  ∃ idx s', new_torrent path files s = Ret (idx, s') ∧
    idx = match slot_queue ls with
          | [] => Z.of_nat (size (storages_ s))
          | front :: _ => front
          end ∧
    storages_ s !! idx = None ∧
    (∃ st, storages_ s' = <[idx := st]> (storages_ s) ∧ fs_ st = files) ∧
    free_slots_ s' = tail (slot_queue ls).
Proof.
  intros Hex Hopen Hfiles. pose proof (io_inv_execution _ _ _ _ Hex) as Hinv.
  pose proof (slots_inv_fresh _ _ (inv_slots _ _ _ Hinv)) as Hfresh.
  rewrite <-(free_slots_execution _ _ _ _ Hex).
  destruct (new_torrent_safe s path files) as (idx & st & k' & Hnone & _ & Hfs & Hnew & _); [done..|].
  eexists idx, _. split; [exact Hnew|]. split; [|by eauto 10].
  unfold new_torrent in Hnew.
  destruct (free_slots_ s); outcome_inv; (case_match; simplify_eq; done).
Qed.

(** ** Witness: of three torrents the last and then the first are removed *)

Definition demo_slots : list label :=
  [L_new_torrent "/dev/sda1" demo_files; L_new_torrent "/dev/sda1" demo_files;
   L_new_torrent "/dev/sda1" demo_files; L_remove_torrent 2; L_remove_torrent 0].

Lemma new_torrent_index_witness :
  ∃ idx s', new_torrent "/dev/sda1" demo_files (demo_state demo_slots) = Ret (idx, s') ∧ idx = 2.
Proof.
  destruct (new_torrent_index ∅ demo_partition demo_slots (demo_state demo_slots)
              "/dev/sda1" demo_files) as (idx & s' & Hnew & Hidx & _).
  - apply demo_execution; [by repeat constructor|vm_compute; reflexivity].
  - by vm_compute.
  - exact demo_files_ok.
  - exists idx, s'. split; [exact Hnew|]. exact Hidx.
Defined.
