(* ===== verification/RawDiskIOHandlers.v ===== *)
(** * Every handler is called once

    A handler given to the back end is a ticket: from then on it is captured by a
    posted job, captured by a posted completion, or called.  [adds m hs] says that
    a computation puts exactly the tickets [hs] into circulation; it composes along
    [bind], so each member function is accounted for by walking its body.

    The second half shows that the work posted is finite: every step of a pool
    thread or of the I/O context makes [work] smaller. *)

From S2P Require Import Prelude Memory BufferPool StoreBuffer Kernel PartitionStorage.
From S2P Require Import RawDiskIO RawDiskIOSteps RawDiskIODemo RawDiskIOSpec RawDiskIOInv.

Definition completion_handlers {digest} (c : completion digest) : list handler :=
  match c with
  | C_read h _ _ | C_write h _ | C_hash h _ _ _ | C_move_storage h _ _ _
  | C_check_files h _ _ | C_stop_torrent h | C_rename_file h _ _ _
  | C_delete_files h _ | C_set_file_priority h _ _ | C_clear_piece h _ => [h]
  | C_watermark _ => []
  end.

(** The handler that a call hands over. *)
Definition submitted (l : label) : list handler :=
  match l with
  | L_async_read _ _ _ h | L_async_write _ _ _ _ _ h | L_async_hash _ _ _ h
  | L_simple (Op_hash2 _ _ _ h) | L_simple (Op_move_storage _ _ h)
  | L_simple (Op_release_files _ h) | L_simple (Op_check_files _ h)
  | L_simple (Op_stop_torrent _ h) | L_simple (Op_rename_file _ _ _ h)
  | L_simple (Op_delete_files _ h) | L_simple (Op_set_file_priority _ _ h)
  | L_simple (Op_clear_piece _ _ h) => [h]
  | _ => []
  end.

(** The two calls that drop their handler. *)
Definition dropped (l : label) : list handler :=
  match l with
  | L_simple (Op_hash2 _ _ _ h) | L_simple (Op_release_files _ h) => [h]
  | _ => []
  end.

Section handlers.
Context {K HS digest : Type} `{KernelLaws K} `{Hasher HS digest}.
Abbreviation io := (disk_io K HS digest).
Implicit Types s : io.

(** Handlers called so far, and those waiting in the queues. *)
Definition answered (s : io) : list handler := concat (completion_handlers <$> called_ s).

Definition outstanding (s : io) : list handler :=
  (rj_handler <$> read_thread_pool_ s) ++ (wj_handler <$> write_thread_pool_ s) ++
  (hj_handler <$> hash_thread_pool_ s) ++ concat (completion_handlers <$> ioc_ s).

Definition tickets (s : io) : list handler := answered s ++ outstanding s.

Definition adds {A} (m : M (K := K) (HS := HS) (digest := digest) A) (hs : list handler) : Prop :=
  ∀ s a s', m s = Ret (a, s') → tickets s' ≡ₚ tickets s ++ hs.

(** The queues that hold tickets are as before. *)
Definition same_queues (s s' : io) : Prop :=
  read_thread_pool_ s' = read_thread_pool_ s ∧ write_thread_pool_ s' = write_thread_pool_ s ∧
  hash_thread_pool_ s' = hash_thread_pool_ s ∧ ioc_ s' = ioc_ s ∧ called_ s' = called_ s.

Lemma same_queues_tickets s s' : same_queues s s' → tickets s' = tickets s.
Proof.
  intros (E1 & E2 & E3 & E4 & E5). unfold tickets, answered, outstanding.
  by rewrite E1, E2, E3, E4, E5.
Qed.

Lemma adds_same {A} (m : M A) : (∀ s a s', m s = Ret (a, s') → same_queues s s') → adds m [].
Proof. intros Hm s a s' Heq. rewrite (same_queues_tickets s s') by eauto. by rewrite app_nil_r. Qed.

(** ** Composition *)

Lemma adds_ret {A} (a : A) : adds (ret a) [].
Proof. apply adds_same. intros s a' s' [= _ ->]. done. Qed.

Lemma adds_bind {A B} (m : M A) (f : A → M B) h1 h2 :
  adds m h1 → (∀ a, adds (f a) h2) → adds (bind m f) (h1 ++ h2).
Proof.
  intros Hm Hf s b s' Hb. unfold bind in Hb. apply obind_ret_inv in Hb as ([a s1] & E1 & E2).
  rewrite (Hf _ _ _ _ E2), (Hm _ _ _ E1). by rewrite app_assoc.
Qed.

(** A first part that adds nothing. *)
Lemma adds_seq {A B} (m : M A) (f : A → M B) hs :
  adds m [] → (∀ a, adds (f a) hs) → adds (bind m f) hs.
Proof. apply adds_bind. Qed.

(** A first part that does the posting. *)
Lemma adds_then {A B} (m : M A) (f : A → M B) hs :
  adds m hs → (∀ a, adds (f a) []) → adds (bind m f) hs.
Proof. intros Hm Hf. rewrite <-(app_nil_r hs). by apply adds_bind. Qed.

(** ** The primitives *)

Lemma adds_post_ioc c : adds (post_ioc c) (completion_handlers c).
Proof.
  intros s a s' [= _ <-]. unfold tickets, answered, outstanding. simpl.
  rewrite fmap_app, concat_app. simpl. rewrite app_nil_r. solve_Permutation.
Qed.

Lemma adds_call c : adds (call c) (completion_handlers c).
Proof.
  intros s a s' [= _ <-]. unfold tickets, answered, outstanding. simpl.
  rewrite fmap_app, concat_app. simpl. rewrite app_nil_r. solve_Permutation.
Qed.

Lemma adds_post_read_job j : adds (post_read_job j) [rj_handler j].
Proof.
  intros s a s' [= _ <-]. unfold tickets, answered, outstanding. simpl.
  rewrite fmap_app. simpl. solve_Permutation.
Qed.

Lemma adds_post_write_job j : adds (post_write_job j) [wj_handler j].
Proof.
  intros s a s' [= _ <-]. unfold tickets, answered, outstanding. simpl.
  rewrite fmap_app. simpl. solve_Permutation.
Qed.

Lemma adds_post_hash_job j : adds (post_hash_job j) [hj_handler j].
Proof.
  intros s a s' [= _ <-]. unfold tickets, answered, outstanding. simpl.
  rewrite fmap_app. simpl. solve_Permutation.
Qed.

(** Everything else leaves the queues alone, *)
Tactic Notation "quiet" reference(f) :=
  apply adds_same; intros s0 a0 s1 Heq; unfold f in Heq; outcome_inv; done.

Lemma adds_boost_assert b : adds (boost_assert b) [].
Proof. destruct b; [apply adds_ret|]. by intros s a s'. Qed.
Lemma adds_lift {A} (c : outcome A) : adds (lift c) [].
Proof. quiet lift. Qed.
Lemma adds_with_heap f : adds (with_heap f) [].
Proof. quiet with_heap. Qed.
Lemma adds_allocate_read m : adds (allocate_read_buffer m) [].
Proof.
  apply adds_same. intros s a s' Heq. unfold allocate_read_buffer in Heq.
  destruct (allocate_buffer _ _ _) as [[? ?] ?]. by outcome_inv.
Qed.
Lemma adds_allocate_write m b o : adds (allocate_write_buffer m b o) [].
Proof.
  apply adds_same. intros s a s' Heq. unfold allocate_write_buffer in Heq.
  destruct (allocate_buffer_observed _ _ _ _ _) as [[[? ?] ?] ?]. by outcome_inv.
Qed.
Lemma adds_storage_at idx : adds (storage_at idx) [].
Proof. quiet storage_at. Qed.
Lemma adds_storage_read st buf pos p off len e : adds (storage_read st buf pos p off len e) [].
Proof. quiet storage_read. Qed.
Lemma adds_storage_write st buf p off len e : adds (storage_write st buf p off len e) [].
Proof. quiet storage_write. Qed.
Lemma adds_get loc f : adds (store_buffer_get loc f) [].
Proof. quiet store_buffer_get. Qed.
Lemma adds_get2 loc1 loc2 f : adds (store_buffer_get2 loc1 loc2 f) [].
Proof. quiet store_buffer_get2. Qed.
Lemma adds_insert loc a : adds (store_buffer_insert loc a) [].
Proof. apply adds_same. by intros s ? s' [= _ <-]. Qed.
Lemma adds_erase loc : adds (store_buffer_erase loc) [].
Proof. apply adds_same. by intros s ? s' [= _ <-]. Qed.

(** but for a buffer let go, which may post a watermark call. *)
Lemma tickets_watermark posted s s' :
  same_queues (set_ioc (ioc_ s ++ watermark_post posted) s) s' → tickets s' = tickets s.
Proof.
  intros ->%same_queues_tickets.
  unfold tickets, answered, outstanding. simpl. rewrite fmap_app, concat_app.
  by destruct posted; simpl; rewrite ?app_nil_r.
Qed.

Lemma adds_free_read a : adds (free_read_buffer a) [].
Proof.
  intros s x s' Heq. unfold free_read_buffer in Heq. outcome_inv. rewrite app_nil_r.
  by erewrite (tickets_watermark _ s).
Qed.
Lemma adds_free_write a : adds (free_write_buffer a) [].
Proof.
  intros s x s' Heq. unfold free_write_buffer in Heq. outcome_inv. rewrite app_nil_r.
  by erewrite (tickets_watermark _ s).
Qed.

Create HintDb tickets.
#[local] Hint Resolve adds_ret adds_lift adds_boost_assert adds_with_heap adds_allocate_read
  adds_allocate_write adds_storage_at adds_storage_read adds_storage_write adds_get adds_get2
  adds_insert adds_erase adds_free_read adds_free_write : tickets.

(** Walks a body: what adds nothing goes, the rest is left. *)
Ltac walk :=
  repeat match goal with
  | |- adds (bind _ _) _ => apply adds_seq; [by auto with tickets|intros]
  | |- adds (if ?b then _ else _) _ => destruct b
  | |- adds (match ?x with _ => _ end) _ => destruct x
  | |- adds (let _ := _ in _) _ => cbv zeta
  end.

(** ** The member functions *)

Lemma adds_async_read m idx r h : adds (async_read m idx r h) [h].
Proof.
  unfold async_read. walk;
    first [apply (adds_call (C_read h _ _))|apply (adds_post_read_job (mkReadJob h _ _ _ _ _ _))].
Qed.

Lemma adds_async_write m idx r buf o h : adds (async_write m idx r buf o h) [h].
Proof.
  unfold async_write. walk; (apply adds_then; [|intros; apply adds_ret]).
  - apply (adds_post_write_job (mkWriteJob h _ _ _ _)).
  - apply (adds_post_ioc (C_write h _)).
Qed.

Lemma adds_async_hash m idx p h : adds (async_hash m idx p h) [h].
Proof.
  unfold async_hash. walk.
  - apply (adds_post_hash_job (mkHashJob h _ _ _ _)).
  - apply (adds_post_ioc (C_hash h _ _ _)).
Qed.

Lemma adds_run_read_job j : adds (run_read_job j) [rj_handler j].
Proof. unfold run_read_job. walk. apply (adds_post_ioc (C_read _ _ _)). Qed.

(** A job in its queue holds its ticket: it may go on under the same handler, *)
Lemma tickets_replace_write s i j j' :
  write_thread_pool_ s !! i = Some j → wj_handler j' = wj_handler j →
  tickets (set_write_thread_pool (<[i := j']> (write_thread_pool_ s)) s) = tickets s.
Proof.
  intros Hj Hh. unfold tickets, answered, outstanding. simpl. rewrite list_fmap_insert.
  rewrite list_insert_id; [done|]. by rewrite list_lookup_fmap, Hj, Hh.
Qed.

Lemma tickets_replace_hash s i j j' :
  hash_thread_pool_ s !! i = Some j → hj_handler j' = hj_handler j →
  tickets (set_hash_thread_pool (<[i := j']> (hash_thread_pool_ s)) s) = tickets s.
Proof.
  intros Hj Hh. unfold tickets, answered, outstanding. simpl. rewrite list_fmap_insert.
  rewrite list_insert_id; [done|]. by rewrite list_lookup_fmap, Hj, Hh.
Qed.

(** or go, and take its ticket with it. *)
Lemma tickets_remove_read s i j :
  read_thread_pool_ s !! i = Some j →
  tickets s ≡ₚ rj_handler j :: tickets (set_read_thread_pool (delete i (read_thread_pool_ s)) s).
Proof.
  intros Hj. unfold tickets, answered, outstanding. simpl.
  rewrite (delete_Permutation _ _ _ Hj) at 1. simpl. solve_Permutation.
Qed.

Lemma tickets_remove_write s i j :
  write_thread_pool_ s !! i = Some j →
  tickets s ≡ₚ wj_handler j :: tickets (set_write_thread_pool (delete i (write_thread_pool_ s)) s).
Proof.
  intros Hj. unfold tickets, answered, outstanding. simpl.
  rewrite (delete_Permutation _ _ _ Hj) at 1. simpl. solve_Permutation.
Qed.

Lemma tickets_remove_hash s i j :
  hash_thread_pool_ s !! i = Some j →
  tickets s ≡ₚ hj_handler j :: tickets (set_hash_thread_pool (delete i (hash_thread_pool_ s)) s).
Proof.
  intros Hj. unfold tickets, answered, outstanding. simpl.
  rewrite (delete_Permutation _ _ _ Hj) at 1. simpl. solve_Permutation.
Qed.

Lemma adds_run_write_job j s rest s' :
  run_write_job j s = Ret (rest, s') →
  write_thread_pool_ s' = write_thread_pool_ s ∧
  match rest with
  | Some j' => wj_handler j' = wj_handler j ∧ tickets s' ≡ₚ tickets s
  | None => tickets s' ≡ₚ tickets s ++ [wj_handler j]
  end.
Proof.
  intros Hrun. assert (adds (run_write_job j) (if is_erased j then [wj_handler j] else [])) as Ht.
  { unfold run_write_job, is_erased. destruct (wj_phase j).
    - walk. apply adds_ret.
    - walk. apply adds_ret.
    - apply adds_then; [apply (adds_post_ioc (C_write _ _))|intros]. walk. apply adds_ret. }
  specialize (Ht _ _ _ Hrun). unfold run_write_job, is_erased in *.
  destruct (wj_phase j); unfold bind, storage_at, storage_write, free_write_buffer,
    store_buffer_erase, post_ioc, modify, ret in Hrun; outcome_inv; rewrite ?app_nil_r in Ht; done.
Qed.

Lemma adds_run_hash_job j s rest s' :
  run_hash_job j s = Ret (rest, s') →
  hash_thread_pool_ s' = hash_thread_pool_ s ∧
  match rest with
  | Some j' => hj_handler j' = hj_handler j ∧ tickets s' ≡ₚ tickets s
  | None => tickets s' ≡ₚ tickets s ++ [hj_handler j]
  end.
Proof.
  intros Hrun. unfold run_hash_job, ret in Hrun.
  destruct (hj_phase j) as [|[|n] off ph e|n off ph e].
  - unfold bind, lift, storage_at in Hrun. outcome_inv. done.
  - unfold bind in Hrun. outcome_inv. split; [|].
    + unfold post_ioc, modify, free_read_buffer in *. by outcome_inv.
    + pose proof (adds_post_ioc _ _ _ _ Ha) as E1. pose proof (adds_free_read _ _ _ _ Ha0) as E2.
      simpl in E1. rewrite E2, E1. by rewrite app_nil_r.
  - unfold bind, lift, storage_at in Hrun. outcome_inv. done.
  - unfold bind, lift, storage_at, storage_read in Hrun. outcome_inv. case_match; outcome_inv; done.
Qed.

Lemma adds_run_simple op s x s' :
  run_simple op s = Ret (x, s') →
  tickets s' ++ dropped (L_simple op) ≡ₚ tickets s ++ submitted (L_simple op).
Proof.
  intros Hrun.
  destruct op; simpl; rewrite ?app_nil_r;
    try (by injection Hrun as _ <-);
    unfold run_simple, async_move_storage, async_check_files, async_stop_torrent,
      async_rename_file, async_delete_files, async_set_file_priority, async_clear_piece in Hrun;
    exact (adds_post_ioc _ _ _ _ Hrun).
Qed.

(** ** One step *)

Lemma step_tickets l s s' :
  exec l s = Ret s' → tickets s' ++ dropped l ≡ₚ tickets s ++ submitted l.
Proof.
  intros Hex. destruct l; unfold exec in Hex; simpl submitted; simpl dropped; rewrite ?app_nil_r.
  - outcome_inv. unfold new_torrent in Ha. destruct (free_slots_ s); outcome_inv;
      (case_match; simplify_eq; by rewrite (same_queues_tickets s)).
  - outcome_inv. unfold remove_torrent in Ha. outcome_inv. by rewrite (same_queues_tickets s).
  - outcome_inv. by apply adds_async_read in Ha.
  - outcome_inv. by apply adds_async_write in Ha.
  - outcome_inv. by apply adds_async_hash in Ha.
  - outcome_inv. by apply adds_run_simple in Ha.
  - destruct (_ !! i) as [j|] eqn:Hj; outcome_inv; [|done].
    rewrite (adds_run_read_job _ _ _ _ Ha), (tickets_remove_read _ _ _ Hj). solve_Permutation.
  - destruct (_ !! i) as [j|] eqn:Hj; outcome_inv; [|done].
    apply adds_run_write_job in Ha as [Hq Ht]. rewrite <-Hq in Hj. destruct o as [j'|].
    + destruct Ht as [Hh Ht]. by rewrite (tickets_replace_write _ _ _ _ Hj).
    + rewrite (tickets_remove_write _ _ _ Hj) in Ht.
      apply (Permutation_cons_inv (a := wj_handler j)). rewrite Ht. solve_Permutation.
  - destruct (_ !! i) as [j|] eqn:Hj; outcome_inv; [|done].
    apply adds_run_hash_job in Ha as [Hq Ht]. rewrite <-Hq in Hj. destruct o as [j'|].
    + destruct Ht as [Hh Ht]. by rewrite (tickets_replace_hash _ _ _ _ Hj).
    + rewrite (tickets_remove_hash _ _ _ Hj) in Ht.
      apply (Permutation_cons_inv (a := hj_handler j)). rewrite Ht. solve_Permutation.
  - destruct (ioc_ s) as [|c cs] eqn:Hioc; outcome_inv; [done|].
    assert (tickets s' ≡ₚ tickets (set_ioc cs s) ++ completion_handlers c) as ->.
    { destruct c; apply (adds_call _ _ _ _ Ha). }
    unfold tickets, answered, outstanding. rewrite Hioc. simpl. solve_Permutation.
  - destruct (_ !! i) as [a|] eqn:Hj; outcome_inv; [|done].
    rewrite (adds_free_read _ _ _ _ Ha), app_nil_r. by rewrite (same_queues_tickets s).
  - outcome_inv. by rewrite (same_queues_tickets s).
Qed.

Lemma execution_tickets s0 ls s :
  execution s0 ls s →
  tickets s ++ concat (dropped <$> ls) ≡ₚ tickets s0 ++ concat (submitted <$> ls).
Proof.
  induction 1 as [s|s ls s1 l s2 _ IH [_ Hl]]; [done|].
  rewrite !fmap_app, !concat_app. simpl. rewrite !app_nil_r.
  apply step_tickets in Hl. rewrite (Permutation_app_comm (concat (dropped <$> ls))), app_assoc, Hl.
  rewrite <-app_assoc, (Permutation_app_comm (submitted l)), app_assoc, IH. by rewrite app_assoc.
Qed.

(** ** The work that is posted *)

Definition write_work (j : write_job) : nat :=
  match wj_phase j with W_posted => 5 | W_written _ => 4 | W_erased _ => 3 end.

Definition hash_work (s : io) (j : hash_job HS) : nat :=
  match hj_phase j with
  | H_posted =>
      match storages_ s !! hj_storage j with
      | Some st =>
          2 * match blocks_of (piece_size st (hj_piece j)) with Ret n => n | Fault _ => 0 end + 4
      | None => 4
      end
  | H_get n _ _ _ => 2 * n + 3
  | H_read n _ _ _ => 2 * n + 4
  end.

(** An upper bound on the steps the pools and the I/O context can take. *)
Definition work (s : io) : nat :=
  2 * length (read_thread_pool_ s) + sum_list (write_work <$> write_thread_pool_ s) +
  sum_list (hash_work s <$> hash_thread_pool_ s) + length (ioc_ s).

(** A step of a pool thread or of the I/O context that has something to do. *)
Definition enabled (l : label) (s : io) : Prop :=
  match l with
  | L_read_job i => (i < length (read_thread_pool_ s))%nat
  | L_write_job i => (i < length (write_thread_pool_ s))%nat
  | L_hash_job i => (i < length (hash_thread_pool_ s))%nat
  | L_run_ioc _ => ioc_ s ≠ []
  | _ => False
  end.

Lemma sum_list_insert {A} (f : A → nat) l i x y :
  l !! i = Some x → (sum_list (f <$> <[i := y]> l) + f x = sum_list (f <$> l) + f y)%nat.
Proof.
  revert i. induction l as [|z l IH]; intros [|i] Hi; simplify_eq/=; [lia|].
  specialize (IH i Hi). lia.
Qed.

Lemma sum_list_delete {A} (f : A → nat) l i x :
  l !! i = Some x → (sum_list (f <$> delete i l) + f x = sum_list (f <$> l))%nat.
Proof.
  revert i. induction l as [|z l IH]; intros [|i] Hi; simplify_eq/=; [lia|].
  specialize (IH i Hi). lia.
Qed.

Lemma next_block_work n off m (ph : HS) e ph' s j :
  next_block n off m ph e = Ret ph' → (hash_work s (set_hash_phase ph' j) ≤ 2 * n + 3)%nat.
Proof.
  unfold next_block. intros Hn. destruct (m <=? 0); outcome_inv; unfold hash_work; simpl; lia.
Qed.

Ltac bound_next_block :=
  match goal with E : next_block _ _ _ _ _ = _ |- (hash_work ?s0 (set_hash_phase _ ?j) + _ < _)%nat =>
    apply (next_block_work _ _ _ _ _ _ s0 j) in E; lia
  end.

Lemma watermark_work posted : (length (watermark_post (digest := digest) posted) ≤ 1)%nat.
Proof. destruct posted; simpl; lia. Qed.

Lemma write_job_work j s rest s' :
  run_write_job j s = Ret (rest, s') →
  read_thread_pool_ s' = read_thread_pool_ s ∧ write_thread_pool_ s' = write_thread_pool_ s ∧
  hash_thread_pool_ s' = hash_thread_pool_ s ∧ storages_ s' = storages_ s ∧
  (from_option write_work 0 rest + length (ioc_ s') < write_work j + length (ioc_ s))%nat.
Proof.
  intros Hrun. unfold run_write_job, write_work in *.
  destruct (wj_phase j); unfold bind, storage_at, storage_write, free_write_buffer,
    store_buffer_erase, post_ioc, modify, ret in Hrun; outcome_inv; split_and!; try done; simpl;
    try lia.
  rewrite !length_app. simpl. pose proof (watermark_work o). lia.
Qed.

Lemma hash_job_work j s rest s' :
  run_hash_job j s = Ret (rest, s') →
  read_thread_pool_ s' = read_thread_pool_ s ∧ write_thread_pool_ s' = write_thread_pool_ s ∧
  hash_thread_pool_ s' = hash_thread_pool_ s ∧ storages_ s' = storages_ s ∧
  (from_option (hash_work s) 0 rest + length (ioc_ s') < hash_work s j + length (ioc_ s))%nat.
Proof.
  intros Hrun. unfold run_hash_job in Hrun. unfold hash_work at 2.
  destruct (hj_phase j) as [|[|n] off ph e|n off ph e];
    unfold bind, lift, storage_at, storage_read, free_read_buffer, post_ioc, modify, ret in Hrun;
    outcome_inv.
  - split_and!; try done. match goal with E : storages_ _ !! _ = _ |- _ => rewrite E end.
    match goal with E : blocks_of _ = _ |- _ => rewrite E end. unfold hash_work. simpl. lia.
  - split_and!; try done. rewrite !length_app. simpl. pose proof (watermark_work o). lia.
  - split_and!; try done. simpl.
    match goal with E : (if ?b then _ else _) = Ret _ |- _ => destruct b end.
    + bound_next_block.
    + outcome_inv. unfold hash_work. simpl. lia.
  - case_match; outcome_inv; (split_and!; try done); simpl; bound_next_block.
Qed.

Lemma hash_work_storages s s' : storages_ s' = storages_ s → hash_work s' = hash_work s.
Proof. intros E. unfold hash_work. by rewrite E. Qed.

Lemma work_decreases l s s' : enabled l s → exec l s = Ret s' → (work s' < work s)%nat.
Proof.
  intros Hen Hex. destruct l; unfold exec, enabled in *; try done.
  - destruct (lookup_lt_is_Some_2 _ _ Hen) as [j Hj]. rewrite Hj in Hex. outcome_inv.
    unfold run_read_job, bind, storage_at, storage_read, post_ioc, modify in Ha. outcome_inv.
    unfold work. rewrite (hash_work_storages s) by done. simpl.
    rewrite length_app. simpl. rewrite length_delete by eauto. lia.
  - destruct (lookup_lt_is_Some_2 _ _ Hen) as [j Hj]. rewrite Hj in Hex. outcome_inv.
    apply write_job_work in Ha as (E1 & E2 & E3 & E4 & Hlt). unfold work.
    rewrite (hash_work_storages s) by done. simpl. rewrite E1, E2, E3.
    destruct o as [j'|]; simpl in Hlt.
    + pose proof (sum_list_insert write_work _ _ _ j' Hj). lia.
    + pose proof (sum_list_delete write_work _ _ _ Hj). lia.
  - destruct (lookup_lt_is_Some_2 _ _ Hen) as [j Hj]. rewrite Hj in Hex. outcome_inv.
    apply hash_job_work in Ha as (E1 & E2 & E3 & E4 & Hlt). unfold work.
    rewrite (hash_work_storages s) by done. simpl. rewrite E1, E2, E3.
    destruct o as [j'|]; simpl in Hlt.
    + pose proof (sum_list_insert (hash_work s) _ _ _ j' Hj). lia.
    + pose proof (sum_list_delete (hash_work s) _ _ _ Hj). lia.
  - destruct (ioc_ s) as [|c cs] eqn:Hioc; [done|]. outcome_inv.
    destruct c; unfold run_completion, call, modify in Ha; outcome_inv;
      unfold work; (rewrite (hash_work_storages s) by done); simpl; rewrite Hioc; simpl; lia.
Qed.

(** The pool threads and the I/O context at work, with no further call. *)
Inductive drain : io → list label → io → Prop :=
| drain_nil s : drain s [] s
| drain_cons s l s1 ls s2 :
    enabled l s → exec l s = Ret s1 → drain s1 ls s2 → drain s (l :: ls) s2.

Definition enabledb (l : label) (s : io) : bool :=
  match l with
  | L_read_job i => bool_decide (i < length (read_thread_pool_ s))%nat
  | L_write_job i => bool_decide (i < length (write_thread_pool_ s))%nat
  | L_hash_job i => bool_decide (i < length (hash_thread_pool_ s))%nat
  | L_run_ioc _ => match ioc_ s with [] => false | _ => true end
  | _ => false
  end.

Fixpoint run_drain (ls : list label) (s : io) : option io :=
  match ls with
  | [] => Some s
  | l :: ls =>
      if enabledb l s then
        match exec l s with Ret s => run_drain ls s | Fault _ => None end
      else None
  end.

Lemma run_drain_ok ls s s' : run_drain ls s = Some s' → drain s ls s'.
Proof.
  revert s. induction ls as [|l ls IH]; intros s Hrun; simpl in Hrun; [simplify_eq; constructor|].
  destruct (enabledb l s) eqn:Hen; [|done]. destruct (exec l s) eqn:Hex; [|done].
  econstructor; [|done|by apply IH].
  destruct l; simpl in *; rewrite ?bool_decide_eq_true in Hen; try done. by destruct (ioc_ s).
Qed.

Lemma run_drain_default ls s s0 :
  match run_drain ls s with Some _ => true | None => false end = true →
  drain s ls (default s0 (run_drain ls s)).
Proof. intros Hrun. apply run_drain_ok. by destruct (run_drain ls s). Qed.

Lemma idle_not_enabled l s :
  ioc_ s = [] ∧ read_thread_pool_ s = [] ∧ write_thread_pool_ s = [] ∧ hash_thread_pool_ s = [] →
  ¬ enabled l s.
Proof.
  intros (E1 & E2 & E3 & E4) Hen. destruct l; simpl in Hen; rewrite ?E1, ?E2, ?E3, ?E4 in Hen;
    simpl in Hen; done || lia.
Qed.

Lemma drain_length s ls s' : drain s ls s' → (length ls + work s' ≤ work s)%nat.
Proof.
  induction 1 as [|s l s1 ls s2 Hen Hex _ IH]; simpl; [lia|].
  pose proof (work_decreases _ _ _ Hen Hex). lia.
Qed.

Lemma enabled_disciplined l s : enabled l s → disciplined l s.
Proof. by destruct l. Qed.

Lemma drain_inv s ls s' : io_inv s → drain s ls s' → io_inv s'.
Proof.
  intros Hinv. induction 1 as [|s l s1 ls s2 Hen Hex _ IH]; [done|]. apply IH.
  destruct (step_safe l s Hinv (enabled_disciplined _ _ Hen)) as (s1' & ? & ?). congruence.
Qed.

Lemma drain_tickets s ls s' : drain s ls s' → tickets s' ≡ₚ tickets s.
Proof.
  induction 1 as [|s l s1 ls s2 Hen Hex _ IH]; [done|]. rewrite IH.
  apply step_tickets in Hex.
  assert (dropped l = [] ∧ submitted l = []) as [Ed Es] by by destruct l.
  rewrite Ed, Es, !app_nil_r in Hex. done.
Qed.

(** With anything posted, some thread has a step to take. *)
Lemma enabled_or_idle s :
  (∃ l, enabled l s) ∨
  read_thread_pool_ s = [] ∧ write_thread_pool_ s = [] ∧ hash_thread_pool_ s = [] ∧ ioc_ s = [].
Proof.
  destruct (read_thread_pool_ s) eqn:E1; [|left; exists (L_read_job 0); simpl; rewrite E1; simpl; lia].
  destruct (write_thread_pool_ s) eqn:E2; [|left; exists (L_write_job 0); simpl; rewrite E2; simpl; lia].
  destruct (hash_thread_pool_ s) eqn:E3; [|left; exists (L_hash_job 0); simpl; rewrite E3; simpl; lia].
  destruct (ioc_ s) eqn:E4; [by right|left; exists (L_run_ioc (λ _, true)); simpl; by rewrite E4].
Qed.
End handlers.

(** C8: every handler is accounted for.  In every reachable state, the handlers
    called so far, those still captured by a job or a completion, and those given
    to [async_hash2] and [async_release_files] are together, each as often as it
    was handed over, the handlers handed over; so none is called more often than it
    was handed over. *)
Theorem handlers_accounted {K HS digest} `{KernelLaws K} `{Hasher HS digest}
    (h : heap) (k : K) ls (s : disk_io K HS digest) :
  execution (new_raw_disk_io h k) ls s →
  answered s ++ outstanding s ++ concat (dropped <$> ls) ≡ₚ concat (submitted <$> ls).
Proof. intros Ht%execution_tickets. unfold tickets in Ht. by rewrite <-app_assoc in Ht. Qed.

(** C7: the posted work ends, and then every handler has been called.  From any
    reachable state, the pool threads and the I/O context together take at most
    [work s] steps, in whatever order; as long as anything is posted some step can
    be taken, without a fault; and when none can, every handler handed over has
    been called exactly as often, but those of [async_hash2] and
    [async_release_files]. *)
Theorem posted_work_ends {K HS digest} `{KernelLaws K} `{Hasher HS digest}
    (h : heap) (k : K) ls (s : disk_io K HS digest) ls' s' :
  execution (new_raw_disk_io h k) ls s → drain s ls' s' →
  (length ls' ≤ work s)%nat ∧
  ((∃ l s'', enabled l s' ∧ exec l s' = Ret s'') ∨
   answered s' ++ concat (dropped <$> ls) ≡ₚ concat (submitted <$> ls)).
Proof.
  intros Hex Hdr. split; [pose proof (drain_length _ _ _ Hdr); lia|].
  destruct (enabled_or_idle s') as [[l Hen]|(E1 & E2 & E3 & E4)].
  - left. destruct (step_safe l s') as (s'' & ? & _); [|by apply enabled_disciplined|by eauto].
    eapply drain_inv; [by eapply io_inv_execution|done].
  - right. assert (answered s' = tickets s') as ->.
    { unfold tickets, outstanding. by rewrite E1, E2, E3, E4, app_nil_r. }
    rewrite (drain_tickets _ _ _ Hdr). exact (execution_tickets _ _ _ Hex).
Qed.

Lemma handlers_accounted_witness :
  answered (demo_state demo_labels) = [9%nat] ∧
  [9%nat] ++ outstanding (demo_state demo_labels) ≡ₚ [7; 8; 9; 10; 11]%nat.
Proof.
  pose proof (handlers_accounted ∅ demo_partition demo_labels _ demo_labels_run) as Hp.
  assert (answered (demo_state demo_labels) = [9%nat]) as Ha by by vm_compute.
  rewrite Ha in Hp. change (concat (dropped <$> demo_labels)) with (@nil handler) in Hp.
  rewrite app_nil_r in Hp. split; [done|exact Hp].
Defined.

(** The two writes of the run, to the end. *)
Definition demo_drain : list label :=
  [L_write_job 1; L_write_job 0; L_write_job 0; L_write_job 1; L_write_job 1; L_write_job 0;
   L_run_ioc (λ _, true); L_run_ioc (λ _, true)].

Definition demo_drained : demo_io :=
  default demo_start (run_drain demo_drain (demo_state demo_writes)).

Lemma demo_drained_idle :
  ioc_ demo_drained = [] ∧ read_thread_pool_ demo_drained = [] ∧
  write_thread_pool_ demo_drained = [] ∧ hash_thread_pool_ demo_drained = [].
Proof. split_and!; vm_compute; reflexivity. Qed.

Lemma demo_drain_run : drain (demo_state demo_writes) demo_drain demo_drained.
Proof. apply run_drain_default. vm_compute. reflexivity. Qed.

Lemma posted_work_ends_witness :
  (8 ≤ work (demo_state demo_writes))%nat ∧ answered demo_drained ++ [] ≡ₚ [7; 8]%nat.
Proof.
  destruct (posted_work_ends ∅ demo_partition demo_writes _ demo_drain demo_drained
              demo_writes_run demo_drain_run) as [Hlen [(l & s'' & Hen & _)|Hall]].
  - destruct (idle_not_enabled l demo_drained demo_drained_idle Hen).
  - split; [exact Hlen|exact Hall].
Defined.
