(* ===== verification/RawDiskIOObservers.v ===== *)
(** * Back pressure

    A peer whose [async_write] is told that the write pool is exceeded stops until
    its observer is notified.  Here the pool and the back end are put together:
    the observers told to wait are, at any time, those notified, those in a posted
    callback and those still queued in the pool; and once the posted work is done
    all of them have been notified. *)

From S2P Require Import Prelude Memory BufferPool StoreBuffer Kernel PartitionStorage.
From S2P Require Import RawDiskIO RawDiskIOSteps RawDiskIODemo RawDiskIOSpec RawDiskIOInv.
From S2P Require Import RawDiskIOHandlers.

(** How often an observer is in a list. *)
Definition times (o : observer) (os : list observer) : nat := length (filter (o =.) os).

Lemma times_app o os1 os2 : times o (os1 ++ os2) = (times o os1 + times o os2)%nat.
Proof. unfold times. by rewrite filter_app, length_app. Qed.

Lemma times_nil o : times o [] = 0%nat.
Proof. done. Qed.

Lemma times_callback o alive cbs :
  alive o = true → times o (watermark_callback alive cbs) = times o cbs.
Proof.
  intros Ho. induction cbs as [|o' cbs IH]; [done|]. unfold times in *. simpl.
  destruct (decide (o = o')) as [<-|Hne].
  - rewrite Ho, !filter_cons_True by done. simpl. by rewrite IH.
  - rewrite (filter_cons_False _ _ cbs) by done.
    destruct (alive o'); rewrite ?filter_cons_False by done; exact IH.
Qed.

(** ** The pool *)

Lemma check_level_observers p p' posted :
  check_buffer_level p = (p', posted) →
  m_observers p = from_option id [] posted ++ m_observers p'.
Proof.
  unfold check_buffer_level. destruct (_ || _); intros; simplify_eq/=; [done|].
  by rewrite app_nil_r.
Qed.

Lemma free_observers a h p h' p' posted :
  free_disk_buffer a h p = Ret (h', p', posted) →
  m_observers p = from_option id [] posted ++ m_observers p'.
Proof.
  unfold free_disk_buffer. intros Hf. apply obind_ret_inv in Hf as (h1 & _ & Hf).
  destruct (check_buffer_level _) as [p1 posted1] eqn:Hc. simplify_eq.
  by apply check_level_observers in Hc.
Qed.

Lemma allocate_observers m h p buf h' p' :
  allocate_buffer_impl m h p = (buf, h', p') → m_observers p' = m_observers p.
Proof.
  unfold allocate_buffer_impl. intros Ha.
  destruct (_ <=? _); [by simplify_eq|].
  destruct (_ <? _), (malloc m h) as [[?|] ?]; by simplify_eq.
Qed.

Lemma allocate_observed_observers m o h p buf told h' p' :
  allocate_buffer_observed m false o h p = (buf, told, h', p') →
  m_observers p' = m_observers p ++ (if told then option_list o else []).
Proof.
  unfold allocate_buffer_observed.
  destruct (allocate_buffer_impl m h p) as [[b h1] p1] eqn:Ha. apply allocate_observers in Ha.
  destruct (m_exceeded_max_size p1); intros; simplify_eq.
  - destruct o; simpl; by rewrite ?app_nil_r, Ha.
  - by rewrite app_nil_r.
Qed.

(** ** The back end *)

(** The observers in a call of the watermark callback. *)
Definition watched {digest} (c : completion digest) : list observer :=
  match c with C_watermark cbs => cbs | _ => [] end.

Section observers.
Context {K HS digest : Type} `{KernelLaws K} `{Hasher HS digest}.
Abbreviation io := (disk_io K HS digest).
Implicit Types s : io.

(** Observers notified, and those in a callback that is posted. *)
Definition notified (s : io) : list observer := concat (watched <$> called_ s).
Definition called_back (s : io) : list observer := concat (watched <$> ioc_ s).

(** The observers that a call leaves waiting: it is told the pool is exceeded. *)
Definition registers (l : label) (s : io) : list observer :=
  match l with
  | L_async_write m idx r buf o h =>
      match async_write m idx r buf o h s with
      | Ret (true, _) => option_list o
      | _ => []
      end
  | _ => []
  end.

(** Computations that have nothing to do with the observers of the write pool;
    nobody ever waits on the read pool. *)
Record aside (o : observer) (s s' : io) : Prop := {
  aside_pool : write_buffer_pool_ s' = write_buffer_pool_ s;
  aside_read : m_observers (read_buffer_pool_ s) = [] → m_observers (read_buffer_pool_ s') = [];
  aside_told : m_observers (read_buffer_pool_ s) = [] →
    (times o (notified s') + times o (called_back s') =
     times o (notified s) + times o (called_back s))%nat;
}.

#[global] Instance aside_preorder o : PreOrder (aside o).
Proof.
  split.
  - by intros s.
  - intros s1 s2 s3 [P1 R1 T1] [P2 R2 T2]. split; [congruence|by auto|].
    intros Hr. rewrite T2 by auto. by apply T1.
Qed.

Definition stays (o : observer) {A} (m : M (K := K) (HS := HS) (digest := digest) A) : Prop :=
  ∀ s a s', m s = Ret (a, s') → aside o s s'.

Lemma stays_bind o {A B} (m : M A) (f : A → M B) :
  stays o m → (∀ a, stays o (f a)) → stays o (bind m f).
Proof.
  intros Hm Hf s b s' Hb. unfold bind in Hb. apply obind_ret_inv in Hb as ([a s1] & E1 & E2).
  etrans; [by eapply Hm|by eapply Hf].
Qed.

Lemma aside_same o s s' :
  write_buffer_pool_ s' = write_buffer_pool_ s → read_buffer_pool_ s' = read_buffer_pool_ s →
  called_ s' = called_ s → ioc_ s' = ioc_ s → aside o s s'.
Proof.
  intros E1 E2 E3 E4. split; [done|by rewrite E2|]. intros _. unfold notified, called_back.
  by rewrite E3, E4.
Qed.

Lemma stays_ret o {A} (a : A) : stays o (ret a).
Proof. by intros s a' s' [= _ ->]. Qed.

Lemma stays_post_ioc o c : watched c = [] → stays o (post_ioc c).
Proof.
  intros Hc s a s' [= _ <-]. split; [done..|]. intros _. unfold notified, called_back. simpl.
  rewrite fmap_app, concat_app. simpl. by rewrite Hc, !app_nil_r.
Qed.

Lemma stays_call o c : watched c = [] → stays o (call c).
Proof.
  intros Hc s a s' [= _ <-]. split; [done..|]. intros _. unfold notified, called_back. simpl.
  rewrite fmap_app, concat_app. simpl. by rewrite Hc, !app_nil_r.
Qed.

Lemma stays_allocate_read o m : stays o (allocate_read_buffer m).
Proof.
  intros s a s' Heq. unfold allocate_read_buffer, allocate_buffer in Heq.
  destruct (allocate_buffer_impl _ _ _) as [[? ?] p] eqn:Ha. apply allocate_observers in Ha.
  outcome_inv. split; [done| |done]. simpl. by rewrite Ha.
Qed.

(** The read pool's callback has nobody to notify. *)
Lemma stays_free_read o a : stays o (free_read_buffer a).
Proof.
  intros s x s' Heq. unfold free_read_buffer in Heq. outcome_inv.
  match goal with E : free_disk_buffer _ _ _ = _ |- _ => apply free_observers in E as Hobs end.
  split; [done|..]; intros Hr; rewrite Hr in Hobs; symmetry in Hobs; apply app_nil in Hobs as [Hp Hb].
  - done.
  - unfold notified, called_back. simpl. rewrite fmap_app, concat_app, times_app.
    match goal with |- context [watermark_post ?posted] => destruct posted as [cbs|] end;
      simpl in *; [rewrite Hp|]; rewrite times_nil; lia.
Qed.

(** The rest changes neither pools nor callbacks. *)
Lemma stays_other o {A} (m : M A) :
  (∀ s a s', m s = Ret (a, s') → write_buffer_pool_ s' = write_buffer_pool_ s ∧
     read_buffer_pool_ s' = read_buffer_pool_ s ∧ called_ s' = called_ s ∧ ioc_ s' = ioc_ s) →
  stays o m.
Proof. intros Hm s a s' Heq. apply Hm in Heq as (? & ? & ? & ?). by apply aside_same. Qed.

Tactic Notation "unrelated" reference(f) :=
  apply stays_other; intros s0 a0 s1 Heq; unfold f in Heq; outcome_inv; done.

Lemma stays_boost_assert o b : stays o (boost_assert b).
Proof. destruct b; [apply stays_ret|]. by intros s a s'. Qed.
Lemma stays_lift o {A} (c : outcome A) : stays o (lift c).
Proof. unrelated lift. Qed.
Lemma stays_with_heap o f : stays o (with_heap f).
Proof. unrelated with_heap. Qed.
Lemma stays_storage_at o idx : stays o (storage_at idx).
Proof. unrelated storage_at. Qed.
Lemma stays_storage_read o st buf pos p off len e : stays o (storage_read st buf pos p off len e).
Proof. unrelated storage_read. Qed.
Lemma stays_storage_write o st buf p off len e : stays o (storage_write st buf p off len e).
Proof. unrelated storage_write. Qed.
Lemma stays_get o loc f : stays o (store_buffer_get loc f).
Proof. unrelated store_buffer_get. Qed.
Lemma stays_get2 o loc1 loc2 f : stays o (store_buffer_get2 loc1 loc2 f).
Proof. unrelated store_buffer_get2. Qed.
Lemma stays_modify o f :
  (∀ s, write_buffer_pool_ (f s) = write_buffer_pool_ s ∧
     read_buffer_pool_ (f s) = read_buffer_pool_ s ∧ called_ (f s) = called_ s ∧ ioc_ (f s) = ioc_ s) →
  stays o (modify f).
Proof. intros Hf. apply stays_other. by intros s a s' [= _ <-]. Qed.
Lemma stays_insert o loc a : stays o (store_buffer_insert loc a).
Proof. by apply stays_modify. Qed.
Lemma stays_erase o loc : stays o (store_buffer_erase loc).
Proof. by apply stays_modify. Qed.
Lemma stays_post_read_job o j : stays o (post_read_job j).
Proof. by apply stays_modify. Qed.
Lemma stays_post_write_job o j : stays o (post_write_job j).
Proof. by apply stays_modify. Qed.
Lemma stays_post_hash_job o j : stays o (post_hash_job j).
Proof. by apply stays_modify. Qed.

Create HintDb observers.
#[local] Hint Resolve stays_ret stays_lift stays_boost_assert stays_with_heap stays_allocate_read
  stays_free_read stays_storage_at stays_storage_read stays_storage_write stays_get stays_get2
  stays_insert stays_erase stays_post_read_job stays_post_write_job stays_post_hash_job : observers.

(** Walks a body of which every part stays aside. *)
Ltac stroll :=
  repeat match goal with
  | |- stays _ (bind _ _) => apply stays_bind; [|intros]
  | |- stays _ (if ?b then _ else _) => destruct b
  | |- stays _ (match ?x with _ => _ end) => destruct x
  | |- stays _ (let _ := _ in _) => cbv zeta
  | |- stays _ (post_ioc _) => by apply stays_post_ioc
  | |- stays _ (call _) => by apply stays_call
  | |- _ => solve [auto with observers]
  end.

Lemma stays_async_read o m idx r h : stays o (async_read m idx r h).
Proof. unfold async_read. stroll. Qed.

Lemma stays_async_hash o m idx p h : stays o (async_hash m idx p h).
Proof. unfold async_hash. stroll. Qed.

Lemma stays_run_read_job o j : stays o (run_read_job j).
Proof. unfold run_read_job. stroll. Qed.

Lemma stays_run_hash_job o j : stays o (run_hash_job j).
Proof.
  unfold run_hash_job. stroll.
  - apply stays_other. intros s0 x0 s1 Heq. outcome_inv. done.
  - apply stays_other. intros s0 x0 s1 Heq. outcome_inv. done.
Qed.

Lemma stays_run_simple o op : stays o (run_simple op).
Proof.
  destruct op; cbn [run_simple]; first [by apply stays_post_ioc|apply stays_ret|by intros s a s' [= _ <-]].
Qed.

(** *** One step *)

(** Everyone told to wait: notified, to be notified, or queued in the pool. *)
Definition accounted (o : observer) (s : io) : nat :=
  (times o (notified s) + times o (called_back s) +
   times o (m_observers (write_buffer_pool_ s)))%nat.

Lemma aside_accounted o s s' :
  aside o s s' → m_observers (read_buffer_pool_ s) = [] →
  m_observers (read_buffer_pool_ s') = [] ∧ accounted o s' = accounted o s.
Proof. intros [P R T] Hr. split; [by auto|]. unfold accounted. rewrite P. specialize (T Hr). lia. Qed.

(** A buffer of the write pool is given back. *)
Lemma free_write_accounted o a s x s' :
  free_write_buffer a s = Ret (x, s') →
  read_buffer_pool_ s' = read_buffer_pool_ s ∧ accounted o s' = accounted o s.
Proof.
  intros Heq. unfold free_write_buffer in Heq. outcome_inv. split; [done|].
  match goal with E : free_disk_buffer _ _ _ = _ |- _ => apply free_observers in E as Hobs end.
  unfold accounted, notified, called_back. simpl. rewrite Hobs, fmap_app, concat_app, !times_app.
  match goal with |- context [watermark_post ?posted] => destruct posted as [cbs|] end; simpl;
    rewrite ?app_nil_r, ?times_nil; lia.
Qed.

Lemma async_write_accounted o m idx r buf o' h s told s' :
  async_write m idx r buf o' h s = Ret (told, s') → m_observers (read_buffer_pool_ s) = [] →
  m_observers (read_buffer_pool_ s') = [] ∧
  accounted o s' = (accounted o s + times o (if told then option_list o' else []))%nat.
Proof.
  intros Hw Hr. unfold async_write in Hw. unfold bind at 1 in Hw.
  destruct (boost_assert _ s) as [[u s1]|] eqn:Hb; [|done]. cbn [obind] in Hw.
  assert (s1 = s) as -> by (unfold boost_assert, ret, fail in Hb; case_match; by simplify_eq).
  unfold bind at 1, allocate_write_buffer in Hw.
  destruct (allocate_buffer_observed _ _ _ _ _) as [[[b t] h1] p] eqn:Ha.
  apply allocate_observed_observers in Ha. cbn [obind] in Hw.
  set (s1 := set_write_buffer_pool p (set_heap h1 s)) in *.
  assert (accounted o s1 = (accounted o s + times o (if t then option_list o' else []))%nat) as E1.
  { unfold accounted, notified, called_back, s1. simpl. rewrite Ha, times_app. lia. }
  assert (∀ m' : M bool, stays o m' → (∀ s x s', m' s = Ret (x, s') → x = t) → m' s1 = Ret (told, s') →
    m_observers (read_buffer_pool_ s') = [] ∧
    accounted o s' = (accounted o s + times o (if told then option_list o' else []))%nat) as Hrest.
  { intros m' Hm Hx Hm'. destruct (aside_accounted o s1 s' (Hm _ _ _ Hm') Hr) as [? E].
    rewrite (Hx _ _ _ Hm'), E, E1. done. }
  revert Hw. destruct b as [b|]; apply Hrest; try (by stroll); intros s2 x s3 Hx;
    unfold bind, ret in Hx; outcome_inv; done.
Qed.

Lemma write_job_accounted o j s rest s' :
  run_write_job j s = Ret (rest, s') → m_observers (read_buffer_pool_ s) = [] →
  m_observers (read_buffer_pool_ s') = [] ∧ accounted o s' = accounted o s.
Proof.
  intros Hrun Hr. unfold run_write_job in Hrun. destruct (wj_phase j).
  - eapply aside_accounted; [|done]. revert Hrun. generalize rest s'. clear -o. intros rest s' Hrun.
    match type of Hrun with ?m _ = _ => assert (stays o m) as Hs by stroll end. by eapply Hs.
  - eapply aside_accounted; [|done].
    match type of Hrun with ?m _ = _ => assert (stays o m) as Hs by stroll end. by eapply Hs.
  - unfold bind at 1 in Hrun. apply obind_ret_inv in Hrun as ([u s1] & E1 & Hrun).
    apply (stays_post_ioc o) in E1; [|done]. destruct (aside_accounted _ _ _ E1 Hr) as [Hr1 <-].
    unfold bind at 1 in Hrun. apply obind_ret_inv in Hrun as ([u2 s2] & E2 & Hrun).
    apply (free_write_accounted o) in E2 as [E2 E3]. injection Hrun as <- <-.
    by rewrite E2.
Qed.

Lemma completion_accounted o alive c cs s x s' :
  run_completion alive c (set_ioc cs s) = Ret (x, s') → ioc_ s = c :: cs →
  m_observers (read_buffer_pool_ s) = [] → alive o = true →
  m_observers (read_buffer_pool_ s') = [] ∧ accounted o s' = accounted o s.
Proof.
  intros Hrun Hioc Hr Ho.
  assert (∃ c', times o (watched c') = times o (watched c) ∧
    call c' (set_ioc cs s) = Ret (x, s')) as (c' & Hc & Hcall).
  { destruct c; cbn [run_completion] in Hrun; try (by eexists).
    eexists. split; [|exact Hrun]. by apply times_callback. }
  injection Hcall as _ <-. split; [done|]. unfold accounted, notified, called_back.
  cbn [called_ ioc_ write_buffer_pool_ set_held set_called set_ioc].
  rewrite Hioc, fmap_app, concat_app, fmap_cons, times_app. cbn [concat fmap list_fmap].
  rewrite app_nil_r, times_app, Hc. lia.
Qed.

(** Steps that may move an observer. *)
Definition touches (l : label) : bool :=
  match l with L_async_write _ _ _ _ _ _ | L_write_job _ | L_run_ioc _ => true | _ => false end.

Lemma step_aside o l s s' : exec l s = Ret s' → touches l = false → aside o s s'.
Proof.
  intros Hex Hl. destruct l; unfold exec in Hex; try done.
  - outcome_inv. unfold new_torrent in Ha. destruct (free_slots_ s); outcome_inv;
      (case_match; simplify_eq; by apply aside_same).
  - outcome_inv. unfold remove_torrent in Ha. outcome_inv. by apply aside_same.
  - outcome_inv. by eapply stays_async_read.
  - outcome_inv. by eapply stays_async_hash.
  - outcome_inv. by eapply stays_run_simple.
  - destruct (_ !! i) as [j|]; outcome_inv; [|done].
    etrans; [|by eapply stays_run_read_job]. by apply aside_same.
  - destruct (_ !! i) as [j|]; outcome_inv; [|done].
    etrans; [by eapply stays_run_hash_job|]. by apply aside_same.
  - destruct (_ !! i) as [a|]; outcome_inv; [|done].
    etrans; [|by eapply stays_free_read]. by apply aside_same.
  - outcome_inv. by apply aside_same.
Qed.

Lemma step_accounted o l s s' :
  exec l s = Ret s' → (∀ alive, l = L_run_ioc alive → alive o = true) →
  m_observers (read_buffer_pool_ s) = [] →
  m_observers (read_buffer_pool_ s') = [] ∧
  accounted o s' = (accounted o s + times o (registers l s))%nat.
Proof.
  intros Hex Hal Hr.
  assert (registers l s = [] → m_observers (read_buffer_pool_ s') = [] ∧ accounted o s' = accounted o s →
    m_observers (read_buffer_pool_ s') = [] ∧ accounted o s' = (accounted o s + times o (registers l s))%nat)
    as H0' by (intros ->; by rewrite times_nil, Nat.add_0_r).
  destruct (touches l) eqn:Hl.
  2: { apply H0'; [by destruct l|]. apply aside_accounted; [by eapply step_aside|done]. }
  destruct l; try done; unfold exec in Hex.
  - unfold registers. apply obind_ret_inv in Hex as ([told s1] & E & [= ->]). rewrite E.
    by apply (async_write_accounted o) in E as [? ->]; [destruct told|].
  - apply H0'; [done|]. destruct (_ !! i) as [j|]; outcome_inv; [|done].
    by apply (write_job_accounted o) in Ha as [? Ha].
  - apply H0'; [done|]. destruct (ioc_ s) as [|c cs] eqn:Hioc; outcome_inv; [done|].
    by apply (completion_accounted o alive c cs) in Ha; [|..|by apply Hal].
Qed.

(** *** Executions *)

(** The observers that the calls of a run leave waiting. *)
Fixpoint registered (s : io) (ls : list label) : list observer :=
  match ls with
  | [] => []
  | l :: ls => registers l s ++ match exec l s with Ret s1 => registered s1 ls | Fault _ => [] end
  end.

Inductive execs : io → list label → io → Prop :=
| execs_nil s : execs s [] s
| execs_cons s l s1 ls s2 : exec l s = Ret s1 → execs s1 ls s2 → execs s (l :: ls) s2.

Lemma execs_snoc s ls s1 l s2 : execs s ls s1 → exec l s1 = Ret s2 → execs s (ls ++ [l]) s2.
Proof. induction 1; intros; simpl; econstructor; eauto using execs_nil. Qed.

Lemma execution_execs s ls s' : execution s ls s' → execs s ls s'.
Proof. induction 1 as [|s ls s1 l s2 _ IH [_ Hl]]; [constructor|by eapply execs_snoc]. Qed.

Lemma execs_accounted o s ls s' :
  execs s ls s' → (∀ alive, L_run_ioc alive ∈ ls → alive o = true) →
  m_observers (read_buffer_pool_ s) = [] →
  accounted o s' = (accounted o s + times o (registered s ls))%nat.
Proof.
  induction 1 as [s|s l s1 ls s2 Hl _ IH]; intros Hal Hr; simpl; [rewrite times_nil; lia|].
  destruct (step_accounted o l s s1 Hl) as [Hr1 Hacc]; [|done|].
  { intros alive ->. apply Hal. by left. }
  rewrite Hl, times_app, IH, Hacc; [lia| |done]. intros alive Hin. apply Hal. by right.
Qed.

Lemma registered_snoc s ls s1 l :
  execs s ls s1 → registered s (ls ++ [l]) = registered s ls ++ registers l s1.
Proof.
  induction 1 as [s|s l' s1 ls s2 Hl _ IH]; simpl.
  - destruct (exec l s); by rewrite app_nil_r.
  - by rewrite Hl, IH, app_assoc.
Qed.

(** *** The pool stays armed *)

(** A write whose [malloc], if asked, answers. *)
Definition answers (l : label) : Prop :=
  match l with L_async_write m _ _ _ _ _ => m ≠ None | _ => True end.

Lemma step_armed l s s' :
  io_inv s → step l s s' → answers l →
  pool_armed (write_buffer_pool_ s) → pool_armed (write_buffer_pool_ s').
Proof.
  intros Hinv [Hd Hex] Hm Harm. destruct (touches l) eqn:Hl.
  2: by rewrite (aside_pool _ _ _ (step_aside 0%nat _ _ _ Hex Hl)).
  destruct l; try done; unfold exec in Hex.
  - destruct Hd as (Hok & _). unfold async_write, boost_assert in Hex.
    destruct (r_length r <=? DEFAULT_BLOCK_SIZE); [|done].
    unfold bind, ret, allocate_write_buffer, allocate_buffer_observed in Hex. cbn [obind] in Hex.
    destruct (allocate_buffer_impl m (heap_ s) (write_buffer_pool_ s)) as [[b h1] p] eqn:Halloc.
    apply (pool_armed_allocate _ _ _ _ _ _ _ (inv_write_pool _ _ _ Hinv) Harm Hm) in Halloc.
    destruct (m_exceeded_max_size p) eqn:Hex', b as [b|], o as [o|]; cbn [obind] in Hex;
      unfold with_heap, store_buffer_insert, post_write_job, storage_at, storage_write, post_ioc,
        modify in Hex; outcome_inv; done.
  - destruct (write_thread_pool_ s !! i) as [j|] eqn:Hj; [|by simplify_eq].
    unfold run_write_job in Hex.
    destruct (wj_phase j); unfold bind, storage_at, storage_write, store_buffer_erase, post_ioc,
      modify, free_write_buffer, ret in Hex; outcome_inv; [done..|].
    eapply (pool_armed_free _ _ _ (wj_buf j)); [exact (inv_write_pool _ _ _ Hinv)| |done|done].
    apply elem_of_list_to_set, list_elem_of_fmap_2. by eapply list_elem_of_lookup_2.
  - destruct (ioc_ s) as [|c cs]; outcome_inv; [done|].
    destruct c; unfold run_completion, call, modify in Ha; by outcome_inv.
Qed.
Lemma execution_armed (h : heap) (k : K) ls s :
  execution (HS := HS) (new_raw_disk_io h k) ls s → Forall answers ls →
  pool_armed (write_buffer_pool_ s).
Proof.
  remember (new_raw_disk_io h k) as s0 eqn:Hs0.
  induction 1 as [|s0' ls s1 l s2 Hex IH Hstep]; intros Hls; [by subst|].
  apply Forall_app in Hls as [Hls Hl]. apply Forall_cons in Hl as [Hl _]. subst.
  eapply step_armed; [by eapply io_inv_execution|done..|by auto].
Qed.

Lemma registered_drain s0 ls s ls' s' :
  execs s0 ls s → drain s ls' s' → registered s0 (ls ++ ls') = registered s0 ls.
Proof.
  intros Hex Hdr. induction Hex as [s|s l s1 ls s2 Hl _ IH].
  - simpl. induction Hdr as [|s l s1 ls' s2 Hen Hl _ IH]; [done|]. simpl. rewrite Hl, IH.
    by destruct l.
  - simpl. rewrite Hl. by rewrite IH.
Qed.

(** A drain goes on with the execution. *)
Lemma drain_execution s0 ls s ls' s' :
  execution s0 ls s → drain s ls' s' → execution s0 (ls ++ ls') s'.
Proof.
  intros Hex Hdr. revert ls Hex. induction Hdr as [|s l s1 ls' s2 Hen Hl _ IH]; intros ls Hex.
  - by rewrite app_nil_r.
  - rewrite (app_assoc ls [l] ls' : ls ++ l :: ls' = _). apply IH. econstructor; [done|].
    split; [by apply enabled_disciplined|done].
Qed.

Lemma idle_queues s : (∀ l, ¬ enabled l s) → write_thread_pool_ s = [] ∧ ioc_ s = [].
Proof. intros Hno. destruct (enabled_or_idle s) as [[l Hl]|(_ & ? & _ & ?)]; [by destruct (Hno l)|done]. Qed.
End observers.

(** C16: no peer is left waiting.  Every observer that [async_write] was given while
    answering that the pool is exceeded is notified: from any reachable state, if
    [malloc] has always answered, then when the threads have done all the posted
    work, in whatever order, an observer that is still there has been called as
    often as it was told to wait. *)
Theorem write_observers_notified {K HS digest} `{KernelLaws K} `{Hasher HS digest}
    (h : heap) (k : K) ls (s : disk_io K HS digest) ls' s' o :
  execution (new_raw_disk_io h k) ls s → Forall answers ls → drain s ls' s' →
  (∀ l, ¬ enabled l s') → (∀ alive, L_run_ioc alive ∈ ls ++ ls' → alive o = true) →
  times o (notified s') = times o (registered (new_raw_disk_io h k) ls).
Proof.
  intros Hex Hans Hdr Hidle Hal.
  pose proof (drain_execution _ _ _ _ _ Hex Hdr) as Hex'.
  destruct (idle_queues s' Hidle) as [Hw Hioc].
  assert (Forall answers (ls ++ ls')) as Hans'.
  { apply Forall_app. split; [done|]. clear -Hdr. induction Hdr; constructor; [|done].
    by destruct l. }
  pose proof (execution_armed _ _ _ _ Hex' Hans') as Harm.
  pose proof (inv_write_pool _ _ _ (io_inv_execution _ _ _ _ Hex')) as [Hsize _ _ Hwait].
  assert (m_observers (write_buffer_pool_ s') = []) as Hnone.
  { apply Hwait. destruct (m_exceeded_max_size _) eqn:E; [|done]. specialize (Harm E).
    assert (m_size (write_buffer_pool_ s') = 0) as Hz
      by (rewrite Hsize; unfold write_owned; by rewrite Hw).
    rewrite Hz in Harm. by vm_compute in Harm. }
  pose proof (execs_accounted o _ _ _ (execution_execs _ _ _ Hex') Hal eq_refl) as Hacc.
  rewrite (registered_drain _ _ _ _ _ (execution_execs _ _ _ Hex) Hdr) in Hacc.
  unfold accounted, notified, called_back in *. simpl in Hacc. rewrite Hnone, Hioc in Hacc.
  cbn [fmap list_fmap concat] in Hacc. rewrite !times_nil in Hacc. lia.
Qed.

(** ** Witness: nine hundred writes

    Nine hundred blocks of four bytes are written before a thread gets to any of
    them; the last three calls pass the high watermark and are told to wait.  The
    run is followed by its invariant rather than computed. *)

(** Some schedule does all the posted work. *)
Lemma drain_complete {K HS digest} `{KernelLaws K} `{Hasher HS digest} n :
  ∀ s : disk_io K HS digest, (work s < n)%nat → io_inv s →
  ∃ ls s', drain s ls s' ∧ (∀ l, ¬ enabled l s') ∧
    ∀ alive, L_run_ioc alive ∈ ls → alive = λ _, true.
Proof.
  induction n as [|n IH]; intros s Hn Hinv; [lia|].
  destruct (enabled_or_idle s) as [[l Hen]|(E1 & E2 & E3 & E4)].
  - set (l' := match l with L_run_ioc _ => L_run_ioc (λ _, true) | _ => l end).
    assert (enabled l' s) as Hen' by by destruct l.
    destruct (step_safe l' s Hinv (enabled_disciplined _ _ Hen')) as (s1 & Hex & Hinv1).
    pose proof (work_decreases _ _ _ Hen' Hex).
    destruct (IH s1) as (ls & s' & Hdr & Hidle & Hal); [lia|done|].
    exists (l' :: ls), s'. split_and!; [by econstructor|done|].
    intros alive [Heq|Hin]%elem_of_cons; [|by apply Hal].
    destruct l; simplify_eq/=; done.
  - exists [], s. split_and!; [constructor| |by intros alive ?%elem_of_nil].
    intros l. by apply idle_not_enabled.
Qed.

Definition crowd_files : file_storage := LinearStorage.laid_out [("0", 3600)] 4.

Definition crowd_start : demo_io :=
  new_raw_disk_io ∅ (mkRam ∅ {["/dev/sda1" := zeros 3600]}).

Definition crowd_write (p : Z) : label :=
  L_async_write (got (Z.to_pos (p + 2))) 0 (mkReq p 0 4) 1%positive (Some 5%nat) 6%nat.

Definition crowd_calls (n : nat) : list label :=
  [L_new_torrent "/dev/sda1" crowd_files; L_client_memory 1%positive demo_data] ++
  (crowd_write <$> seqZ 0 (Z.of_nat n)).

Record crowded (n : Z) (s : demo_io) : Prop := {
  crowd_storage : storages_ s !! 0 = Some (mkStorage 3 crowd_files);
  crowd_data : heap_ s !! 1%positive = Some demo_data;
  crowd_fresh a : n + 2 ≤ Z.pos a → heap_ s !! a = None;
  crowd_size : m_size (write_buffer_pool_ s) = n;
  crowd_flag : m_exceeded_max_size (write_buffer_pool_ s) = (897 <? n);
}.

Lemma crowd_files_ok : files_ok crowd_files.
Proof.
  split; [by apply LinearStorage.laid_out_laws|]. intros p Hp.
  change (fs_num_pieces crowd_files) with 900 in Hp.
  change (fs_piece_size crowd_files p) with (Z.min 4 (3600 - p * 4)). rewrite block_size_value. lia.
Qed.

Lemma crowd_high n : (897 <? n) || (896 <? n) = (896 <? n).
Proof. destruct (Z.ltb_spec 897 n), (Z.ltb_spec 896 n); simpl; done || lia. Qed.

Lemma crowd_next n : (896 <? n) = (897 <? n + 1).
Proof. destruct (Z.ltb_spec 896 n), (Z.ltb_spec 897 (n + 1)); done || lia. Qed.

Lemma crowd_step n s :
  io_inv s → crowded n s → 0 ≤ n < 900 →
  ∃ s', step (crowd_write n) s s' ∧ crowded (n + 1) s' ∧
    registers (crowd_write n) s = if 896 <? n then [5%nat] else [].
Proof.
  intros Hinv [Hst Hd Hf Hs He] Hn. set (a := Z.to_pos (n + 2)).
  assert (Z.pos a = n + 2) as Ha by (unfold a; lia).
  assert (heap_ s !! a = None) as Hfresh by (apply Hf; lia).
  pose proof (length_zeros DEFAULT_BLOCK_SIZE) as Hz.
  assert (Z.of_nat (length demo_data) = DEFAULT_BLOCK_SIZE) as Hdl
    by (unfold demo_data; rewrite length_replicate, block_size_value; done).
  assert (disciplined (crowd_write n) s) as Hdis.
  { split_and!; [split; [done|by apply Hz]|by rewrite block_size_value| |].
    - exists (mkStorage 3 crowd_files). split; [done|]. cbn [r_piece r_start r_length fs_].
      unfold valid_range. change (fs_num_pieces crowd_files) with 900.
      change (fs_piece_size crowd_files n) with (Z.min 4 (3600 - n * 4)). lia.
    - exists demo_data. split; [done|]. rewrite Hdl, block_size_value. simpl. lia. }
  destruct (allocate_buffer_observed (got a) false (Some 5%nat) (heap_ s) (write_buffer_pool_ s))
    as [[[buf told] h'] pool] eqn:Halloc.
  pose proof (inv_write_pool _ _ _ Hinv) as Hpool. pose proof Halloc as Halloc'.
  unfold allocate_buffer_observed in Halloc'.
  rewrite (allocate_buffer_impl_spec _ _ _ _ Hpool) in Halloc'. unfold got in Halloc'.
  pose proof watermark_values as (Hbc & _ & Hhi).
  rewrite (proj2 (Z.ltb_lt (m_size _) _)) in Halloc' by lia.
  unfold allocation_exceeds in Halloc'. cbn [m_exceeded_max_size] in Halloc'.
  rewrite He, Hs, Hhi, bool_decide_eq_false_2, orb_false_r in Halloc' by done.
  rewrite crowd_high in Halloc'.
  assert (buf = Some a ∧ told = (896 <? n) ∧ h' = <[a := zeros DEFAULT_BLOCK_SIZE]> (heap_ s) ∧
    m_size pool = n + 1 ∧ m_exceeded_max_size pool = (896 <? n)) as (-> & -> & -> & Hs' & He').
  { destruct (896 <? n); injection Halloc' as <- <- <- <-; split_and!; reflexivity. }
  pose proof (async_write_posted s (got a) 0 (mkReq n 0 4) 1%positive (Some 5%nat) 6%nat a
    (896 <? n) (zeros DEFAULT_BLOCK_SIZE) pool demo_data Halloc) as Hw.
  specialize (Hw Hfresh ltac:(by apply Hz) Hd ltac:(simpl; rewrite block_size_value; lia)
    ltac:(rewrite Hdl, block_size_value; simpl; lia)).
  eexists. split_and!.
  - split; [done|]. unfold crowd_write, exec. fold a. rewrite Hw. done.
  - split; simpl; [done| | |done|].
    + rewrite lookup_insert_ne; [done|]. intros E1. rewrite E1 in Ha. lia.
    + intros b Hb. rewrite lookup_insert_ne; [apply Hf; lia|]. intros <-. lia.
    + rewrite He'. apply crowd_next.
  - unfold crowd_write, registers. fold a. rewrite Hw. by destruct (896 <? n).
Qed.

(** The crowd after [n] writes. *)
Lemma crowd_run (n : nat) : (n ≤ 900)%nat →
  ∃ s, execution crowd_start (crowd_calls n) s ∧ crowded (Z.of_nat n) s ∧
    registered crowd_start (crowd_calls n) = replicate (n - 897) 5%nat.
Proof.
  induction n as [|n IH]; intros Hn.
  - set (s0 := match exec (L_new_torrent "/dev/sda1" crowd_files) crowd_start with
               | Ret s => s | Fault _ => crowd_start end).
    exists (set_heap (<[1%positive := demo_data]> ∅) s0). split_and!; [|split|done]; try done.
    + eapply execution_cons; [split; [split; [done|exact crowd_files_ok]|reflexivity]|].
      eapply execution_cons; [split; [|reflexivity]|constructor]. simpl. by apply not_elem_of_nil.
    + intros a Ha. simpl. rewrite lookup_insert_ne; [done|]. intros <-. lia.
  - destruct IH as (s & Hex & Hc & Hreg); [lia|].
    destruct (crowd_step (Z.of_nat n) s) as (s' & Hstep & Hc' & Hr);
      [by eapply io_inv_execution|done|lia|].
    exists s'. assert (crowd_calls (S n) = crowd_calls n ++ [crowd_write (Z.of_nat n)]) as E.
    { unfold crowd_calls. rewrite Nat2Z.inj_succ, <-Z.add_1_r, seqZ_app, fmap_app by lia.
      by rewrite app_assoc. }
    rewrite E. split_and!.
    + by econstructor.
    + replace (Z.of_nat (S n)) with (Z.of_nat n + 1) by lia. done.
    + rewrite (registered_snoc _ _ s), Hreg, Hr by (by apply execution_execs).
      destruct (Z.ltb_spec 896 (Z.of_nat n)).
      * replace (S n - 897)%nat with (n - 897 + 1)%nat by lia. by rewrite replicate_add.
      * replace (S n - 897)%nat with 0%nat by lia. replace (n - 897)%nat with 0%nat by lia. done.
Qed.

Lemma crowd_answers n : Forall answers (crowd_calls n).
Proof.
  apply Forall_app. split; [by repeat constructor|]. apply Forall_fmap, Forall_true.
  intros p Hp. discriminate Hp.
Qed.

Lemma crowd_no_ioc n alive : L_run_ioc alive ∉ crowd_calls n.
Proof.
  unfold crowd_calls. rewrite elem_of_app, !elem_of_cons. intros [[E|[E|E]]|E];
    [discriminate E|discriminate E|by apply elem_of_nil in E|].
  apply list_elem_of_fmap in E as (p & E & _). discriminate E.
Qed.

Lemma write_observers_notified_witness :
  ∃ s ls' s', execution crowd_start (crowd_calls 900) s ∧ drain s ls' s' ∧
    registered crowd_start (crowd_calls 900) = [5; 5; 5]%nat ∧ times 5%nat (notified s') = 3%nat.
Proof.
  destruct (crowd_run 900) as (s & Hex & _ & Hreg); [lia|].
  destruct (drain_complete (S (work s)) s (Nat.lt_succ_diag_r _) (io_inv_execution _ _ _ _ Hex))
    as (ls' & s' & Hdr & Hidle & Hal).
  exists s, ls', s'. split; [exact Hex|]. split; [exact Hdr|]. split; [exact Hreg|].
  rewrite (write_observers_notified ∅ _ (crowd_calls 900) s ls' s' 5%nat Hex (crowd_answers 900)
    Hdr Hidle); [fold crowd_start; rewrite Hreg; reflexivity|].
  intros alive [Hin|Hin]%elem_of_app;
    [destruct (crowd_no_ioc _ _ Hin)|rewrite (Hal _ Hin); reflexivity].
Defined.
