(* ===== verification/RawDiskIOView.v ===== *)
(** * What the back end holds for a torrent

    The contents of a torrent are split between the disk and the blocks that wait
    in the store buffer: [view] lays the second over the first.  A write changes
    the view when [async_write] is called; nothing else does, whatever the pool
    threads do and in whatever order.

    This needs more of the callers than memory safety does: [content_ok] asks that
    a write covers a whole block of its piece, that no write of the same block is
    posted, and that the extents of all torrents are apart on their devices. *)

From S2P Require Import Prelude Memory BufferPool StoreBuffer Stoll Kernel PartitionStorage.
From S2P Require Import RawDiskIO RawDiskIOSteps RawDiskIODemo RawDiskIOSpec RawDiskIOInv.

Section view.
Context {K HS digest : Type} `{KernelLaws K} `{Hasher HS digest}.
Abbreviation io := (disk_io K HS digest).
Implicit Types s : io.

(** Contents of torrents, by index, piece and offset. *)
Abbreviation content := (Z → Z → Z → option byte).

(** What is on disk for a byte of a torrent. *)
Definition disk_byte (s : io) (idx p i : Z) : option byte :=
  st ← storages_ s !! idx; d ← k_dev (fd_ st) (kernel_ s); k_byte d (address st p i) (kernel_ s).

Definition view (s : io) : content := λ idx p i,
  match buffered s idx p i with
  | Some b => Some b
  | None => disk_byte s idx p i
  end.

(** ** Where the torrents are *)

(** Every torrent is placed on a device, under a descriptor of its own, and no
    two bytes of torrents share an address. *)
Record layout (s : io) : Prop := {
  layout_placed idx st : storages_ s !! idx = Some st → ∃ d, placed st d (kernel_ s);
  layout_fds idx1 st1 idx2 st2 :
    storages_ s !! idx1 = Some st1 → storages_ s !! idx2 = Some st2 →
    fd_ st1 = fd_ st2 → idx1 = idx2;
  layout_apart idx1 st1 p1 i1 idx2 st2 p2 i2 :
    storages_ s !! idx1 = Some st1 → storages_ s !! idx2 = Some st2 →
    valid_range (fs_ st1) p1 i1 1 → valid_range (fs_ st2) p2 i2 1 →
    k_dev (fd_ st1) (kernel_ s) = k_dev (fd_ st2) (kernel_ s) →
    address st1 p1 i1 = address st2 p2 i2 → idx1 = idx2 ∧ p1 = p2 ∧ i1 = i2;
}.

(** Byte [i] of piece [p] of torrent [idx] is in the range of a request. *)
Definition covers (idx : Z) (r : peer_request) (idx' p i : Z) : Prop :=
  idx' = idx ∧ p = r_piece r ∧ r_start r ≤ i < r_start r + r_length r.

#[global] Instance covers_dec idx r idx' p i : Decision (covers idx r idx' p i).
Proof. unfold covers. apply _. Defined.

Lemma layout_distinct s idx st :
  layout s → storages_ s !! idx = Some st → addresses_distinct st.
Proof.
  intros Hl Hst p1 i1 p2 i2 Hr1 Hr2 Heq.
  destruct (layout_apart s Hl idx st p1 i1 idx st p2 i2) as (_ & ? & ?); done.
Qed.

(** A byte of a torrent is on its device. *)
Lemma disk_byte_some s idx p i :
  layout s → request_ok s idx p i 1 → is_Some (disk_byte s idx p i).
Proof.
  intros Hl (st & Hst & Hr). destruct (layout_placed s Hl _ _ Hst) as [d Hp].
  unfold disk_byte. rewrite Hst. simpl. rewrite (placed_dev _ _ _ Hp). simpl.
  by apply (placed_inside _ _ _ Hp).
Qed.

Lemma disk_byte_at s idx st d p i :
  storages_ s !! idx = Some st → k_dev (fd_ st) (kernel_ s) = Some d →
  disk_byte s idx p i = k_byte d (address st p i) (kernel_ s).
Proof. intros Hst Hd. unfold disk_byte. rewrite Hst. simpl. by rewrite Hd. Qed.

(** A kernel under which the devices still reach every byte. *)
Lemma layout_kernel s k :
  layout s → (∀ fd, k_dev fd k = k_dev fd (kernel_ s)) →
  (∀ idx p i, request_ok s idx p i 1 → is_Some (disk_byte (set_kernel k s) idx p i)) →
  layout (set_kernel k s).
Proof.
  intros Hl Hdev Hsome. split; simpl.
  - intros idx st Hst. destruct (layout_placed s Hl _ _ Hst) as [d [? Hd Ha _]]. exists d.
    split; [done|by rewrite Hdev|done|]. intros p i Hr.
    rewrite <-(disk_byte_at (set_kernel k s) idx); [|done|simpl; by rewrite Hdev].
    apply Hsome. by exists st.
  - apply (layout_fds s Hl).
  - intros idx1 st1 p1 i1 idx2 st2 p2 i2. rewrite !Hdev. apply (layout_apart s Hl).
Qed.

(** A write to disk, seen through the layout. *)
Lemma storage_write_disk s idx st r buf l :
  layout s → storages_ s !! idx = Some st →
  valid_range (fs_ st) (r_piece r) (r_start r) (r_length r) →
  heap_ s !! buf = Some l → r_length r ≤ Z.of_nat (length l) →
  ∃ k, write st buf (r_piece r) (r_start r) (r_length r) no_storage_error (kernel_ s) (heap_ s) =
         Ret (no_storage_error, k) ∧
    layout (set_kernel k s) ∧
    ∀ idx' p i, request_ok s idx' p i 1 →
      disk_byte (set_kernel k s) idx' p i =
        if decide (covers idx r idx' p i) then l !! Z.to_nat (i - r_start r)
        else disk_byte s idx' p i.
Proof.
  intros Hl Hst Hr Hbuf Hlen. destruct (layout_placed s Hl _ _ Hst) as [d Hp].
  pose proof (placed_dev _ _ _ Hp) as Hd.
  destruct (write_spec st d (kernel_ s) buf (r_piece r) (r_start r) (r_length r) no_storage_error
              (heap_ s) l) as (k & Hw & Hdev & Hin & Hout);
    [done|by eapply layout_distinct|done..|].
  assert (∀ idx' p i, request_ok s idx' p i 1 →
    disk_byte (set_kernel k s) idx' p i =
      if decide (covers idx r idx' p i) then l !! Z.to_nat (i - r_start r)
      else disk_byte s idx' p i) as Hdisk.
  { intros idx' p i (st' & Hst' & Hr'). destruct (layout_placed s Hl _ _ Hst') as [d' Hp'].
    pose proof (placed_dev _ _ _ Hp') as Hd'.
    rewrite (disk_byte_at s idx' st' d') by done.
    rewrite (disk_byte_at (set_kernel k s) idx' st' d') by (simpl; rewrite ?Hdev; done). simpl.
    destruct (decide _) as [(-> & -> & Hi)|Hnot].
    - simplify_eq. by apply Hin.
    - apply Hout. destruct (decide (d' = d)) as [->|]; [right|by left]. intros i' Hi' Heq.
      apply Hnot.
      destruct (layout_apart s Hl idx' st' p i idx st (r_piece r) i') as (-> & -> & ->);
        [done..|by eapply valid_range_byte|congruence|done|done]. }
  exists k. split_and!; [done| |done]. apply layout_kernel; [done..|].
  intros idx' p i Hreq. rewrite Hdisk by done. case_decide as Hc; [|by apply disk_byte_some].
  destruct Hc as (_ & _ & ?). apply lookup_lt_is_Some_2. lia.
Qed.

(** ** Whole blocks *)

(** The request is a block of its piece, the last one cut at the end. *)
Definition whole_block (fs : file_storage) (r : peer_request) : Prop :=
  r_start r mod DEFAULT_BLOCK_SIZE = 0 ∧
  r_length r = Z.min DEFAULT_BLOCK_SIZE (fs_piece_size fs (r_piece r) - r_start r).

Lemma whole_block_covers fs r i :
  whole_block fs r → valid_range fs (r_piece r) i 1 →
  block_of i = r_start r ↔ r_start r ≤ i < r_start r + r_length r.
Proof.
  intros [Hal Hlen] (_ & _ & _ & Hi). pose proof (block_bounds i). split; [intros; lia|].
  intros Hc. destruct (block_first (r_start r) (i - r_start r)) as [Hb _]; [lia|lia|].
  rewrite <-(block_of_aligned (r_start r) Hal), <-Hb. f_equal. lia.
Qed.

Lemma whole_block_offset fs r i :
  whole_block fs r → block_of i = r_start r → i mod DEFAULT_BLOCK_SIZE = i - r_start r.
Proof. intros [Hal _] Hb. unfold block_of in Hb. lia. Qed.

(** ** The invariant *)

Record view_inv (s : io) : Prop := {
  view_layout : layout s;
  view_whole j : j ∈ write_thread_pool_ s →
    ∃ st, storages_ s !! wj_storage j = Some st ∧ whole_block (fs_ st) (wj_request j);
  view_nodup : NoDup (wj_loc <$> write_thread_pool_ s);
  view_entry j : j ∈ write_thread_pool_ s → is_erased j = false →
    store_buffer_ s !! wj_loc j = Some (wj_buf j);
  view_written j e i : j ∈ write_thread_pool_ s → wj_phase j = W_written e →
    r_start (wj_request j) ≤ i < r_start (wj_request j) + r_length (wj_request j) →
    ∃ l, heap_ s !! wj_buf j = Some l ∧
      disk_byte s (wj_storage j) (r_piece (wj_request j)) i =
        l !! Z.to_nat (i - r_start (wj_request j));
}.

(** What the steps need of their callers, beyond [disciplined]. *)
Definition content_ok (l : label) (s : io) : Prop :=
  match l with
  | L_new_torrent path files =>
      ∀ st k, new_partition_storage path files (kernel_ s) = Ret (st, k) →
        (∃ d, placed st d k) ∧ addresses_distinct st ∧
        ∀ idx' st' p i p' i', storages_ s !! idx' = Some st' →
          valid_range files p i 1 → valid_range (fs_ st') p' i' 1 →
          k_dev (fd_ st) k = k_dev (fd_ st') k → address st p i ≠ address st' p' i'
  | L_async_write m idx r buf o h =>
      (mkLoc idx (r_piece r) (r_start r) ∉ (wj_loc <$> write_thread_pool_ s)) ∧
      ∀ st, storages_ s !! idx = Some st → whole_block (fs_ st) r
  | _ => True
  end.

(** A step that has nothing to do with the contents. *)
Record same_content (s s' : io) : Prop := {
  same_storages : storages_ s' = storages_ s;
  same_kernel : kernel_ s' = kernel_ s;
  same_store : store_buffer_ s' = store_buffer_ s;
  same_writes : write_thread_pool_ s' = write_thread_pool_ s;
  same_buffers a : a ∈ write_owned s → heap_ s' !! a = heap_ s !! a;
}.

Lemma same_content_disk s s' idx p i :
  storages_ s' = storages_ s → kernel_ s' = kernel_ s → disk_byte s' idx p i = disk_byte s idx p i.
Proof. intros E1 E2. unfold disk_byte. by rewrite E1, E2. Qed.

Lemma layout_same s s' :
  storages_ s' = storages_ s → kernel_ s' = kernel_ s → layout s → layout s'.
Proof. intros E1 E2 [H1' H2' H3']. split; rewrite ?E1, ?E2; done. Qed.

Lemma buffered_same s s' idx p i :
  store_buffer_ s' !! mkLoc idx p (block_of i) = store_buffer_ s !! mkLoc idx p (block_of i) →
  (∀ a, store_buffer_ s !! mkLoc idx p (block_of i) = Some a → heap_ s' !! a = heap_ s !! a) →
  buffered s' idx p i = buffered s idx p i.
Proof.
  intros E Hheap. unfold buffered. rewrite E.
  destruct (store_buffer_ s !! _) as [a|] eqn:Ha; simpl; [|done]. by rewrite Hheap.
Qed.

Lemma store_entry_owned s loc a : io_inv s → store_buffer_ s !! loc = Some a → a ∈ write_owned s.
Proof.
  intros Hinv Ha. destruct (inv_store _ _ _ Hinv _ _ Ha) as (j & Hj & _ & <- & _).
  by apply list_elem_of_fmap_2.
Qed.

Lemma same_content_view s s' :
  io_inv s → view_inv s → same_content s s' →
  view_inv s' ∧ ∀ idx p i, view s' idx p i = view s idx p i.
Proof.
  intros Hinv [Hl Hw Hn He Hd] [E1 E2 E3 E4 Hh]. split.
  - split; [by eapply layout_same|rewrite ?E1, ?E3, ?E4; done..|].
    intros j e i. rewrite E4. intros Hj Hph Hi.
    destruct (Hd j e i Hj Hph Hi) as (l & ? & ?). exists l.
    rewrite Hh by (by apply list_elem_of_fmap_2). by rewrite (same_content_disk s s').
  - intros idx p i. unfold view.
    rewrite (same_content_disk s s') by done. rewrite (buffered_same s s'); [done|by rewrite E3|].
    intros a Ha. apply Hh. by eapply store_entry_owned.
Qed.

(** *** Steps that leave the contents alone *)

Lemma write_owned_live er ew s a :
  io_inv_with er ew s → a ∈ write_owned s → is_Some (heap_ s !! a).
Proof.
  intros Hinv Ha.
  destruct (pool_inv_live _ _ _ a (inv_write_pool _ _ _ Hinv)) as (d & ? & _); [|eauto].
  apply elem_of_app. by right.
Qed.

Lemma owned_apart s a b : io_inv s → a ∈ read_owned s → b ∈ write_owned s → b ≠ a.
Proof.
  intros Hinv Ha Hb ->. pose proof (inv_owned _ _ _ Hinv) as Hnd. simpl in Hnd.
  apply NoDup_app in Hnd as (_ & Hd & _). by eapply Hd.
Qed.

(** Arrays outside the write pool may change. *)
Lemma same_content_new s a s' :
  io_inv s → heap_ s !! a = None →
  storages_ s' = storages_ s → kernel_ s' = kernel_ s → store_buffer_ s' = store_buffer_ s →
  write_thread_pool_ s' = write_thread_pool_ s →
  (∀ b, b ≠ a → heap_ s' !! b = heap_ s !! b) → same_content s s'.
Proof.
  intros Hinv Ha E1 E2 E3 E4 Hh. split; [done..|]. intros b Hb. apply Hh. intros ->.
  apply (write_owned_live _ _ _ _ Hinv) in Hb as [? ?]. congruence.
Qed.

Lemma same_content_read s a s' :
  io_inv s → a ∈ read_owned s →
  storages_ s' = storages_ s → kernel_ s' = kernel_ s → store_buffer_ s' = store_buffer_ s →
  write_thread_pool_ s' = write_thread_pool_ s →
  (∀ b, b ≠ a → heap_ s' !! b = heap_ s !! b) → same_content s s'.
Proof.
  intros Hinv Ha E1 E2 E3 E4 Hh. split; [done..|]. intros b Hb. apply Hh. by eapply owned_apart.
Qed.

Lemma read_job_owned s i j : read_thread_pool_ s !! i = Some j → rj_buf j ∈ read_owned s.
Proof.
  intros Hj. unfold read_owned. rewrite !elem_of_app. left. apply list_elem_of_fmap_2.
  by eapply list_elem_of_lookup_2.
Qed.

Lemma hash_job_owned s i j : hash_thread_pool_ s !! i = Some j → hj_buf j ∈ read_owned s.
Proof.
  intros Hj. unfold read_owned. rewrite !elem_of_app. right. left. apply list_elem_of_fmap_2.
  by eapply list_elem_of_lookup_2.
Qed.

Definition moves_content (l : label) : bool :=
  match l with
  | L_new_torrent _ _ | L_remove_torrent _ | L_async_write _ _ _ _ _ _ | L_write_job _ => true
  | _ => false
  end.

Lemma same_content_async_read s m idx r h s' :
  io_inv s → disciplined (L_async_read m idx r h) s → exec (L_async_read m idx r h) s = Ret s' →
  same_content s s'.
Proof.
  intros Hinv Hd Hex. unfold exec in Hex.
  destruct (async_read_cases s m idx r h Hinv Hd)
    as [(e & pool & E & _)|(a & pool & Hfresh & _ & _ & (l & pos & n & _ & [[_ E]|[_ E]]) & _)];
    rewrite E in Hex; simpl in Hex; simplify_eq.
  - by split.
  - apply (same_content_new s a); try done. intros b Hb. by apply lookup_insert_ne.
  - apply (same_content_new s a); try done. intros b Hb. by apply lookup_insert_ne.
Qed.

Lemma same_content_async_hash s m idx p h s' :
  io_inv s → disciplined (L_async_hash m idx p h) s → exec (L_async_hash m idx p h) s = Ret s' →
  same_content s s'.
Proof.
  intros Hinv [Hm _] Hex.
  unfold exec, async_hash, bind, allocate_read_buffer, allocate_buffer in Hex.
  destruct (allocate_buffer_impl m (heap_ s) (read_buffer_pool_ s)) as [[[a|] h'] pool] eqn:Halloc;
    pose proof (inv_allocate_read _ _ _ _ _ Hinv Hm Halloc) as Ha; simpl in Hex; simplify_eq.
  - destruct Ha as (Hfresh & junk & -> & _). apply (same_content_new s a); try done.
    intros b Hb. by apply lookup_insert_ne.
  - destruct Ha as [-> _]. by split.
Qed.

Lemma same_content_read_job s i s' :
  io_inv s → exec (L_read_job i) s = Ret s' → same_content s s'.
Proof.
  intros Hinv Hex. unfold exec in Hex. destruct (_ !! i) as [j|] eqn:Hj; [|by simplify_eq].
  unfold run_read_job, bind, storage_at, storage_read, post_ioc, modify in Hex. outcome_inv.
  eapply (same_content_read s (rj_buf j)); try done; [by eapply read_job_owned|].
  simpl. by eapply read_frame.
Qed.

Lemma run_hash_job_frame j s rest s' :
  run_hash_job j s = Ret (rest, s') →
  storages_ s' = storages_ s ∧ kernel_ s' = kernel_ s ∧ store_buffer_ s' = store_buffer_ s ∧
  write_thread_pool_ s' = write_thread_pool_ s ∧
  ∀ c, c ≠ hj_buf j → heap_ s' !! c = heap_ s !! c.
Proof.
  intros Hrun. unfold run_hash_job in Hrun.
  destruct (hj_phase j) as [|[|n] off ph e|n off ph e];
    unfold bind, lift, storage_at, storage_read, free_read_buffer, post_ioc, modify, ret in Hrun;
    outcome_inv; try done.
  - split_and!; try done. intros c Hc. simpl.
    match goal with E : free_disk_buffer _ _ _ = _ |- _ =>
      apply free_disk_buffer_heap in E as -> end. by apply lookup_delete_ne.
  - case_match; outcome_inv; (split_and!; try done); intros c Hc; simpl; by eapply read_frame.
Qed.

Lemma same_content_hash_job s i s' :
  io_inv s → exec (L_hash_job i) s = Ret s' → same_content s s'.
Proof.
  intros Hinv Hex. unfold exec in Hex. destruct (_ !! i) as [j|] eqn:Hj; [|by simplify_eq].
  outcome_inv. apply run_hash_job_frame in Ha as (E1 & E2 & E3 & E4 & Hh).
  apply (same_content_read s (hj_buf j)); try done. by eapply hash_job_owned.
Qed.

Lemma same_content_release s i s' :
  io_inv s → exec (L_release i) s = Ret s' → same_content s s'.
Proof.
  intros Hinv Hex. unfold exec in Hex. destruct (_ !! i) as [a|] eqn:Ha; [|by simplify_eq].
  unfold free_read_buffer in Hex. outcome_inv.
  match goal with E : free_disk_buffer _ _ _ = _ |- _ =>
    apply free_disk_buffer_heap in E as -> end.
  apply (same_content_read s a); try done.
  - unfold read_owned. rewrite !elem_of_app. do 3 right. by eapply list_elem_of_lookup_2.
  - intros c Hc. simpl. by apply lookup_delete_ne.
Qed.

(** Every other step leaves the contents alone. *)
Lemma quiet_step l s s' :
  io_inv s → disciplined l s → exec l s = Ret s' → moves_content l = false → same_content s s'.
Proof.
  intros Hinv Hd Hex Hl. destruct l; try done.
  - by eapply same_content_async_read.
  - by eapply same_content_async_hash.
  - unfold exec in Hex. destruct op; simpl in Hex; by simplify_eq.
  - by eapply same_content_read_job.
  - by eapply same_content_hash_job.
  - unfold exec in Hex. destruct (ioc_ s) as [|c cs]; [by simplify_eq|].
    destruct c; simpl in Hex; by simplify_eq.
  - by eapply same_content_release.
  - unfold exec in Hex. simplify_eq. split; try done. intros b Hb. simpl.
    apply lookup_insert_ne. intros ->. simpl in Hd. rewrite elem_of_app in Hd. tauto.
Qed.

(** ** A write is called *)

Lemma covers_same_loc st idx r1 r2 idx' p i :
  whole_block (fs_ st) r1 → whole_block (fs_ st) r2 → valid_range (fs_ st) p i 1 →
  covers idx r1 idx' p i → r_piece r2 = p → r_start r2 ≤ i < r_start r2 + r_length r2 →
  mkLoc idx (r_piece r1) (r_start r1) = mkLoc idx' (r_piece r2) (r_start r2).
Proof.
  intros Hw1 Hw2 Hr (-> & -> & Hi1) Hp Hi2. rewrite <-Hp in *.
  apply (whole_block_covers _ _ _ Hw2) in Hi2; [|done].
  rewrite Hp in Hr. apply (whole_block_covers _ _ _ Hw1) in Hi1; [|done]. congruence.
Qed.

(** The blocks of posted writes do not meet a block that is not posted. *)
Lemma posted_apart s idx st r j i :
  io_inv s → view_inv s → storages_ s !! idx = Some st → whole_block (fs_ st) r →
  (mkLoc idx (r_piece r) (r_start r) ∉ (wj_loc <$> write_thread_pool_ s)) →
  j ∈ write_thread_pool_ s →
  r_start (wj_request j) ≤ i < r_start (wj_request j) + r_length (wj_request j) →
  ¬ covers idx r (wj_storage j) (r_piece (wj_request j)) i.
Proof.
  intros Hinv Hv Hst Hw Hnew Hj Hi Hc. apply Hnew. apply list_elem_of_fmap. exists j.
  split; [|done].
  destruct (view_whole s Hv j Hj) as (st' & Hst' & Hw').
  assert (idx = wj_storage j) as -> by by destruct Hc. simplify_eq.
  destruct (proj1 (Forall_forall _ _) (inv_write_jobs _ _ _ Hinv) j Hj) as [(st' & Hst'' & Hr) _].
  simplify_eq. eapply (covers_same_loc st); [exact Hw|exact Hw'| |exact Hc|done|exact Hi].
  by eapply valid_range_byte.
Qed.

Lemma no_entry s loc : io_inv s → (loc ∉ (wj_loc <$> write_thread_pool_ s)) → store_buffer_ s !! loc = None.
Proof.
  intros Hinv Hloc. apply eq_None_not_Some. intros [a Ha].
  destruct (inv_store _ _ _ Hinv _ _ Ha) as (j & Hj & <- & _). by apply Hloc, list_elem_of_fmap_2.
Qed.

(** The contents after a write. *)
Definition write_content (idx : Z) (r : peer_request) (data : list byte) (c : content) : content :=
  λ idx' p i, if decide (covers idx r idx' p i) then data !! Z.to_nat (i - r_start r) else c idx' p i.

Section async_write.
Context (s : io) (idx : Z) (st : partition_storage) (r : peer_request) (data : list byte).
Hypothesis Hinv : io_inv s.
Hypothesis Hv : view_inv s.
Hypothesis Hst : storages_ s !! idx = Some st.
Hypothesis Hr : valid_range (fs_ st) (r_piece r) (r_start r) (r_length r).
Hypothesis Hmax : r_length r ≤ DEFAULT_BLOCK_SIZE.
Hypothesis Hdata : r_length r ≤ Z.of_nat (length data).
Hypothesis Hwhole : whole_block (fs_ st) r.
Hypothesis Hnew : mkLoc idx (r_piece r) (r_start r) ∉ (wj_loc <$> write_thread_pool_ s).

(** It is posted, *)
Lemma view_enqueue_write h a pool junk s' :
  heap_ s !! a = None → Z.of_nat (length junk) = DEFAULT_BLOCK_SIZE →
  s' = enqueue_write (mkWriteJob h idx r a W_posted) pool
         (blit 0 (take (Z.to_nat (r_length r)) data) junk) s →
  view_inv s' ∧
  ∀ idx' p i, request_ok s idx' p i 1 → view s' idx' p i = write_content idx r data (view s) idx' p i.
Proof.
  intros Hfresh Hjunk ->. pose proof (no_entry _ _ Hinv Hnew) as Hnone.
  assert (∀ b, b ∈ write_owned s → b ≠ a) as Hne.
  { intros b Hb ->. apply (write_owned_live _ _ _ _ Hinv) in Hb as [? ?]. congruence. }
  pose proof Hv as [Hl Hw Hn He Hd]. split.
  - unfold enqueue_write. split; simpl.
    + by eapply layout_same; [..|exact Hl].
    + intros j [Hj| ->]%elem_of_snoc; [by apply Hw|by exists st].
    + rewrite fmap_app. apply NoDup_app. split_and!; [done| |by apply NoDup_singleton].
      intros loc Hloc Heq%list_elem_of_singleton. subst loc. done.
    + intros j [Hj| ->]%elem_of_snoc Her; rewrite lookup_insert_sb.
      * case_decide as Hloc; [|by apply He]. destruct Hnew. apply list_elem_of_fmap.
        exists j. split; [exact Hloc|done].
      * rewrite decide_True by done. unfold wj_loc. simpl. by rewrite Hnone.
    + intros j e i [Hj| ->]%elem_of_snoc Hph Hi; [|done].
      destruct (Hd j e i Hj Hph Hi) as (l & Hbuf & Hdisk). exists l. split; [|done].
      rewrite lookup_insert_ne; [done|]. intros ->. apply (Hne (wj_buf j)); [|done].
      by apply list_elem_of_fmap_2.
  - intros idx' p i (st' & Hst' & Hr'). unfold view, write_content.
    destruct (decide (covers idx r idx' p i)) as [Hc|Hc].
    + pose proof Hc as (-> & -> & Hi). simplify_eq.
      pose proof (proj2 (whole_block_covers _ _ _ Hwhole Hr') Hi) as Hb.
      unfold buffered. simpl. rewrite lookup_insert_sb, Hb, decide_True by done.
      unfold wj_loc. simpl. rewrite Hnone. simpl.
      rewrite lookup_insert_eq. simpl. rewrite (whole_block_offset _ _ _ Hwhole Hb).
      rewrite lookup_blit_inside by (rewrite length_take; lia).
      rewrite lookup_take by lia.
      replace (Z.to_nat (i - r_start r) - 0)%nat with (Z.to_nat (i - r_start r)) by lia.
      destruct (lookup_lt_is_Some_2 data (Z.to_nat (i - r_start r))) as [b ->]; [lia|].
      by rewrite decide_True by lia.
    + rewrite (same_content_disk s) by done. rewrite (buffered_same s); [done|..]; simpl.
      * rewrite lookup_insert_sb. case_decide as Hloc; [|done]. destruct Hc.
        unfold wj_loc in Hloc. simpl in Hloc. injection Hloc as <- <- Hb. simplify_eq.
        split; [done|]. split; [done|]. by apply (whole_block_covers _ _ _ Hwhole).
      * intros b Hb%(store_entry_owned _ _ _ Hinv). apply lookup_insert_ne. apply not_eq_sym.
        by apply Hne.
Qed.

(** or goes to disk at once when there is no buffer. *)
Lemma view_write_direct pool k c s' :
  layout (set_kernel k s) →
  (∀ idx' p i, request_ok s idx' p i 1 →
     disk_byte (set_kernel k s) idx' p i = write_content idx r data (disk_byte s) idx' p i) →
  s' = set_ioc (ioc_ s ++ [c]) (set_kernel k (set_write_buffer_pool pool s)) →
  view_inv s' ∧
  ∀ idx' p i, request_ok s idx' p i 1 → view s' idx' p i = write_content idx r data (view s) idx' p i.
Proof.
  intros Hl' Hdisk ->. pose proof (no_entry _ _ Hinv Hnew) as Hnone.
  pose proof Hv as [Hl Hw Hn He Hd]. split.
  - split; simpl; try done; [by eapply layout_same; [..|exact Hl']|].
    intros j e i Hj Hph Hi. destruct (Hd j e i Hj Hph Hi) as (l & Hbuf & Hb). exists l.
    split; [done|]. rewrite <-Hb. rewrite (same_content_disk (set_kernel k s)) by done.
    destruct (proj1 (Forall_forall _ _) (inv_write_jobs _ _ _ Hinv) j Hj) as [(st' & Hst' & Hr') _].
    rewrite Hdisk by (exists st'; split; [done|by eapply valid_range_byte]).
    unfold write_content. rewrite decide_False; [done|]. by eapply posted_apart.
  - intros idx' p i Hreq. unfold view. rewrite (same_content_disk (set_kernel k s)) by done.
    rewrite Hdisk by done. unfold write_content.
    rewrite (buffered_same s) by done. destruct (decide _) as [Hc|]; [|done].
    pose proof Hc as (-> & -> & Hi). destruct Hreq as (st' & Hst' & Hr'). simplify_eq.
    unfold buffered. by rewrite (proj2 (whole_block_covers _ _ _ Hwhole Hr') Hi), Hnone.
Qed.
End async_write.

Lemma view_async_write m idx r buf o h s s' :
  io_inv s → view_inv s → disciplined (L_async_write m idx r buf o h) s →
  content_ok (L_async_write m idx r buf o h) s → exec (L_async_write m idx r buf o h) s = Ret s' →
  view_inv s' ∧ ∀ idx' p i, request_ok s idx' p i 1 →
    view s' idx' p i = write_content idx r (default [] (heap_ s !! buf)) (view s) idx' p i.
Proof.
  intros Hinv Hv (Hm & Hmax & (st & Hst & Hr) & data & Hbuf & Hdata) [Hnew Hwhole] Hex.
  specialize (Hwhole st Hst). unfold exec in Hex. rewrite Hbuf. simpl.
  destruct (allocate_buffer_observed m false o (heap_ s) (write_buffer_pool_ s))
    as [[[[a|] told] h'] pool] eqn:Halloc;
    pose proof (inv_allocate_write _ _ _ _ _ _ _ Hinv Hm Halloc) as Ha.
  - destruct Ha as (Hfresh & junk & -> & Hjunk & _).
    rewrite (async_write_posted s m idx r buf o h a told junk pool data) in Hex;
      [|done|done|done|done|unfold valid_range in Hr; lia|done].
    simpl in Hex. simplify_eq. by eapply (view_enqueue_write s idx st r data).
  - destruct Ha as [-> _].
    destruct (storage_write_disk s idx st r buf data) as (k & Hw & Hl & Hdisk); [apply Hv|done..|].
    rewrite (async_write_direct s m idx r buf o h told _ pool st no_storage_error k) in Hex by done.
    simpl in Hex. simplify_eq. by eapply (view_write_direct s idx st r data).
Qed.

(** ** The steps of a write job *)

Section write_job.
Context (s : io) (n : nat) (j : write_job) (st : partition_storage) (l : list byte).
Hypothesis Hinv : io_inv s.
Hypothesis Hv : view_inv s.
Hypothesis Hj : write_thread_pool_ s !! n = Some j.
Hypothesis Hst : storages_ s !! wj_storage j = Some st.
Hypothesis Hr : valid_range (fs_ st) (r_piece (wj_request j)) (r_start (wj_request j))
                  (r_length (wj_request j)).
Hypothesis Hl : heap_ s !! wj_buf j = Some l.
Hypothesis Hlen : Z.of_nat (length l) = DEFAULT_BLOCK_SIZE.
Hypothesis Hmax : r_length (wj_request j) ≤ DEFAULT_BLOCK_SIZE.

Lemma job_in : j ∈ write_thread_pool_ s.
Proof. by eapply list_elem_of_lookup_2. Qed.

Lemma job_whole : whole_block (fs_ st) (wj_request j).
Proof. destruct (view_whole s Hv j job_in) as (st' & ? & ?). by simplify_eq. Qed.

(** Another posted write covers other bytes. *)
Lemma other_job_apart n' j' i :
  write_thread_pool_ s !! n' = Some j' → n' ≠ n →
  r_start (wj_request j') ≤ i < r_start (wj_request j') + r_length (wj_request j') →
  ¬ covers (wj_storage j) (wj_request j) (wj_storage j') (r_piece (wj_request j')) i.
Proof.
  intros Hj' Hne Hi Hc. apply Hne.
  assert (j' ∈ write_thread_pool_ s) as Hin by by eapply list_elem_of_lookup_2.
  destruct (view_whole s Hv j' Hin) as (st' & Hst' & Hw').
  destruct (proj1 (Forall_forall _ _) (inv_write_jobs _ _ _ Hinv) j' Hin) as [(st'' & Hst'' & Hr') _].
  assert (wj_storage j' = wj_storage j) as E by by destruct Hc. rewrite E in Hst', Hst''.
  simplify_eq. eapply (NoDup_lookup _ _ _ (wj_loc j) (view_nodup s Hv)).
  - rewrite list_lookup_fmap, Hj'. simpl. f_equal. symmetry.
    eapply (covers_same_loc st); [exact job_whole|exact Hw'| |exact Hc|done|exact Hi].
    by eapply valid_range_byte.
  - by rewrite list_lookup_fmap, Hj.
Qed.

(** The job, or another one, after the job moved on. *)
Lemma elem_of_moved ph j' :
  j' ∈ <[n := set_phase ph j]> (write_thread_pool_ s) →
  j' = set_phase ph j ∨ ∃ n', n' ≠ n ∧ write_thread_pool_ s !! n' = Some j'.
Proof.
  intros (n' & Hn')%list_elem_of_lookup. destruct (decide (n' = n)) as [->|].
  - rewrite list_lookup_insert_eq in Hn' by (by eapply lookup_lt_Some). left. congruence.
  - rewrite list_lookup_insert_ne in Hn' by done. eauto.
Qed.

Lemma moved_locs ph :
  wj_loc <$> <[n := set_phase ph j]> (write_thread_pool_ s) = (wj_loc <$> write_thread_pool_ s).
Proof. rewrite list_fmap_insert. apply list_insert_id. by rewrite list_lookup_fmap, Hj. Qed.

(** A byte of the block is the one in the job's buffer, while it is posted. *)
Lemma posted_view i :
  is_erased j = false → r_start (wj_request j) ≤ i < r_start (wj_request j) + r_length (wj_request j) →
  buffered s (wj_storage j) (r_piece (wj_request j)) i =
    l !! Z.to_nat (i - r_start (wj_request j)) ∧
  is_Some (l !! Z.to_nat (i - r_start (wj_request j))).
Proof.
  intros Her Hi. pose proof job_whole as Hw.
  assert (block_of i = r_start (wj_request j)) as Hb.
  { apply (whole_block_covers _ _ _ Hw); [by eapply valid_range_byte|done]. }
  split; [|apply lookup_lt_is_Some_2; lia].
  rewrite (buffered_at _ _ _ _ (wj_buf j) l); [by rewrite (whole_block_offset _ _ _ Hw Hb)| |done].
  rewrite Hb. by apply (view_entry s Hv j job_in).
Qed.

(** The transfer to disk. *)
Lemma view_write_transfer k s' :
  wj_phase j = W_posted → layout (set_kernel k s) →
  (∀ idx' p i, request_ok s idx' p i 1 →
     disk_byte (set_kernel k s) idx' p i =
       write_content (wj_storage j) (wj_request j) l (disk_byte s) idx' p i) →
  s' = set_write_thread_pool (<[n := set_phase (W_written no_storage_error) j]> (write_thread_pool_ s))
         (set_kernel k s) →
  view_inv s' ∧ ∀ idx' p i, request_ok s idx' p i 1 → view s' idx' p i = view s idx' p i.
Proof.
  intros Hph Hl' Hdisk ->. pose proof Hv as [_ Hw Hn He Hd].
  assert (∀ j' i, j' ∈ write_thread_pool_ s →
    r_start (wj_request j') ≤ i < r_start (wj_request j') + r_length (wj_request j') →
    request_ok s (wj_storage j') (r_piece (wj_request j')) i 1) as Hreq.
  { intros j' i Hin Hi.
    destruct (proj1 (Forall_forall _ _) (inv_write_jobs _ _ _ Hinv) j' Hin) as [(st' & ? & ?) _].
    exists st'. split; [done|by eapply valid_range_byte]. }
  split.
  - split; simpl.
    + by eapply layout_same; [..|exact Hl'].
    + intros j' [->|(n' & _ & Hj')]%elem_of_moved; [exact (Hw j job_in)|].
      apply Hw. by eapply list_elem_of_lookup_2.
    + by rewrite moved_locs.
    + intros j' [->|(n' & _ & Hj')]%elem_of_moved Her; [apply (He j job_in); unfold is_erased; by rewrite Hph|].
      apply He; [by eapply list_elem_of_lookup_2|done].
    + intros j' e i [->|(n' & Hne & Hj')]%elem_of_moved Hph' Hi; simpl in *;
        rewrite (same_content_disk (set_kernel k s)) by done.
      * exists l. split; [done|]. rewrite Hdisk by (by apply Hreq; [apply job_in|]).
        unfold write_content. by rewrite decide_True.
      * pose proof (list_elem_of_lookup_2 _ _ _ Hj') as Hin.
        rewrite Hdisk by (by apply Hreq). unfold write_content.
        rewrite decide_False by (by eapply other_job_apart). by eapply Hd.
  - intros idx' p i Hi. unfold view. rewrite (same_content_disk (set_kernel k s)) by done.
    rewrite Hdisk by done. rewrite (buffered_same s) by done. unfold write_content.
    destruct (decide _) as [(-> & -> & Hc)|]; [|done].
    destruct (posted_view i) as [-> [b ->]]; [unfold is_erased; by rewrite Hph|done|done].
Qed.

(** The entry leaves the store buffer: the disk has the block by now. *)
Lemma view_write_erase e s' :
  wj_phase j = W_written e →
  s' = set_write_thread_pool (<[n := set_phase (W_erased e) j]> (write_thread_pool_ s))
         (set_store_buffer (erase (wj_loc j) (store_buffer_ s)) s) →
  view_inv s' ∧ ∀ idx' p i, request_ok s idx' p i 1 → view s' idx' p i = view s idx' p i.
Proof.
  intros Hph ->. pose proof Hv as [Hlay Hw Hn He Hd]. split.
  - split; simpl.
    + by eapply layout_same; [..|exact Hlay].
    + intros j' [->|(n' & _ & Hj')]%elem_of_moved; [exact (Hw j job_in)|].
      apply Hw. by eapply list_elem_of_lookup_2.
    + by rewrite moved_locs.
    + intros j' [->|(n' & Hne & Hj')]%elem_of_moved Her; [done|].
      rewrite lookup_erase_sb. case_decide as Hloc.
      * destruct Hne. eapply (NoDup_lookup _ _ _ (wj_loc j) Hn); rewrite list_lookup_fmap;
          rewrite ?Hj, ?Hj'; simpl; congruence.
      * apply He; [by eapply list_elem_of_lookup_2|done].
    + intros j' e' i [->|(n' & _ & Hj')]%elem_of_moved Hph' Hi; [done|].
      eapply Hd; [by eapply list_elem_of_lookup_2|done..].
  - intros idx' p i (st' & Hst' & Hr'). unfold view. rewrite (same_content_disk s) by done.
    destruct (decide (mkLoc idx' p (block_of i) = wj_loc j)) as [Hloc|Hloc].
    + injection Hloc as -> -> Hb. simplify_eq.
      apply (whole_block_covers _ _ _ job_whole Hr') in Hb as Hi.
      destruct (posted_view i) as [-> [b Hb']]; [unfold is_erased; by rewrite Hph|done|].
      destruct (Hd j e i job_in Hph Hi) as (l' & ? & ->). simplify_eq. rewrite Hb'.
      unfold buffered. simpl. by rewrite lookup_erase_sb, Hb, decide_True.
    + rewrite (buffered_same s); [done| |done]. simpl. rewrite lookup_erase_sb.
      by rewrite decide_False by congruence.
Qed.

(** The job ends and its buffer goes. *)
Lemma view_write_finish e s' :
  wj_phase j = W_erased e →
  storages_ s' = storages_ s → kernel_ s' = kernel_ s → store_buffer_ s' = store_buffer_ s →
  write_thread_pool_ s' = delete n (write_thread_pool_ s) → heap_ s' = delete (wj_buf j) (heap_ s) →
  view_inv s' ∧ ∀ idx' p i, view s' idx' p i = view s idx' p i.
Proof.
  intros Hph E1 E2 E3 E4 E5. pose proof Hv as [Hlay Hw Hn He Hd].
  assert (∀ j', j' ∈ write_thread_pool_ s' → j' ∈ write_thread_pool_ s) as Hsub.
  { intros j'. rewrite E4. intros Hj'.
    eapply elem_of_submseteq; [done|apply sublist_submseteq, sublist_delete]. }
  pose proof (inv_owned _ _ _ Hinv) as Hnd. simpl in Hnd. apply NoDup_app in Hnd as (_ & _ & Hnd).
  assert (∀ j', j' ∈ write_thread_pool_ s → is_erased j' = false → wj_buf j' ≠ wj_buf j) as Hother.
  { intros j' Hj' Her Heq. assert (j' = j) as ->; [|unfold is_erased in Her; by rewrite Hph in Her].
    apply list_elem_of_lookup in Hj' as [n' Hn']. assert (n' = n) as ->; [|congruence].
    eapply (NoDup_lookup _ _ _ (wj_buf j) Hnd); unfold write_owned; rewrite list_lookup_fmap;
      rewrite ?Hj, ?Hn'; simpl; congruence. }
  split.
  - split; [by eapply layout_same|intros j' ?%Hsub; rewrite E1; by apply Hw| | |].
    + rewrite E4. rewrite (delete_Permutation _ _ _ Hj) in Hn. by apply NoDup_cons_1_2 in Hn.
    + intros j' ?%Hsub Her. rewrite E3. by apply He.
    + intros j' e' i Hj'%Hsub Hph' Hi. rewrite (same_content_disk s s') by done.
      destruct (Hd j' e' i Hj' Hph' Hi) as (l' & ? & ?). exists l'. split; [|done]. rewrite E5.
      rewrite lookup_delete_ne; [done|]. apply not_eq_sym. apply Hother; [done|].
      unfold is_erased. by rewrite Hph'.
  - intros idx' p i. unfold view. rewrite (same_content_disk s s') by done.
    rewrite (buffered_same s s'); [done|by rewrite E3|]. intros a Ha. rewrite E5.
    apply lookup_delete_ne. destruct (inv_store _ _ _ Hinv _ _ Ha) as (j' & ? & _ & <- & ?).
    apply not_eq_sym. by apply Hother.
Qed.
End write_job.

Lemma view_write_job n s s' :
  io_inv s → view_inv s → exec (L_write_job n) s = Ret s' →
  view_inv s' ∧ ∀ idx p i, request_ok s idx p i 1 → view s' idx p i = view s idx p i.
Proof.
  intros Hinv Hv Hex. unfold exec in Hex.
  destruct (write_thread_pool_ s !! n) as [j|] eqn:Hj; [|by simplify_eq].
  pose proof (proj1 (Forall_lookup _ _) (inv_write_jobs _ _ _ Hinv) _ _ Hj)
    as [(st & Hst & Hr) Hmax].
  destruct (pool_inv_live _ _ _ (wj_buf j) (inv_write_pool _ _ _ Hinv)) as (l & Hl & Hlen).
  { apply list_elem_of_fmap_2. by eapply list_elem_of_lookup_2. }
  unfold run_write_job in Hex. destruct (wj_phase j) as [|e|e] eqn:Hph.
  - destruct (storage_write_disk s (wj_storage j) st (wj_request j) (wj_buf j) l)
      as (k & Hw & Hlay & Hdisk); [apply Hv|done|done|done|lia|].
    unfold bind, storage_at, storage_write, ret in Hex. rewrite Hst in Hex. simpl in Hex.
    rewrite Hw in Hex. simpl in Hex. simplify_eq. by eapply (view_write_transfer s n j st l).
  - simpl in Hex. simplify_eq. by eapply (view_write_erase s n j st l).
  - unfold bind, post_ioc, modify, free_write_buffer, ret in Hex. outcome_inv.
    match goal with E : free_disk_buffer _ _ _ = _ |- _ =>
      apply free_disk_buffer_heap in E as -> end.
    match goal with |- view_inv ?s' ∧ _ =>
      destruct (view_write_finish s n j Hinv Hv Hj e s') as [? ?] end; [done..|]. by split.
Qed.

(** ** Torrents come and go *)

Lemma new_partition_storage_inv path files k st k' :
  new_partition_storage path files k = Ret (st, k') →
  0 ≤ fd_ st ∧ fs_ st = files ∧ fd_ st = fst (k_open path k) ∧ k' = snd (k_open path k).
Proof.
  unfold new_partition_storage. destruct (k_open path k) as [fd k1].
  destruct (Z.ltb_spec fd 0); intros; simplify_eq. done.
Qed.

Section new_torrent.
Context (s : io) (path : string) (st : partition_storage) (k : K).
Hypothesis Hlay : layout s.
Hypothesis Hnew : new_partition_storage path (fs_ st) (kernel_ s) = Ret (st, k).

Lemma old_fd idx' st' :
  storages_ s !! idx' = Some st' →
  fd_ st' ≠ fd_ st ∧ k_dev (fd_ st') k = k_dev (fd_ st') (kernel_ s).
Proof.
  intros Hst'. destruct (new_partition_storage_inv _ _ _ _ _ Hnew) as (Hpos & _ & Hfd & ->).
  destruct (layout_placed s Hlay _ _ Hst') as [d Hp]. pose proof (placed_dev _ _ _ Hp) as Hd.
  assert (fd_ st' ≠ fd_ st) as Hne.
  { intros E. rewrite E, Hfd, k_open_fresh in Hd; [done|lia]. }
  split; [done|]. apply k_open_dev. congruence.
Qed.

Lemma new_bytes d a : k_byte d a k = k_byte d a (kernel_ s).
Proof.
  destruct (new_partition_storage_inv _ _ _ _ _ Hnew) as (_ & _ & _ & ->). apply k_open_byte.
Qed.

Lemma old_disk_byte idx s' idx' p i :
  storages_ s' = <[idx := st]> (storages_ s) → kernel_ s' = k → idx' ≠ idx →
  disk_byte s' idx' p i = disk_byte s idx' p i.
Proof.
  intros E1 E2 Hne. unfold disk_byte. rewrite E1, E2, lookup_insert_ne by done.
  destruct (storages_ s !! idx') as [st'|] eqn:Hst'; [|done]. simpl.
  destruct (old_fd _ _ Hst') as [_ ->]. destruct (k_dev _ _); [|done]. simpl. apply new_bytes.
Qed.

Lemma layout_new_torrent idx s' :
  storages_ s' = <[idx := st]> (storages_ s) → kernel_ s' = k → storages_ s !! idx = None →
  (∃ d, placed st d k) → addresses_distinct st →
  (∀ idx' st' p i p' i', storages_ s !! idx' = Some st' →
     valid_range (fs_ st) p i 1 → valid_range (fs_ st') p' i' 1 →
     k_dev (fd_ st) k = k_dev (fd_ st') k → address st p i ≠ address st' p' i') →
  layout s'.
Proof.
  intros E1 E2 Hnone Hp Hdist Hap.
  assert (∀ idx' st', storages_ s' !! idx' = Some st' →
    idx' = idx ∧ st' = st ∨ idx' ≠ idx ∧ storages_ s !! idx' = Some st') as Hcases.
  { intros idx' st'. rewrite E1, lookup_insert. case_decide; naive_solver. }
  split; rewrite ?E2.
  - intros idx' st' [[-> ->]|[Hne Hst']]%Hcases; [done|].
    destruct (layout_placed s Hlay _ _ Hst') as [d [? Hd ? Hi]]. exists d.
    split; [done|by rewrite (proj2 (old_fd _ _ Hst'))|done|].
    intros p i Hr. rewrite new_bytes. by apply Hi.
  - intros idx1 st1 idx2 st2 [[-> ->]|[Hne1 Hst1]]%Hcases [[-> ->]|[Hne2 Hst2]]%Hcases Hfd.
    + done.
    + by destruct (proj1 (old_fd _ _ Hst2)).
    + by destruct (proj1 (old_fd _ _ Hst1)).
    + by eapply (layout_fds s Hlay).
  - intros idx1 st1 p1 i1 idx2 st2 p2 i2 [[-> ->]|[Hne1 Hst1]]%Hcases
      [[-> ->]|[Hne2 Hst2]]%Hcases Hr1 Hr2 Hdev Ha.
    + split; [done|]. by apply Hdist.
    + by destruct (Hap _ _ p1 i1 p2 i2 Hst2).
    + by destruct (Hap _ _ p2 i2 p1 i1 Hst1).
    + rewrite (proj2 (old_fd _ _ Hst1)), (proj2 (old_fd _ _ Hst2)) in Hdev.
      by eapply (layout_apart s Hlay).
Qed.
End new_torrent.

Lemma view_new_torrent path files s s' :
  io_inv s → view_inv s → disciplined (L_new_torrent path files) s →
  content_ok (L_new_torrent path files) s → exec (L_new_torrent path files) s = Ret s' →
  view_inv s' ∧ ∀ idx p i, request_ok s idx p i 1 → view s' idx p i = view s idx p i.
Proof.
  intros Hinv Hv Hd Hc Hex. unfold exec in Hex.
  destruct (new_torrent_safe s path files Hinv Hd) as (idx & st & k & Hnone & Hnew & <- & E & _).
  rewrite E in Hex. simpl in Hex. simplify_eq.
  destruct (Hc _ _ Hnew) as (Hp & Hdist & Hap). pose proof Hv as [Hlay Hw Hn He Hd'].
  assert (∀ idx' st', storages_ s !! idx' = Some st' → idx' ≠ idx) as Hne by congruence.
  split.
  - split; simpl; try done.
    + by eapply (layout_new_torrent s path st k).
    + intros j (st' & Hst' & ?)%Hw. exists st'. rewrite lookup_insert_ne by (symmetry; eauto). done.
    + intros j e i Hj Hph Hi. destruct (Hd' j e i Hj Hph Hi) as (l & ? & Hb). exists l.
      split; [done|]. rewrite <-Hb. destruct (Hw j Hj) as (st' & ? & _).
      by eapply (old_disk_byte s path st k); [..|eauto].
  - intros idx' p i (st' & Hst' & _). unfold view. rewrite (buffered_same s) by done.
    by rewrite (old_disk_byte s path st k Hlay Hnew idx); [..|eauto].
Qed.

Lemma view_remove_torrent idx s s' :
  io_inv s → view_inv s → disciplined (L_remove_torrent idx) s →
  exec (L_remove_torrent idx) s = Ret s' →
  view_inv s' ∧ ∀ idx' p i, request_ok s' idx' p i 1 → view s' idx' p i = view s idx' p i.
Proof.
  intros Hinv Hv [[st Hst] (_ & Huw & _)] Hex. pose proof Hv as [Hlay Hw Hn He Hd].
  unfold exec, remove_torrent in Hex. rewrite Hst in Hex. simpl in Hex.
  unfold delete_partition_storage in Hex.
  destruct (k_close (fd_ st) (kernel_ s)) as [err k] eqn:Hk. simplify_eq.
  assert (k = snd (k_close (fd_ st) (kernel_ s))) as -> by by rewrite Hk.
  assert (∀ idx' st', idx' ≠ idx → storages_ s !! idx' = Some st' →
    k_dev (fd_ st') (snd (k_close (fd_ st) (kernel_ s))) = k_dev (fd_ st') (kernel_ s)) as Hdev.
  { intros idx' st' Hne Hst'. apply k_close_dev. intros E. by destruct Hne; eapply (layout_fds s Hlay). }
  assert (∀ idx' p i, idx' ≠ idx → disk_byte (set_free_slots (free_slots_ s ++ [idx])
    (set_storages (delete idx (storages_ s)) (set_kernel (snd (k_close (fd_ st) (kernel_ s))) s)))
      idx' p i = disk_byte s idx' p i) as Hdisk.
  { intros idx' p i Hne. unfold disk_byte. simpl. rewrite lookup_delete_ne by done.
    destruct (storages_ s !! idx') as [st'|] eqn:Hst'; [|done]. simpl. rewrite (Hdev idx') by done.
    destruct (k_dev _ _); [|done]. simpl. apply k_close_byte. }
  assert (∀ j, j ∈ write_thread_pool_ s → wj_storage j ≠ idx) as Hjs by by apply Forall_forall.
  split.
  - split; simpl; try done.
    + split; simpl.
      * intros idx' st' [Hne Hst']%lookup_delete_Some.
        destruct (layout_placed s Hlay _ _ Hst') as [d [? Hd' ? Hi]]. exists d.
        split; [done|by rewrite (Hdev idx')|done|]. intros p i Hr. rewrite k_close_byte.
        by apply Hi.
      * intros idx1 st1 idx2 st2 [_ Hst1]%lookup_delete_Some [_ Hst2]%lookup_delete_Some.
        by apply (layout_fds s Hlay).
      * intros idx1 st1 p1 i1 idx2 st2 p2 i2 [Hne1 Hst1]%lookup_delete_Some
          [Hne2 Hst2]%lookup_delete_Some. rewrite (Hdev idx1), (Hdev idx2) by done.
        by apply (layout_apart s Hlay).
    + intros j Hj. rewrite lookup_delete_ne by (symmetry; by apply Hjs). by apply Hw.
    + intros j e i Hj Hph Hi. rewrite Hdisk by (by apply Hjs). by eapply Hd.
  - intros idx' p i (st' & Hst' & _). simpl in Hst'. apply lookup_delete_Some in Hst' as [Hne _].
    unfold view. rewrite (buffered_same s) by done. by rewrite Hdisk.
Qed.

(** ** The contents along an execution *)

(** What a step makes of the contents: a write replaces a range, a new torrent
    brings what is on its partition; nothing else changes them. *)
Definition content_after (l : label) (s s' : io) (c : content) : content :=
  match l with
  | L_async_write m idx r buf o h => write_content idx r (default [] (heap_ s !! buf)) c
  | L_new_torrent path files => λ idx p i,
      match storages_ s !! idx with Some _ => c idx p i | None => disk_byte s' idx p i end
  | _ => c
  end.

Lemma view_step l s s' :
  io_inv s → view_inv s → step l s s' → content_ok l s →
  view_inv s' ∧ ∀ idx p i, request_ok s idx p i 1 → request_ok s' idx p i 1 →
    view s' idx p i = content_after l s s' (view s) idx p i.
Proof.
  intros Hinv Hv [Hd Hex] Hc. destruct (moves_content l) eqn:Hm.
  - destruct l; try done.
    + destruct (view_new_torrent _ _ _ _ Hinv Hv Hd Hc Hex) as [Hv' Hview]. split; [done|].
      intros idx p i Hr _. rewrite Hview by done. simpl. by destruct Hr as (st & -> & _).
    + destruct (view_remove_torrent _ _ _ Hinv Hv Hd Hex) as [Hv' Hview]. split; [done|]. auto.
    + destruct (view_async_write _ _ _ _ _ _ _ _ Hinv Hv Hd Hc Hex) as [Hv' Hview]. split; [done|].
      auto.
    + destruct (view_write_job _ _ _ Hinv Hv Hex) as [Hv' Hview]. split; [done|]. auto.
  - pose proof (quiet_step _ _ _ Hinv Hd Hex Hm) as Hsame.
    destruct (same_content_view _ _ Hinv Hv Hsame) as [Hv' Hview]. split; [done|].
    intros idx p i _ _. rewrite Hview. by destruct l.
Qed.

Lemma step_invs l s s' :
  io_inv s → view_inv s → step l s s' → content_ok l s → io_inv s' ∧ view_inv s'.
Proof.
  intros Hinv Hv Hstep Hc. destruct (view_step _ _ _ Hinv Hv Hstep Hc) as [Hv' _]. split; [|done].
  destruct Hstep as [Hd Hex]. destruct (step_safe l s Hinv Hd) as (s2 & ? & ?). congruence.
Qed.

Definition moves_torrents (l : label) : bool :=
  match l with L_new_torrent _ _ | L_remove_torrent _ => true | _ => false end.

Lemma storages_step l s s' :
  io_inv s → step l s s' → moves_torrents l = false → storages_ s' = storages_ s.
Proof.
  intros Hinv [Hd Hex] Hl. destruct (moves_content l) eqn:Hm.
  - destruct l; try done; unfold exec in Hex.
    + unfold async_write, boost_assert in Hex.
      destruct (r_length r <=? DEFAULT_BLOCK_SIZE); [|done].
      unfold bind, ret, allocate_write_buffer in Hex. cbn [obind] in Hex.
      destruct (allocate_buffer_observed _ _ _ _ _) as [[[[a|] ?] ?] ?];
        unfold with_heap, store_buffer_insert, post_write_job, storage_at, storage_write, post_ioc,
          modify in Hex; by outcome_inv.
    + destruct (_ !! i) as [j|]; [|by simplify_eq]. outcome_inv. unfold run_write_job in Ha.
      destruct (wj_phase j); unfold bind, storage_at, storage_write, store_buffer_erase, post_ioc,
        modify, free_write_buffer, ret in Ha; by outcome_inv.
  - by eapply same_storages, quiet_step.
Qed.

(** A torrent that a step brings shows what is on its partition. *)
Lemma view_new_index l s s' c idx p i :
  io_inv s → step l s s' → ¬ request_ok s idx p i 1 → request_ok s' idx p i 1 →
  view s' idx p i = content_after l s s' c idx p i.
Proof.
  intros Hinv Hstep Hno (st & Hst & Hr). destruct (moves_torrents l) eqn:Hm.
  2: { destruct Hno. exists st. by rewrite <-(storages_step _ _ _ Hinv Hstep Hm). }
  destruct Hstep as [Hd Hex]. destruct l; try done; unfold exec in Hex.
  - destruct (new_torrent_safe s _ _ Hinv Hd) as (idx' & st' & k & Hnone & _ & _ & E & _).
    rewrite E in Hex. simpl in Hex. simplify_eq. simpl in Hst. rewrite lookup_insert in Hst.
    case_decide as Heq; [subst idx'|by destruct Hno; exists st].
    unfold content_after. rewrite Hnone. unfold view, buffered. simpl.
    destruct (store_buffer_ s !! _) as [a|] eqn:Ha; [|done].
    destruct (inv_store _ _ _ Hinv _ _ Ha) as (j & Hj & Hloc & _).
    destruct (proj1 (Forall_forall _ _) (inv_write_jobs _ _ _ Hinv) j Hj) as [(st'' & ? & _) _].
    unfold wj_loc in Hloc. simplify_eq.
  - unfold remove_torrent in Hex. simpl in Hex. simplify_eq. simpl in Hst.
    apply lookup_delete_Some in Hst as [_ Hst]. destruct Hno. by exists st.
Qed.

(** Executions whose callers also keep to [content_ok], with the contents that
    the calls amount to. *)
Inductive tracked : io → content → list label → io → content → Prop :=
| tracked_nil s c : tracked s c [] s c
| tracked_snoc s c ls s1 c1 l s2 :
    tracked s c ls s1 c1 → step l s1 s2 → content_ok l s1 →
    tracked s c (ls ++ [l]) s2 (content_after l s1 s2 c1).

Lemma tracked_inv s c ls s' c' :
  tracked s c ls s' c' → io_inv s → view_inv s →
  (∀ idx p i, request_ok s idx p i 1 → view s idx p i = c idx p i) →
  io_inv s' ∧ view_inv s' ∧ ∀ idx p i, request_ok s' idx p i 1 → view s' idx p i = c' idx p i.
Proof.
  induction 1 as [|s c ls s1 c1 l s2 _ IH Hstep Hc]; [done|]. intros Hinv Hv Hview.
  destruct (IH Hinv Hv Hview) as (Hinv1 & Hv1 & Hview1).
  destruct (view_step _ _ _ Hinv1 Hv1 Hstep Hc) as [_ Hview2].
  destruct (step_invs _ _ _ Hinv1 Hv1 Hstep Hc) as [Hinv2 Hv2]. split_and!; [done..|].
  intros idx p i Hr2.
  destruct (decide (request_okb s1 idx p i 1 = true)) as [Hr1%request_okb_ok|Hr1].
  - rewrite Hview2 by done. destruct l; simpl; try (by apply Hview1).
    + destruct Hr1 as (st & Hst & ?). rewrite Hst. apply Hview1. by exists st.
    + unfold write_content. destruct (decide _); [done|]. by apply Hview1.
  - assert (¬ request_ok s1 idx p i 1) as Hno.
    { intros (st & Hst & Hr). apply Hr1. unfold request_okb. rewrite Hst. by apply bool_decide_eq_true. }
    by apply view_new_index.
Qed.

Lemma view_inv_new h (k : K) : view_inv (new_raw_disk_io (HS := HS) (digest := digest) h k).
Proof.
  split; simpl; try (intros * Hj; by apply elem_of_nil in Hj); [|constructor].
  split; simpl; intros *; rewrite ?lookup_empty; done.
Qed.

Lemma tracked_start h k ls s c :
  tracked (new_raw_disk_io h k) (λ _ _ _, None) ls s c →
  io_inv s ∧ view_inv s ∧ ∀ idx p i, request_ok s idx p i 1 → view s idx p i = c idx p i.
Proof.
  intros Ht. eapply tracked_inv; [exact Ht|apply io_inv_new|apply view_inv_new|].
  intros idx p i (st & Hst & _). simpl in Hst. by rewrite lookup_empty in Hst.
Qed.

(** ** Running a list of labels, contents included *)

#[global] Instance whole_block_dec fs r : Decision (whole_block fs r).
Proof. unfold whole_block. apply _. Defined.

(** [content_ok] as a test, but for new torrents. *)
Definition content_okb (l : label) (s : io) : bool :=
  match l with
  | L_new_torrent _ _ => false
  | L_async_write m idx r buf o h =>
      bool_decide (mkLoc idx (r_piece r) (r_start r) ∉ (wj_loc <$> write_thread_pool_ s)) &&
      match storages_ s !! idx with
      | Some st => bool_decide (whole_block (fs_ st) r)
      | None => false
      end
  | _ => true
  end.

Lemma content_okb_ok l s : content_okb l s = true → content_ok l s.
Proof.
  destruct l; simpl; try done. rewrite andb_true_iff, bool_decide_eq_true. intros [? Hw].
  split; [done|]. intros st Hst. rewrite Hst in Hw. by apply bool_decide_eq_true in Hw.
Qed.

Fixpoint run_content (ls : list label) (s : io) : option io :=
  match ls with
  | [] => Some s
  | l :: ls =>
      if disciplinedb l s && content_okb l s then
        match exec l s with Ret s => run_content ls s | Fault _ => None end
      else None
  end.

Lemma run_content_cons l ls s s' :
  run_content (l :: ls) s = Some s' →
  ∃ s1, step l s s1 ∧ content_ok l s ∧ run_content ls s1 = Some s'.
Proof.
  simpl. intros Hrun. destruct (disciplinedb l s) eqn:Hd; [|done].
  destruct (content_okb l s) eqn:Hc; [|done]. simpl in Hrun.
  destruct (exec l s) as [s1|] eqn:Hex; [|done]. exists s1.
  split_and!; [|by apply content_okb_ok|done]. split; [|done].
  apply disciplinedb_ok; [by destruct l|done].
Qed.

Lemma run_content_app ls1 ls2 s :
  run_content (ls1 ++ ls2) s = run_content ls1 s ≫= run_content ls2.
Proof.
  revert s. induction ls1 as [|l ls1 IH]; intros s; simpl; [done|].
  destruct (_ && _); [|done]. by destruct (exec l s).
Qed.

Lemma tracked_run s c ls1 s1 c1 ls2 s2 :
  tracked s c ls1 s1 c1 → run_content ls2 s1 = Some s2 → ∃ c2, tracked s c (ls1 ++ ls2) s2 c2.
Proof.
  revert ls1 s1 c1. induction ls2 as [|l ls2 IH]; intros ls1 s1 c1 Ht Hrun.
  - injection Hrun as <-. rewrite app_nil_r. eauto.
  - apply run_content_cons in Hrun as (s1' & Hstep & Hc & Hrun).
    destruct (IH (ls1 ++ [l]) s1' (content_after l s1 s1' c1)) as [c2 Hc2]; [by econstructor|done|].
    exists c2. by rewrite <-app_assoc in Hc2.
Qed.
End view.

(** ** The torrent of RawDiskIODemo *)

Lemma demo_files_valid p i : valid_range demo_files p i 1 → p = 0 ∧ 0 ≤ i < DEFAULT_BLOCK_SIZE + 4.
Proof.
  unfold valid_range. change (fs_num_pieces demo_files) with 1. intros (? & ? & _ & Hs).
  assert (p = 0) as -> by lia.
  change (fs_piece_size demo_files 0) with (DEFAULT_BLOCK_SIZE + 4) in Hs. lia.
Qed.

(** Both extents lie one after the other, four bytes into the partition. *)
Lemma demo_address p i :
  valid_range demo_files p i 1 → file_address demo_files (locate demo_files p i) = Some (i + 4).
Proof.
  intros Hr. destruct (demo_files_valid _ _ Hr) as [-> Hi].
  assert (locate demo_files 0 i =
    if DEFAULT_BLOCK_SIZE <=? i then (1, i - DEFAULT_BLOCK_SIZE) else (0, i)) as ->.
  { unfold demo_files. rewrite LinearStorage.laid_out_locate by done.
    rewrite Z.mul_0_l, Z.add_0_l. cbn [LinearStorage.place].
    destruct (Z.leb_spec DEFAULT_BLOCK_SIZE i); [|done]. by rewrite (proj2 (Z.leb_gt 4 _)) by lia. }
  destruct (Z.leb_spec DEFAULT_BLOCK_SIZE i); unfold file_address; cbn [fst snd].
  - change (stoll16 (fs_file_name demo_files 1)) with (inr 16388 : stoll_error + Z).
    rewrite block_size_value. f_equal. lia.
  - change (stoll16 (fs_file_name demo_files 0)) with (inr 4 : stoll_error + Z). f_equal. lia.
Qed.

Lemma demo_placed_at k :
  k_dev 3 k = Some "/dev/sda1" → ram_disks k = ram_disks demo_partition →
  placed (mkStorage 3 demo_files) "/dev/sda1" k.
Proof.
  intros Hdev Hdisk.
  assert (∀ p i, valid_range demo_files p i 1 → address (mkStorage 3 demo_files) p i = i + 4) as Ha.
  { intros p i Hr. unfold address. simpl. by rewrite demo_address. }
  split; simpl; [apply demo_files_ok|done| |].
  - intros p i Hr. rewrite Ha, demo_address by done. apply demo_files_valid in Hr as [_ Hi].
    rewrite block_size_value in Hi. split; [done|lia].
  - intros p i Hr. rewrite Ha by done. apply demo_files_valid in Hr as [_ Hi]. unfold ram_byte.
    rewrite (proj2 (Z.leb_le 0 (i + 4))) by lia. rewrite Hdisk. unfold demo_partition. simpl.
    rewrite lookup_singleton_eq. simpl. apply lookup_lt_is_Some_2.
    pose proof (length_zeros (DEFAULT_BLOCK_SIZE + 8)). rewrite block_size_value in *. lia.
Qed.

Lemma demo_content_ok : content_ok (L_new_torrent "/dev/sda1" demo_files) demo_start.
Proof.
  intros st k Hnew. destruct (new_partition_storage_inv _ _ _ _ _ Hnew) as (_ & Hfs & Hfd & ->).
  destruct st as [fd fs]. simpl in *. subst fs.
  change (fst (ram_open "/dev/sda1" demo_partition)) with 3 in Hfd.
  subst fd. split_and!.
  - exists "/dev/sda1". by apply demo_placed_at.
  - intros p1 i1 p2 i2 H1 H2. unfold address. simpl. rewrite !demo_address by done. simpl.
    apply demo_files_valid in H1 as [-> ?], H2 as [-> ?]. intros. split; [done|lia].
  - intros idx' st' p i p' i' Hst'. by rewrite lookup_empty in Hst'.
Qed.

Definition demo_new : list label := [L_new_torrent "/dev/sda1" demo_files].

(** The partition of a new torrent is what it shows. *)
Definition demo_contents : Z → Z → Z → option byte :=
  content_after (L_new_torrent "/dev/sda1" demo_files) demo_start (demo_state demo_new)
    (λ _ _ _, None).

Lemma demo_new_step : step (L_new_torrent "/dev/sda1" demo_files) demo_start (demo_state demo_new).
Proof. apply run_step; [exact demo_files_ok|vm_compute; reflexivity]. Qed.

Lemma demo_new_tracked :
  tracked demo_start (λ _ _ _, None) demo_new (demo_state demo_new) demo_contents.
Proof.
  exact (tracked_snoc demo_start _ [] demo_start _ _ _ (tracked_nil _ _) demo_new_step demo_content_ok).
Qed.

(** Runs from the new torrent on. *)
Definition demo_after (ls : list label) : demo_io :=
  default demo_start (run_content ls (demo_state demo_new)).

Definition runs_content (ls : list label) (s : demo_io) : bool :=
  match run_content ls s with Some _ => true | None => false end.

Lemma demo_after_tracked ls :
  runs_content ls (demo_state demo_new) = true →
  ∃ c, tracked demo_start (λ _ _ _, None) (demo_new ++ ls) (demo_after ls) c.
Proof.
  unfold runs_content, demo_after. intros Hrun.
  destruct (run_content ls (demo_state demo_new)) as [s|] eqn:E; [|done].
  exact (tracked_run _ _ _ _ _ _ _ demo_new_tracked E).
Qed.

Lemma demo_after_app ls1 ls2 :
  runs_content (ls1 ++ ls2) (demo_state demo_new) = true →
  run_content ls2 (demo_after ls1) = Some (demo_after (ls1 ++ ls2)).
Proof.
  unfold runs_content, demo_after. rewrite run_content_app.
  destruct (run_content ls1 (demo_state demo_new)) as [s|]; [|done]. simpl.
  by destruct (run_content ls2 s).
Qed.
