(* ===== verification/RawDiskIOReads.v ===== *)
(** * What reads and hashes deliver

    A read or a hash is answered later than it is called, by other threads, while
    other calls come in.  [read_promise] and [hash_promise] say how far an answer
    has got; they hold from the call on, as long as the bytes asked for are not
    written meanwhile, and end with the contents at the time of the call. *)

From S2P Require Import Prelude Memory BufferPool StoreBuffer Kernel PartitionStorage.
From S2P Require Import RawDiskIO RawDiskIOSteps RawDiskIODemo RawDiskIOSpec RawDiskIOInv.
From S2P Require Import RawDiskIOHandlers RawDiskIOView.

Section reads.
Context {K HS digest : Type} `{KernelLaws K} `{Hasher HS digest}.
Abbreviation io := (disk_io K HS digest).
Implicit Types s : io.

(** ** What a step leaves in place *)

(** The array a step may write or free. *)
Definition touched (l : label) (s : io) : option ptr :=
  match l with
  | L_read_job i => rj_buf <$> read_thread_pool_ s !! i
  | L_write_job i => wj_buf <$> write_thread_pool_ s !! i
  | L_hash_job i => hj_buf <$> hash_thread_pool_ s !! i
  | L_release i => held_ s !! i
  | L_client_memory a _ => Some a
  | _ => None
  end.

Lemma heap_async_write m idx r buf o h s s' b :
  io_inv s → step (L_async_write m idx r buf o h) s s' → is_Some (heap_ s !! b) →
  heap_ s' !! b = heap_ s !! b.
Proof.
  intros Hinv [(Hm & Hmax & (st & Hst & Hr) & data & Hbuf & Hdata) Hex] [x Hb]. unfold exec in Hex.
  destruct (allocate_buffer_observed m false o (heap_ s) (write_buffer_pool_ s))
    as [[[[a|] told] h'] pool] eqn:Halloc;
    pose proof (inv_allocate_write _ _ _ _ _ _ _ Hinv Hm Halloc) as Ha.
  - destruct Ha as (Hfresh & junk & -> & Hjunk & _).
    rewrite (async_write_posted s m idx r buf o h a told junk pool data) in Hex;
      [|done|done|done|done|unfold valid_range in Hr; lia|done].
    simpl in Hex. simplify_eq. simpl. apply lookup_insert_ne. congruence.
  - destruct Ha as [-> _].
    destruct (write_safe (kernel_ s) st buf (r_piece r) (r_start r) (r_length r) no_storage_error
                (heap_ s) data) as (e & k & Hw); [by apply (inv_files _ _ _ Hinv _ _ Hst)|done..|].
    rewrite (async_write_direct s m idx r buf o h told _ pool st e k) in Hex by done.
    simpl in Hex. by simplify_eq.
Qed.

Lemma heap_step l s s' b :
  io_inv s → step l s s' → is_Some (heap_ s !! b) → touched l s ≠ Some b →
  heap_ s' !! b = heap_ s !! b.
Proof.
  intros Hinv Hstep [x Hb] Ht. pose proof Hstep as [Hd Hex].
  destruct l; unfold exec in Hex; simpl in Ht.
  - destruct (new_torrent_safe s _ _ Hinv Hd) as (idx & st & k & _ & _ & _ & E & _).
    rewrite E in Hex. by simplify_eq/=.
  - unfold remove_torrent in Hex. by simplify_eq/=.
  - destruct (async_read_cases s m idx r h Hinv Hd)
      as [(e & pool & E & _)|(a & pool & Hfresh & _ & _ & (d & pos & n & _ & [[_ E]|[_ E]]) & _)];
      rewrite E in Hex; simplify_eq/=; [done|..]; apply lookup_insert_ne; congruence.
  - by eapply heap_async_write.
  - destruct Hd as [Hm _]. unfold async_hash, bind, allocate_read_buffer, allocate_buffer in Hex.
    destruct (allocate_buffer_impl m (heap_ s) (read_buffer_pool_ s)) as [[[a|] h'] pool] eqn:Halloc;
      pose proof (inv_allocate_read _ _ _ _ _ Hinv Hm Halloc) as Ha; simplify_eq/=.
    + destruct Ha as (Hfresh & junk & -> & _). apply lookup_insert_ne. congruence.
    + by destruct Ha as [-> _].
  - destruct op; by simplify_eq/=.
  - destruct (_ !! i) as [j|] eqn:Hj; [|by simplify_eq].
    unfold run_read_job, bind, storage_at, storage_read, post_ioc, modify in Hex. outcome_inv.
    eapply read_frame; [done|]. congruence.
  - destruct (_ !! i) as [j|] eqn:Hj; [|by simplify_eq]. outcome_inv. unfold run_write_job in Ha.
    destruct (wj_phase j); unfold bind, storage_at, storage_write, store_buffer_erase, post_ioc,
      modify, free_write_buffer, ret in Ha; outcome_inv; [done..|].
    match goal with E : free_disk_buffer _ _ _ = _ |- _ =>
      apply free_disk_buffer_heap in E as -> end. apply lookup_delete_ne. congruence.
  - destruct (_ !! i) as [j|] eqn:Hj; [|by simplify_eq]. outcome_inv.
    apply run_hash_job_frame in Ha as (_ & _ & _ & _ & Hh). apply Hh. congruence.
  - destruct (ioc_ s) as [|c cs]; [by simplify_eq|]. destruct c; by simplify_eq/=.
  - destruct (_ !! i) as [a|] eqn:Ha; [|by simplify_eq]. unfold free_read_buffer in Hex.
    outcome_inv.
    match goal with E : free_disk_buffer _ _ _ = _ |- _ =>
      apply free_disk_buffer_heap in E as -> end. apply lookup_delete_ne. congruence.
  - simplify_eq/=. apply lookup_insert_ne. congruence.
Qed.

(** Buffers on their way to a handler, or with it. *)
Definition delivered (s : io) : list ptr := concat (handed <$> ioc_ s) ++ held_ s.

(** The queues of the reading side and the answers only grow. *)
Record grows (s s' : io) : Prop := {
  grows_reads : read_thread_pool_ s ⊆ read_thread_pool_ s';
  grows_hashes : hash_thread_pool_ s ⊆ hash_thread_pool_ s';
  grows_delivered : delivered s ⊆ delivered s';
  grows_answers c : completion_handlers c ≠ [] → c ∈ ioc_ s ++ called_ s → c ∈ ioc_ s' ++ called_ s';
}.

#[global] Instance grows_preorder : PreOrder grows.
Proof.
  split; [by split|]. intros s1 s2 s3 [] []. split; [by etrans..|]. auto.
Qed.

(** The reading side is as before, and completions may be posted. *)
Lemma grows_posted s s' cs :
  read_thread_pool_ s' = read_thread_pool_ s → hash_thread_pool_ s' = hash_thread_pool_ s →
  held_ s' = held_ s → called_ s' = called_ s → ioc_ s' = ioc_ s ++ cs → grows s s'.
Proof.
  intros E1 E2 E3 E4 E5. split; unfold delivered; rewrite ?E1, ?E2, ?E3, ?E4, ?E5; try done.
  - rewrite fmap_app, concat_app. intros a. rewrite !elem_of_app. tauto.
  - intros c _. rewrite !elem_of_app. tauto.
Qed.

Lemma grows_same s s' :
  read_thread_pool_ s' = read_thread_pool_ s → hash_thread_pool_ s' = hash_thread_pool_ s →
  held_ s' = held_ s → called_ s' = called_ s → ioc_ s' = ioc_ s → grows s s'.
Proof. intros. apply (grows_posted s s' []); rewrite ?app_nil_r; done. Qed.

Lemma grows_deliver c s : grows s (deliver c s).
Proof.
  split; unfold deliver, delivered; simpl; try done.
  - intros a. rewrite !elem_of_app. tauto.
  - intros c' _. rewrite !elem_of_app. tauto.
Qed.

Lemma grows_async_write m idx r buf o h s s' :
  exec (L_async_write m idx r buf o h) s = Ret s' → grows s s'.
Proof.
  unfold exec, async_write, boost_assert. intros Hex.
  destruct (r_length r <=? DEFAULT_BLOCK_SIZE); [|done].
  unfold bind, ret, allocate_write_buffer in Hex. cbn [obind] in Hex.
  destruct (allocate_buffer_observed _ _ _ _ _) as [[[[a|] ?] ?] ?];
    unfold with_heap, store_buffer_insert, post_write_job, storage_at, storage_write, post_ioc,
      modify in Hex; outcome_inv; [by apply grows_same|by eapply grows_posted].
Qed.

Lemma grows_write_job i s s' : exec (L_write_job i) s = Ret s' → grows s s'.
Proof.
  unfold exec. intros Hex. destruct (_ !! i) as [j|]; [|by simplify_eq].
  outcome_inv. unfold run_write_job in Ha.
  destruct (wj_phase j); unfold bind, storage_at, storage_write, store_buffer_erase, post_ioc,
    modify, free_write_buffer, ret in Ha; outcome_inv; [by apply grows_same..|].
  eapply grows_posted; try done. simpl. by rewrite <-app_assoc.
Qed.

Lemma grows_run_ioc alive s s' : exec (L_run_ioc alive) s = Ret s' → grows s s'.
Proof.
  unfold exec. intros Hex. destruct (ioc_ s) as [|c cs] eqn:Hioc; [by simplify_eq|].
  assert (∃ c', s' = deliver c' (set_ioc cs s) ∧ handed c' = handed c ∧
            (completion_handlers c ≠ [] → c' = c)) as (c' & -> & Hh & Hc).
  { exists (match c with C_watermark cbs => C_watermark (watermark_callback alive cbs) | c => c end).
    destruct c; simplify_eq/=; split_and!; done || by intros []. }
  split; unfold delivered; simpl; rewrite ?Hioc; try done.
  - simpl. rewrite Hh. intros a. rewrite !elem_of_app. tauto.
  - intros c0 Hc0. simpl. rewrite elem_of_cons, !elem_of_app, list_elem_of_singleton.
    intros [ ->|[?|?]]; [|tauto..]. rewrite Hc by done. tauto.
Qed.

(** Every step but those that use up a read job, a hash job or a held buffer. *)
Definition takes (l : label) : bool :=
  match l with L_read_job _ | L_hash_job _ | L_release _ => true | _ => false end.

Lemma grows_step l s s' : io_inv s → step l s s' → takes l = false → grows s s'.
Proof.
  intros Hinv [Hd Hex] Hl. destruct l; try done.
  - destruct (new_torrent_safe s _ _ Hinv Hd) as (idx & st & k & _ & _ & _ & E & _).
    unfold exec in Hex. rewrite E in Hex. simplify_eq/=. by apply grows_same.
  - simpl in Hex. unfold remove_torrent in Hex. simplify_eq/=. by apply grows_same.
  - unfold exec in Hex. destruct (async_read_cases s m idx r h Hinv Hd)
      as [(e & pool & E & _)|(a & pool & Hfresh & _ & _ & (d & pos & n & _ & [[_ E]|[_ E]]) & _)];
      rewrite E in Hex; simplify_eq/=; [etrans; [|apply grows_deliver]; by apply grows_same..|].
    split; unfold delivered; simpl; try done. intros j. rewrite elem_of_app. tauto.
  - by eapply grows_async_write.
  - unfold exec, async_hash, bind, allocate_read_buffer, allocate_buffer in Hex.
    destruct (allocate_buffer_impl _ _ _) as [[[a|] h'] pool]; simplify_eq/=.
    + split; unfold delivered; simpl; try done. intros j. rewrite elem_of_app. tauto.
    + by eapply grows_posted.
  - unfold exec in Hex. destruct op; simplify_eq/=; try done; by eapply grows_posted.
  - by eapply grows_write_job.
  - by eapply grows_run_ioc.
  - simplify_eq/=. by apply grows_same.
Qed.

(** ** Bytes that are left alone *)

(** A step that neither writes a byte of the request nor removes the torrent. *)
Definition calm (idx : Z) (r : peer_request) (l : label) : Prop :=
  match l with
  | L_async_write _ idx' r' _ _ _ => ∀ i, covers idx r idx (r_piece r) i → ¬ covers idx' r' idx (r_piece r) i
  | L_remove_torrent idx' => idx' ≠ idx
  | _ => True
  end.

(** The request is inside the torrent, whose bytes there are [c]. *)
Definition shows (idx : Z) (r : peer_request) (c : Z → option byte) (s : io) : Prop :=
  ∀ i, covers idx r idx (r_piece r) i →
    request_ok s idx (r_piece r) i 1 ∧ view s idx (r_piece r) i = c i.

Lemma calm_storage idx r l s s' st :
  io_inv s → step l s s' → calm idx r l → storages_ s !! idx = Some st → storages_ s' !! idx = Some st.
Proof.
  intros Hinv Hstep Hcalm Hst.
  destruct (moves_torrents l) eqn:Hm; [|by rewrite (storages_step _ _ _ Hinv Hstep Hm)].
  destruct Hstep as [Hd Hex]. destruct l; try done; unfold exec in Hex.
  - destruct (new_torrent_safe s _ _ Hinv Hd) as (idx' & st' & k & Hnone & _ & _ & E & _).
    rewrite E in Hex. simplify_eq/=. rewrite lookup_insert_ne by congruence. done.
  - unfold remove_torrent in Hex. simplify_eq/=. by rewrite lookup_delete_ne.
Qed.

Lemma calm_shows idx r c l s s' :
  io_inv s → view_inv s → step l s s' → content_ok l s → calm idx r l →
  shows idx r c s → shows idx r c s'.
Proof.
  intros Hinv Hv Hstep Hc Hcalm Hs i Hi. destruct (Hs i Hi) as [Hr <-].
  assert (request_ok s' idx (r_piece r) i 1) as Hr'.
  { destruct Hr as (st & Hst & Hr). exists st. split; [by eapply calm_storage|done]. }
  split; [done|]. destruct (view_step _ _ _ Hinv Hv Hstep Hc) as [_ Hview].
  rewrite Hview by done. destruct l; simpl; try done.
  - by destruct Hr as (st & -> & _).
  - unfold write_content. rewrite decide_False; [done|]. by apply Hcalm.
Qed.

(** A block of the request that is not in the store buffer stays out of it. *)
Lemma calm_absent idx r l s s' i :
  io_inv s → step l s s' → content_ok l s → calm idx r l →
  covers idx r idx (r_piece r) i → request_ok s idx (r_piece r) i 1 →
  store_buffer_ s !! mkLoc idx (r_piece r) (block_of i) = None →
  store_buffer_ s' !! mkLoc idx (r_piece r) (block_of i) = None.
Proof.
  intros Hinv Hstep Hc Hcalm Hi (st & Hst & Hr) Hnone. destruct (moves_content l) eqn:Hm.
  2: { destruct Hstep as [Hd Hex]. by rewrite (same_store _ _ (quiet_step _ _ _ Hinv Hd Hex Hm)). }
  pose proof Hstep as [Hd Hex]. destruct l; try done; unfold exec in Hex.
  - destruct (new_torrent_safe s _ _ Hinv Hd) as (idx' & st' & k & _ & _ & _ & E & _).
    rewrite E in Hex. by simplify_eq/=.
  - unfold remove_torrent in Hex. by simplify_eq/=.
  - unfold async_write, boost_assert in Hex. destruct (r_length _ <=? DEFAULT_BLOCK_SIZE); [|done].
    unfold bind, ret, allocate_write_buffer in Hex. cbn [obind] in Hex.
    destruct (allocate_buffer_observed _ _ _ _ _) as [[[[a|] ?] ?] ?];
      unfold with_heap, store_buffer_insert, post_write_job, storage_at, storage_write, post_ioc,
        modify in Hex; outcome_inv; [|done].
    rewrite lookup_insert_sb. case_decide as Hloc; [|done]. injection Hloc as <- Hp Hb.
    destruct Hc as [_ Hw]. specialize (Hw st Hst). destruct (Hcalm i Hi). rewrite <-Hp in *.
    split_and!; [done..| |]; by apply (whole_block_covers _ _ _ Hw).
  - destruct (_ !! i0) as [j|]; [|by simplify_eq]. outcome_inv. unfold run_write_job in Ha.
    destruct (wj_phase j); unfold bind, storage_at, storage_write, store_buffer_erase, post_ioc,
      modify, free_write_buffer, ret in Ha; outcome_inv; [done| |done].
    rewrite lookup_erase_sb. by case_decide.
Qed.

(** ** Reads *)

(** The array holds the bytes of the request. *)
Definition holds (idx : Z) (r : peer_request) (c : Z → option byte) (l : list byte) : Prop :=
  ∀ i, covers idx r idx (r_piece r) i → l !! Z.to_nat (i - r_start r) = c i.

(** A posted read: the stretch it is to read is not buffered, the rest is there. *)
Definition read_posted (idx : Z) (r : peer_request) (h : handler) (a : ptr)
    (c : Z → option byte) (l : list byte) (s : io) : Prop :=
  ∃ pos n, mkReadJob h idx (r_piece r) a pos (r_start r + pos) n ∈ read_thread_pool_ s ∧
    0 ≤ pos ∧ 0 ≤ n ∧ pos + n ≤ r_length r ≤ DEFAULT_BLOCK_SIZE ∧
    (∀ i, covers idx r idx (r_piece r) i → ¬ (r_start r + pos ≤ i < r_start r + pos + n) →
       l !! Z.to_nat (i - r_start r) = c i) ∧
    (∀ i, r_start r + pos ≤ i < r_start r + pos + n →
       store_buffer_ s !! mkLoc idx (r_piece r) (block_of i) = None).

(** A read that was answered, without error. *)
Definition read_answered (idx : Z) (r : peer_request) (h : handler) (a : ptr)
    (c : Z → option byte) (l : list byte) (s : io) : Prop :=
  a ∈ delivered s ∧ C_read h (Some a) no_storage_error ∈ ioc_ s ++ called_ s ∧ holds idx r c l.

Definition read_promise (idx : Z) (r : peer_request) (h : handler) (a : ptr)
    (c : Z → option byte) (s : io) : Prop :=
  shows idx r c s ∧
  ∃ l, heap_ s !! a = Some l ∧ Z.of_nat (length l) = DEFAULT_BLOCK_SIZE ∧
    (read_posted idx r h a c l s ∨ read_answered idx r h a c l s).

Lemma elem_of_delete_other {A} (l : list A) i x y :
  l !! i = Some x → y ∈ l → y ≠ x → y ∈ delete i l.
Proof.
  intros Hi Hy Hne. rewrite (delete_Permutation _ _ _ Hi) in Hy.
  by apply elem_of_cons in Hy as [?|?].
Qed.

(** Who has a buffer of the read pool. *)
Lemma read_job_unique s i j j' :
  io_inv s → read_thread_pool_ s !! i = Some j' → j ∈ read_thread_pool_ s → rj_buf j = rj_buf j' → j = j'.
Proof.
  intros Hinv Hi [n Hn]%list_elem_of_lookup Hbuf. pose proof (inv_owned _ _ _ Hinv) as Hnd.
  simpl in Hnd.
  apply NoDup_app in Hnd as (Hnd & _). unfold read_owned in Hnd.
  apply NoDup_app in Hnd as (Hnd & _).
  assert (n = i) as ->; [|congruence].
  eapply (NoDup_lookup _ _ _ (rj_buf j') Hnd); rewrite list_lookup_fmap, ?Hi, ?Hn; simpl; congruence.
Qed.

Lemma owners_apart s :
  io_inv s →
  (∀ j j', j ∈ read_thread_pool_ s → j' ∈ hash_thread_pool_ s → rj_buf j ≠ hj_buf j') ∧
  (∀ j a, j ∈ read_thread_pool_ s → a ∈ delivered s → rj_buf j ≠ a) ∧
  (∀ j a, j ∈ hash_thread_pool_ s → a ∈ delivered s → hj_buf j ≠ a).
Proof.
  intros Hinv. pose proof (inv_owned _ _ _ Hinv) as Hnd. simpl in Hnd.
  apply NoDup_app in Hnd as (Hnd & _). unfold read_owned in Hnd. fold (delivered s) in Hnd.
  apply NoDup_app in Hnd as (_ & H12 & Hnd). apply NoDup_app in Hnd as (_ & H23 & _).
  split_and!.
  - intros j j' Hj Hj' E. apply (H12 (rj_buf j)); [by apply list_elem_of_fmap_2|].
    apply elem_of_app. left. rewrite E. by apply list_elem_of_fmap_2.
  - intros j a Hj Ha <-. apply (H12 (rj_buf j)); [by apply list_elem_of_fmap_2|].
    apply elem_of_app. by right.
  - intros j a Hj Ha <-. apply (H23 (hj_buf j)); [by apply list_elem_of_fmap_2|done].
Qed.

Lemma promise_owned idx r h a c l s :
  read_posted idx r h a c l s ∨ read_answered idx r h a c l s → a ∈ read_owned s.
Proof.
  unfold read_owned. fold (delivered s). intros [(pos & n & Hj & _)|[Ha _]]; rewrite !elem_of_app.
  - left. by apply (list_elem_of_fmap_2 rj_buf) in Hj.
  - tauto.
Qed.

(** The job of the promise runs. *)
Lemma read_promise_job idx r h a c s i j s' :
  io_inv s → view_inv s → read_promise idx r h a c s → read_thread_pool_ s !! i = Some j →
  rj_buf j = a → exec (L_read_job i) s = Ret s' →
  ∃ l, heap_ s' !! a = Some l ∧ Z.of_nat (length l) = DEFAULT_BLOCK_SIZE ∧
    read_answered idx r h a c l s'.
Proof.
  intros Hinv Hv (Hs & l & Hl & Hlen & Hp) Hj Hbuf Hex.
  destruct (owners_apart _ Hinv) as (_ & Hrd & _).
  pose proof (list_elem_of_lookup_2 _ _ _ Hj) as Hin.
  destruct Hp as [(pos & n & Hj' & Hpos & Hn & Hmax & Hfill & Hmiss)|[Ha _]];
    [|by destruct (Hrd _ _ Hin Ha)].
  assert (j = mkReadJob h idx (r_piece r) a pos (r_start r + pos) n) as ->
    by (symmetry; by eapply read_job_unique).
  pose proof (proj1 (Forall_lookup _ _) (inv_read_jobs _ _ _ Hinv) _ _ Hj) as [(st & Hst & Hr) _].
  simpl in *. destruct (layout_placed s (view_layout s Hv) _ _ Hst) as [d Hpl].
  unfold exec in Hex. rewrite Hj in Hex.
  unfold run_read_job, bind, storage_at, storage_read, post_ioc, modify in Hex. simpl in Hex.
  rewrite Hst in Hex. simpl in Hex.
  rewrite (read_spec st d (kernel_ s) a pos (r_piece r) (r_start r + pos) n _ (heap_ s) l) in Hex;
    [|done|done|done|lia|lia|pose proof block_length; lia].
  simpl in Hex. simplify_eq.
  pose proof (length_on_disk st d (r_piece r) (r_start r + pos) n (kernel_ s)) as Hod.
  eexists. simpl. rewrite lookup_insert_eq. split_and!; [done|rewrite length_blit; [done|lia]|].
  split_and!.
  - unfold delivered. simpl. rewrite fmap_app, concat_app, !elem_of_app. left. right. by left.
  - simpl. rewrite !elem_of_app, list_elem_of_singleton. tauto.
  - intros k Hk. pose proof Hk as (_ & _ & Hk').
    destruct (decide (r_start r + pos ≤ k < r_start r + pos + n)) as [Hin'|Hout].
    + rewrite lookup_blit_inside by lia.
      replace (Z.to_nat (k - r_start r) - Z.to_nat pos)%nat
        with (Z.to_nat (k - (r_start r + pos))) by lia.
      rewrite lookup_on_disk by lia. destruct (Hs k Hk) as [Hreq <-]. unfold view, buffered.
      rewrite (Hmiss k Hin'). simpl.
      rewrite (disk_byte_at s idx st d) by (done || apply Hpl).
      destruct Hreq as (st' & ? & Hr'). simplify_eq.
      destruct (placed_inside _ _ _ Hpl _ _ Hr') as [b Hb]. rewrite Hb.
      by replace (r_start r + pos + Z.of_nat (Z.to_nat (k - (r_start r + pos)))) with k by lia; rewrite Hb.
    + rewrite lookup_blit_outside by lia. by apply Hfill.
Qed.

(** An answer stays, posted and then called. *)
Lemma answers_kept l s s' c :
  io_inv s → step l s s' → completion_handlers c ≠ [] →
  c ∈ ioc_ s ++ called_ s → c ∈ ioc_ s' ++ called_ s'.
Proof.
  intros Hinv Hstep Hc. destruct (takes l) eqn:Htk.
  2: { destruct (grows_step _ _ _ Hinv Hstep Htk) as [_ _ _ Hans]. auto. }
  destruct Hstep as [_ Hex]. destruct l; try done; unfold exec in Hex.
  - destruct (_ !! i) as [j|]; [|by simplify_eq].
    unfold run_read_job, bind, storage_at, storage_read, post_ioc, modify in Hex. outcome_inv.
    rewrite !elem_of_app. tauto.
  - destruct (_ !! i) as [j|]; [|by simplify_eq]. outcome_inv.
    unfold run_hash_job in Ha. destruct (hj_phase j) as [|[|n] off ph e|n off ph e];
      unfold bind, lift, storage_at, storage_read, free_read_buffer, post_ioc, modify, ret in Ha;
      outcome_inv; try done; [rewrite !elem_of_app; tauto|case_match; by outcome_inv].
  - destruct (_ !! i) as [b|]; [|by simplify_eq]. unfold free_read_buffer in Hex. outcome_inv.
    rewrite !elem_of_app. tauto.
Qed.

(** A step that does not touch the buffer leaves the job, or the answer. *)
Lemma promise_kept l s s' a :
  io_inv s → step l s s' → a ∈ read_owned s → touched l s ≠ Some a →
  (∀ j, rj_buf j = a → j ∈ read_thread_pool_ s → j ∈ read_thread_pool_ s') ∧
  (a ∈ delivered s → a ∈ delivered s').
Proof.
  intros Hinv Hstep Ha Ht. destruct (takes l) eqn:Htk.
  2: { destruct (grows_step _ _ _ Hinv Hstep Htk) as [Hr _ Hd _]. auto. }
  destruct Hstep as [_ Hex]. destruct l; try done; unfold exec in Hex; simpl in Ht.
  - destruct (_ !! i) as [j|] eqn:Hj; [|by simplify_eq].
    unfold run_read_job, bind, storage_at, storage_read, post_ioc, modify in Hex. outcome_inv.
    split.
    + intros j' Hb Hj'. eapply elem_of_delete_other; [done..|]. congruence.
    + unfold delivered. simpl. rewrite fmap_app, concat_app, !elem_of_app. tauto.
  - destruct (_ !! i) as [j|] eqn:Hj; [|by simplify_eq]. outcome_inv.
    assert (grows s d) as [Hr _ Hd _]; [|split; [intros j0 _; apply Hr|exact (Hd a)]].
    unfold run_hash_job in Ha0. destruct (hj_phase j) as [|[|n] off ph e|n off ph e];
      unfold bind, lift, storage_at, storage_read, free_read_buffer, post_ioc, modify, ret in Ha0;
      outcome_inv; try done.
    + eapply grows_posted; try done. simpl. by rewrite <-app_assoc.
    + case_match; outcome_inv; by apply grows_same.
  - destruct (_ !! i) as [b|] eqn:Hb; [|by simplify_eq]. unfold free_read_buffer in Hex.
    outcome_inv.
    split; [done|]. unfold delivered. simpl. rewrite fmap_app, concat_app, !elem_of_app.
    intros [?|Hh]; [tauto|]. right. eapply elem_of_delete_other; [done..|]. congruence.
Qed.

(** As long as its handler keeps the buffer, a promise is kept. *)
Lemma read_promise_step idx r h a c l s s' :
  io_inv s → view_inv s → step l s s' → content_ok l s → calm idx r l →
  (∀ i, l = L_release i → held_ s !! i ≠ Some a) →
  read_promise idx r h a c s → read_promise idx r h a c s'.
Proof.
  intros Hinv Hv Hstep Hc Hcalm Hrel Hprom. pose proof Hprom as (Hs & d & Hd & Hlen & Hp).
  split; [by eapply calm_shows|]. pose proof (promise_owned _ _ _ _ _ _ _ Hp) as Hown.
  destruct (owners_apart _ Hinv) as (Hrh & Hrd & Hhd).
  destruct (decide (touched l s = Some a)) as [Ht|Ht].
  - destruct l; simpl in Ht; try done.
    + apply fmap_Some in Ht as (j & Hj & ->). destruct Hstep as [_ Hex].
      destruct (read_promise_job _ _ _ _ _ _ _ _ _ Hinv Hv Hprom Hj eq_refl Hex) as (l & ? & ? & ?).
      exists l. auto.
    + apply fmap_Some in Ht as (j & Hj%list_elem_of_lookup_2 & ->).
      apply (list_elem_of_fmap_2 wj_buf) in Hj. by destruct (owned_apart _ _ _ Hinv Hown Hj).
    + apply fmap_Some in Ht as (j & Hj%list_elem_of_lookup_2 & ->).
      destruct Hp as [(pos & n & Hj' & _)|[Ha _]]; [by destruct (Hrh _ _ Hj' Hj)|].
      by destruct (Hhd _ _ Hj Ha).
    + by destruct (Hrel i).
    + destruct Hstep as [Hdis _]. simplify_eq/=. rewrite elem_of_app in Hdis. tauto.
  - destruct (promise_kept _ _ _ _ Hinv Hstep Hown Ht) as [Hjobs Hdel].
    exists d. rewrite (heap_step l s s' a) by (eauto). split_and!; [done..|].
    destruct Hp as [(pos & n & Hj' & Hpos & Hn & Hmax & Hfill & Hmiss)|(Ha & Hans & Hh)];
      [left|right; split_and!; [auto|by eapply answers_kept|done]].
    exists pos, n. split_and!; try done; try lia; [by apply Hjobs|].
    intros i Hi. assert (covers idx r idx (r_piece r) i) as Hcov by (unfold covers; lia).
    eapply (calm_absent idx r l s); try done; [|by apply Hmiss]. by destruct (Hs i Hcov).
Qed.

(** Executions under the discipline of contents, with a condition on each step. *)
Inductive while (P : label → io → Prop) : io → list label → io → Prop :=
| while_nil s : while P s [] s
| while_snoc s ls s1 l s2 :
    while P s ls s1 → step l s1 s2 → content_ok l s1 → P l s1 → while P s (ls ++ [l]) s2.

Lemma while_inv P (Q : io → Prop) s ls s' :
  (∀ l s s', io_inv s → view_inv s → step l s s' → content_ok l s → P l s → Q s → Q s') →
  while P s ls s' → io_inv s → view_inv s → Q s → io_inv s' ∧ view_inv s' ∧ Q s'.
Proof.
  intros HQ. induction 1 as [|s ls s1 l s2 _ IH Hstep Hc HP]; [done|]. intros Hinv Hv Hq.
  destruct (IH Hinv Hv Hq) as (Hinv1 & Hv1 & Hq1).
  destruct (step_invs _ _ _ Hinv1 Hv1 Hstep Hc). eauto.
Qed.

Lemma while_run (P : label → io → Prop) ls s s' :
  run_content ls s = Some s' → (∀ l s, l ∈ ls → P l s) → while P s ls s'.
Proof.
  intros Hrun HP. enough (∀ ls1 s0, while P s0 ls1 s → while P s0 (ls1 ++ ls) s') as Hw
    by exact (Hw [] s (while_nil P s)).
  revert s Hrun HP. induction ls as [|l ls IH]; intros s Hrun HP ls1 s0 Hw.
  - injection Hrun as <-. by rewrite app_nil_r.
  - apply run_content_cons in Hrun as (s1 & Hstep & Hc & Hrun).
    rewrite (app_assoc ls1 [l] ls : ls1 ++ l :: ls = _). apply (IH s1 Hrun).
    + intros l' s2 Hl'. apply HP. by right.
    + econstructor; [done..|]. apply HP. by left.
Qed.

(** A call that is given a buffer makes the promise. *)
Lemma read_promise_call m idx r h s s' :
  io_inv s → view_inv s → step (L_async_read m idx r h) s s' →
  (∃ e, called_ s' = called_ s ++ [C_read h None e]) ∨
  ∃ a, heap_ s !! a = None ∧ fst <$> m = Some a ∧ read_promise idx r h a (view s idx (r_piece r)) s'.
Proof.
  intros Hinv Hv [Hd Hex]. pose proof (same_content_async_read _ _ _ _ _ _ Hinv Hd Hex) as Hsame.
  destruct (same_content_view _ _ Hinv Hv Hsame) as [_ Hview]. unfold exec in Hex.
  pose proof Hd as (_ & Hmax & _).
  destruct (async_read_cases s m idx r h Hinv Hd)
    as [(e & pool & E & _)|(a & pool & Hfresh & Hfrom & (st & Hst & Hr) & (d & pos & n & Hplan & Hout) & _)].
  { left. rewrite E in Hex. simplify_eq/=. by eexists. }
  right. exists a. do 2 (split; [done|]).
  assert (shows idx r (view s idx (r_piece r)) s') as Hshows.
  { intros i (_ & _ & Hi). split; [|by rewrite Hview]. exists st. rewrite (same_storages _ _ Hsame).
    split; [done|by eapply valid_range_byte]. }
  split; [done|]. exists d. destruct Hplan as [Hb Hlen Hfill Hmiss].
  assert (∀ i, covers idx r idx (r_piece r) i → ¬ (r_start r + pos ≤ i < r_start r + pos + n) →
    d !! Z.to_nat (i - r_start r) = view s idx (r_piece r) i) as Hfilled.
  { intros i (_ & _ & Hi) Hout'. destruct (Hfill (i - r_start r)) as [[b Hbuf] ->]; [lia|].
    replace (r_start r + (i - r_start r)) with i in * by lia. unfold view. by rewrite Hbuf. }
  destruct Hout as [[-> E]|[Hn E]]; rewrite E in Hex; simplify_eq/=; rewrite lookup_insert_eq;
    (split; [done|]); (split; [done|]).
  - right. split_and!; [..|intros i Hi; apply Hfilled; [done|lia]].
    + unfold delivered, deliver. simpl. rewrite !elem_of_app. right. right. by left.
    + simpl. rewrite !elem_of_app, list_elem_of_singleton. tauto.
  - left. exists pos, n. split_and!; try done; try lia.
    + apply elem_of_app. right. by left.
    + intros i Hi. specialize (Hmiss (i - r_start r)). simpl.
      replace (r_start r + (i - r_start r)) with i in Hmiss by lia. apply Hmiss. lia.
Qed.

(** The promise is kept when the buffer is handed over. *)
Lemma read_promise_kept idx r h a c s ls s' :
  io_inv s → view_inv s → read_promise idx r h a c s →
  while (λ l s, calm idx r l ∧ ∀ i, l = L_release i → held_ s !! i ≠ Some a) s ls s' →
  a ∈ delivered s' →
  C_read h (Some a) no_storage_error ∈ ioc_ s' ++ called_ s' ∧
  ∃ l, heap_ s' !! a = Some l ∧ ∀ i, covers idx r idx (r_piece r) i →
    l !! Z.to_nat (i - r_start r) = c i.
Proof.
  intros Hinv Hv Hprom Hwhile Hdel.
  destruct (while_inv _ (read_promise idx r h a c) _ _ _
    (λ l s s' Hi Hv' Hst Hc HP, read_promise_step idx r h a _ l s s' Hi Hv' Hst Hc (proj1 HP) (proj2 HP))
    Hwhile Hinv Hv Hprom) as (Hinv2 & _ & _ & l & Hl & _ & [(pos & n & Hj & _)|(_ & Hans & Hh)]).
  - by destruct (proj1 (proj2 (owners_apart _ Hinv2)) _ _ Hj Hdel).
  - split; [done|]. by exists l.
Qed.

(** ** Hashes *)

(** A hasher is fed in parts. *)
Class HasherLaws : Prop := {
  hasher_update_nil (ph : HS) : hasher_update ph [] = ph;
  hasher_update_app (ph : HS) bs1 bs2 :
    hasher_update (hasher_update ph bs1) bs2 = hasher_update ph (bs1 ++ bs2);
}.
Context `{HasherLaws}.

Definition digest_of (bs : list byte) : digest := hasher_final (hasher_update hasher_new bs).

(** The request for a whole piece. *)
Definition whole_piece (p : Z) (bs : list byte) : peer_request := mkReq p 0 (Z.of_nat (length bs)).

(** How far the loop is: [off] bytes are hashed, and the turns left are enough. *)
Definition hashed (bs : list byte) (n : nat) (off : Z) (ph : HS) (e : storage_error) : Prop :=
  e = no_storage_error ∧ ph = hasher_update hasher_new (take (Z.to_nat off) bs) ∧
  0 ≤ off ≤ Z.of_nat (length bs) ∧
  (off mod DEFAULT_BLOCK_SIZE = 0 ∨ off = Z.of_nat (length bs)) ∧
  Z.of_nat (length bs) ≤ off + Z.of_nat n * DEFAULT_BLOCK_SIZE.

Definition hash_progress (idx p : Z) (bs : list byte) (ph : hash_phase HS) (s : io) : Prop :=
  match ph with
  | H_posted => True
  | H_get n off ph e => hashed bs n off ph e
  | H_read n off ph e =>
      hashed bs (S n) off ph e ∧
      (off < Z.of_nat (length bs) → store_buffer_ s !! mkLoc idx p off = None)
  end.

Record hash_promise (idx p : Z) (h : handler) (a : ptr) (bs : list byte) (s : io) : Prop := {
  hp_storage : ∃ st, storages_ s !! idx = Some st ∧ 0 ≤ p < fs_num_pieces (fs_ st) ∧
    fs_piece_size (fs_ st) p = Z.of_nat (length bs);
  hp_shows : shows idx (whole_piece p bs) (λ i, bs !! Z.to_nat i) s;
  hp_state :
    (∃ ph, mkHashJob h idx p a ph ∈ hash_thread_pool_ s ∧ hash_progress idx p bs ph s) ∨
    C_hash h p (Some (digest_of bs)) no_storage_error ∈ ioc_ s ++ called_ s;
}.

Lemma blocks_enough size :
  0 ≤ size < 2 ^ 31 - DEFAULT_BLOCK_SIZE →
  ∀ n, blocks_of size = Ret n → size ≤ Z.of_nat n * DEFAULT_BLOCK_SIZE.
Proof.
  intros Hs n Hn. unfold blocks_of in Hn. rewrite block_size_value in *.
  apply obind_ret_inv in Hn as (a1 & [-> _]%int_ret_inv & Hn).
  apply obind_ret_inv in Hn as (a2 & [-> _]%int_ret_inv & Hn).
  apply obind_ret_inv in Hn as (a3 & [-> _]%int_ret_inv & Hn). injection Hn as <-.
  rewrite Z.quot_div_nonneg by lia.
  rewrite Z2Nat.id by (apply Z.div_pos; lia). pose proof (Z.mod_pos_bound (size + 16384 - 1) 16384).
  pose proof (Z.div_mod (size + 16384 - 1) 16384). lia.
Qed.

(** The next [len] bytes have been fed. *)
Lemma hashed_next bs n off ph e len chunk :
  hashed bs (S n) off ph e →
  len = Z.min DEFAULT_BLOCK_SIZE (Z.of_nat (length bs) - off) → chunk = slice (Z.to_nat off) (Z.to_nat len) bs →
  match next_block n off len (hasher_update ph chunk) e with
  | Ret (H_get n off ph e) => hashed bs n off ph e
  | Ret _ => False
  | Fault _ => True
  end.
Proof.
  intros (-> & -> & Hoff & Hal & Hn) Hlen ->. unfold next_block. rewrite hasher_update_app.
  assert (take (Z.to_nat off) bs ++ slice (Z.to_nat off) (Z.to_nat len) bs =
          take (Z.to_nat (off + len)) bs) as ->.
  { unfold slice. rewrite take_take_drop. f_equal. rewrite block_size_value in *. lia. }
  rewrite block_size_value in *. destruct (Z.leb_spec len 0).
  - assert (len = 0) as -> by lia. rewrite Z.add_0_r.
    unfold hashed. rewrite block_size_value. split_and!; try done; lia.
  - destruct (int (off + len)) as [off'|] eqn:Hw; [|done]. apply int_ret_inv in Hw as [-> _].
    cbn [obind]. unfold hashed. rewrite block_size_value. split_and!; try done; try lia.
    destruct (decide (len = 16384)) as [->|]; [|right; lia]. left.
    destruct Hal as [Hal|]; [|lia]. rewrite <-(Z_mod_plus_full off 1 16384) in Hal.
    by rewrite Z.mul_1_l in Hal.
Qed.

Section turn.
Context (idx p : Z) (h : handler) (a : ptr) (bs : list byte) (s : io) (st : partition_storage).
Hypothesis Hinv : io_inv s.
Hypothesis Hv : view_inv s.
Hypothesis Hst : storages_ s !! idx = Some st.
Hypothesis Hp : 0 ≤ p < fs_num_pieces (fs_ st).
Hypothesis Hsize : fs_piece_size (fs_ st) p = Z.of_nat (length bs).
Hypothesis Hshows : shows idx (whole_piece p bs) (λ i, bs !! Z.to_nat i) s.

(** The bytes of a turn, by position. *)
Lemma turn_bytes off len (chunk : list byte) :
  0 ≤ off → 0 ≤ len → off + len ≤ Z.of_nat (length bs) → length chunk = Z.to_nat len →
  (∀ i, off ≤ i < off + len → chunk !! Z.to_nat (i - off) = view s idx p i) →
  chunk = slice (Z.to_nat off) (Z.to_nat len) bs.
Proof.
  intros Hoff Hlen Hin Hcl Hbytes. apply list_eq. intros k. rewrite lookup_slice. case_decide as Hk.
  - specialize (Hbytes (off + Z.of_nat k)).
    replace (Z.to_nat (off + Z.of_nat k - off)) with k in Hbytes by lia. rewrite Hbytes by lia.
    destruct (Hshows (off + Z.of_nat k)) as [_ E]; [unfold covers, whole_piece; simpl; lia|].
    unfold whole_piece in E. simpl in E. rewrite E. f_equal. lia.
  - apply lookup_ge_None. lia.
Qed.

Lemma turn_block off len i :
  off mod DEFAULT_BLOCK_SIZE = 0 → len ≤ DEFAULT_BLOCK_SIZE → off ≤ i < off + len →
  block_of i = off ∧ i mod DEFAULT_BLOCK_SIZE = i - off.
Proof.
  intros Hal Hlen Hi. destruct (block_first off (i - off)) as [E1 E2]; [lia|lia|].
  rewrite (block_of_aligned off Hal) in E1. replace (off + (i - off)) with i in * by lia. lia.
Qed.

(** A block found in the store buffer. *)
Lemma turn_buffered off len b d :
  0 ≤ off → 0 ≤ len ≤ DEFAULT_BLOCK_SIZE → off + len ≤ Z.of_nat (length bs) →
  off mod DEFAULT_BLOCK_SIZE = 0 ∨ len = 0 →
  store_buffer_ s !! mkLoc idx p off = Some b → heap_ s !! b = Some d →
  Z.of_nat (length d) = DEFAULT_BLOCK_SIZE →
  slice (Z.to_nat 0) (Z.to_nat len) d = slice (Z.to_nat off) (Z.to_nat len) bs.
Proof.
  intros Hoff Hlen Hin Hal Hb Hd Hdl. apply turn_bytes; [lia..|rewrite length_slice; lia|].
  intros i Hi. destruct Hal as [Hal|]; [|lia].
  destruct (turn_block off len i) as [Hblk Hmod]; [done|lia|done|].
  rewrite lookup_slice, decide_True by lia. unfold view. rewrite (buffered_at _ _ _ _ b d);
    [|by rewrite Hblk|done]. rewrite Hmod. simpl.
  destruct (lookup_lt_is_Some_2 d (Z.to_nat (i - off))) as [x ->]; [lia|done].
Qed.

(** A block read from disk. *)
Lemma turn_disk off len d :
  0 ≤ off → 0 ≤ len ≤ DEFAULT_BLOCK_SIZE → off + len ≤ Z.of_nat (length bs) →
  off mod DEFAULT_BLOCK_SIZE = 0 ∨ len = 0 →
  (off < Z.of_nat (length bs) → store_buffer_ s !! mkLoc idx p off = None) →
  placed st d (kernel_ s) →
  on_disk st d p off len (kernel_ s) = slice (Z.to_nat off) (Z.to_nat len) bs.
Proof.
  intros Hoff Hlen Hin Hal Hnone Hpl. apply turn_bytes; [lia..|by rewrite length_on_disk|].
  intros i Hi. destruct Hal as [Hal|]; [|lia].
  destruct (turn_block off len i) as [Hblk _]; [done|lia|done|].
  rewrite lookup_on_disk by lia. unfold view, buffered. rewrite Hblk, Hnone by lia. simpl.
  rewrite (disk_byte_at s idx st d) by (done || apply Hpl).
  destruct (placed_inside _ _ _ Hpl p i) as [x Hx]; [unfold valid_range; lia|].
  replace (off + Z.of_nat (Z.to_nat (i - off))) with i by lia. by rewrite Hx.
Qed.

(** What a turn makes of the promise. *)
Definition turn_result (rest : option (hash_job HS)) (s' : io) : Prop :=
  match rest with
  | Some j => ∃ ph, j = mkHashJob h idx p a ph ∧ hash_progress idx p bs ph s'
  | None => C_hash h p (Some (digest_of bs)) no_storage_error ∈ ioc_ s' ++ called_ s'
  end.

Lemma piece_bound : Z.of_nat (length bs) < 2 ^ 31 - DEFAULT_BLOCK_SIZE.
Proof.
  pose proof (inv_files _ _ _ Hinv _ _ Hst) as Hf. pose proof (proj2 Hf p Hp). lia.
Qed.

(** The length of a turn. *)
Lemma turn_len off :
  0 ≤ off ≤ Z.of_nat (length bs) →
  ∃ len, block_len (piece_size st p) off = Ret len ∧
    len = Z.min DEFAULT_BLOCK_SIZE (Z.of_nat (length bs) - off) ∧
    0 ≤ len ≤ DEFAULT_BLOCK_SIZE ∧ off + len ≤ Z.of_nat (length bs).
Proof.
  intros Hoff. pose proof piece_bound. pose proof block_length as [HB1 HB2].
  unfold piece_size, block_len. rewrite Hsize, int_ret by (unfold is_i32; lia).
  eexists. split; [done|]. split_and!; lia.
Qed.

Lemma turn_posted rest s' :
  run_hash_job (mkHashJob h idx p a H_posted) s = Ret (rest, s') → turn_result rest s'.
Proof.
  pose proof piece_bound. unfold run_hash_job, bind, lift, storage_at, ret. simpl. rewrite Hst.
  cbn [of_option obind]. unfold piece_size. rewrite Hsize. intros Hrun.
  destruct (blocks_of (Z.of_nat (length bs))) as [n|] eqn:Hn; [|done].
  injection Hrun as <- <-. eexists. split; [done|]. simpl.
  pose proof (blocks_enough (Z.of_nat (length bs)) ltac:(lia) n Hn) as Hb.
  unfold hashed. rewrite take_0, hasher_update_nil. split_and!; try done; lia || (by left).
Qed.

Lemma turn_done off ph e rest s' :
  hashed bs 0 off ph e →
  run_hash_job (mkHashJob h idx p a (H_get 0 off ph e)) s = Ret (rest, s') → turn_result rest s'.
Proof.
  intros (-> & -> & Hoff & _ & Hn).
  unfold run_hash_job, bind, post_ioc, modify, free_read_buffer, ret. simpl. intros Hrun.
  outcome_inv. rewrite take_ge by lia. rewrite !elem_of_app, list_elem_of_singleton. tauto.
Qed.

Lemma turn_get n off ph e rest s' :
  hashed bs (S n) off ph e →
  run_hash_job (mkHashJob h idx p a (H_get (S n) off ph e)) s = Ret (rest, s') → turn_result rest s'.
Proof.
  intros Hh. pose proof Hh as (_ & _ & Hoff & Hal & _).
  destruct (turn_len off Hoff) as (len & E & Hlen & Hb & Hin).
  unfold run_hash_job, bind, lift, storage_at, ret, get. simpl. rewrite Hst. cbn [of_option obind].
  rewrite E. cbn [obind]. destruct (store_buffer_ s !! mkLoc idx p off) as [b|] eqn:Hsb.
  - destruct (store_live_inv _ _ _ Hinv _ _ Hsb) as (d & Hd & Hdl). unfold hash_from_buffer.
    rewrite (load_ret _ _ _ _ d) by (done || lia). cbn [obind]. intros Hrun.
    pose proof (hashed_next bs n off ph e len _ Hh Hlen
      (turn_buffered off len b d ltac:(lia) Hb Hin ltac:(lia) Hsb Hd Hdl)) as Hnext.
    destruct (next_block _ _ _ _ _) as [ph'|]; [|done]. injection Hrun as <- <-.
    eexists. split; [done|]. by destruct ph'.
  - cbn [obind]. intros Hrun. injection Hrun as <- <-. eexists. split; [done|]. by split.
Qed.

Lemma turn_read n off ph e l rest s' :
  heap_ s !! a = Some l → Z.of_nat (length l) = DEFAULT_BLOCK_SIZE → hashed bs (S n) off ph e →
  (off < Z.of_nat (length bs) → store_buffer_ s !! mkLoc idx p off = None) →
  run_hash_job (mkHashJob h idx p a (H_read n off ph e)) s = Ret (rest, s') → turn_result rest s'.
Proof.
  intros Hl Hll Hh Hnone. pose proof Hh as (He & _ & Hoff & Hal & _).
  destruct (turn_len off Hoff) as (len & E & Hlen & Hb & Hin).
  destruct (layout_placed s (view_layout s Hv) _ _ Hst) as [d Hpl].
  pose proof (turn_disk off len d ltac:(lia) Hb Hin ltac:(lia) Hnone Hpl) as Hdisk.
  pose proof (length_on_disk st d p off len (kernel_ s)) as Hod.
  unfold run_hash_job, bind, lift, storage_at, storage_read, ret. simpl. rewrite Hst.
  cbn [of_option obind]. rewrite E. cbn [obind].
  rewrite (read_spec st d (kernel_ s) a 0 p off len e (heap_ s) l);
    [|done|unfold valid_range; lia|done|lia|lia|pose proof block_length; lia]. cbn [obind].
  pose proof (hashed_next bs n off ph e len _ Hh Hlen Hdisk) as Hnext.
  destruct (Z.ltb_spec 0 len).
  - rewrite (load_ret _ _ _ _ (blit (Z.to_nat 0) (on_disk st d p off len (kernel_ s)) l));
      [|simpl; by rewrite lookup_insert_eq|lia|lia|rewrite length_blit; lia].
    replace (slice (Z.to_nat 0) (Z.to_nat len) (blit (Z.to_nat 0) (on_disk st d p off len (kernel_ s)) l))
      with (on_disk st d p off len (kernel_ s)).
    2: { rewrite <-Hod. symmetry. apply slice_blit_same. lia. }
    cbn [obind]. intros Hrun. destruct (next_block _ _ _ _ _) as [ph'|]; [|done].
    injection Hrun as <- <-. eexists. split; [done|]. by destruct ph'.
  - assert (len = 0) as Hz by lia. rewrite Hz in *.
    assert (hasher_update ph (on_disk st d p off 0 (kernel_ s)) = ph) as Hph
      by (rewrite <-(hasher_update_nil ph) at 2; f_equal; by apply nil_length_inv).
    rewrite Hph in Hnext. cbn [obind]. intros Hrun. destruct (next_block _ _ _ _ _) as [ph'|]; [|done].
    injection Hrun as <- <-. eexists. split; [done|]. by destruct ph'.
Qed.
End turn.

(** A hash job stays as it is until it is its turn. *)
Lemma hash_kept l s s' j :
  io_inv s → step l s s' → j ∈ hash_thread_pool_ s →
  (∀ i j', l = L_hash_job i → hash_thread_pool_ s !! i = Some j' → j' ≠ j) →
  j ∈ hash_thread_pool_ s'.
Proof.
  intros Hinv Hstep Hj Hne. destruct (takes l) eqn:Htk.
  2: { destruct (grows_step _ _ _ Hinv Hstep Htk) as [_ Hh _ _]. auto. }
  destruct Hstep as [_ Hex]. destruct l; try done; unfold exec in Hex.
  - destruct (_ !! i) as [j'|]; [|by simplify_eq].
    unfold run_read_job, bind, storage_at, storage_read, post_ioc, modify in Hex. by outcome_inv.
  - destruct (_ !! i) as [j'|] eqn:Hi; [|by simplify_eq]. outcome_inv.
    apply adds_run_hash_job in Ha as [Hq _]. rewrite Hq.
    pose proof (Hne i j' eq_refl Hi) as Hj'. destruct o as [j''|].
    + apply list_elem_of_lookup in Hj as [n Hn]. apply list_elem_of_lookup. exists n.
      rewrite list_lookup_insert_ne; [done|]. intros ->. congruence.
    + eapply elem_of_delete_other; [done..|congruence].
  - destruct (_ !! i) as [b|]; [|by simplify_eq]. unfold free_read_buffer in Hex. by outcome_inv.
Qed.

Lemma progress_kept idx p bs ph l s s' :
  io_inv s → step l s s' → content_ok l s → calm idx (whole_piece p bs) l →
  shows idx (whole_piece p bs) (λ i, bs !! Z.to_nat i) s →
  hash_progress idx p bs ph s → hash_progress idx p bs ph s'.
Proof.
  intros Hinv Hstep Hc Hcalm Hs. destruct ph as [| |n off ph e]; simpl; [done..|].
  intros [Hh Hnone]. split; [done|]. intros Hoff. destruct Hh as (_ & _ & Hpos & Hal & _).
  assert (block_of off = off) as Hb by (apply block_of_aligned; lia).
  assert (covers idx (whole_piece p bs) idx p off) as Hcov by (unfold covers, whole_piece; simpl; lia).
  destruct (Hs off Hcov) as [Hreq _]. rewrite <-Hb.
  apply (calm_absent idx (whole_piece p bs) l s s' off); simpl; rewrite ?Hb; auto.
Qed.

Lemma hash_job_unique s i j j' :
  io_inv s → hash_thread_pool_ s !! i = Some j' → j ∈ hash_thread_pool_ s → hj_buf j = hj_buf j' → j = j'.
Proof.
  intros Hinv Hi [n Hn]%list_elem_of_lookup Hbuf. pose proof (inv_owned _ _ _ Hinv) as Hnd.
  simpl in Hnd.
  apply NoDup_app in Hnd as (Hnd & _). unfold read_owned in Hnd.
  apply NoDup_app in Hnd as (_ & _ & Hnd). apply NoDup_app in Hnd as (Hnd & _).
  assert (n = i) as ->; [|congruence].
  eapply (NoDup_lookup _ _ _ (hj_buf j') Hnd); rewrite list_lookup_fmap, ?Hi, ?Hn; simpl; congruence.
Qed.

(** It is the job's turn, or another step's. *)
Lemma hash_whose_turn l s j :
  io_inv s → j ∈ hash_thread_pool_ s →
  (∃ i, l = L_hash_job i ∧ hash_thread_pool_ s !! i = Some j) ∨
  ∀ i j', l = L_hash_job i → hash_thread_pool_ s !! i = Some j' → j' ≠ j.
Proof.
  intros Hinv Hj. destruct l as [| | | | | | | |i| | |]; try (by right).
  destruct (hash_thread_pool_ s !! i) as [j'|] eqn:Hi; [|right; congruence].
  destruct (decide (hj_buf j = hj_buf j')) as [E|].
  - left. exists i. split; [done|]. rewrite Hi. f_equal. symmetry. by eapply hash_job_unique.
  - right. intros i' j'' [= <-] ? ->. congruence.
Qed.

(** Its turn. *)
Lemma hash_promise_turn idx p h a bs i ph s s' :
  io_inv s → view_inv s → hash_promise idx p h a bs s →
  hash_thread_pool_ s !! i = Some (mkHashJob h idx p a ph) → hash_progress idx p bs ph s →
  exec (L_hash_job i) s = Ret s' →
  (∃ ph, mkHashJob h idx p a ph ∈ hash_thread_pool_ s' ∧ hash_progress idx p bs ph s') ∨
  C_hash h p (Some (digest_of bs)) no_storage_error ∈ ioc_ s' ++ called_ s'.
Proof.
  intros Hinv Hv [(st & Hst & Hp & Hsize) Hs _] Hj Hprog Hex. unfold exec in Hex. rewrite Hj in Hex.
  pose proof (hash_job_owned _ _ _ Hj) as Hown.
  destruct (pool_inv_live _ _ _ a (inv_read_pool _ _ _ Hinv)) as (l & Hl & Hll); [exact Hown|].
  apply obind_ret_inv in Hex as ([rest s1] & Hrun & Hex). injection Hex as <-.
  assert (turn_result idx p h a bs rest s1) as Hres.
  { destruct ph as [|[|n] off ph e|n off ph e]; simpl in Hprog.
    - by eapply (turn_posted idx p h a bs s st).
    - by eapply turn_done.
    - by eapply (turn_get idx p h a bs s st).
    - destruct Hprog as [Hh Hnone]. by eapply (turn_read idx p h a bs s st). }
  apply adds_run_hash_job in Hrun as [Hq _]. destruct rest as [j|]; simpl in Hres; [left|by right].
  destruct Hres as (ph' & -> & Hprog'). exists ph'. split; [|done]. simpl. rewrite Hq.
  apply list_elem_of_lookup. exists i. apply list_lookup_insert_eq. by eapply lookup_lt_Some.
Qed.

Lemma hash_promise_step idx p h a bs l s s' :
  io_inv s → view_inv s → step l s s' → content_ok l s → calm idx (whole_piece p bs) l →
  hash_promise idx p h a bs s → hash_promise idx p h a bs s'.
Proof.
  intros Hinv Hv Hstep Hc Hcalm Hprom. pose proof Hprom as [(st & Hst & Hp & Hsize) Hs Hstate].
  split.
  - exists st. split; [by eapply calm_storage|done].
  - by eapply calm_shows.
  - destruct Hstate as [(ph & Hj & Hprog)|Hdone]; [|right; by eapply answers_kept].
    destruct (hash_whose_turn l s _ Hinv Hj) as [(i & -> & Hi)|Hother].
    + destruct Hstep. by eapply hash_promise_turn.
    + left. exists ph. split; [by eapply hash_kept|by eapply progress_kept].
Qed.

(** A call that is given a buffer makes the promise. *)
Lemma hash_promise_call m idx p h bs st s s' :
  io_inv s → view_inv s → step (L_async_hash m idx p h) s s' →
  storages_ s !! idx = Some st → fs_piece_size (fs_ st) p = Z.of_nat (length bs) →
  (∀ i, 0 ≤ i < Z.of_nat (length bs) → view s idx p i = bs !! Z.to_nat i) →
  C_hash h p None (mkErr None No_memory Alloc_cache_piece) ∈ ioc_ s' ++ called_ s' ∨
  ∃ a, hash_promise idx p h a bs s'.
Proof.
  intros Hinv Hv [Hd Hex] Hst Hsize Hview.
  pose proof (same_content_async_hash _ _ _ _ _ _ Hinv Hd Hex) as Hsame.
  destruct (same_content_view _ _ Hinv Hv Hsame) as [_ Hview']. destruct Hd as [_ (st' & ? & Hr)].
  assert (st' = st) as -> by congruence.
  unfold exec, async_hash, bind, allocate_read_buffer, allocate_buffer in Hex.
  destruct (allocate_buffer_impl m (heap_ s) (read_buffer_pool_ s)) as [[[a|] h'] pool];
    injection Hex as Hs'.
  - right. exists a. split.
    + exists st. rewrite (same_storages _ _ Hsame). unfold valid_range in Hr.
      split_and!; try done; lia.
    + intros i (_ & _ & Hi). simpl in Hi. split; [|rewrite Hview'; apply Hview; simpl in *; lia].
      exists st. rewrite (same_storages _ _ Hsame). split; [done|]. unfold valid_range in *. simpl.
      lia.
    + left. exists H_posted. split; [|done]. subst s'. simpl. apply elem_of_app. right. by left.
  - left. subst s'. simpl. rewrite !elem_of_app, list_elem_of_singleton. tauto.
Qed.
End reads.

(** C2: what the back end holds is what the calls amount to.  In every execution
    whose callers write whole blocks, one at a time per block, to torrents whose
    extents are apart, the contents of the torrents (the store buffer laid over
    the disk) are those that the calls produce in order: a new torrent shows its
    partition, a write replaces its range at once, and no pool thread, completion
    or other call changes anything. *)
Theorem contents_refine_calls {K HS digest} `{KernelLaws K} `{Hasher HS digest}
    (h : heap) (k : K) ls (s : disk_io K HS digest) c idx p i :
  tracked (new_raw_disk_io h k) (λ _ _ _, None) ls s c → request_ok s idx p i 1 →
  view s idx p i = c idx p i.
Proof. intros (_ & _ & Hview)%tracked_start Hr. by apply Hview. Qed.

(** C3: a read delivers the contents.  An accepted [async_read] is given a new
    buffer; in whatever order the steps come, as long as no call writes a byte of
    the request, the torrent stays and the handler keeps the buffer, once the
    buffer is handed over it holds the bytes that the request had when it was
    made, and the answer is without error. *)
Theorem read_delivers_contents {K HS digest} `{KernelLaws K} `{Hasher HS digest}
    (h : heap) (k : K) ls (s : disk_io K HS digest) c m idx r hd s1 :
  tracked (new_raw_disk_io h k) (λ _ _ _, None) ls s c → step (L_async_read m idx r hd) s s1 →
  (∃ e, called_ s1 = called_ s ++ [C_read hd None e]) ∨
  ∃ a, heap_ s !! a = None ∧ fst <$> m = Some a ∧ ∀ ls' s2,
    while (λ l s, calm idx r l ∧ ∀ i, l = L_release i → held_ s !! i ≠ Some a) s1 ls' s2 →
    a ∈ delivered s2 →
    C_read hd (Some a) no_storage_error ∈ ioc_ s2 ++ called_ s2 ∧
    ∃ l, heap_ s2 !! a = Some l ∧ ∀ i, covers idx r idx (r_piece r) i →
      l !! Z.to_nat (i - r_start r) = c idx (r_piece r) i.
Proof.
  intros (Hinv & Hv & Hview)%tracked_start Hstep.
  destruct (read_promise_call _ _ _ _ _ _ Hinv Hv Hstep) as [?|(a & Hfresh & Hfrom & Hprom)]; [by left|].
  right. exists a. do 2 (split; [done|]). intros ls' s2 Hwhile Hdel.
  destruct (step_invs _ _ _ Hinv Hv Hstep I) as [Hinv1 Hv1].
  destruct (read_promise_kept _ _ _ _ _ _ _ _ Hinv1 Hv1 Hprom Hwhile Hdel) as (Hans & l & Hl & Hh).
  split; [done|]. exists l. split; [done|]. intros i Hi. rewrite Hh by done. apply Hview.
  destruct Hprom as [Hs _]. destruct (Hs i Hi) as [(st & Hst & Hr) _]. exists st. split; [|done].
  by rewrite <-(storages_step _ _ _ Hinv Hstep eq_refl).
Qed.

(** C4: a hash is the digest of the contents.  After a call of [async_hash], in
    whatever order the steps come and block by block, as long as no call writes
    to the piece and the torrent stays, the answer is that there was no buffer, or
    still to come, or the digest of the whole piece as it was when the hash was
    asked for. *)
Theorem hash_digests_contents {K HS digest} `{KernelLaws K} `{Hasher HS digest} `{!HasherLaws}
    (h : heap) (k : K) ls (s : disk_io K HS digest) c m idx p hd s1 st bs ls' s2 :
  tracked (new_raw_disk_io h k) (λ _ _ _, None) ls s c → step (L_async_hash m idx p hd) s s1 →
  storages_ s !! idx = Some st → fs_piece_size (fs_ st) p = Z.of_nat (length bs) →
  (∀ i, 0 ≤ i < Z.of_nat (length bs) → c idx p i = bs !! Z.to_nat i) →
  while (λ l _, calm idx (whole_piece p bs) l) s1 ls' s2 →
  C_hash hd p None (mkErr None No_memory Alloc_cache_piece) ∈ ioc_ s2 ++ called_ s2 ∨
  (∃ a ph, mkHashJob hd idx p a ph ∈ hash_thread_pool_ s2) ∨
  C_hash hd p (Some (digest_of bs)) no_storage_error ∈ ioc_ s2 ++ called_ s2.
Proof.
  intros (Hinv & Hv & Hview)%tracked_start Hstep Hst Hsize Hc Hwhile.
  destruct (step_invs _ _ _ Hinv Hv Hstep I) as [Hinv1 Hv1].
  assert (∀ i, 0 ≤ i < Z.of_nat (length bs) → view s idx p i = bs !! Z.to_nat i) as Hbs.
  { intros i Hi. rewrite Hview; [by apply Hc|]. destruct Hstep as [[_ (st' & Hst' & Hr)] _].
    exists st'. split; [done|]. assert (st' = st) as -> by congruence. unfold valid_range in *.
    lia. }
  destruct (hash_promise_call m idx p hd bs st s s1) as [Herr|[a Hprom]]; [done..| |].
  - left. eapply (while_inv _ (λ s, C_hash hd p None (mkErr None No_memory Alloc_cache_piece) ∈
      ioc_ s ++ called_ s)) in Hwhile as (_ & _ & ?); [done| |done..].
    intros l s3 s4 Hi _ Hst3 _ _. by eapply answers_kept.
  - right. destruct (while_inv _ (hash_promise idx p hd a bs) _ _ _
      (λ l s s' Hi Hv' Hst Hc HP, hash_promise_step idx p hd a bs l s s' Hi Hv' Hst Hc HP)
      Hwhile Hinv1 Hv1 Hprom) as (_ & _ & [_ _ [(ph & Hj & _)|?]]); [left; eauto|by right].
Qed.

(** ** Witnesses *)

#[export] Instance list_hasher_laws : HasherLaws (HS := list byte) (digest := list byte).
Proof. split; [apply app_nil_r|intros; symmetry; apply app_assoc]. Qed.

(** Both blocks are written; the first has reached the disk. *)
Definition demo_half : list label :=
  tail demo_writes ++ [L_write_job 0; L_write_job 0].

Lemma contents_refine_calls_witness :
  ∃ c, tracked demo_start (λ _ _ _, None) (demo_new ++ demo_half) (demo_after demo_half) c ∧
       view (demo_after demo_half) 0 0 16385 = c 0 0 16385.
Proof.
  destruct (demo_after_tracked demo_half) as [c Hc]; [vm_compute; reflexivity|].
  exists c. split; [exact Hc|].
  apply (contents_refine_calls ∅ demo_partition _ _ c 0 0 16385 Hc).
  apply request_okb_ok. vm_compute. reflexivity.
Defined.

(** A read across the two blocks then finds one of them in the store buffer. *)
Definition demo_read : label := L_async_read (got 5) 0 (mkReq 0 16380 8) 9%nat.

Lemma demo_read_accepted (s s1 : demo_io) c :
  match exec demo_read s with Ret s => called_ s = [] | Fault _ => False end →
  step demo_read s s1 → called_ s1 ≠ called_ s ++ [c].
Proof. intros Hnone [_ Hex] E. rewrite Hex, E in Hnone. by destruct (called_ s). Qed.

Lemma demo_calm (a : ptr) l (s : demo_io) :
  l ∈ [L_read_job 0] → calm 0 (mkReq 0 16380 8) l ∧ ∀ i, l = L_release i → held_ s !! i ≠ Some a.
Proof. intros ->%list_elem_of_singleton. by split. Qed.

Lemma read_delivers_contents_witness :
  ∃ c l, heap_ (demo_after (demo_half ++ [demo_read; L_read_job 0])) !! 5%positive = Some l ∧
    ∀ i, 16380 ≤ i < 16388 → l !! Z.to_nat (i - 16380) = c 0 0 i.
Proof.
  destruct (demo_after_tracked demo_half) as [c Hc]; [vm_compute; reflexivity|].
  assert (run_content [demo_read; L_read_job 0] (demo_after demo_half) =
          Some (demo_after (demo_half ++ [demo_read; L_read_job 0]))) as Hrun
    by (apply demo_after_app; vm_compute; reflexivity).
  apply run_content_cons in Hrun as (s1 & Hstep & _ & Hrun).
  assert (match exec demo_read (demo_after demo_half) with
          | Ret s => called_ s = [] | Fault _ => False end) as Hnone by (vm_compute; reflexivity).
  destruct (read_delivers_contents ∅ demo_partition _ _ c _ 0 _ _ s1 Hc Hstep)
    as [[e He]|(a & _ & Ha & Hall)].
  - destruct (demo_read_accepted (demo_after demo_half) s1 (C_read 9%nat None e) Hnone Hstep He).
  - injection Ha as <-.
    destruct (Hall _ _ (while_run _ _ _ _ Hrun (demo_calm 5%positive))) as [_ (l & Hl & Hbytes)].
    + assert (delivered (demo_after (demo_half ++ [demo_read; L_read_job 0])) = [5%positive]) as ->
        by (vm_compute; reflexivity). by left.
    + exists c, l. split; [exact Hl|]. intros i Hi. apply Hbytes. unfold covers. simpl. lia.
Defined.

(** The hash of a torrent that nothing was written to: zeros, as on its partition. *)
Definition demo_hash : list label :=
  L_async_hash (got 6) 0 0 11%nat :: replicate 6 (L_hash_job 0).

Definition demo_piece : list byte := zeros (DEFAULT_BLOCK_SIZE + 4).

Lemma demo_piece_length : Z.of_nat (length demo_piece) = DEFAULT_BLOCK_SIZE + 4.
Proof. by apply length_zeros. Qed.

Lemma demo_new_storage :
  storages_ (demo_state demo_new) !! 0 = Some (mkStorage 3 demo_files) ∧
  kernel_ (demo_state demo_new) = snd (ram_open "/dev/sda1" demo_partition).
Proof. split; reflexivity. Qed.

Lemma demo_piece_shown i :
  0 ≤ i < Z.of_nat (length demo_piece) → demo_contents 0 0 i = demo_piece !! Z.to_nat i.
Proof.
  rewrite demo_piece_length. intros Hi. unfold demo_contents, content_after.
  destruct demo_new_storage as [Hst Hk].
  change (storages_ demo_start !! 0) with (@None partition_storage).
  rewrite (disk_byte_at _ _ (mkStorage 3 demo_files) "/dev/sda1") by (rewrite ?Hk; done).
  rewrite Hk. unfold address. simpl fs_.
  rewrite demo_address by (split; [|split; [|split]]; [done|lia|lia|];
    change (fs_piece_size demo_files 0) with (DEFAULT_BLOCK_SIZE + 4); lia).
  change (ram_byte "/dev/sda1" (i + 4) demo_partition = demo_piece !! Z.to_nat i).
  unfold ram_byte. rewrite (proj2 (Z.leb_le 0 (i + 4))) by lia.
  unfold demo_piece, zeros, demo_partition.
  cbn [ram_disks]. rewrite lookup_singleton_eq. cbn [mbind option_bind].
  unfold zeros. rewrite !lookup_replicate_2 by lia. done.
Qed.

Lemma demo_hash_calm l (s : demo_io) :
  l ∈ replicate 6 (L_hash_job 0) → calm 0 (whole_piece 0 demo_piece) l.
Proof. by intros [-> _]%elem_of_replicate. Qed.

Lemma no_hash_error (cs : list (completion (list byte))) h p e :
  forallb (λ c, match c with C_hash _ _ None _ => false | _ => true end) cs = true →
  ¬ C_hash h p None e ∈ cs.
Proof. rewrite forallb_forall. intros Hcs Hin. by apply list_elem_of_In, Hcs in Hin. Qed.

Lemma hash_digests_contents_witness :
  C_hash 11%nat 0 (Some demo_piece) no_storage_error ∈
    ioc_ (demo_after demo_hash) ++ called_ (demo_after demo_hash).
Proof.
  assert (run_content demo_hash (demo_state demo_new) = Some (demo_after demo_hash)) as Hrun
    by (apply (demo_after_app [] demo_hash); vm_compute; reflexivity).
  apply run_content_cons in Hrun as (s1 & Hstep & _ & Hrun).
  assert (hash_thread_pool_ (demo_after demo_hash) = []) as Hempty by (vm_compute; reflexivity).
  assert (forallb (λ c, match c with C_hash _ _ None _ => false | _ => true end)
            (ioc_ (demo_after demo_hash) ++ called_ (demo_after demo_hash)) = true) as Hnoerr
    by (vm_compute; reflexivity).
  destruct (hash_digests_contents ∅ demo_partition _ _ _ _ 0 0 _ s1 (mkStorage 3 demo_files)
              demo_piece (replicate 6 (L_hash_job 0)) (demo_after demo_hash) demo_new_tracked Hstep (proj1 demo_new_storage))
    as [Herr|[(a & ph & Hj)|Hdone]].
  - by rewrite demo_piece_length.
  - exact demo_piece_shown.
  - exact (while_run _ _ _ _ Hrun demo_hash_calm).
  - destruct (no_hash_error _ _ _ _ Hnoerr Herr).
  - rewrite Hempty in Hj. destruct (not_elem_of_nil _ Hj).
  - exact Hdone.
Defined.
