(* ===== verification/RawDiskIOShutdown.v ===== *)
(** * Taking the back end down

    The destructor of raw_disk_io joins its three pools, so it returns only when
    all their jobs are done.  It always gets there, and then everything written
    is on the partitions. *)

From S2P Require Import Prelude Memory BufferPool StoreBuffer Kernel PartitionStorage.
From S2P Require Import RawDiskIO RawDiskIOSteps RawDiskIODemo RawDiskIOSpec RawDiskIOInv.
From S2P Require Import RawDiskIOHandlers RawDiskIOView.

(** A step of a pool thread. *)
Definition pool_job (l : label) : bool :=
  match l with L_read_job _ | L_write_job _ | L_hash_job _ => true | _ => false end.

Section shutdown.
Context {K HS digest : Type} `{KernelLaws K} `{Hasher HS digest}.
Abbreviation io := (disk_io K HS digest).
Implicit Types s : io.

(** The joins block only while a pool thread has a job to take. *)
Lemma join_or_job s :
  is_Some (delete_raw_disk_io s) ∨ ∃ l, pool_job l = true ∧ enabled l s.
Proof.
  unfold delete_raw_disk_io.
  destruct (read_thread_pool_ s) eqn:E1; [|right; exists (L_read_job 0); simpl; rewrite E1; simpl; lia].
  destruct (write_thread_pool_ s) eqn:E2; [|right; exists (L_write_job 0); simpl; rewrite E2; simpl; lia].
  destruct (hash_thread_pool_ s) eqn:E3; [by left|right].
  exists (L_hash_job 0). simpl. rewrite E3. simpl. lia.
Qed.

Lemma close_all_bytes (sts : list partition_storage) (k : K) d a :
  k_byte d a (foldr delete_partition_storage k sts) = k_byte d a k.
Proof.
  induction sts as [|st sts IH]; simpl; [done|]. rewrite <-IH. unfold delete_partition_storage.
  pose proof (k_close_byte (fd_ st) (foldr delete_partition_storage k sts) d a) as Hc.
  by destruct (k_close _ _).
Qed.

(** With the pools empty, nothing is left in the store buffer. *)
Lemma joined_inv s k : delete_raw_disk_io s = Some k →
  write_thread_pool_ s = [] ∧
  k = foldr delete_partition_storage (kernel_ s) (map_to_list (storages_ s)).*2.
Proof.
  unfold delete_raw_disk_io.
  destruct (read_thread_pool_ s), (write_thread_pool_ s), (hash_thread_pool_ s); naive_solver.
Qed.

Lemma joined_view s idx p i : io_inv s → write_thread_pool_ s = [] →
  view s idx p i = disk_byte s idx p i.
Proof.
  intros Hinv Hnil. unfold view, buffered.
  destruct (store_buffer_ s !! _) as [a|] eqn:Ha; [|done].
  destruct (inv_store _ _ _ Hinv _ _ Ha) as (j & Hj & _). rewrite Hnil in Hj.
  by apply elem_of_nil in Hj.
Qed.

(** Runs without new_torrent and remove_torrent keep the storages. *)
Lemma run_content_storages ls s s' :
  io_inv s → run_content ls s = Some s' → Forall (λ l, moves_torrents l = false) ls →
  storages_ s' = storages_ s.
Proof.
  revert s. induction ls as [|l ls IH]; intros s Hinv Hrun Hls; [by simplify_eq/=|].
  apply run_content_cons in Hrun as (s1 & Hstep & _ & Hrun).
  apply Forall_cons in Hls as [Hl Hls]. rewrite <-(storages_step l s s1) by done.
  apply IH; [|done..]. destruct Hstep as [Hd Hex].
  destruct (step_safe l s Hinv Hd) as (s1' & ? & ?). congruence.
Qed.
End shutdown.

(** C21: the destructor returns.  From any reachable state, with no further call, the
    pool threads and the I/O context take at most [work s] steps, in whatever
    order; until the three joins can return, some pool thread has a step to take,
    and takes it without a fault. *)
Theorem destructor_returns {K HS digest} `{KernelLaws K} `{Hasher HS digest}
    (h : heap) (k : K) ls (s : disk_io K HS digest) ls' s' :
  execution (new_raw_disk_io h k) ls s → drain s ls' s' →
  (length ls' ≤ work s)%nat ∧
  (is_Some (delete_raw_disk_io s') ∨
   ∃ l s'', pool_job l = true ∧ enabled l s' ∧ exec l s' = Ret s'').
Proof.
  intros Hex Hdr. split; [pose proof (drain_length _ _ _ Hdr); lia|].
  destruct (join_or_job s') as [?|(l & Hl & Hen)]; [by left|right].
  destruct (step_safe l s') as (s'' & ? & _); [|by apply enabled_disciplined|by eauto].
  eapply drain_inv; [by eapply io_inv_execution|done].
Qed.

(** C6: nothing written is lost.  When the destructor has returned, every byte of
    every torrent is, on the device of its partition and at its address there,
    what the calls amount to: every accepted write has reached the device. *)
Theorem contents_on_disk_after_join {K HS digest} `{KernelLaws K} `{Hasher HS digest}
    (h : heap) (k : K) ls (s : disk_io K HS digest) c k' idx st p i :
  tracked (new_raw_disk_io h k) (λ _ _ _, None) ls s c → delete_raw_disk_io s = Some k' →
  storages_ s !! idx = Some st → valid_range (fs_ st) p i 1 →
  ∃ d, k_dev (fd_ st) (kernel_ s) = Some d ∧ k_byte d (address st p i) k' = c idx p i.
Proof.
  intros (Hinv & Hv & Hview)%tracked_start Hdel Hst Hr.
  destruct (joined_inv s k' Hdel) as [Hnil ->].
  destruct (layout_placed _ (view_layout _ Hv) _ _ Hst) as [d Hd].
  exists d. split; [apply Hd|]. rewrite close_all_bytes, <-Hview by by exists st.
  rewrite joined_view by done. unfold disk_byte. rewrite Hst. simpl.
  by rewrite (placed_dev _ _ _ Hd).
Qed.

(** ** Witnesses *)

Lemma destructor_returns_witness :
  is_Some (delete_raw_disk_io demo_drained) ∧ (8 ≤ work (demo_state demo_writes))%nat.
Proof.
  destruct (destructor_returns ∅ demo_partition demo_writes _ demo_drain demo_drained
              demo_writes_run demo_drain_run) as [Hlen [Hsome|(l & s'' & _ & Hen & _)]].
  - split; [exact Hsome|exact Hlen].
  - destruct (idle_not_enabled l demo_drained demo_drained_idle Hen).
Defined.

(** Both writes accepted and the jobs run to the end. *)
Definition demo_finished : list label :=
  tail demo_writes ++
  [L_write_job 1; L_write_job 0; L_write_job 0; L_write_job 1; L_write_job 1; L_write_job 0].

Lemma demo_finished_storage :
  storages_ (demo_after demo_finished) !! 0 = Some (mkStorage 3 demo_files).
Proof.
  rewrite (run_content_storages demo_finished (demo_state demo_new)); [done| |..].
  - by apply (tracked_start ∅ demo_partition demo_new _ demo_contents demo_new_tracked).
  - unfold demo_after.
    assert (runs_content demo_finished (demo_state demo_new) = true) as Hrun
      by (vm_compute; reflexivity).
    unfold runs_content in Hrun. by destruct (run_content _ _).
  - by repeat constructor.
Qed.

Lemma contents_on_disk_after_join_witness :
  ∃ c k', tracked demo_start (λ _ _ _, None) (demo_new ++ demo_finished)
            (demo_after demo_finished) c ∧
    k_byte "/dev/sda1" (16385 + 4) k' = c 0 0 16385.
Proof.
  destruct (demo_after_tracked demo_finished) as [c Hc]; [vm_compute; reflexivity|].
  destruct (delete_raw_disk_io (demo_after demo_finished)) as [k'|] eqn:Hdel;
    [|exfalso; vm_compute in Hdel; discriminate].
  exists c, k'. split; [exact Hc|].
  assert (valid_range demo_files 0 16385 1) as Hr by (refine (bool_decide_unpack _ _); vm_compute; exact I).
  destruct (contents_on_disk_after_join ∅ demo_partition _ _ c k' 0 _ 0 16385 Hc Hdel demo_finished_storage Hr)
    as (d & Hd & Hb).
  change (k_dev 3 (kernel_ (demo_after demo_finished)) = Some d) in Hd.
  assert (d = "/dev/sda1") as ->.
  { vm_compute in Hd. congruence. }
  unfold address in Hb. simpl fs_ in Hb. rewrite demo_address in Hb by done. exact Hb.
Defined.
