(* ===== verification/Deployment.v ===== *)
(** * Deploying an image

    What EZIO is for, from end to end: the torrent of a disk image is added on an
    empty back end, its blocks are written as peers deliver them, in any order and
    interleaved with reads and hashes, and the back end is taken down.  Then the
    partition holds the image, byte for byte, and nothing else of it changed. *)

From S2P Require Import Prelude Memory BufferPool StoreBuffer Stoll Kernel PartitionStorage.
From S2P Require Import Extents RawDiskIO RawDiskIOSteps RawDiskIODemo RawDiskIOSpec.
From S2P Require Import RawDiskIOInv RawDiskIOHandlers RawDiskIOView RawDiskIOReads.
From S2P Require Import RawDiskIOShutdown.

Section frame.
Context {K HS digest : Type} `{KernelLaws K} `{Hasher HS digest}.
Abbreviation io := (disk_io K HS digest).
Implicit Types s : io.

(** An address of a device that no torrent has a byte at. *)
Definition foreign (s : io) (d : string) (a : Z) : Prop :=
  ∀ idx st p i, storages_ s !! idx = Some st → valid_range (fs_ st) p i 1 →
    k_dev (fd_ st) (kernel_ s) = Some d → a ≠ address st p i.

Lemma write_foreign s idx st p off len buf l e k d a :
  layout s → storages_ s !! idx = Some st → valid_range (fs_ st) p off len →
  heap_ s !! buf = Some l → len ≤ Z.of_nat (length l) →
  write st buf p off len no_storage_error (kernel_ s) (heap_ s) = Ret (e, k) →
  (∀ fd, k_dev fd k = k_dev fd (kernel_ s)) ∧
  (foreign s d a → k_byte d a k = k_byte d a (kernel_ s)).
Proof.
  intros Hl Hst Hr Hbuf Hlen Hw. destruct (layout_placed s Hl _ _ Hst) as [d' Hp].
  destruct (write_spec st d' (kernel_ s) buf p off len no_storage_error (heap_ s) l)
    as (k' & Hw' & Hdev & _ & Hout); [done|by eapply layout_distinct|done..|].
  rewrite Hw' in Hw. simplify_eq. split; [done|]. intros Hf. apply Hout.
  destruct (decide (d = d')) as [->|]; [right|by left]. intros i Hi.
  apply (Hf idx st); [done|by eapply valid_range_byte|by apply (placed_dev _ _ _ Hp)].
Qed.

(** Steps that move no torrent keep the descriptors and the foreign bytes. *)
Lemma kernel_step l s s' d a :
  io_inv s → view_inv s → step l s s' → moves_torrents l = false →
  (∀ fd, k_dev fd (kernel_ s') = k_dev fd (kernel_ s)) ∧
  (foreign s d a → k_byte d a (kernel_ s') = k_byte d a (kernel_ s)).
Proof.
  intros Hinv Hv [Hd Hex] Hl. destruct (moves_content l) eqn:Hm.
  2: { pose proof (quiet_step _ _ _ Hinv Hd Hex Hm) as Hs. by rewrite (same_kernel _ _ Hs). }
  destruct l; try done; unfold exec in Hex.
  - destruct Hd as (Hmal & Hmax & (st & Hst & Hr) & data & Hbuf & Hdata).
    unfold async_write, boost_assert in Hex. destruct (r_length r <=? DEFAULT_BLOCK_SIZE); [|done].
    unfold bind, ret, allocate_write_buffer in Hex. cbn [obind] in Hex.
    destruct (allocate_buffer_observed _ _ _ _ _) as [[[[b|] ?] ?] ?] eqn:Halloc;
      pose proof (inv_allocate_write _ _ _ _ _ _ _ Hinv Hmal Halloc) as Ha;
      unfold with_heap, store_buffer_insert, post_write_job, storage_at, storage_write, post_ioc,
        modify in Hex; outcome_inv; [done|].
    destruct Ha as [-> _]. by eapply (write_foreign s); [apply Hv|..].
  - destruct (write_thread_pool_ s !! i) as [j|] eqn:Hj; [|by simplify_eq].
    pose proof (proj1 (Forall_lookup _ _) (inv_write_jobs _ _ _ Hinv) _ _ Hj)
      as [(st & Hst & Hr) Hmax].
    destruct (pool_inv_live _ _ _ (wj_buf j) (inv_write_pool _ _ _ Hinv)) as (b & Hb & Hlen).
    { apply list_elem_of_fmap_2. by eapply list_elem_of_lookup_2. }
    unfold run_write_job in Hex.
    destruct (wj_phase j); unfold bind, storage_at, storage_write, store_buffer_erase, post_ioc,
      modify, free_write_buffer, ret in Hex; outcome_inv; [|done..].
    eapply (write_foreign s); [apply Hv|done..|lia|done].
Qed.
End frame.

(** ** The run *)

(** Byte [i] of piece [p] is written by a call. *)
Definition delivers (l : label) (p i : Z) : Prop :=
  match l with
  | L_async_write _ _ r _ _ _ => p = r_piece r ∧ r_start r ≤ i < r_start r + r_length r
  | _ => False
  end.

(** A step of a deployment of [img] in pieces of [plen] bytes: torrents stay, and
    what is written are the bytes of the image. *)
Definition carries {K HS digest} (plen : Z) (img : list byte) (l : label)
    (s : disk_io K HS digest) : Prop :=
  match l with
  | L_new_torrent _ _ | L_remove_torrent _ => False
  | L_async_write _ _ r buf _ _ => ∀ data i,
      heap_ s !! buf = Some data → r_start r ≤ i < r_start r + r_length r →
      data !! Z.to_nat (i - r_start r) = img !! Z.to_nat (r_piece r * plen + i)
  | _ => True
  end.

Section deployment.
Context {K HS digest : Type} `{KernelLaws K} `{Hasher HS digest}.
Abbreviation io := (disk_io K HS digest).
Implicit Types s : io.
Context (w : nat) (size : Z) (es : list extent) (plen : Z) (files : file_storage).
Context (img : list byte) (d : string).
Hypothesis Hok : extents_ok w size es.
Hypothesis Hplen : 0 < plen < 2 ^ 31 - DEFAULT_BLOCK_SIZE.
Hypothesis Hfiles : image_torrent w es plen files.

Lemma image_files_ok : files_ok files.
Proof.
  split; [apply Hfiles|]. intros p Hp.
  pose proof (image_piece_size w es plen files ltac:(lia) Hfiles p Hp). lia.
Qed.

(** A byte of the image is at hand after the calls [ls]: one of them wrote it, or the
    partition, opened as [fd], held it from the start. *)
Definition at_hand (fd : Z) (k : K) (ls : list label) (p i : Z) : Prop :=
  k_byte d (address (mkStorage fd files) p i) k = img !! Z.to_nat (p * plen + i) ∨
  ∃ l, l ∈ ls ∧ delivers l p i.

(** What holds all along: one torrent, the image's, on device [d]; what is at hand
    shows, and the rest of all devices is as in [k]. *)
Record deploying (fd : Z) (k : K) (ls : list label) (s : io) : Prop := {
  dep_storages : storages_ s = {[0 := mkStorage fd files]};
  dep_dev : k_dev fd (kernel_ s) = Some d;
  dep_shown p i : valid_range files p i 1 → at_hand fd k ls p i →
    view s 0 p i = img !! Z.to_nat (p * plen + i);
  dep_rest d' a : d' ≠ d ∨ a ∉ disk_order es → k_byte d' a (kernel_ s) = k_byte d' a k;
}.

Lemma deploying_foreign fd k ls s d' a :
  deploying fd k ls s → d' ≠ d ∨ a ∉ disk_order es → foreign s d' a.
Proof.
  intros Hdep Hout idx st p i Hst Hr Hd' Ha. rewrite (dep_storages _ _ _ _ Hdep) in Hst.
  apply lookup_singleton_Some in Hst as [<- <-]. simpl in *.
  rewrite (dep_dev _ _ _ _ Hdep) in Hd'. destruct Hout as [?|Hout]; [congruence|].
  apply Hout. rewrite Ha. eapply list_elem_of_lookup_2.
  apply (image_address_order w size es plen files Hok ltac:(lia) Hfiles fd p i Hr).
Qed.

Lemma deploying_step fd k ls s l s' :
  io_inv s → view_inv s → step l s s' → content_ok l s → carries plen img l s →
  deploying fd k ls s → deploying fd k (ls ++ [l]) s'.
Proof.
  intros Hinv Hv Hstep Hc Hcar Hdep.
  assert (moves_torrents l = false) as Hl by by destruct l.
  pose proof (storages_step _ _ _ Hinv Hstep Hl) as Hsts.
  destruct (kernel_step l s s' d 0 Hinv Hv Hstep Hl) as [Hdev _].
  split.
  - by rewrite Hsts, (dep_storages _ _ _ _ Hdep).
  - by rewrite Hdev, (dep_dev _ _ _ _ Hdep).
  - intros p i Hr Hhand.
    assert (request_ok s 0 p i 1) as Hreq.
    { exists (mkStorage fd files).
      by rewrite (dep_storages _ _ _ _ Hdep), lookup_singleton_eq. }
    assert (request_ok s' 0 p i 1) as Hreq' by (unfold request_ok in *; by rewrite Hsts).
    destruct (view_step _ _ _ Hinv Hv Hstep Hc) as [_ ->]; [|done..].
    assert (¬ delivers l p i → view s 0 p i = img !! Z.to_nat (p * plen + i)) as Hold.
    { intros Hnot. apply (dep_shown _ _ _ _ Hdep); [done|]. destruct Hhand as [?|(l' & Hin & Hdel)]; [by left|].
      apply elem_of_snoc in Hin as [?| ->]; [right; eauto|done]. }
    destruct l; simpl in *; try done; try (apply Hold; intros []).
    destruct Hstep as [(_ & _ & (st & Hst & _) & data & Hbuf & _) _]. simpl in Hbuf.
    rewrite (dep_storages _ _ _ _ Hdep) in Hst. apply lookup_singleton_Some in Hst as [<- _].
    unfold write_content. rewrite Hbuf. simpl. case_decide as Hcov.
    + destruct Hcov as (_ & -> & Hi). by apply Hcar.
    + apply Hold. intros ?. by destruct Hcov.
  - intros d' a Hout. destruct (kernel_step l s s' d' a Hinv Hv Hstep Hl) as [_ ->].
    + by apply (dep_rest _ _ _ _ Hdep).
    + by eapply deploying_foreign.
Qed.

Lemma deploying_while fd k s1 ls s2 :
  while (carries plen img) s1 ls s2 → io_inv s1 → view_inv s1 → deploying fd k [] s1 →
  io_inv s2 ∧ view_inv s2 ∧ deploying fd k ls s2.
Proof.
  induction 1 as [|s1 ls s l s2 _ IH Hstep Hc Hcar]; [done|]. intros Hinv Hv Hdep.
  destruct (IH Hinv Hv Hdep) as (Hinv1 & Hv1 & Hdep1).
  destruct (step_invs _ _ _ Hinv1 Hv1 Hstep Hc). split_and!; [done..|]. by apply (deploying_step fd k ls s).
Qed.

(** The torrent is added to an empty back end. *)
Lemma deploying_start h k path :
  0 ≤ fst (k_open path k) → k_dev (fst (k_open path k)) (snd (k_open path k)) = Some d →
  (∀ a, 0 ≤ a < size → is_Some (k_byte d a k)) →
  ∃ s1 : io, exec (L_new_torrent path files) (new_raw_disk_io h k) = Ret s1 ∧
    io_inv s1 ∧ view_inv s1 ∧ deploying (fst (k_open path k)) k [] s1.
Proof.
  intros Hopen Hdev Hdisk. set (s0 := new_raw_disk_io (HS := HS) (digest := digest) h k).
  assert (disciplined (L_new_torrent path files) s0) as Hd
    by (split; [done|apply image_files_ok]).
  destruct (step_safe _ s0 (io_inv_new h k) Hd) as (s1 & Hex & _). exists s1. split; [done|].
  assert (content_ok (L_new_torrent path files) s0) as Hc.
  { intros st k' Hnew. destruct (new_partition_storage_inv _ _ _ _ _ Hnew) as (_ & Hfs & Hfd & ->).
    destruct st as [fd fs]. simpl in Hfs, Hfd. subst fs fd. split_and!.
    - exists d. apply (image_placed w size es plen files Hok ltac:(lia) Hfiles); [done|]. intros a Ha. rewrite k_open_byte. auto.
    - by apply (image_distinct w size es plen files Hok ltac:(lia) Hfiles).
    - intros idx' st' p i p' i' Hst'. simpl in Hst'. by rewrite lookup_empty in Hst'. }
  destruct (step_invs _ _ _ (io_inv_new h k) (view_inv_new h k) (step_intro _ _ _ Hd Hex) Hc)
    as [Hinv Hv]. split_and!; [done..|].
  destruct (new_torrent_safe s0 _ _ (io_inv_new h k) Hd) as (idx & st & k' & _ & Hnew & Hfs & E & _).
  assert (idx = 0) as ->.
  { unfold new_torrent in E. simpl in E. destruct (new_partition_storage _ _ k) as [[]|]; [|done].
    by injection E. }
  unfold exec in Hex. rewrite E in Hex. simpl in Hex. simplify_eq.
  destruct (new_partition_storage_inv _ _ _ _ _ Hnew) as (_ & _ & Hfd & ->).
  destruct st as [fd fs]. simpl in *. subst fs fd. split; simpl; [done|done| |].
  - intros p i _ [Hk|(l & Hin%elem_of_nil & _)]; [|done]. unfold view, buffered. simpl.
    rewrite lookup_empty. simpl.
    rewrite (disk_byte_at _ _ (mkStorage (fst (k_open path k)) files) d) by done.
    simpl. by rewrite k_open_byte.
  - intros. apply k_open_byte.
Qed.
End deployment.

(** C1: deploying an image.  The torrent of an image is added to a back end on a
    device that has room for it.  Whatever calls and steps of the threads follow,
    in any order, as long as the torrent stays and what is written are whole blocks
    of the image, one at a time per block: if every byte of the image has been
    delivered when the back end is taken down, then the device holds, at the
    address of each byte of the image, that byte, and every other byte of every
    device is what it was. *)
Theorem image_deployed {K HS digest} `{KernelLaws K} `{Hasher HS digest}
    (h : heap) (k : K) path d w size es plen files img :
  extents_ok w size es → 0 < plen < 2 ^ 31 - DEFAULT_BLOCK_SIZE → image_torrent w es plen files →
  0 ≤ fst (k_open path k) → k_dev (fst (k_open path k)) (snd (k_open path k)) = Some d →
  (∀ a, 0 ≤ a < size → is_Some (k_byte d a k)) →
  ∃ s1 : disk_io K HS digest,
    exec (L_new_torrent path files) (new_raw_disk_io h k) = Ret s1 ∧
    ∀ ls s2 k', while (carries plen img) s1 ls s2 →
      (∀ p i, valid_range files p i 1 → ∃ l, l ∈ ls ∧ delivers l p i) →
      delete_raw_disk_io s2 = Some k' →
      (∀ g a, disk_order es !! g = Some a → k_byte d a k' = img !! g) ∧
      (∀ d' a, d' ≠ d ∨ a ∉ disk_order es → k_byte d' a k' = k_byte d' a k).
Proof.
  intros Hok Hplen Hfiles Hopen Hdev Hdisk.
  destruct (deploying_start (HS := HS) (digest := digest) w size es plen files img d Hok Hplen Hfiles h k path)
    as (s1 & Hex & Hinv & Hv & Hdep); [done..|].
  exists s1. split; [done|]. intros ls s2 k' Hwhile Hall Hdel.
  destruct (deploying_while w size es plen files img d Hok Hplen Hfiles _ _ _ _ _ Hwhile Hinv Hv Hdep)
    as (Hinv2 & Hv2 & [Hsts Hd Hshown Hrest]).
  destruct (joined_inv s2 k' Hdel) as [Hnil ->]. split.
  - intros g a Hg. destruct (image_pieces w size es plen files Hok ltac:(lia) Hfiles g a Hg) as [Hr Hgi].
    destruct (Hall _ _ Hr) as (l & Hin & Hl). rewrite close_all_bytes.
    assert (view s2 0 (Z.of_nat g / plen) (Z.of_nat g mod plen) = img !! g) as Hv0
      by (rewrite <-Hgi at 3; apply Hshown; [done|right; eauto]).
    rewrite <-Hv0, joined_view by done.
    rewrite (disk_byte_at _ _ (mkStorage (fst (k_open path k)) files) d)
      by (rewrite ?Hsts; done).
    f_equal. pose proof (image_address_order w size es plen files Hok ltac:(lia) Hfiles (fst (k_open path k))
      _ _ Hr) as Ha. rewrite Hgi, Hg in Ha. by injection Ha.
  - intros d' a Hout. rewrite close_all_bytes. by apply Hrest.
Qed.

(** C17: serving an image.  The torrent of an image is added to a back end on a device
    that has room for it and may hold some of it already.  Whatever follows, as long
    as the torrent stays and what is written are whole blocks of the image, one at a
    time per block: a read of a range each byte of which was on the partition from
    the start or has been written is refused, or given a new buffer, and once that
    buffer is handed over, with no write to the range in between, it holds those
    bytes of the image and the answer is without error.  A seed that holds the whole
    image serves any range of it. *)
Theorem image_served {K HS digest} `{KernelLaws K} `{Hasher HS digest}
    (h : heap) (k : K) path d w size es plen files img :
  extents_ok w size es → 0 < plen < 2 ^ 31 - DEFAULT_BLOCK_SIZE → image_torrent w es plen files →
  0 ≤ fst (k_open path k) → k_dev (fst (k_open path k)) (snd (k_open path k)) = Some d →
  (∀ a, 0 ≤ a < size → is_Some (k_byte d a k)) →
  ∃ s1 : disk_io K HS digest,
    exec (L_new_torrent path files) (new_raw_disk_io h k) = Ret s1 ∧
    ∀ ls s m r hd s2, while (carries plen img) s1 ls s → step (L_async_read m 0 r hd) s s2 →
      (∀ i, r_start r ≤ i < r_start r + r_length r →
        (∃ a, disk_order es !! Z.to_nat (r_piece r * plen + i) = Some a ∧
              k_byte d a k = img !! Z.to_nat (r_piece r * plen + i)) ∨
        ∃ l, l ∈ ls ∧ delivers l (r_piece r) i) →
      (∃ e, called_ s2 = called_ s ++ [C_read hd None e]) ∨
      ∃ a, heap_ s !! a = None ∧ fst <$> m = Some a ∧ ∀ ls' s3,
        while (λ l s, calm 0 r l ∧ ∀ i, l = L_release i → held_ s !! i ≠ Some a) s2 ls' s3 →
        a ∈ delivered s3 →
        C_read hd (Some a) no_storage_error ∈ ioc_ s3 ++ called_ s3 ∧
        ∃ l, heap_ s3 !! a = Some l ∧ ∀ i, r_start r ≤ i < r_start r + r_length r →
          l !! Z.to_nat (i - r_start r) = img !! Z.to_nat (r_piece r * plen + i).
Proof.
  intros Hok Hplen Hfiles Hopen Hdev Hdisk.
  destruct (deploying_start (HS := HS) (digest := digest) w size es plen files img d Hok Hplen Hfiles
    h k path) as (s1 & Hex & Hinv & Hv & Hdep); [done..|].
  exists s1. split; [done|]. intros ls s m r hd s2 Hwhile Hstep Hhand.
  destruct (deploying_while w size es plen files img d Hok Hplen Hfiles _ _ _ _ _ Hwhile Hinv Hv Hdep)
    as (Hinv2 & Hv2 & Hdep2).
  destruct (read_promise_call _ _ _ _ _ _ Hinv2 Hv2 Hstep) as [?|(a & Hfresh & Hm & Hprom)]; [by left|].
  right. exists a. do 2 (split; [done|]). intros ls' s3 Hcalm Hdel.
  destruct (step_invs _ _ _ Hinv2 Hv2 Hstep I) as [Hinv3 Hv3].
  destruct (read_promise_kept _ _ _ _ _ _ _ _ Hinv3 Hv3 Hprom Hcalm Hdel) as (Hans & l & Hl & Hh).
  split; [done|]. exists l. split; [done|]. intros i Hi. rewrite Hh by done.
  destruct Hprom as [Hs _]. destruct (Hs i ltac:(done)) as [(st & Hst & Hr) _].
  rewrite (storages_step _ _ _ Hinv2 Hstep eq_refl), (dep_storages _ _ _ _ _ _ _ _ _ Hdep2) in Hst.
  apply lookup_singleton_Some in Hst as [_ <-]. simpl in Hr.
  apply (dep_shown _ _ _ _ _ _ _ _ _ Hdep2); [done|].
  destruct (Hhand i Hi) as [(x & Hx & Hk)|?]; [left|by right].
  rewrite (image_address_order w size es plen files Hok ltac:(lia) Hfiles (fst (k_open path k)) _ _ Hr)
    in Hx. by injection Hx as ->.
Qed.

(** ** Witness *)

Section checked_run.
Context {K HS digest : Type} `{KernelLaws K} `{Hasher HS digest}.
Context (P : label → disk_io K HS digest → Prop) (Pb : label → disk_io K HS digest → bool).
Hypothesis HPb : ∀ l s, Pb l s = true → P l s.

(** A run that checks the condition of each step. *)
Fixpoint run_while (ls : list label) (s : disk_io K HS digest) : option (disk_io K HS digest) :=
  match ls with
  | [] => Some s
  | l :: ls =>
      if Pb l s then s ← run_content [l] s; run_while ls s else None
  end.

Lemma run_while_ok ls s s' : run_while ls s = Some s' → while P s ls s'.
Proof.
  enough (∀ ls1 s0, while P s0 ls1 s → run_while ls s = Some s' → while P s0 (ls1 ++ ls) s') as Hw
    by exact (Hw [] s (while_nil P s)).
  revert s. induction ls as [|l ls IH]; intros s ls1 s0 Hw Hrun.
  - injection Hrun as <-. by rewrite app_nil_r.
  - cbn [run_while] in Hrun. destruct (Pb l s) eqn:HP; [|done].
    apply bind_Some in Hrun as (s1 & H1' & Hrun).
    apply run_content_cons in H1' as (s1' & Hstep & Hc & E). injection E as ->.
    rewrite (app_assoc ls1 [l] ls : ls1 ++ l :: ls = _). apply (IH s1); [|done].
    econstructor; [done..|by apply HPb].
Qed.
End checked_run.

Definition carriesb {K HS digest} (plen : Z) (img : list byte) (l : label)
    (s : disk_io K HS digest) : bool :=
  match l with
  | L_new_torrent _ _ | L_remove_torrent _ => false
  | L_async_write _ _ r buf _ _ =>
      bool_decide (0 ≤ r_start r) && bool_decide (0 ≤ r_piece r * plen) &&
      bool_decide (slice 0 (Z.to_nat (r_length r)) (default [] (heap_ s !! buf)) =
                   slice (Z.to_nat (r_piece r * plen + r_start r)) (Z.to_nat (r_length r)) img)
  | _ => true
  end.

Lemma carriesb_ok {K HS digest} plen img l (s : disk_io K HS digest) :
  carriesb plen img l s = true → carries plen img l s.
Proof.
  destruct l; try done. cbn [carriesb carries].
  rewrite !andb_true_iff, !bool_decide_eq_true. intros [[Hs Hp] E] data i Hbuf Hi.
  rewrite Hbuf in E. apply (f_equal (lookup (Z.to_nat (i - r_start r)))) in E.
  cbn [default from_option id] in E. rewrite !lookup_slice, !decide_True in E by lia.
  replace (Z.to_nat (r_piece r * plen + i))
    with (Z.to_nat (r_piece r * plen + r_start r) + Z.to_nat (i - r_start r))%nat by lia.
  done.
Qed.

(** An image of 16388 bytes in two runs of a partition of 16392. *)
Definition demo_extents : list extent := [(4, DEFAULT_BLOCK_SIZE); (16388, 4)].
Definition demo_image : list byte := replicate (Z.to_nat (DEFAULT_BLOCK_SIZE + 4)) x01.

Lemma demo_extents_ok : extents_ok 16 16392 demo_extents.
Proof.
  split; [split; [lia|done]|done|repeat constructor; simpl; unfold DEFAULT_BLOCK_SIZE; lia|].
  unfold disk_order, demo_extents. cbn [fmap list_fmap concat fst snd]. rewrite app_nil_r.
  apply NoDup_app. split_and!; [apply NoDup_seqZ| |apply NoDup_seqZ].
  intros a Ha%elem_of_seqZ Hb%elem_of_seqZ. unfold DEFAULT_BLOCK_SIZE in *. lia.
Qed.

Definition demo_image_files : file_storage :=
  image_files 16 demo_extents (DEFAULT_BLOCK_SIZE + 4).

Definition demo_added : demo_io :=
  match exec (L_new_torrent "/dev/sda1" demo_image_files) demo_start with
  | Ret s => s
  | Fault _ => demo_start
  end.

Definition demo_deployed : demo_io :=
  default demo_start
    (run_while (carriesb (DEFAULT_BLOCK_SIZE + 4) demo_image) demo_finished demo_added).

Lemma demo_deployed_run :
  while (carries (DEFAULT_BLOCK_SIZE + 4) demo_image) demo_added demo_finished demo_deployed.
Proof.
  apply (run_while_ok _ _ (carriesb_ok _ _)). unfold demo_deployed.
  assert (match run_while (carriesb (DEFAULT_BLOCK_SIZE + 4) demo_image) demo_finished demo_added
          with Some _ => true | None => false end = true) as E by (vm_compute; reflexivity).
  by destruct (run_while _ _ _).
Qed.

Lemma demo_delivered p i :
  valid_range demo_image_files p i 1 → ∃ l, l ∈ demo_finished ∧ delivers l p i.
Proof.
  intros ([Hp0 Hp1] & Hi0 & _ & Hi1). change (fs_num_pieces demo_image_files) with 1 in Hp1.
  assert (p = 0) as -> by lia. change (fs_piece_size demo_image_files 0) with 16388 in Hi1.
  destruct (decide (i < DEFAULT_BLOCK_SIZE)).
  - exists (L_async_write (got 2) 0 (mkReq 0 0 DEFAULT_BLOCK_SIZE) 1%positive None 7%nat).
    split; [unfold demo_finished, demo_writes; simpl; set_solver|simpl; lia].
  - exists (L_async_write (got 3) 0 (mkReq 0 DEFAULT_BLOCK_SIZE 4) 1%positive None 8%nat).
    split; [unfold demo_finished, demo_writes; simpl; set_solver|simpl].
    unfold DEFAULT_BLOCK_SIZE in *. lia.
Qed.

Lemma demo_partition_bytes a : 0 ≤ a < 16392 → is_Some (k_byte "/dev/sda1" a demo_partition).
Proof.
  intros Ha. simpl. unfold ram_byte. rewrite (proj2 (Z.leb_le 0 a)) by lia.
  unfold demo_partition. cbn [ram_disks]. rewrite lookup_singleton_eq. cbn [mbind option_bind].
  apply lookup_lt_is_Some_2. pose proof (length_zeros (DEFAULT_BLOCK_SIZE + 8)) as Hz.
  unfold DEFAULT_BLOCK_SIZE in *. lia.
Qed.

Lemma image_deployed_witness :
  ∃ k', delete_raw_disk_io demo_deployed = Some k' ∧
    (∀ g a, disk_order demo_extents !! g = Some a → k_byte "/dev/sda1" a k' = demo_image !! g) ∧
    k_byte "/dev/sda1" 3 k' = Some x00.
Proof.
  destruct (image_deployed (HS := list byte) (digest := list byte) ∅ demo_partition "/dev/sda1"
    "/dev/sda1" 16 16392 demo_extents (DEFAULT_BLOCK_SIZE + 4) demo_image_files demo_image demo_extents_ok)
    as (s1 & Hex & Hall).
  - unfold DEFAULT_BLOCK_SIZE. lia.
  - apply image_files_torrent. unfold DEFAULT_BLOCK_SIZE. lia.
  - vm_compute. discriminate.
  - reflexivity.
  - apply demo_partition_bytes.
  - destruct (delete_raw_disk_io demo_deployed) as [k'|] eqn:Hdel;
      [|exfalso; vm_compute in Hdel; discriminate].
    assert (s1 = demo_added) as ->.
    { unfold demo_added. change (new_raw_disk_io ∅ demo_partition) with demo_start in Hex.
      fold demo_image_files in Hex. by rewrite Hex. }
    destruct (Hall demo_finished demo_deployed k' demo_deployed_run demo_delivered Hdel) as [Hin Hout].
    exists k'. split; [done|]. split; [done|]. rewrite Hout; [vm_compute; reflexivity|].
    right. unfold disk_order, demo_extents. cbn [fmap list_fmap concat fst snd].
    rewrite !elem_of_app, !elem_of_seqZ. intros [?|[?|Hn%elem_of_nil]]; [lia|lia|done].
Defined.

(** The same partition, but the last four bytes of the image are the zeros it holds:
    only the first block is written, and a read across both finds it. *)
Definition half_image : list byte := demo_data ++ zeros 4.

Definition half_written : list label :=
  [L_client_memory 1%positive demo_data;
   L_async_write (got 2) 0 (mkReq 0 0 DEFAULT_BLOCK_SIZE) 1%positive None 7%nat].

Definition half_deployed : demo_io :=
  default demo_start
    (run_while (carriesb (DEFAULT_BLOCK_SIZE + 4) half_image) half_written demo_added).

Lemma half_deployed_run :
  while (carries (DEFAULT_BLOCK_SIZE + 4) half_image) demo_added half_written half_deployed.
Proof.
  apply (run_while_ok _ _ (carriesb_ok _ _)). unfold half_deployed.
  assert (match run_while (carriesb (DEFAULT_BLOCK_SIZE + 4) half_image) half_written demo_added
          with Some _ => true | None => false end = true) as E by (vm_compute; reflexivity).
  by destruct (run_while _ _ _).
Qed.

Lemma half_at_hand i :
  16380 ≤ i < 16388 →
  (∃ a, disk_order demo_extents !! Z.to_nat (0 * (DEFAULT_BLOCK_SIZE + 4) + i) = Some a ∧
        k_byte "/dev/sda1" a demo_partition =
          half_image !! Z.to_nat (0 * (DEFAULT_BLOCK_SIZE + 4) + i)) ∨
  ∃ l, l ∈ half_written ∧ delivers l 0 i.
Proof.
  intros Hi. destruct (decide (i < DEFAULT_BLOCK_SIZE)) as [|Hge].
  - right. exists (L_async_write (got 2) 0 (mkReq 0 0 DEFAULT_BLOCK_SIZE) 1%positive None 7%nat).
    split; [unfold half_written; rewrite !elem_of_cons; auto|simpl; lia].
  - left. exists (i + 4). rewrite Z.mul_0_l, Z.add_0_l. unfold DEFAULT_BLOCK_SIZE in Hge. split.
    + unfold demo_extents, DEFAULT_BLOCK_SIZE. rewrite !disk_order_cons. cbn [fst snd].
      rewrite lookup_app_r by (rewrite length_seqZ; lia). rewrite length_seqZ.
      rewrite lookup_app_l by (rewrite length_seqZ; lia). rewrite lookup_seqZ_lt by lia.
      f_equal. lia.
    + simpl. unfold ram_byte. rewrite (proj2 (Z.leb_le 0 (i + 4))) by lia.
      unfold demo_partition. cbn [ram_disks]. rewrite lookup_singleton_eq. cbn [mbind option_bind].
      unfold half_image, demo_data, zeros, DEFAULT_BLOCK_SIZE.
      rewrite lookup_app_r by (rewrite length_replicate; lia). rewrite length_replicate.
      rewrite !lookup_replicate_2 by lia. done.
Qed.

Lemma image_served_witness :
  ∃ s l, heap_ (s : demo_io) !! 5%positive = Some l ∧
    ∀ i, 16380 ≤ i < 16388 → l !! Z.to_nat (i - 16380) = half_image !! Z.to_nat (0 * 16388 + i).
Proof.
  destruct (image_served (HS := list byte) (digest := list byte) ∅ demo_partition "/dev/sda1"
    "/dev/sda1" 16 16392 demo_extents (DEFAULT_BLOCK_SIZE + 4) demo_image_files half_image
    demo_extents_ok) as (s1 & Hex & Hall).
  - unfold DEFAULT_BLOCK_SIZE. lia.
  - apply image_files_torrent. unfold DEFAULT_BLOCK_SIZE. lia.
  - vm_compute. discriminate.
  - reflexivity.
  - apply demo_partition_bytes.
  - assert (s1 = demo_added) as ->.
    { unfold demo_added. change (new_raw_disk_io ∅ demo_partition) with demo_start in Hex.
      fold demo_image_files in Hex. by rewrite Hex. }
    destruct (run_content [demo_read; L_read_job 0] half_deployed) as [s3|] eqn:Hrun;
      [|exfalso; vm_compute in Hrun; discriminate].
    assert (match run_content [demo_read; L_read_job 0] half_deployed with
            | Some s => delivered s | None => [] end = [5%positive]) as Hdel
      by (vm_compute; reflexivity).
    rewrite Hrun in Hdel.
    assert (match exec demo_read half_deployed with
            | Ret s => called_ s = [] | Fault _ => False end) as Hnone by (vm_compute; reflexivity).
    apply run_content_cons in Hrun as (s2 & Hstep & _ & Hrun).
    destruct (Hall _ _ _ _ _ s2 half_deployed_run Hstep half_at_hand)
      as [[e He]|(a & _ & Ha & Hread)].
    + destruct (demo_read_accepted half_deployed s2 (C_read 9%nat None e) Hnone Hstep He).
    + injection Ha as <-.
      destruct (Hread _ _ (while_run _ _ _ _ Hrun (demo_calm 5%positive))) as (_ & l & Hl & Hbytes).
      * rewrite Hdel. by left.
      * exists s3, l. split; [exact Hl|exact Hbytes].
Defined.
