(* ===== verification/RawDiskIOSchedules.v ===== *)
(** * Schedules do not matter

    The pool threads may take the posted jobs in any order, eight at a time and
    step by step.  Whatever order they take, when they are done the devices hold
    the same bytes and the same handlers have been called. *)

From S2P Require Import Prelude Memory BufferPool StoreBuffer Kernel PartitionStorage.
From S2P Require Import RawDiskIO RawDiskIOSteps RawDiskIODemo RawDiskIOSpec RawDiskIOInv.
From S2P Require Import RawDiskIOHandlers RawDiskIOObservers RawDiskIOView RawDiskIOReads.
From S2P Require Import RawDiskIOShutdown Deployment.

Section schedules.
Context {K HS digest : Type} `{KernelLaws K} `{Hasher HS digest}.
Abbreviation io := (disk_io K HS digest).
Implicit Types s : io.

(** What a drain leaves alone: torrents, contents and foreign bytes. *)
Record drained_from (s s' : io) : Prop := {
  dr_inv : io_inv s';
  dr_view_inv : view_inv s';
  dr_storages : storages_ s' = storages_ s;
  dr_dev fd : k_dev fd (kernel_ s') = k_dev fd (kernel_ s);
  dr_view idx p i : request_ok s idx p i 1 → view s' idx p i = view s idx p i;
  dr_foreign d a : foreign s d a → k_byte d a (kernel_ s') = k_byte d a (kernel_ s);
}.

Lemma foreign_same s s' d a :
  storages_ s' = storages_ s → (∀ fd, k_dev fd (kernel_ s') = k_dev fd (kernel_ s)) →
  foreign s d a → foreign s' d a.
Proof.
  intros E1 E2 Hf idx st p i Hst Hr Hd. rewrite E1 in Hst. rewrite E2 in Hd. by eapply Hf.
Qed.

Lemma drain_from s ls s' : drain s ls s' → io_inv s → view_inv s → drained_from s s'.
Proof.
  induction 1 as [s|s l s1 ls s2 Hen Hex _ IH]; intros Hinv Hv; [by split|].
  assert (step l s s1) as Hstep by (split; [by apply enabled_disciplined|done]).
  assert (content_ok l s ∧ moves_torrents l = false) as [Hc Hl] by by destruct l.
  destruct (step_invs _ _ _ Hinv Hv Hstep Hc) as [Hinv1 Hv1].
  pose proof (storages_step _ _ _ Hinv Hstep Hl) as Hsts.
  assert (∀ fd, k_dev fd (kernel_ s1) = k_dev fd (kernel_ s)) as Hdev
    by apply (kernel_step l s s1 "" 0 Hinv Hv Hstep Hl).
  destruct (IH Hinv1 Hv1) as [I V S D W F]. split; [done|done|congruence|congruence|..].
  - intros idx p i Hr. assert (request_ok s1 idx p i 1) as Hr1 by (unfold request_ok; by rewrite Hsts).
    rewrite W by done. destruct (view_step _ _ _ Hinv Hv Hstep Hc) as [_ ->]; [|done..].
    by destruct l.
  - intros d a Hf. rewrite F by (by eapply foreign_same).
    by apply (kernel_step l s s1 d a Hinv Hv Hstep Hl).
Qed.

(** Done: nothing is buffered, so the contents are on the devices. *)
Lemma idle_disk s s' idx p i :
  drained_from s s' → (∀ l, ¬ enabled l s') → request_ok s idx p i 1 →
  disk_byte s' idx p i = view s idx p i.
Proof.
  intros Hdr Hidle Hr. rewrite <-(dr_view _ _ Hdr) by done. symmetry.
  apply joined_view; [apply Hdr|by apply idle_queues].
Qed.

(** Two ends of the work of one state hold the same bytes. *)
Lemma same_devices s s1 s2 d a :
  drained_from s s1 → drained_from s s2 → view_inv s →
  (∀ l, ¬ enabled l s1) → (∀ l, ¬ enabled l s2) →
  k_byte d a (kernel_ s1) = k_byte d a (kernel_ s2).
Proof.
  intros H1' H2' Hv Hid1 Hid2. apply dec_stable. intros Hne. apply Hne.
  assert (foreign s d a) as Hf; [|by rewrite (dr_foreign _ _ H1'), (dr_foreign _ _ H2')].
  intros idx st p i Hst Hr Hd ->. apply Hne.
  assert (request_ok s idx p i 1) as Hreq by by exists st.
  rewrite <-(disk_byte_at s1 idx st d p i), <-(disk_byte_at s2 idx st d p i);
    [by rewrite !(idle_disk s)|by rewrite (dr_storages _ _ H2')|by rewrite (dr_dev _ _ H2')|
     by rewrite (dr_storages _ _ H1')|by rewrite (dr_dev _ _ H1')].
Qed.

Lemma idle_store s : io_inv s → (∀ l, ¬ enabled l s) → store_buffer_ s = ∅.
Proof.
  intros Hinv [Hw _]%idle_queues. apply map_empty. intros loc. apply no_entry; [done|].
  rewrite Hw. apply not_elem_of_nil.
Qed.

Lemma idle_answered s : (∀ l, ¬ enabled l s) → answered s = tickets s.
Proof.
  intros Hno. destruct (enabled_or_idle s) as [[l Hl]|(E1 & E2 & E3 & E4)]; [by destruct (Hno l)|].
  unfold tickets, outstanding. by rewrite E1, E2, E3, E4, app_nil_r.
Qed.
End schedules.

(** C13: schedules are equivalent.  Two runs that do all the posted work of a state,
    in whatever orders the threads take it, end with the same bytes on every
    device, the same torrents, nothing left in the store buffer, and the same
    handlers called. *)
Theorem schedules_agree {K HS digest} `{KernelLaws K} `{Hasher HS digest}
    (h : heap) (k : K) ls (s : disk_io K HS digest) c ls1 s1 ls2 s2 :
  tracked (new_raw_disk_io h k) (λ _ _ _, None) ls s c →
  drain s ls1 s1 → (∀ l, ¬ enabled l s1) → drain s ls2 s2 → (∀ l, ¬ enabled l s2) →
  (∀ d a, k_byte d a (kernel_ s1) = k_byte d a (kernel_ s2)) ∧
  storages_ s1 = storages_ s2 ∧ store_buffer_ s1 = ∅ ∧ store_buffer_ s2 = ∅ ∧
  answered s1 ≡ₚ answered s2.
Proof.
  intros (Hinv & Hv & _)%tracked_start Hdr1 Hid1 Hdr2 Hid2.
  pose proof (drain_from _ _ _ Hdr1 Hinv Hv) as D1. pose proof (drain_from _ _ _ Hdr2 Hinv Hv) as D2.
  split_and!.
  - intros d a. by eapply same_devices.
  - by rewrite (dr_storages _ _ D1), (dr_storages _ _ D2).
  - apply idle_store; [apply D1|done].
  - apply idle_store; [apply D2|done].
  - rewrite !idle_answered by done. by rewrite (drain_tickets _ _ _ Hdr1), (drain_tickets _ _ _ Hdr2).
Qed.

(** ** Witness *)

(** The two writes of the demonstration, interleaved and one after the other. *)
Definition demo_written : demo_io := demo_after (tail demo_writes).

Definition demo_in_turn : list label :=
  [L_write_job 0; L_write_job 0; L_write_job 0; L_write_job 0; L_write_job 0; L_write_job 0;
   L_run_ioc (λ _, true); L_run_ioc (λ _, true)].

Definition demo_end (ls : list label) : demo_io := default demo_start (run_drain ls demo_written).

Lemma demo_end_drain ls :
  match run_drain ls demo_written with Some _ => true | None => false end = true →
  drain demo_written ls (demo_end ls).
Proof. apply run_drain_default. Qed.

Lemma schedules_agree_witness :
  (∀ d a, k_byte d a (kernel_ (demo_end demo_drain)) = k_byte d a (kernel_ (demo_end demo_in_turn))) ∧
  answered (demo_end demo_drain) ≠ answered (demo_end demo_in_turn).
Proof.
  destruct (demo_after_tracked (tail demo_writes)) as [c Hc]; [vm_compute; reflexivity|].
  destruct (schedules_agree ∅ demo_partition _ _ c demo_drain (demo_end demo_drain)
    demo_in_turn (demo_end demo_in_turn) Hc) as (Hsame & _).
  - apply demo_end_drain. vm_compute. reflexivity.
  - intros l. apply idle_not_enabled. split_and!; vm_compute; reflexivity.
  - apply demo_end_drain. vm_compute. reflexivity.
  - intros l. apply idle_not_enabled. split_and!; vm_compute; reflexivity.
  - split; [exact Hsame|]. vm_compute. discriminate.
Defined.
