(* ===== verification/RawDiskIOLimits.v ===== *)
(** * What the back end does outside the discipline

    The theorems about contents and memory safety ask things of the callers
    that the code does not enforce.  Here is what happens without them. *)

From S2P Require Import Prelude Memory BufferPool StoreBuffer Kernel PartitionStorage.
From S2P Require Import RawDiskIO RawDiskIOSteps RawDiskIODemo RawDiskIOSpec RawDiskIOInv.
From S2P Require Import RawDiskIOHandlers RawDiskIOView RawDiskIOReads.

(** The torrent whose storage a job is about to look up. *)
Definition job_storage {K HS digest} (l : label) (s : disk_io K HS digest) : option Z :=
  match l with
  | L_read_job i => rj_storage <$> read_thread_pool_ s !! i
  | L_write_job i =>
      j ← write_thread_pool_ s !! i;
      match wj_phase j with W_posted => Some (wj_storage j) | _ => None end
  | L_hash_job i =>
      j ← hash_thread_pool_ s !! i;
      match hj_phase j with H_posted => Some (hj_storage j) | _ => None end
  | _ => None
  end.

(** C36: removing a torrent that has work posted crashes.  Whatever else the state
    is, once the torrent is removed, the pool thread that takes a job of it
    dereferences a null pointer, if the job has not yet looked up the storage. *)
Theorem remove_torrent_with_jobs_crashes {K HS digest} `{Kernel K} `{Hasher HS digest}
    (s s1 : disk_io K HS digest) idx l :
  job_storage l s = Some idx → exec (L_remove_torrent idx) s = Ret s1 → exec l s1 = Fault Null_deref.
Proof.
  intros Hjob Hrem. unfold exec, remove_torrent in Hrem. simplify_eq/=.
  destruct l; simpl in Hjob; try done.
  - apply fmap_Some in Hjob as (j & Hj & ->). simpl. rewrite Hj.
    unfold run_read_job, bind, storage_at. simpl. by rewrite lookup_delete_eq.
  - apply bind_Some in Hjob as (j & Hj & Hph). simpl. rewrite Hj. unfold run_write_job.
    destruct (wj_phase j); simplify_eq. unfold bind, storage_at. simpl. by rewrite lookup_delete_eq.
  - apply bind_Some in Hjob as (j & Hj & Hph). simpl. rewrite Hj. unfold run_hash_job.
    destruct (hj_phase j); simplify_eq. unfold bind, storage_at. simpl. by rewrite lookup_delete_eq.
Qed.

Lemma async_write_store {K HS digest} `{Kernel K} `{Hasher HS digest}
    (s s' : disk_io K HS digest) m idx r buf o h :
  exec (L_async_write m idx r buf o h) s = Ret s' →
  store_buffer_ s' = store_buffer_ s ∨
  ∃ b, store_buffer_ s' = insert (mkLoc idx (r_piece r) (r_start r)) b (store_buffer_ s).
Proof.
  unfold exec, async_write, boost_assert. intros Hex.
  destruct (r_length r <=? DEFAULT_BLOCK_SIZE); [|done].
  unfold bind, ret, allocate_write_buffer in Hex. cbn [obind] in Hex.
  destruct (allocate_buffer_observed _ _ _ _ _) as [[[[b|] ?] ?] ?];
    unfold with_heap, store_buffer_insert, post_write_job, storage_at, storage_write, post_ioc,
      modify in Hex; outcome_inv; [right; by exists b|by left].
Qed.

(** C35: a second write of a block that is still posted is not seen.  In every
    reachable state, while the store buffer holds a block, another [async_write]
    of that block is accepted, but reads of the block keep being answered with the
    bytes of the first write. *)
Theorem second_write_not_seen {K HS digest} `{KernelLaws K} `{Hasher HS digest}
    (h : heap) (k : K) ls (s s' : disk_io K HS digest) m idx r buf o hd a i :
  execution (new_raw_disk_io h k) ls s →
  store_buffer_ s !! mkLoc idx (r_piece r) (r_start r) = Some a →
  step (L_async_write m idx r buf o hd) s s' → block_of i = r_start r →
  is_Some (buffered s idx (r_piece r) i) ∧
  buffered s' idx (r_piece r) i = buffered s idx (r_piece r) i.
Proof.
  intros Hex Ha Hstep Hb. pose proof (io_inv_execution _ _ _ _ Hex) as Hinv.
  destruct (store_live_inv _ _ _ Hinv _ _ Ha) as (d & Hd & Hlen).
  assert (store_buffer_ s !! mkLoc idx (r_piece r) (block_of i) = Some a) as Ha' by by rewrite Hb.
  split.
  - rewrite (buffered_at _ _ _ _ a d) by done. apply lookup_lt_is_Some_2.
    pose proof (Z.mod_pos_bound i DEFAULT_BLOCK_SIZE). rewrite block_size_value in *. lia.
  - apply buffered_same.
    + destruct (async_write_store _ _ _ _ _ _ _ _ (match Hstep with step_intro _ _ _ _ E => E end))
        as [->|[b ->]]; [done|].
      rewrite lookup_insert_sb, Hb. by rewrite decide_True, Ha by done.
    + intros b Hb'. rewrite Ha' in Hb'. simplify_eq. by eapply heap_async_write; [..|eauto].
Qed.

(** [async_clear_piece] does not wait.  With nothing else posted to the I/O
    context, the handler is called at once: every posted write, of that piece too,
    is still posted and its block still in the store buffer. *)
Theorem clear_piece_does_not_wait {K HS digest} `{Kernel K} `{Hasher HS digest}
    (s : disk_io K HS digest) idx p h alive :
  ioc_ s = [] →
  ∃ s1 s2, exec (L_simple (Op_clear_piece idx p h)) s = Ret s1 ∧
    exec (L_run_ioc alive) s1 = Ret s2 ∧ called_ s2 = called_ s ++ [C_clear_piece h p] ∧
    write_thread_pool_ s2 = write_thread_pool_ s ∧ store_buffer_ s2 = store_buffer_ s.
Proof.
  intros Hioc. do 2 eexists. split; [reflexivity|]. simpl. rewrite Hioc. simpl. done.
Qed.

(** ** Witnesses *)

Lemma clear_piece_does_not_wait_witness :
  ∃ s2 : demo_io, called_ s2 = [C_clear_piece 13%nat 0] ∧ length (write_thread_pool_ s2) = 2%nat.
Proof.
  destruct (clear_piece_does_not_wait (demo_state demo_writes) 0 0 13%nat (λ _, true))
    as (s1 & s2 & _ & _ & Hc & Hw & _); [vm_compute; reflexivity|].
  exists s2. rewrite Hc, Hw. split; vm_compute; reflexivity.
Defined.

Lemma remove_torrent_with_jobs_crashes_witness :
  ∃ s1, exec (L_remove_torrent 0) (demo_state demo_writes) = Ret s1 ∧
        exec (L_write_job 0) s1 = Fault Null_deref.
Proof.
  eexists. split; [reflexivity|].
  apply (remove_torrent_with_jobs_crashes (demo_state demo_writes) _ 0 (L_write_job 0));
    [vm_compute; reflexivity|reflexivity].
Defined.

(** The second write is of zeros; the block still reads as the ones of the first. *)
Definition demo_again : list label := demo_writes ++ [L_client_memory 8%positive (zeros DEFAULT_BLOCK_SIZE)].

Definition demo_second : label :=
  L_async_write (got 7) 0 (mkReq 0 0 DEFAULT_BLOCK_SIZE) 8%positive None 12%nat.

Definition demo_hidden : demo_io := default demo_start (run [demo_second] (demo_state demo_again)).

Lemma demo_again_run : execution demo_start demo_again (demo_state demo_again).
Proof. apply demo_execution; [by repeat constructor|vm_compute; reflexivity]. Qed.

Lemma demo_second_step : step demo_second (demo_state demo_again) demo_hidden.
Proof. apply run_step; [done|vm_compute; reflexivity]. Qed.

Lemma second_write_not_seen_witness : buffered demo_hidden 0 0 17 = Some x01.
Proof.
  assert (buffered (demo_state demo_again) 0 0 17 = Some x01) as Hfirst by (vm_compute; reflexivity).
  rewrite <-Hfirst.
  refine (proj2 (second_write_not_seen ∅ demo_partition demo_again (demo_state demo_again)
    demo_hidden (got 7) 0 (mkReq 0 0 DEFAULT_BLOCK_SIZE) 8%positive None 12%nat 2%positive 17
    demo_again_run _ demo_second_step _)); vm_compute; reflexivity.
Defined.
