(* ===== verification/Daemon.v ===== *)
(** * The daemon (daemon.hpp, daemon.cpp)

    [ezio] wraps a libtorrent session: it adds torrents, pauses and resumes them,
    and collects their status.  libtorrent is not EZIO's code: [Libtorrent] is the
    interface the daemon uses of it, and [LibtorrentLaws] what it documents.  A
    member function that can throw answers a [result]: an exception or a value,
    with the session as it is then. *)

From Stdlib Require Import String Ascii Sorted.
From S2P Require Import Prelude.

(** ** Exceptions *)

Inductive exn :=
| Std_invalid_argument (what : string)
| Lt_system_error (what : string).

Definition exn_what (e : exn) : string :=
  match e with Std_invalid_argument w | Lt_system_error w => w end.

Abbreviation result A := (exn + A)%type.

(** ** What the daemon uses of libtorrent *)

(** lt::torrent_flags, as far as EZIO sets them or relies on their being clear *)
Inductive torrent_flag :=
| Fl_seed_mode
| Fl_sequential_download
| Fl_paused
| Fl_auto_managed
| Fl_duplicate_is_error.

#[global] Instance torrent_flag_eq_dec : EqDecision torrent_flag.
Proof. solve_decision. Defined.

(** A torrent_flags_t is the flags that are set; operator|= sets one more. *)
Abbreviation torrent_flags_t := (list torrent_flag).
Definition flags_or (flags : torrent_flags_t) (f : torrent_flag) : torrent_flags_t := flags ++ [f].

(** The parameters of a torrent to add, as far as EZIO sets them. *)
Record add_torrent_params (ti : Type) := mkParams {
  atp_ti : ti;
  atp_save_path : string;
  atp_max_uploads : Z;
  atp_max_connections : Z;
  atp_flags : torrent_flags_t;
}.
Arguments mkParams {ti}.
Arguments atp_ti {ti}.
Arguments atp_save_path {ti}.
Arguments atp_max_uploads {ti}.
Arguments atp_max_connections {ti}.
Arguments atp_flags {ti}.

(** lt::torrent_status, as far as EZIO reads it; durations in seconds, times in
    nanoseconds since the epoch of the clock. *)
Record lt_status (float : Type) := mkLtStatus {
  lt_name : string;
  lt_progress : float;
  lt_download_payload_rate : Z;
  lt_upload_payload_rate : Z;
  lt_is_finished : bool;
  lt_num_peers : Z;
  lt_active_duration : Z;
  lt_state : Z;
  lt_total_done : Z;
  lt_total : Z;
  lt_num_pieces : Z;
  lt_finished_duration : Z;
  lt_seeding_duration : Z;
  lt_total_payload_download : Z;
  lt_total_payload_upload : Z;
  lt_paused : bool;                  (** flags & torrent_flags::paused *)
  lt_save_path : string;
  lt_last_upload : Z;
  lt_last_download : Z;
}.
Arguments mkLtStatus {float}.
Arguments lt_name {float}.
Arguments lt_progress {float}.
Arguments lt_download_payload_rate {float}.
Arguments lt_upload_payload_rate {float}.
Arguments lt_is_finished {float}.
Arguments lt_num_peers {float}.
Arguments lt_active_duration {float}.
Arguments lt_state {float}.
Arguments lt_total_done {float}.
Arguments lt_total {float}.
Arguments lt_num_pieces {float}.
Arguments lt_finished_duration {float}.
Arguments lt_seeding_duration {float}.
Arguments lt_total_payload_download {float}.
Arguments lt_total_payload_upload {float}.
Arguments lt_paused {float}.
Arguments lt_save_path {float}.
Arguments lt_last_upload {float}.
Arguments lt_last_download {float}.

(** A session [Ses] of torrents known by handles [TH]; [node] is a decoded file,
    [ti] a lt::torrent_info, [sha1] a lt::sha1_hash. *)
Class Libtorrent (Ses TH node ti sha1 float double : Type) := {
  lt_bdecode : list byte → option node;                       (** none: [ec] is set *)
  lt_torrent_info : node → option ti;                         (** none: [ec] is set *)
  lt_add_torrent : add_torrent_params ti → Ses → result Ses;
  lt_get_torrents : Ses → list TH;
  lt_info_hash : TH → sha1;
  lt_status_of : TH → Ses → result (lt_status float);
  lt_find_torrent : sha1 → Ses → option TH;                     (** none: an invalid handle *)
  lt_pause : TH → Ses → result Ses;
  lt_resume : TH → Ses → result Ses;
  lt_print_hash : sha1 → string;                              (** operator<< *)
  lt_scan_hash : string → sha1;                               (** operator>> *)
  lt_widen : float → double;                                  (** float to double *)
}.

(** What libtorrent documents of them. *)
Class LibtorrentLaws (Ses TH node ti sha1 float double : Type)
    `{L : Libtorrent Ses TH node ti sha1 float double} : Prop := {
  lt_scan_print h : lt_scan_hash (lt_print_hash h) = h;
  lt_find_spec h s t : lt_find_torrent h s = Some t ↔ t ∈ lt_get_torrents s ∧ lt_info_hash t = h;
}.

(** ** Data of the daemon *)

(** ezio::torrent_status *)
Record torrent_status (double : Type) := mkStatus {
  ts_hash : string;
  ts_name : string;
  ts_progress : double;
  ts_download_rate : Z;
  ts_upload_rate : Z;
  ts_active_time : Z;
  ts_is_finished : bool;
  ts_num_peers : Z;
  ts_state : Z;
  ts_total_done : Z;
  ts_total : Z;
  ts_num_pieces : Z;
  ts_finished_time : Z;
  ts_seeding_time : Z;
  ts_total_payload_download : Z;
  ts_total_payload_upload : Z;
  ts_is_paused : bool;
  ts_save_path : string;
  ts_last_upload : Z;
  ts_last_download : Z;
}.
Arguments mkStatus {double}.
Arguments ts_hash {double}.
Arguments ts_name {double}.
Arguments ts_progress {double}.
Arguments ts_download_rate {double}.
Arguments ts_upload_rate {double}.
Arguments ts_active_time {double}.
Arguments ts_is_finished {double}.
Arguments ts_num_peers {double}.
Arguments ts_state {double}.
Arguments ts_total_done {double}.
Arguments ts_total {double}.
Arguments ts_num_pieces {double}.
Arguments ts_finished_time {double}.
Arguments ts_seeding_time {double}.
Arguments ts_total_payload_download {double}.
Arguments ts_total_payload_upload {double}.
Arguments ts_is_paused {double}.
Arguments ts_save_path {double}.
Arguments ts_last_upload {double}.
Arguments ts_last_download {double}.

(** class ezio: the session it refers to, and its flag *)
Record ezio (Ses : Type) := mkEzio {
  session_ : Ses;
  shutdown_ : bool;
}.
Arguments mkEzio {Ses}.
Arguments session_ {Ses}.
Arguments shutdown_ {Ses}.

(** ** std::map<std::string, T>

    The pairs in the order of their keys, each key once. *)

Section std_map.
Context {T : Type}.

(** emplace does nothing when the key is there. *)
Fixpoint emplace (k : string) (v : T) (m : list (string * T)) : list (string * T) :=
  match m with
  | [] => [(k, v)]
  | (k', v') :: m' =>
      match String.compare k k' with
      | Lt => (k, v) :: m
      | Eq => m
      | Gt => (k', v') :: emplace k v m'
      end
  end.

Fixpoint find (k : string) (m : list (string * T)) : option T :=
  match m with
  | [] => None
  | (k', v) :: m => if String.eqb k k' then Some v else find k m
  end.

Definition key_lt (k1 k2 : string) : Prop := String.compare k1 k2 = Lt.

Definition ordered (m : list (string * T)) : Prop := StronglySorted key_lt (fst <$> m).
End std_map.

Section ezio.
Context {Ses TH node ti sha1 float double : Type} `{L : Libtorrent Ses TH node ti sha1 float double}.

(** ezio::ezio *)
Definition new_ezio (session : Ses) : ezio Ses := mkEzio session false.

(** ezio::stop *)
Definition stop (e : ezio Ses) : ezio Ses := mkEzio (session_ e) true.

(** ezio::get_shutdown *)
Definition get_shutdown (e : ezio Ses) : bool := shutdown_ e.

Definition with_session (e : ezio Ses) (s : Ses) : ezio Ses := mkEzio s (shutdown_ e).

(** ezio::add_torrent *)
Definition add_torrent (torrent_body : list byte) (save_path : string) (seeding_mode : bool)
    (max_uploads max_connections : Z) (sequential_download : bool) (e : ezio Ses)
    : result (ezio Ses) :=
  match lt_bdecode torrent_body with
  | None => inl (Std_invalid_argument "failed to decode node")
  | Some n =>
      let info := lt_torrent_info n in
      match info with
      | None => inl (Std_invalid_argument "failed to save path")
      | Some info =>
          (* atp.flags = {}: the defaults of add_torrent_params are dropped *)
          let flags := [] in
          let flags := if seeding_mode then flags_or flags Fl_seed_mode else flags in
          let flags := if sequential_download then flags_or flags Fl_sequential_download else flags in
          let atp := mkParams info save_path
            (if 0 <? max_uploads then max_uploads else 3)
            (if 0 <? max_connections then max_connections else 5)
            flags in
          match lt_add_torrent atp (session_ e) with
          | inl ex => inl ex
          | inr s => inr (with_session e s)
          end
      end
  end.

(** The seconds since a time, or -1 if there is none; duration_cast truncates. *)
Definition seconds_since (now t : Z) : Z :=
  if t =? 0 then -1 else Z.quot (now - t) 1000000000.

(** The fields of a torrent_status, one by one. *)
Definition status_of (now : Z) (hash : string) (t_stat : lt_status float) : torrent_status double := {|
  ts_hash := hash;
  ts_name := lt_name t_stat;
  ts_progress := lt_widen t_stat.(lt_progress);
  ts_download_rate := lt_download_payload_rate t_stat;
  ts_upload_rate := lt_upload_payload_rate t_stat;
  ts_active_time := lt_active_duration t_stat;
  ts_is_finished := lt_is_finished t_stat;
  ts_num_peers := lt_num_peers t_stat;
  ts_state := lt_state t_stat;
  ts_total_done := lt_total_done t_stat;
  ts_total := lt_total t_stat;
  ts_num_pieces := lt_num_pieces t_stat;
  ts_finished_time := lt_finished_duration t_stat;
  ts_seeding_time := lt_seeding_duration t_stat;
  ts_total_payload_download := lt_total_payload_download t_stat;
  ts_total_payload_upload := lt_total_payload_upload t_stat;
  ts_is_paused := lt_paused t_stat;
  ts_save_path := lt_save_path t_stat;
  ts_last_upload := seconds_since now (lt_last_upload t_stat);
  ts_last_download := seconds_since now (lt_last_download t_stat);
|}.

(** The loop of get_torrent_status. *)
Fixpoint collect_status (now : Z) (s : Ses) (torrents : list TH)
    (res : list (string * torrent_status double))
    : result (list (string * torrent_status double)) :=
  match torrents with
  | [] => inr res
  | h :: torrents =>
      let hash := lt_print_hash (lt_info_hash h) in
      match lt_status_of h s with
      | inl ex => inl ex
      | inr t_stat => collect_status now s torrents (emplace hash (status_of now hash t_stat) res)
      end
  end.

(** ezio::get_torrent_status; [hashes] is only logged, [now] is the clock. *)
Definition get_torrent_status (now : Z) (hashes : list string) (e : ezio Ses)
    : result (list (string * torrent_status double)) :=
  collect_status now (session_ e) (lt_get_torrents (session_ e)) [].

(** ezio::pause_torrent *)
Definition pause_torrent (hash : string) (e : ezio Ses) : result (ezio Ses) :=
  match lt_find_torrent (lt_scan_hash hash) (session_ e) with
  | Some h =>
      match lt_pause h (session_ e) with
      | inl ex => inl ex
      | inr s => inr (with_session e s)
      end
  | None => inr e
  end.

(** ezio::resume_torrent *)
Definition resume_torrent (hash : string) (e : ezio Ses) : result (ezio Ses) :=
  match lt_find_torrent (lt_scan_hash hash) (session_ e) with
  | Some h =>
      match lt_resume h (session_ e) with
      | inl ex => inl ex
      | inr s => inr (with_session e s)
      end
  | None => inr e
  end.

(** ezio::get_version; [GIT_VERSION] is set by the build. *)
Definition get_version (GIT_VERSION : string) (e : ezio Ses) : string := GIT_VERSION.
End ezio.

(** ** Alerts *)

(** lt::alert, as far as EZIO reads it *)
Record alert := mkAlert {
  alert_what : string;
  alert_message : string;
}.

(** The alerts of a session: what waits in its queue, and session::pop_alerts. *)
Class AlertQueue (Ses : Type) := {
  lt_pending : Ses → list alert;
  lt_pop_alerts : Ses → list alert * Ses;
}.

(** pop_alerts gives what waits, in order, and leaves nothing. *)
Class AlertQueueLaws (Ses : Type) `{AlertQueue Ses} : Prop := {
  lt_pop_gives s : fst (lt_pop_alerts s) = lt_pending s;
  lt_pop_empties s : lt_pending (snd (lt_pop_alerts s)) = [];
}.

(** ezio::pop_alerts; the vector it fills is the first answer. *)
Definition pop_alerts {Ses} `{AlertQueue Ses} (e : ezio Ses) : list alert * ezio Ses :=
  let '(alerts, s) := lt_pop_alerts (session_ e) in (alerts, with_session e s).

(** ** Lemmas on the map *)

Lemma compare_refl k : String.compare k k = Eq.
Proof. induction k as [|a k IH]; simpl; [done|]. unfold Ascii.compare. by rewrite N.compare_refl. Qed.

Lemma key_lt_irrefl k : ¬ key_lt k k.
Proof. unfold key_lt. by rewrite compare_refl. Qed.

Lemma key_lt_trans k1 k2 k3 : key_lt k1 k2 → key_lt k2 k3 → key_lt k1 k3.
Proof.
  unfold key_lt. revert k2 k3. induction k1 as [|a k1 IH]; intros [|b k2] [|c k3]; simpl; try done.
  unfold Ascii.compare.
  destruct (N.compare_spec (N_of_ascii a) (N_of_ascii b)) as [E1|E1|E1]; try done;
    destruct (N.compare_spec (N_of_ascii b) (N_of_ascii c)) as [E2|E2|E2]; try done; intros H12 H23.
  - rewrite E1, E2, N.compare_refl. by eapply IH.
  - by rewrite E1, (proj2 (N.compare_lt_iff _ _) E2).
  - by rewrite <-E2, (proj2 (N.compare_lt_iff _ _) E1).
  - rewrite (proj2 (N.compare_lt_iff _ _)); [done|]. by etrans.
Qed.

Lemma key_gt_lt k1 k2 : String.compare k1 k2 = Gt → key_lt k2 k1.
Proof. unfold key_lt. rewrite String.compare_antisym. by destruct (String.compare k2 k1). Qed.

Section std_map_lemmas.
Context {T : Type}.
Implicit Types m : list (string * T).

Lemma emplace_keys k v m x : x ∈ (emplace k v m).*1 ↔ x = k ∨ x ∈ m.*1.
Proof.
  induction m as [|[k' v'] m IH]; simpl.
  - by rewrite elem_of_cons, elem_of_nil.
  - destruct (String.compare k k') eqn:E; simpl.
    + apply String.compare_eq_iff in E as ->. rewrite elem_of_cons. naive_solver.
    + by rewrite !elem_of_cons.
    + rewrite !elem_of_cons, IH. naive_solver.
Qed.

Lemma emplace_ordered k v m : ordered m → ordered (emplace k v m).
Proof.
  unfold ordered. induction m as [|[k' v'] m IH]; simpl; intros Hs.
  - by repeat constructor.
  - apply StronglySorted_inv in Hs as [Hs Hk'].
    destruct (String.compare k k') eqn:E; simpl; constructor; try done.
    + by constructor.
    + constructor; [done|]. eapply Forall_impl; [exact Hk'|]. intros x. by apply key_lt_trans.
    + by apply IH.
    + apply Forall_forall. intros x [->|Hx]%emplace_keys; [by apply key_gt_lt|].
      by eapply Forall_forall in Hk'.
Qed.

Lemma find_none k m : find k m = None ↔ k ∉ m.*1.
Proof.
  induction m as [|[k' v'] m IH]; simpl; [split; [by intros _ ?%elem_of_nil|done]|].
  rewrite elem_of_cons. destruct (String.eqb_spec k k'); naive_solver.
Qed.

(** The entry under another key, and the first one under a key, stay. *)
Lemma find_emplace k v m k' :
  ordered m → find k' (emplace k v m) =
    if String.eqb k' k then Some (default v (find k m)) else find k' m.
Proof.
  unfold ordered. induction m as [|[k0 v0] m IH]; simpl; intros Hs.
  - by destruct (String.eqb_spec k' k).
  - apply StronglySorted_inv in Hs as [Hs Hk0]. destruct (String.compare k k0) eqn:E; simpl.
    + apply String.compare_eq_iff in E as ->. rewrite String.eqb_refl. simpl.
      by destruct (String.eqb_spec k' k0).
    + clear IH. destruct (String.eqb_spec k' k) as [Ek|]; [|done].
      assert (k ≠ k0) by (intros ->; by rewrite compare_refl in E).
      destruct (String.eqb_spec k k0); [done|].
      rewrite (proj2 (find_none k m)); [done|]. intros Hin. eapply Forall_forall in Hk0; [|done].
      by apply (key_lt_irrefl k), (key_lt_trans k k0 k).
    + assert (k ≠ k0) by (intros ->; by rewrite compare_refl in E).
      rewrite IH by done. destruct (String.eqb_spec k' k0) as [Ek|].
      * rewrite Ek. by destruct (String.eqb_spec k0 k).
      * destruct (String.eqb_spec k k0); done.
Qed.
End std_map_lemmas.

(** ** What the daemon guarantees *)

Section guarantees.
Context {Ses TH node ti sha1 float double : Type}.
Context `{L : Libtorrent Ses TH node ti sha1 float double}.
Context `{!LibtorrentLaws Ses TH node ti sha1 float double}.

Definition printed (h : TH) : string := lt_print_hash (lt_info_hash h).

Lemma print_hash_inj h1 h2 : lt_print_hash h1 = lt_print_hash h2 → h1 = h2.
Proof. intros E. by rewrite <-(lt_scan_print h1), E, lt_scan_print. Qed.

(** Two torrents of a session have different names in the map. *)
Lemma printed_inj s h1 h2 :
  h1 ∈ lt_get_torrents s → h2 ∈ lt_get_torrents s → printed h1 = printed h2 → h1 = h2.
Proof.
  intros H1 H2 E%print_hash_inj.
  assert (lt_find_torrent (lt_info_hash h1) s = Some h1) as E1 by by apply lt_find_spec.
  assert (lt_find_torrent (lt_info_hash h1) s = Some h2) as E2 by by apply lt_find_spec.
  congruence.
Qed.

(** What the loop has collected: one entry per torrent seen. *)
Record collected (now : Z) (s : Ses) (seen : list TH)
    (m : list (string * torrent_status double)) : Prop := {
  col_ordered : ordered m;
  col_keys k : k ∈ m.*1 ↔ ∃ h, h ∈ seen ∧ k = printed h;
  col_values h : h ∈ seen →
    ∃ st, lt_status_of h s = inr st ∧ find (printed h) m = Some (status_of now (printed h) st);
}.

Lemma collected_emplace now s seen m h st :
  (∀ h', h' ∈ seen → h' ∈ lt_get_torrents s) → h ∈ lt_get_torrents s →
  lt_status_of h s = inr st → collected now s seen m →
  collected now s (seen ++ [h]) (emplace (printed h) (status_of now (printed h) st) m).
Proof.
  intros Hseen Hh Hst [Ho Hk Hv]. split.
  - by apply emplace_ordered.
  - intros k. rewrite emplace_keys, Hk. setoid_rewrite elem_of_snoc. naive_solver.
  - intros h' [Hh'|Heq]%elem_of_snoc; rewrite find_emplace by done.
    + destruct (String.eqb_spec (printed h') (printed h)) as [E|]; [|by apply Hv].
      assert (h' = h) as Heq by (eapply printed_inj; eauto). subst h'.
      destruct (Hv h Hh') as (st' & E1 & ->). simpl. eauto.
    + subst h'. rewrite String.eqb_refl.
      destruct (find (printed h) m) as [v|] eqn:Hf; simpl; [|by eauto].
      assert (printed h ∈ m.*1) as Hin.
      { apply dec_stable. intros Hn%find_none. congruence. }
      apply Hk in Hin as (h0 & Hh0 & E). assert (h0 = h) as -> by (eapply printed_inj; eauto).
      destruct (Hv h Hh0) as (st' & E1 & E2). exists st'. by rewrite <-E2, Hf.
Qed.

Lemma collect_status_ok now s torrents : ∀ seen res m,
  (∀ h, h ∈ seen ++ torrents → h ∈ lt_get_torrents s) → collected now s seen res →
  collect_status now s torrents res = inr m → collected now s (seen ++ torrents) m.
Proof.
  induction torrents as [|h torrents IH]; intros seen res m Hin Hc Hrun; simpl in Hrun.
  - simplify_eq. by rewrite app_nil_r.
  - destruct (lt_status_of h s) as [|st] eqn:Hst; [done|].
    rewrite (app_assoc seen [h] torrents : seen ++ h :: torrents = _).
    eapply IH; [|eapply collected_emplace|exact Hrun]; try done.
    + intros h'. rewrite <-app_assoc. apply Hin.
    + intros h' Hh'. apply Hin, elem_of_app. by left.
    + apply Hin, elem_of_app. right. by left.
Qed.

Lemma collected_nil now s : collected now s [] [].
Proof.
  split; [by constructor| |by intros h Hh%elem_of_nil].
  intros k. simpl. rewrite elem_of_nil. split; [done|]. by intros (h & Hh%elem_of_nil & _).
Qed.

Lemma collect_status_total now s torrents res :
  (∀ h, h ∈ torrents → ∃ st, lt_status_of h s = inr st) →
  ∃ m, collect_status now s torrents res = inr m.
Proof.
  revert res. induction torrents as [|h torrents IH]; intros res Hall; simpl; [eauto|].
  destruct (Hall h) as [st ->]; [by left|]. apply IH. intros h' ?. apply Hall. by right.
Qed.

Lemma collect_status_throws now s torrents res ex :
  collect_status now s torrents res = inl ex → ∃ h, h ∈ torrents ∧ lt_status_of h s = inl ex.
Proof.
  revert res. induction torrents as [|h torrents IH]; intros res Hrun; simpl in Hrun; [done|].
  destruct (lt_status_of h s) as [ex'|st] eqn:Hst.
  - exists h. split; [by left|congruence].
  - destruct (IH _ Hrun) as (h' & Hin & ?). exists h'. split; [by right|done].
Qed.

Lemma collect_status_all now s m :
  collect_status now s (lt_get_torrents s) [] = inr m → collected now s (lt_get_torrents s) m.
Proof.
  intros Hm. by apply (collect_status_ok now s (lt_get_torrents s) [] [] m);
    [..|apply collected_nil|].
Qed.

Lemma get_torrent_status_collected now hashes (e : ezio Ses) :
  (∀ h, h ∈ lt_get_torrents (session_ e) → ∃ st, lt_status_of h (session_ e) = inr st) →
  ∃ m, get_torrent_status now hashes e = inr m ∧
    collected now (session_ e) (lt_get_torrents (session_ e)) m.
Proof.
  intros Hall. unfold get_torrent_status.
  destruct (collect_status_total now (session_ e) _ [] Hall) as [m Hm]. exists m.
  split; [done|by apply collect_status_all].
Qed.
End guarantees.

(** The status of every torrent, whatever was asked.  When
    [get_torrent_status] answers, its map has exactly one entry per torrent of
    the session, under the printed info hash and in the order of the hashes, that
    holds the status just read; it throws only what the status of some torrent
    threw.  The hashes of the request play no part. *)
Theorem status_of_every_torrent {Ses TH node ti sha1 float double}
    `{L : Libtorrent Ses TH node ti sha1 float double}
    `{!LibtorrentLaws Ses TH node ti sha1 float double}
    now hashes (e : ezio Ses) :
  match get_torrent_status now hashes e with
  | inr m =>
      ordered m ∧
      (∀ k, k ∈ m.*1 ↔ ∃ h, h ∈ lt_get_torrents (session_ e) ∧ k = printed h) ∧
      (∀ h, h ∈ lt_get_torrents (session_ e) → ∃ st, lt_status_of h (session_ e) = inr st ∧
         find (printed h) m = Some (status_of now (printed h) st))
  | inl ex => ∃ h, h ∈ lt_get_torrents (session_ e) ∧ lt_status_of h (session_ e) = inl ex
  end.
Proof.
  destruct (get_torrent_status now hashes e) as [ex|m] eqn:Hm.
  - by apply collect_status_throws in Hm.
  - by destruct (collect_status_all now (session_ e) m Hm) as [Ho Hk Hv].
Qed.

(** C31: what becomes of an added torrent, on every branch.  A file that does not
    decode and one that is not a torrent are refused, and so is what the session
    refuses, with the session as it was; otherwise the session gets the torrent
    with the requested path, with the flags requested and no other (it is not
    paused and not auto managed), and with the limits requested, or 3 uploads and 5
    connections where the one requested is not positive. *)
Theorem add_torrent_branches {Ses TH node ti sha1 float double}
    `{L : Libtorrent Ses TH node ti sha1 float double}
    body path seeding uploads connections sequential (e : ezio Ses) :
  match add_torrent body path seeding uploads connections sequential e with
  | inl ex =>
      (lt_bdecode body = None ∧ ex = Std_invalid_argument "failed to decode node") ∨
      (∃ n, lt_bdecode body = Some n ∧ lt_torrent_info n = None ∧
            ex = Std_invalid_argument "failed to save path") ∨
      (∃ n info atp, lt_bdecode body = Some n ∧ lt_torrent_info n = Some info ∧
            atp_ti atp = info ∧ lt_add_torrent atp (session_ e) = inl ex)
  | inr e' =>
      ∃ n info atp, lt_bdecode body = Some n ∧ lt_torrent_info n = Some info ∧
        atp_ti atp = info ∧ atp_save_path atp = path ∧
        (∀ f, f ∈ atp_flags atp ↔
           f = Fl_seed_mode ∧ seeding = true ∨ f = Fl_sequential_download ∧ sequential = true) ∧
        (0 < uploads → atp_max_uploads atp = uploads) ∧ (uploads ≤ 0 → atp_max_uploads atp = 3) ∧
        (0 < connections → atp_max_connections atp = connections) ∧
        (connections ≤ 0 → atp_max_connections atp = 5) ∧
        lt_add_torrent atp (session_ e) = inr (session_ e') ∧ shutdown_ e' = shutdown_ e
  end.
Proof.
  unfold add_torrent. destruct (lt_bdecode body) as [n|] eqn:Hn; [|by left].
  destruct (lt_torrent_info n) as [info|] eqn:Hi; [|right; left; by exists n].
  destruct (lt_add_torrent _ _) as [ex|s] eqn:Ha.
  - right. right. match type of Ha with lt_add_torrent ?atp _ = _ => by exists n, info, atp end.
  - match type of Ha with lt_add_torrent ?atp _ = _ => exists n, info, atp end.
    split_and!; try done; simpl;
      try (destruct (Z.ltb_spec 0 uploads), (Z.ltb_spec 0 connections); lia).
    unfold flags_or. intros f. destruct seeding, sequential; set_solver.
Qed.

(** Pausing and resuming by hash.  The hash that the status reports for a
    torrent of the session is the hash that pauses and resumes that torrent; a
    hash of no torrent changes nothing and is no error. *)
Theorem pause_resume_by_hash {Ses TH node ti sha1 float double}
    `{L : Libtorrent Ses TH node ti sha1 float double}
    `{!LibtorrentLaws Ses TH node ti sha1 float double} (e : ezio Ses) :
  (∀ h, h ∈ lt_get_torrents (session_ e) →
     pause_torrent (printed h) e =
       match lt_pause h (session_ e) with inl ex => inl ex | inr s => inr (mkEzio s (shutdown_ e)) end ∧
     resume_torrent (printed h) e =
       match lt_resume h (session_ e) with inl ex => inl ex | inr s => inr (mkEzio s (shutdown_ e)) end) ∧
  (∀ k, (∀ h, h ∈ lt_get_torrents (session_ e) → lt_info_hash h ≠ lt_scan_hash k) →
     pause_torrent k e = inr e ∧ resume_torrent k e = inr e).
Proof.
  unfold pause_torrent, resume_torrent. split.
  - intros h Hh. unfold printed. rewrite lt_scan_print.
    by rewrite (proj2 (lt_find_spec (lt_info_hash h) (session_ e) h)).
  - intros k Hk. destruct (lt_find_torrent _ _) as [h|] eqn:Hf; [|done].
    apply lt_find_spec in Hf as [Hin Heq]. by destruct (Hk h Hin).
Qed.

(** ** A session in memory

    An instance of the interface: torrents known by a string, the first bytes of
    the file as the torrent. *)

Module ToySession.

Abbreviation session := (gmap string (lt_status Z)).

Definition fresh_status (atp : add_torrent_params (list byte)) : lt_status Z :=
  mkLtStatus "toy" 0 0 0 (bool_decide (Fl_seed_mode ∈ atp_flags atp))
    0 0 0 0 0 0 0 0 0 0 (bool_decide (Fl_paused ∈ atp_flags atp)) (atp_save_path atp) 0 0.

Definition set_paused (b : bool) (st : lt_status Z) : lt_status Z :=
  mkLtStatus (lt_name st) (lt_progress st) (lt_download_payload_rate st) (lt_upload_payload_rate st)
    (lt_is_finished st) (lt_num_peers st) (lt_active_duration st) (lt_state st) (lt_total_done st)
    (lt_total st) (lt_num_pieces st) (lt_finished_duration st) (lt_seeding_duration st)
    (lt_total_payload_download st) (lt_total_payload_upload st) b (lt_save_path st)
    (lt_last_upload st) (lt_last_download st).

Definition name_of (info : list byte) : string := match info with [] => "" | _ :: _ => "aa" end.

#[export] Instance toy : Libtorrent session string (list byte) (list byte) string Z Z := {
  lt_bdecode body := match body with [] => None | _ => Some body end;
  lt_torrent_info n := match n with [_] => None | _ => Some n end;
  lt_add_torrent atp s :=
    match s !! name_of (atp_ti atp) with
    | Some _ =>
        if bool_decide (Fl_duplicate_is_error ∈ atp_flags atp)
        then inl (Lt_system_error "torrent already exists in session") else inr s
    | None => inr (<[name_of (atp_ti atp) := fresh_status atp]> s)
    end;
  lt_get_torrents s := (map_to_list s).*1;
  lt_info_hash h := h;
  lt_status_of h s :=
    match s !! h with Some st => inr st | None => inl (Lt_system_error "invalid torrent handle used") end;
  lt_find_torrent h s := match s !! h with Some _ => Some h | None => None end;
  lt_pause h s := inr (alter (set_paused true) h s);
  lt_resume h s := inr (alter (set_paused false) h s);
  lt_print_hash h := h;
  lt_scan_hash k := k;
  lt_widen x := x;
}.

Lemma toy_torrents s h : h ∈ lt_get_torrents (Libtorrent := toy) s ↔ is_Some (s !! h).
Proof.
  simpl. rewrite list_elem_of_fmap. split.
  - intros ([k st] & -> & Hin%elem_of_map_to_list). eauto.
  - intros [st Hst]. exists (h, st). by rewrite elem_of_map_to_list.
Qed.

#[export] Instance toy_laws : LibtorrentLaws session string (list byte) (list byte) string Z Z.
Proof.
  split; [done|]. intros h s t. rewrite toy_torrents. simpl.
  destruct (s !! h) eqn:E; split.
  - intros [= <-]. eauto.
  - by intros [_ <-].
  - done.
  - intros [[st Hst] <-]. congruence.
Qed.

Definition toy_params (path : string) : add_torrent_params (list byte) :=
  mkParams [x00; x01] path 3 5 [].

Definition toy_ezio : ezio session :=
  mkEzio {["aa" := fresh_status (toy_params "/dev/sda1"); "bb" := fresh_status (toy_params "/dev/sdb1")]}
    false.
End ToySession.
Import ToySession.

Lemma status_of_every_torrent_witness :
  ∃ m, get_torrent_status 7 ["bb"] toy_ezio = inr m ∧ m.*1 = ["aa"; "bb"] ∧ ordered m.
Proof.
  pose proof (status_of_every_torrent 7 ["bb"] toy_ezio) as Hall.
  destruct (get_torrent_status 7 ["bb"] toy_ezio) as [ex|m] eqn:Hm; [by vm_compute in Hm|].
  exists m. split; [done|]. split; [|apply Hall].
  vm_compute in Hm. by injection Hm as <-.
Defined.

Lemma pause_resume_by_hash_witness :
  pause_torrent "cc" toy_ezio = inr toy_ezio.
Proof.
  apply (proj2 (pause_resume_by_hash toy_ezio) "cc").
  intros h Hh%toy_torrents E. simpl in E. subst h. destruct Hh as [st Hst]. by vm_compute in Hst.
Defined.
