(* ===== verification/Service.v ===== *)
(** * The gRPC service (service.hpp, service.cpp, ezio.proto)

    One definition per RPC: it takes the request and the daemon and answers the
    status, the response message and the daemon as it is then.  An exception that
    leaves a handler is answered by gRPC, not by EZIO: it is the [inl] of the
    handler's result. *)

From Stdlib Require Import String Sorted.
From S2P Require Import Prelude Daemon.

(** ** Messages *)

Inductive StatusCode := OK | UNAVAILABLE.

Record Status := mkGrpcStatus {
  grpc_code : StatusCode;
  grpc_message : string;
}.

Definition Status_OK : Status := mkGrpcStatus OK "".

Record AddRequest := mkAddRequest {
  add_torrent_file : list byte;
  add_save_path : string;
  add_seeding_mode : bool;
  add_max_uploads : Z;
  add_max_connections : Z;
  add_sequential_download : bool;
}.

(** A message that a handler does not fill keeps the defaults of its fields. *)
Record AddResponse := mkAddResponse { add_result : bool }.
Definition empty_AddResponse : AddResponse := mkAddResponse false.

Record VersionResponse := mkVersionResponse { version : string }.

(** message Torrent *)
Record Torrent (double : Type) := mkTorrent {
  t_hash : string;
  t_name : string;
  t_progress : double;
  t_download_rate : Z;
  t_upload_rate : Z;
  t_active_time : Z;
  t_is_finished : bool;
  t_num_peers : Z;
  t_state : Z;
  t_total_done : Z;
  t_total : Z;
  t_num_pieces : Z;
  t_finished_time : Z;
  t_seeding_time : Z;
  t_total_payload_download : Z;
  t_total_payload_upload : Z;
  t_is_paused : bool;
  t_save_path : string;
  t_last_upload : Z;
  t_last_download : Z;
}.
Arguments mkTorrent {double}.
Arguments t_hash {double}.
Arguments t_save_path {double}.
Arguments t_is_paused {double}.

(** message UpdateStatus: the map is a protobuf map, looked up by key. *)
Record UpdateStatus (double : Type) := mkUpdateStatus {
  us_hashes : list string;
  us_torrents : gmap string (Torrent double);
}.
Arguments mkUpdateStatus {double}.
Arguments us_hashes {double}.
Arguments us_torrents {double}.

Section service.
Context {Ses TH node ti sha1 float double : Type} `{L : Libtorrent Ses TH node ti sha1 float double}.

(** gRPCService::Shutdown *)
Definition Shutdown (e : ezio Ses) : Status * ezio Ses := (Status_OK, stop e).

(** The setters of GetTorrentStatus, one by one. *)
Definition torrent_message (hash : string) (t_stat : torrent_status double) : Torrent double :=
  mkTorrent hash (ts_name t_stat) (ts_progress t_stat) (ts_download_rate t_stat)
    (ts_upload_rate t_stat) (ts_active_time t_stat) (ts_is_finished t_stat) (ts_num_peers t_stat)
    (ts_state t_stat) (ts_total_done t_stat) (ts_total t_stat) (ts_num_pieces t_stat)
    (ts_finished_time t_stat) (ts_seeding_time t_stat) (ts_total_payload_download t_stat)
    (ts_total_payload_upload t_stat) (ts_is_paused t_stat) (ts_save_path t_stat)
    (ts_last_upload t_stat) (ts_last_download t_stat).

(** The loop of GetTorrentStatus; a protobuf map's insert keeps an entry. *)
Fixpoint fill_response (result : list (string * torrent_status double)) (response : UpdateStatus double)
    : UpdateStatus double :=
  match result with
  | [] => response
  | (hash, t_stat) :: result =>
      let torrents := us_torrents response in
      fill_response result
        (mkUpdateStatus (us_hashes response ++ [hash])
           (match torrents !! hash with
            | Some _ => torrents
            | None => <[hash := torrent_message hash t_stat]> torrents
            end))
  end.

(** gRPCService::GetTorrentStatus; nothing is caught here. *)
Definition GetTorrentStatus (now : Z) (request_hashes : list string) (e : ezio Ses)
    : result (Status * UpdateStatus double) :=
  match get_torrent_status now request_hashes e with
  | inl ex => inl ex
  | inr res => inr (Status_OK, fill_response res (mkUpdateStatus [] ∅))
  end.

(** try ... catch (const std::exception &e): both kinds of exception are *)
Definition guarded (call : result (ezio Ses)) (e : ezio Ses) : Status * ezio Ses :=
  match call with
  | inl ex => (mkGrpcStatus UNAVAILABLE (exn_what ex), e)
  | inr e => (Status_OK, e)
  end.

(** gRPCService::AddTorrent *)
Definition AddTorrent (request : AddRequest) (e : ezio Ses) : Status * AddResponse * ezio Ses :=
  let '(status, e) :=
    guarded (add_torrent (add_torrent_file request) (add_save_path request) (add_seeding_mode request)
               (add_max_uploads request) (add_max_connections request)
               (add_sequential_download request) e) e in
  (status, empty_AddResponse, e).

(** gRPCService::PauseTorrent *)
Definition PauseTorrent (hash : string) (e : ezio Ses) : Status * ezio Ses :=
  guarded (pause_torrent hash e) e.

(** gRPCService::ResumeTorrent *)
Definition ResumeTorrent (hash : string) (e : ezio Ses) : Status * ezio Ses :=
  guarded (resume_torrent hash e) e.

(** gRPCService::GetVersion *)
Definition GetVersion (GIT_VERSION : string) (e : ezio Ses) : Status * VersionResponse :=
  (Status_OK, mkVersionResponse GIT_VERSION).

(** ** The response *)

Lemma fill_response_keys res resp :
  us_hashes (fill_response res resp) = us_hashes resp ++ res.*1.
Proof.
  revert resp. induction res as [|[k v] res IH]; intros resp; simpl; [by rewrite app_nil_r|].
  rewrite IH. simpl. by rewrite <-app_assoc.
Qed.

Lemma fill_response_lookup res resp k :
  us_torrents (fill_response res resp) !! k =
    match us_torrents resp !! k with
    | Some t => Some t
    | None => torrent_message k <$> find k res
    end.
Proof.
  revert resp. induction res as [|[k' v] res IH]; intros resp; simpl; [by destruct (_ !! k)|].
  rewrite IH. simpl. destruct (us_torrents resp !! k') as [t'|] eqn:Hk'.
  - destruct (us_torrents resp !! k) eqn:Hk; [done|].
    destruct (String.eqb_spec k k'); [congruence|done].
  - destruct (String.eqb_spec k k') as [E|Hne].
    + subst k'. by rewrite lookup_insert_eq, Hk'.
    + by rewrite lookup_insert_ne.
Qed.
End service.

(** C30: the reply to a status request.  If each torrent of the session answers its
    status, the RPC is OK whatever hashes it names; the reply lists the info hash
    of every torrent once, in order, its map has exactly those keys, and under
    each is the message made of the status just read, field by field. *)
Theorem status_reply_complete {Ses TH node ti sha1 float double}
    `{L : Libtorrent Ses TH node ti sha1 float double}
    `{!LibtorrentLaws Ses TH node ti sha1 float double}
    now hashes (e : ezio Ses) :
  (∀ h, h ∈ lt_get_torrents (session_ e) → ∃ st, lt_status_of h (session_ e) = inr st) →
  ∃ reply, GetTorrentStatus now hashes e = inr (Status_OK, reply) ∧
    StronglySorted key_lt (us_hashes reply) ∧
    (∀ k, k ∈ us_hashes reply ↔ ∃ h, h ∈ lt_get_torrents (session_ e) ∧ k = printed h) ∧
    (∀ k, is_Some (us_torrents reply !! k) ↔ k ∈ us_hashes reply) ∧
    (∀ h, h ∈ lt_get_torrents (session_ e) → ∃ st, lt_status_of h (session_ e) = inr st ∧
       us_torrents reply !! printed h =
         Some (torrent_message (printed h) (status_of now (printed h) st))).
Proof.
  intros Hall. destruct (get_torrent_status_collected now hashes e Hall) as (m & Hm & [Ho Hk Hv]).
  unfold GetTorrentStatus. rewrite Hm. eexists. split; [done|].
  rewrite fill_response_keys. simpl. split_and!; [done|done|..].
  - intros k. rewrite fill_response_lookup. cbn [us_torrents]. rewrite lookup_empty, fmap_is_Some.
    destruct (find k m) as [v|] eqn:Hf.
    + split; [|by eauto]. intros _. apply dec_stable. intros Hn%find_none. congruence.
    + split; [by intros [? ?]|]. intros Hin. by apply find_none in Hf.
  - intros h Hh. destruct (Hv h Hh) as (st & Hst & Hf). exists st. split; [done|].
    rewrite fill_response_lookup. cbn [us_torrents]. by rewrite lookup_empty, Hf.
Qed.

(** What AddTorrent answers.  The status is OK exactly when the daemon took the
    torrent; an exception becomes UNAVAILABLE with its text and leaves the daemon
    as it was; and the [result] field of the response is false either way. *)
Theorem add_torrent_reply {Ses TH node ti sha1 float double}
    `{L : Libtorrent Ses TH node ti sha1 float double} (rq : AddRequest) (e : ezio Ses) :
  let '(status, response, e') := AddTorrent rq e in
  add_result response = false ∧
  match add_torrent (add_torrent_file rq) (add_save_path rq) (add_seeding_mode rq)
          (add_max_uploads rq) (add_max_connections rq) (add_sequential_download rq) e with
  | inl ex => status = mkGrpcStatus UNAVAILABLE (exn_what ex) ∧ e' = e
  | inr e1 => status = Status_OK ∧ e' = e1
  end.
Proof. unfold AddTorrent, guarded. by destruct (add_torrent _ _ _ _ _ _ e). Qed.

(** ** Witnesses *)

Import ToySession.

Lemma status_reply_complete_witness :
  ∃ reply, GetTorrentStatus 7 [] toy_ezio = inr (Status_OK, reply) ∧
           us_hashes reply = ["aa"; "bb"].
Proof.
  destruct (status_reply_complete 7 [] toy_ezio) as (reply & Hr & _).
  - intros h [st Hst]%toy_torrents. exists st. simpl in *. by rewrite Hst.
  - exists reply. split; [exact Hr|]. vm_compute in Hr. by injection Hr as <-.
Defined.
