(* ===== verification/ServiceSpec.v ===== *)
(** * What the service promises its clients

    A client that adds, pauses, resumes and lists torrents sees a table: an info
    hash, a save path and whether the torrent is paused, and a flag that shutdown
    was asked for.  [allowed] says which answers such a table gives, and
    [service_refines_table] that the service, the daemon under it and libtorrent
    under that answer any history of calls as some table would, while the session
    goes about its own work in between. *)

From Stdlib Require Import String Sorted.
From S2P Require Import Prelude Daemon Service.

(** ** Calls and answers *)

(** The RPCs that gRPCService implements, with their requests. *)
Inductive rpc :=
| R_Shutdown
| R_GetTorrentStatus (hashes : list string)
| R_AddTorrent (request : AddRequest)
| R_PauseTorrent (hash : string)
| R_ResumeTorrent (hash : string)
| R_GetVersion.

(** What the client gets: a status and a message, or, where an exception leaves the
    handler, gRPC's own answer. *)
Inductive reply (double : Type) :=
| A_empty (status : Status)
| A_torrents (status : Status) (response : UpdateStatus double)
| A_added (status : Status) (response : AddResponse)
| A_version (status : Status) (response : VersionResponse)
| A_exception (ex : exn).
Arguments A_empty {double} status.
Arguments A_torrents {double} status response.
Arguments A_added {double} status response.
Arguments A_version {double} status response.
Arguments A_exception {double} ex.

(** A row of the table *)
Record entry := mkEntry {
  en_save_path : string;
  en_paused : bool;
}.

Definition with_paused (b : bool) (en : entry) : entry := mkEntry (en_save_path en) b.

Record table := mkTable {
  tb_rows : gmap string entry;
  tb_shutdown : bool;
}.

(** lt::torrent_info::info_hash, and the absolute path libtorrent makes of the
    save path it is given *)
Class TorrentFiles (ti sha1 : Type) := {
  lt_ti_hash : ti → sha1;
  lt_complete : string → string;
}.

Section spec.
Context {Ses TH node ti sha1 float double : Type}.
Context `{L : Libtorrent Ses TH node ti sha1 float double} `{F : !TorrentFiles ti sha1}.
Context (GIT_VERSION : string).
Implicit Types (e : ezio Ses) (s : Ses).

(** gRPC calls the member function of the RPC. *)
Definition serve (now : Z) (q : rpc) (e : ezio Ses) : reply double * ezio Ses :=
  match q with
  | R_Shutdown => let '(st, e) := Shutdown e in (A_empty st, e)
  | R_GetTorrentStatus hashes =>
      match GetTorrentStatus now hashes e with
      | inl ex => (A_exception ex, e)
      | inr (st, response) => (A_torrents st response, e)
      end
  | R_AddTorrent request =>
      let '(st, response, e) := AddTorrent request e in (A_added st response, e)
  | R_PauseTorrent hash => let '(st, e) := PauseTorrent hash e in (A_empty st, e)
  | R_ResumeTorrent hash => let '(st, e) := ResumeTorrent hash e in (A_empty st, e)
  | R_GetVersion => let '(st, response) := GetVersion GIT_VERSION e in (A_version st response, e)
  end.

(** ** The table *)

(** The torrent in a file, or why there is none. *)
Definition decoded (body : list byte) : string + ti :=
  match lt_bdecode body with
  | None => inl "failed to decode node"
  | Some n => match lt_torrent_info n with
              | None => inl "failed to save path"
              | Some info => inr info
              end
  end.

(** A torrent that is there already is left as it is. *)
Definition add_row (k : string) (en : entry) (rows : gmap string entry) : gmap string entry :=
  match rows !! k with Some _ => rows | None => <[k := en]> rows end.

(** The key a request's hash stands for *)
Definition canonical (hash : string) : string := lt_print_hash (lt_scan_hash hash).

Definition row_of (m : Torrent double) : entry := mkEntry (t_save_path m) (t_is_paused m).

Definition unavailable (why : string) : Status := mkGrpcStatus UNAVAILABLE why.

(** The answers a table allows, and the table after each. *)
Inductive allowed (t : table) : rpc → reply double → table → Prop :=
| al_shutdown : allowed t R_Shutdown (A_empty Status_OK) (mkTable (tb_rows t) true)
| al_version :
    allowed t R_GetVersion (A_version Status_OK (mkVersionResponse GIT_VERSION)) t
| al_torrents hashes response :
    StronglySorted key_lt (us_hashes response) →
    (∀ k, k ∈ us_hashes response ↔ is_Some (tb_rows t !! k)) →
    (∀ k, row_of <$> us_torrents response !! k = tb_rows t !! k) →
    allowed t (R_GetTorrentStatus hashes) (A_torrents Status_OK response) t
| al_add rq info :
    decoded (add_torrent_file rq) = inr info →
    allowed t (R_AddTorrent rq) (A_added Status_OK empty_AddResponse)
      (mkTable (add_row (lt_print_hash (lt_ti_hash info))
                  (mkEntry (lt_complete (add_save_path rq)) false) (tb_rows t)) (tb_shutdown t))
| al_add_refused rq why :
    (∀ why', decoded (add_torrent_file rq) = inl why' → why = why') →
    allowed t (R_AddTorrent rq) (A_added (unavailable why) empty_AddResponse) t
| al_pause hash :
    allowed t (R_PauseTorrent hash) (A_empty Status_OK)
      (mkTable (alter (with_paused true) (canonical hash) (tb_rows t)) (tb_shutdown t))
| al_resume hash :
    allowed t (R_ResumeTorrent hash) (A_empty Status_OK)
      (mkTable (alter (with_paused false) (canonical hash) (tb_rows t)) (tb_shutdown t))
| al_pause_refused hash why :
    is_Some (tb_rows t !! canonical hash) →
    allowed t (R_PauseTorrent hash) (A_empty (unavailable why)) t
| al_resume_refused hash why :
    is_Some (tb_rows t !! canonical hash) →
    allowed t (R_ResumeTorrent hash) (A_empty (unavailable why)) t.

Inductive allowed_all : table → list (rpc * reply double) → table → Prop :=
| allowed_nil t : allowed_all t [] t
| allowed_snoc t qs t1 q a t2 :
    allowed_all t qs t1 → allowed t1 q a t2 → allowed_all t (qs ++ [(q, a)]) t2.

(** ** What libtorrent documents of a session *)

(** What the status of a torrent shows of the table *)
Definition shown (h : TH) (s : Ses) : option entry :=
  match lt_status_of h s with
  | inl _ => None
  | inr st => Some (mkEntry (lt_save_path st) (lt_paused st))
  end.

(** The same torrents, but for one the same rows. *)
Record same_but (t : option TH) (s s' : Ses) : Prop := {
  sb_torrents h : h ∈ lt_get_torrents s' ↔ h ∈ lt_get_torrents s;
  sb_rows h : h ∈ lt_get_torrents s → Some h ≠ t → shown h s' = shown h s;
}.

Class SessionLaws : Prop := {
  (* status() throws for a handle of no torrent *)
  lt_status_total h s : h ∈ lt_get_torrents s → is_Some (shown h s);
  (* add_torrent makes a torrent, paused if its flags say so... *)
  lt_add_new atp s s' :
    lt_add_torrent atp s = inr s' → lt_find_torrent (lt_ti_hash (atp_ti atp)) s = None →
    ∃ t, lt_info_hash t = lt_ti_hash (atp_ti atp) ∧
      (∀ h, h ∈ lt_get_torrents s' ↔ h = t ∨ h ∈ lt_get_torrents s) ∧
      shown t s' = Some (mkEntry (lt_complete (atp_save_path atp))
                                 (bool_decide (Fl_paused ∈ atp_flags atp))) ∧
      ∀ h, h ∈ lt_get_torrents s → shown h s' = shown h s;
  (* ... or, without duplicate_is_error, returns the one that is there *)
  lt_add_known atp s s' :
    Fl_duplicate_is_error ∉ atp_flags atp →
    lt_add_torrent atp s = inr s' → lt_find_torrent (lt_ti_hash (atp_ti atp)) s ≠ None →
    same_but None s s';
  lt_pause_row t s s' :
    t ∈ lt_get_torrents s → lt_pause t s = inr s' →
    same_but (Some t) s s' ∧ shown t s' = with_paused true <$> shown t s;
  lt_resume_row t s s' :
    t ∈ lt_get_torrents s → lt_resume t s = inr s' →
    same_but (Some t) s s' ∧ shown t s' = with_paused false <$> shown t s;
}.

(** ** Histories *)

(** Calls one after another, with whatever the session does in between: it may
    report progress, peers and rates, but adds, removes, moves, pauses and resumes
    no torrent of its own. *)
Inductive history : ezio Ses → list (rpc * reply double) → ezio Ses → Prop :=
| history_nil e : history e [] e
| history_call e qs e1 now q :
    history e qs e1 → history e (qs ++ [(q, fst (serve now q e1))]) (snd (serve now q e1))
| history_session e qs e1 s :
    history e qs e1 → same_but None (session_ e1) s → history e qs (with_session e1 s).

(** The table that a daemon shows *)
Record represents (e : ezio Ses) (t : table) : Prop := {
  rep_shutdown : tb_shutdown t = shutdown_ e;
  rep_rows k en : tb_rows t !! k = Some en ↔
    ∃ h, h ∈ lt_get_torrents (session_ e) ∧ printed h = k ∧ shown h (session_ e) = Some en;
}.
End spec.
Arguments SessionLaws Ses TH node ti sha1 float double {L F}.

(** ** Every answer is allowed *)

Section refinement.
Context {Ses TH node ti sha1 float double : Type}.
Context `{L : Libtorrent Ses TH node ti sha1 float double} `{F : !TorrentFiles ti sha1}.
Context `{!LibtorrentLaws Ses TH node ti sha1 float double}.
Context `{!SessionLaws Ses TH node ti sha1 float double}.
Context (GIT_VERSION : string).
Implicit Types (e : ezio Ses) (s : Ses) (t : table).

Lemma rep_row e t h :
  represents e t → h ∈ lt_get_torrents (session_ e) → tb_rows t !! printed h = shown h (session_ e).
Proof.
  intros [_ Hr] Hh. destruct (lt_status_total h (session_ e) Hh) as [en Hen].
  rewrite Hen. apply Hr. eauto.
Qed.

Lemma rep_is_row e t k :
  represents e t →
  is_Some (tb_rows t !! k) ↔ ∃ h, h ∈ lt_get_torrents (session_ e) ∧ k = printed h.
Proof.
  intros Hrep. split.
  - intros [en (h & Hh & <- & _)%(rep_rows _ _ Hrep)]. eauto.
  - intros (h & Hh & ->). rewrite (rep_row _ _ _ Hrep Hh). by apply lt_status_total.
Qed.

(** A table known row by row *)
Lemma represents_intro e t :
  tb_shutdown t = shutdown_ e →
  (∀ h, h ∈ lt_get_torrents (session_ e) → tb_rows t !! printed h = shown h (session_ e)) →
  (∀ k, is_Some (tb_rows t !! k) → ∃ h, h ∈ lt_get_torrents (session_ e) ∧ k = printed h) →
  represents e t.
Proof.
  intros Hsd Hrow Hkey. split; [done|]. intros k en. split.
  - intros Hk. destruct (Hkey k) as (h & Hh & ->); [done|]. exists h. split_and!; [done..|].
    by rewrite <-Hrow.
  - intros (h & Hh & <- & Hen). by rewrite Hrow.
Qed.

Lemma rep_same e t s : represents e t → same_but None (session_ e) s → represents (with_session e s) t.
Proof.
  intros Hrep [Ht Hr]. apply represents_intro; simpl; [apply Hrep|..].
  - intros h Hh%Ht. rewrite Hr by done. by apply rep_row.
  - intros k Hk%(rep_is_row _ _ _ Hrep). by setoid_rewrite Ht.
Qed.

(** One row changes. *)
Lemma rep_alter e t f h s :
  represents e t → h ∈ lt_get_torrents (session_ e) → same_but (Some h) (session_ e) s →
  shown h s = f <$> shown h (session_ e) →
  represents (with_session e s) (mkTable (alter f (printed h) (tb_rows t)) (tb_shutdown t)).
Proof.
  intros Hrep Hh [Ht Hr] Hf. apply represents_intro; simpl; [apply Hrep|..].
  - intros h' Hh'%Ht. destruct (decide (printed h' = printed h)) as [E|Hne].
    + assert (h' = h) as -> by by apply (printed_inj (session_ e)).
      rewrite lookup_alter_eq, Hf. f_equal. by apply rep_row.
    + rewrite lookup_alter_ne by done. rewrite Hr; [by apply rep_row|done|congruence].
  - intros k Hk%lookup_alter_is_Some. setoid_rewrite Ht. by apply (rep_is_row _ _ _ Hrep).
Qed.

(** A row comes. *)
Lemma rep_new e t h en s :
  represents e t → (∀ h', h' ∈ lt_get_torrents s ↔ h' = h ∨ h' ∈ lt_get_torrents (session_ e)) →
  tb_rows t !! printed h = None → shown h s = Some en →
  (∀ h', h' ∈ lt_get_torrents (session_ e) → shown h' s = shown h' (session_ e)) →
  represents (with_session e s) (mkTable (<[printed h := en]> (tb_rows t)) (tb_shutdown t)).
Proof.
  intros Hrep Ht Hnone Hen Hr. apply represents_intro; simpl; [apply Hrep|..].
  - intros h' [->|Hh']%Ht; [by rewrite lookup_insert_eq|].
    rewrite Hr by done. rewrite lookup_insert_ne; [by apply rep_row|].
    intros E. rewrite E in Hnone. apply eq_None_not_Some in Hnone. apply Hnone.
    rewrite (rep_row _ _ _ Hrep Hh'). by apply lt_status_total.
  - intros k. rewrite lookup_insert_is_Some'. setoid_rewrite Ht.
    intros [<-|Hk%(rep_is_row _ _ _ Hrep)]; naive_solver.
Qed.

Lemma find_canonical e hash h :
  lt_find_torrent (lt_scan_hash hash) (session_ e) = Some h →
  h ∈ lt_get_torrents (session_ e) ∧ printed h = canonical hash.
Proof. intros [Hh E]%lt_find_spec. split; [done|]. unfold printed, canonical. by rewrite E. Qed.

Lemma find_no_row e t hash :
  represents e t → lt_find_torrent (lt_scan_hash hash) (session_ e) = None →
  tb_rows t !! canonical hash = None.
Proof.
  intros Hrep Hnone. apply eq_None_not_Some. intros (h & Hh & E)%(rep_is_row _ _ _ Hrep).
  apply print_hash_inj in E.
  assert (lt_find_torrent (lt_scan_hash hash) (session_ e) = Some h) by by apply lt_find_spec.
  congruence.
Qed.

Lemma add_allowed e t rq :
  represents e t → ∃ t', let '(status, response, e') := AddTorrent rq e in
    allowed GIT_VERSION t (R_AddTorrent rq) (A_added status response) t' ∧ represents e' t'.
Proof.
  intros Hrep. unfold AddTorrent, add_torrent.
  destruct (lt_bdecode _) as [n|] eqn:Hn; simpl.
  2: { exists t. split; [|done]. apply al_add_refused. unfold decoded. rewrite Hn. by intros ? [= <-]. }
  destruct (lt_torrent_info n) as [info|] eqn:Hi; simpl.
  2: { exists t. split; [|done]. apply al_add_refused. unfold decoded. rewrite Hn, Hi. by intros ? [= <-]. }
  assert (decoded (add_torrent_file rq) = inr info) as Hdec by (unfold decoded; by rewrite Hn, Hi).
  destruct (lt_add_torrent _ _) as [ex|s'] eqn:Ha; simpl.
  { exists t. split; [|done]. apply al_add_refused. rewrite Hdec. done. }
  eexists. split; [by apply al_add|]. unfold add_row.
  match type of Ha with context [mkParams _ _ _ _ ?fl] =>
    assert ((Fl_paused ∉ fl) ∧ (Fl_duplicate_is_error ∉ fl)) as [Hpaused Hdup]
      by (unfold flags_or; destruct (add_seeding_mode rq), (add_sequential_download rq); set_solver)
  end.
  destruct (lt_find_torrent (lt_ti_hash info) (session_ e)) as [h|] eqn:Hf.
  - assert (tb_rows t !! lt_print_hash (lt_ti_hash info) = shown h (session_ e)) as ->.
    { apply lt_find_spec in Hf as [Hh <-]. by apply rep_row. }
    destruct (lt_status_total h (session_ e)) as [en ->]; [by apply lt_find_spec in Hf as [? _]|].
    destruct t. apply rep_same; [done|]. eapply lt_add_known; [|exact Ha|]; simpl; congruence || done.
  - destruct (lt_add_new _ _ _ Ha Hf) as (h & Hh & Ht & Hen & Hr). simpl in Hh, Hen.
    rewrite bool_decide_eq_false_2 in Hen by done.
    assert (tb_rows t !! printed h = None) as Hnone.
    { unfold printed. rewrite Hh, <-(lt_scan_print (lt_ti_hash info)).
      apply (find_no_row e); [done|]. by rewrite lt_scan_print. }
    rewrite <-Hh. fold (printed h). rewrite Hnone. by apply rep_new.
Qed.

(** Pause and resume are the same up to the call they make. *)
Lemma guarded_allowed e t hash b (call : TH → Ses → result Ses) :
  represents e t →
  (∀ h s s', h ∈ lt_get_torrents s → call h s = inr s' →
     same_but (Some h) s s' ∧ shown h s' = with_paused b <$> shown h s) →
  let '(status, e') :=
    guarded match lt_find_torrent (lt_scan_hash hash) (session_ e) with
            | Some h => match call h (session_ e) with
                        | inl ex => inl ex
                        | inr s => inr (with_session e s)
                        end
            | None => inr e
            end e in
  (status = Status_OK ∧
   represents e' (mkTable (alter (with_paused b) (canonical hash) (tb_rows t)) (tb_shutdown t))) ∨
  (∃ why, status = unavailable why ∧ is_Some (tb_rows t !! canonical hash) ∧ represents e' t).
Proof.
  intros Hrep Hcall. destruct (lt_find_torrent _ _) as [h|] eqn:Hf; simpl.
  - apply find_canonical in Hf as [Hh <-].
    destruct (call h (session_ e)) as [ex|s'] eqn:Hc; simpl.
    + right. exists (exn_what ex). split_and!; [done| |done]. apply (rep_is_row _ _ _ Hrep). eauto.
    + left. split; [done|]. destruct (Hcall _ _ _ Hh Hc) as [Hsame Hrow]. by apply rep_alter.
  - left. split; [done|]. rewrite alter_id; [by destruct t|].
    intros en Hen. by rewrite (find_no_row _ _ _ Hrep Hf) in Hen.
Qed.

Lemma status_allowed now hashes e t :
  represents e t → ∃ response, GetTorrentStatus now hashes e = inr (Status_OK, response) ∧
    allowed GIT_VERSION t (R_GetTorrentStatus hashes) (A_torrents Status_OK response) t.
Proof.
  intros Hrep.
  destruct (get_torrent_status_collected now hashes e) as (m & Hm & Hcol).
  { intros h Hh. destruct (lt_status_total h _ Hh) as [en Hen]. unfold shown in Hen.
    destruct (lt_status_of h _) as [|st]; [done|eauto]. }
  unfold GetTorrentStatus. rewrite Hm. eexists. split; [done|].
  assert (∀ k, k ∈ m.*1 ↔ is_Some (tb_rows t !! k)) as Hkeys.
  { intros k. by rewrite (rep_is_row _ _ _ Hrep), (col_keys _ _ _ _ Hcol). }
  apply al_torrents; rewrite ?fill_response_keys; simpl; [apply Hcol|done|].
  intros k. rewrite fill_response_lookup. cbn [us_torrents]. rewrite lookup_empty.
  destruct (find k m) as [v|] eqn:Hk; simpl.
  - assert (k ∈ m.*1) as Hin by (apply dec_stable; intros Hn%find_none; congruence).
    apply (col_keys _ _ _ _ Hcol) in Hin as (h & Hh & ->).
    destruct (col_values _ _ _ _ Hcol h Hh) as (st & Hst & Hfind).
    rewrite Hfind in Hk. simplify_eq. rewrite (rep_row _ _ _ Hrep Hh). unfold shown. by rewrite Hst.
  - symmetry. apply eq_None_not_Some. rewrite <-Hkeys. by apply find_none.
Qed.

Lemma serve_allowed now q e t :
  represents e t →
  ∃ t', allowed GIT_VERSION t q (fst (serve GIT_VERSION now q e)) t' ∧
        represents (snd (serve GIT_VERSION now q e)) t'.
Proof.
  intros Hrep. destruct q as [|hashes|rq|hash|hash|]; simpl.
  - eexists. split; [apply al_shutdown|]. split; [done|apply Hrep].
  - destruct (status_allowed now hashes e t Hrep) as (r & -> & Hal). by exists t.
  - destruct (add_allowed e t rq Hrep) as [t' Hal].
    destruct (AddTorrent rq e) as [[status response] e']. by exists t'.
  - pose proof (guarded_allowed e t hash true lt_pause Hrep lt_pause_row) as Hg.
    unfold PauseTorrent, pause_torrent. destruct (guarded _ e) as [status e'].
    destruct Hg as [[-> Hr]|(why & -> & Hk & Hr)]; eexists; (split; [|exact Hr]); by constructor.
  - pose proof (guarded_allowed e t hash false lt_resume Hrep lt_resume_row) as Hg.
    unfold ResumeTorrent, resume_torrent. destruct (guarded _ e) as [status e'].
    destruct Hg as [[-> Hr]|(why & -> & Hk & Hr)]; eexists; (split; [|exact Hr]); by constructor.
  - exists t. split; [apply al_version|done].
Qed.

Lemma represents_new s :
  lt_get_torrents s = [] → represents (new_ezio s) (mkTable ∅ false).
Proof.
  intros Hs. apply represents_intro; simpl; [done|..].
  - rewrite Hs. by intros h ?%elem_of_nil.
  - intros k. rewrite lookup_empty. by intros [].
Qed.
End refinement.

(** C14: the service is a table of torrents.  Under what libtorrent documents of a
    session, every history of calls, from an empty session and with the session at
    work in between, is answered as the table answers: an added torrent is listed
    once, under its info hash and with its path, not paused, and stays as it was
    when added again; pausing and resuming change that row alone; what the service
    refuses changes nothing; each list of torrents is the table, in order; and the
    daemon then shows that table. *)
Theorem service_refines_table {Ses TH node ti sha1 float double}
    `{L : Libtorrent Ses TH node ti sha1 float double} `{F : !TorrentFiles ti sha1}
    `{!LibtorrentLaws Ses TH node ti sha1 float double}
    `{!SessionLaws Ses TH node ti sha1 float double}
    GIT_VERSION (s : Ses) calls (e : ezio Ses) :
  lt_get_torrents s = [] → history GIT_VERSION (new_ezio s) calls e →
  ∃ t, allowed_all GIT_VERSION (mkTable ∅ false) calls t ∧ represents e t.
Proof.
  intros Hs. remember (new_ezio s) as e0 eqn:He0.
  induction 1 as [e0|e0 calls e1 now q _ IH|e0 calls e1 s1 _ IH Hsame]; subst.
  - exists (mkTable ∅ false). split; [constructor|by apply represents_new].
  - destruct (IH eq_refl) as (t & Hall & Hrep).
    destruct (serve_allowed GIT_VERSION now q e1 t Hrep) as (t' & Hal & Hrep').
    exists t'. split; [by econstructor|done].
  - destruct (IH eq_refl) as (t & Hall & Hrep). exists t. split; [done|by apply rep_same].
Qed.

(** ** Witness: the session in memory *)

Import ToySession.

#[export] Instance toy_files : TorrentFiles (list byte) string := {
  lt_ti_hash := name_of;
  lt_complete path := path;
}.

Lemma toy_alter (s : session) h f b :
  (∀ st, lt_paused (f st) = b ∧ lt_save_path (f st) = lt_save_path st) →
  same_but (Some h) s (alter f h s) ∧
  shown h (alter f h s) = with_paused b <$> shown h s.
Proof.
  intros Hf. split; [split|].
  - intros h'. by rewrite !toy_torrents, lookup_alter_is_Some.
  - intros h' _ Hne. unfold shown. simpl. rewrite lookup_alter_ne; [done|]. intros ->. by apply Hne.
  - unfold shown. simpl. rewrite lookup_alter_eq. destruct (s !! h) as [st|]; [|done]. simpl.
    destruct (Hf st) as [-> ->]. done.
Qed.

#[export] Instance toy_session_laws :
  SessionLaws session string (list byte) (list byte) string Z Z.
Proof.
  split.
  - intros h s [st Hst]%toy_torrents. unfold shown. simpl. by rewrite Hst.
  - intros atp s s' Ha Hf. simpl in Ha, Hf.
    destruct (s !! name_of (atp_ti atp)) eqn:E; [done|]. injection Ha as <-.
    exists (name_of (atp_ti atp)). split_and!; [done|..].
    + intros h. rewrite !toy_torrents, lookup_insert_is_Some'. naive_solver.
    + unfold shown. simpl. by rewrite lookup_insert_eq.
    + intros h [st Hst]%toy_torrents. unfold shown. simpl. rewrite lookup_insert_ne; [done|congruence].
  - intros atp s s' Hdup Ha Hf. simpl in Ha, Hf. destruct (s !! name_of (atp_ti atp)); [|done].
    rewrite bool_decide_eq_false_2 in Ha by done. by injection Ha as <-.
  - intros h s s' _ [= <-]. by apply toy_alter.
  - intros h s s' _ [= <-]. by apply toy_alter.
Qed.

Definition toy_request : AddRequest := mkAddRequest [x00; x01] "/dev/sda1" false 0 0 false.

(** A torrent is added, paused, and listed. *)
Definition toy_calls : list rpc :=
  [R_AddTorrent toy_request; R_PauseTorrent "aa"; R_GetTorrentStatus []].

Fixpoint call_all (qs : list rpc) (e : ezio session) : list (rpc * reply Z) * ezio session :=
  match qs with
  | [] => ([], e)
  | q :: qs =>
      let '(a, e) := serve "1.0" 7 q e in
      let '(answers, e) := call_all qs e in ((q, a) :: answers, e)
  end.

Lemma call_all_history qs : ∀ e0 before e,
  history "1.0" e0 before e →
  history "1.0" e0 (before ++ fst (call_all qs e)) (snd (call_all qs e)).
Proof.
  induction qs as [|q qs IH]; intros e0 before e Hh; cbn [call_all].
  - cbn [fst snd]. by rewrite app_nil_r.
  - pose proof (history_call "1.0" e0 before e 7 q Hh) as Hh1.
    destruct (serve "1.0" 7 q e) as [a e1] eqn:Hs. cbn [fst snd] in Hh1. apply IH in Hh1.
    destruct (call_all qs e1) as [answers e2]. cbn [fst snd] in *.
    by rewrite <-app_assoc in Hh1.
Qed.

Lemma service_refines_table_witness :
  ∃ t, allowed_all "1.0" (mkTable ∅ false) (fst (call_all toy_calls (new_ezio ∅))) t ∧
       represents (snd (call_all toy_calls (new_ezio ∅))) t ∧
       tb_rows t !! "aa" = Some (mkEntry "/dev/sda1" true).
Proof.
  destruct (service_refines_table "1.0" (∅ : session) (fst (call_all toy_calls (new_ezio ∅)))
    (snd (call_all toy_calls (new_ezio ∅)))) as (t & Hall & Hrep).
  - reflexivity.
  - apply (call_all_history toy_calls (new_ezio ∅) [] (new_ezio ∅)). constructor.
  - exists t. split; [exact Hall|]. split; [exact Hrep|].
    apply (rep_rows _ _ Hrep). exists "aa". split; [|split; reflexivity].
    apply toy_torrents. vm_compute. eauto.
Defined.
