(* ===== verification/Log.v ===== *)
(** * The reporting threads (log.hpp, log.cpp)

    One turn of each loop of [log]: [report_speed] asks the daemon for the status
    of every torrent and logs a line for each, [report_alert] takes the alerts
    that wait and logs each of them.  A line is its values; turning them into text
    is spdlog's.  The arithmetic on [double] is that of IEEE binary64. *)

From Stdlib Require Import String SpecFloat.
From S2P Require Import Prelude Daemon.

(** ** double *)

Abbreviation double := spec_float.

(** A double from an integer, rounded to nearest even; the operators * and / *)
Definition double_of (z : Z) : double := binary_normalize 53 1024 z 0 false.
Definition double_mul : double → double → double := SFmul 53 1024.
Definition double_div : double → double → double := SFdiv 53 1024.

(** int(d): the fraction is cut off; none where that is not an [int] (too large,
    infinite or not a number), which is undefined. *)
Definition int_of_double (d : double) : option Z :=
  match d with
  | S754_zero _ => Some 0
  | S754_finite sgn m e =>
      let q := if 0 <=? e then Zpos m * 2 ^ e else Zpos m / 2 ^ (- e) in
      let z := if sgn then - q else q in
      if (- 2 ^ 31 <=? z) && (z <? 2 ^ 31) then Some z else None
  | S754_infinity _ | S754_nan => None
  end.

(** ** Lines *)

Inductive log_line :=
| Speed_line (save_path : string) (percent : option Z) (download upload : double)
    (paused finished : string) (active_time finished_time seeding_time : Z)
| Alert_line (what message : string).

(** (double)rate / 1024 / 1024 *)
Definition megabytes (rate : Z) : double :=
  double_div (double_div (double_of rate) (double_of 1024)) (double_of 1024).

(** The line of a torrent. *)
Definition speed_line (t_stat : torrent_status double) : log_line :=
  Speed_line (ts_save_path t_stat) (int_of_double (double_mul (ts_progress t_stat) (double_of 100)))
    (megabytes (ts_download_rate t_stat)) (megabytes (ts_upload_rate t_stat))
    (if ts_is_paused t_stat then "P" else " ") (if ts_is_finished t_stat then "F" else " ")
    (ts_active_time t_stat) (ts_finished_time t_stat) (ts_seeding_time t_stat).

(** ** The bodies of the loops *)

Section log.
Context {Ses TH node ti sha1 float : Type} `{L : Libtorrent Ses TH node ti sha1 float double}.
Context `{!AlertQueue Ses}.

(** A turn of log::report_speed, after its sleep: the lines, or what it throws. *)
Definition report_speed (now : Z) (m_daemon : ezio Ses) : result (list log_line) :=
  match get_torrent_status now [] m_daemon with
  | inl ex => inl ex
  | inr res => inr ((λ '(_, t_stat), speed_line t_stat) <$> res)
  end.

(** A turn of log::report_alert, after its sleep. *)
Definition report_alert (m_daemon : ezio Ses) : list log_line * ezio Ses :=
  let '(alerts, m_daemon) := pop_alerts m_daemon in
  ((λ a, Alert_line (alert_what a) (alert_message a)) <$> alerts, m_daemon).
End log.

(** 1 MiB/s and half a torrent *)
Example megabytes_one : megabytes 1048576 = double_of 1.
Proof. reflexivity. Qed.

Example percent_half :
  int_of_double (double_mul (double_div (double_of 1) (double_of 2)) (double_of 100)) = Some 50.
Proof. reflexivity. Qed.

Example int_too_large : int_of_double (double_of (2 ^ 31)) = None.
Proof. reflexivity. Qed.
