(* ===== verification/Lifecycle.v ===== *)
(** * The life of the process (main.cpp, log.cpp, config.cpp, service start and stop)

    [main] parses the command line, builds the session, starts the service and the
    two reporting threads, waits for the shutdown flag and takes everything down.
    The threads run side by side, so the process is a step function on a state
    that holds where each of them is: [main], [log::report_speed],
    [log::report_alert] and the handler of the Shutdown call. *)

From Stdlib Require Import String.
From S2P Require Import Prelude.

(** ** The command line *)

(** class config with its member initialisers *)
Record config := mkConfig {
  file_flag : bool;
  listen_address : string;
}.
Definition default_config : config := mkConfig false "127.0.0.1:50051".

(** What boost::program_options makes of an argument vector under the four
    options declared: which were given, and the address if it was. *)
Record bpo_result := mkBpo {
  bpo_help : bool;
  bpo_file : bool;
  bpo_listen : option string;
  bpo_version : bool;
}.

Section command_line.
(** None: the parser throws. *)
Variable bpo_parse : list string → option bpo_result.

(** config::parse_from_argv; nothing catches an exception of the parser. *)
Definition parse_from_argv (argv : list string) (c : config) : outcome config :=
  match bpo_parse argv with
  | None => Fault Std_terminate
  | Some vmap =>
      let c := mkConfig (bpo_file vmap) (default (listen_address c) (bpo_listen vmap)) in
      if bpo_help vmap then Fault (Process_exit 0)
      else if bpo_version vmap then Fault (Process_exit 0)
      else Ret c
  end.

(** ** The session *)

Inductive disk_backend := Default_disk_io | Raw_disk_io.

(** The parameters that main sets. *)
Record session_params := mkSessionParams {
  sp_alert_error_status : bool;       (** alert_mask: error | status *)
  sp_encryption : bool;               (** out_enc_policy, in_enc_policy *)
  sp_outgoing_utp : bool;
  sp_incoming_utp : bool;
  sp_prefer_tcp : bool;               (** mixed_mode_algorithm *)
  sp_disk : disk_backend;
}.

Definition main_session_params (c : config) : session_params :=
  mkSessionParams true false false false true
    (if negb (file_flag c) then Raw_disk_io else Default_disk_io).

(** main up to the construction of the session *)
Definition main_setup (argv : list string) : outcome (config * session_params) :=
  let! c := parse_from_argv argv default_config in
  Ret (c, main_session_params c).
End command_line.

(** ** Threads *)

(** A reporting loop: about to test the flag, in its sleep and body, or over. *)
Inductive worker := At_test | Asleep | Done.

(** A std::thread object: not started, running, or joined. *)
Inductive thread := Not_started | Running (w : worker) | Joined.

(** std::thread::join: blocked (None) until the thread is done; it throws when
    there is no thread to join. *)
Inductive join_result := Join_blocked | Join_ok | Join_throws.

Definition join_thread (t : thread) : join_result :=
  match t with
  | Running Done => Join_ok
  | Running _ => Join_blocked
  | Not_started | Joined => Join_throws
  end.

(** Where main is: the statement it executes next. *)
Inductive main_pc :=
| M_service_start            (** service.start(listen_address) *)
| M_log_construct            (** ezio::log log(daemon) *)
| M_wait_test                (** daemon.wait(10): while (!shutdown_) *)
| M_wait_sleep
| M_join_speed               (** log.join(): m_speed.join() *)
| M_join_alert               (** log.join(): m_alert.join() *)
| M_service_stop             (** service.stop() *)
| M_unwind_join_speed        (** return 0; log::~log(): m_speed.join() *)
| M_unwind_join_alert        (** log::~log(): m_alert.join() *)
| M_returned.

#[global] Instance main_pc_eq_dec : EqDecision main_pc.
Proof. solve_decision. Defined.

Inductive server := Not_built | Build_failed | Serving | Stopped.

Record process := mkProcess {
  p_main : main_pc;
  p_shutdown : bool;           (** ezio::shutdown_ *)
  p_server : server;           (** gRPCService::server_ *)
  p_speed : thread;            (** log::m_speed *)
  p_alert : thread;            (** log::m_alert *)
}.

Definition process_start : process := mkProcess M_service_start false Not_built Not_started Not_started.

Definition set_main (pc : main_pc) (p : process) : process :=
  mkProcess pc (p_shutdown p) (p_server p) (p_speed p) (p_alert p).
Definition set_speed (t : thread) (p : process) : process :=
  mkProcess (p_main p) (p_shutdown p) (p_server p) t (p_alert p).
Definition set_alert (t : thread) (p : process) : process :=
  mkProcess (p_main p) (p_shutdown p) (p_server p) (p_speed p) t.
Definition set_server (v : server) (p : process) : process :=
  mkProcess (p_main p) (p_shutdown p) v (p_speed p) (p_alert p).
Definition set_shutdown (p : process) : process :=
  mkProcess (p_main p) true (p_server p) (p_speed p) (p_alert p).

(** ** Steps; None: the thread cannot move *)

(** log::log *)
Definition log_construct (p : process) : process :=
  set_alert (Running At_test) (set_speed (Running At_test) p).

(** A join by main: whatever it throws leaves main, or a destructor, and ends in
    std::terminate. *)
Definition main_join (t : thread) (next : process) : option (outcome process) :=
  match join_thread t with
  | Join_blocked => None
  | Join_ok => Some (Ret next)
  | Join_throws => Some (Fault Std_terminate)
  end.

(** gRPCService::start; BuildAndStart answers null when it fails ([built] is false),
    and nothing looks at it. *)
Definition service_start (built : bool) : server := if built then Serving else Build_failed.

(** gRPCService::stop: server_->Shutdown(...) *)
Definition service_stop (sv : server) : outcome server :=
  match sv with
  | Not_built | Build_failed => Fault Null_deref
  | Serving | Stopped => Ret Stopped
  end.

(** ezio::wait: the test of its loop, and its sleep *)
Definition wait_test (shutdown_ : bool) : main_pc := if shutdown_ then M_join_speed else M_wait_sleep.

(** The next statement of main; [built] is whether BuildAndStart succeeds. *)
Definition main_step (built : bool) (p : process) : option (outcome process) :=
  match p_main p with
  | M_service_start =>
      Some (Ret (set_main M_log_construct (set_server (service_start built) p)))
  | M_log_construct => Some (Ret (set_main M_wait_test (log_construct p)))
  | M_wait_test => Some (Ret (set_main (wait_test (p_shutdown p)) p))
  | M_wait_sleep => Some (Ret (set_main M_wait_test p))
  | M_join_speed => main_join (p_speed p) (set_main M_join_alert (set_speed Joined p))
  | M_join_alert => main_join (p_alert p) (set_main M_service_stop (set_alert Joined p))
  | M_service_stop =>
      Some (let! sv := service_stop (p_server p) in
            Ret (set_main M_unwind_join_speed (set_server sv p)))
  | M_unwind_join_speed => main_join (p_speed p) (set_main M_unwind_join_alert (set_speed Joined p))
  | M_unwind_join_alert => main_join (p_alert p) (set_main M_returned (set_alert Joined p))
  | M_returned => None
  end.

(** log::report_speed and log::report_alert; [throws]: the body throws. *)
Definition worker_step (throws shutdown : bool) (t : thread) : option (outcome thread) :=
  match t with
  | Running At_test => Some (Ret (Running (if shutdown then Done else Asleep)))
  | Running Asleep => Some (if throws then Fault Std_terminate else Ret (Running At_test))
  | Running Done | Not_started | Joined => None
  end.

Inductive mover :=
| T_main (built : bool)
| T_speed (throws : bool)
| T_alert (throws : bool)
| T_shutdown_call.            (** a client calls Shutdown *)

Definition move (m : mover) (p : process) : option (outcome process) :=
  match m with
  | T_main built => main_step built p
  | T_speed throws =>
      r ← worker_step throws (p_shutdown p) (p_speed p);
      Some (let! t := r in Ret (set_speed t p))
  | T_alert throws =>
      r ← worker_step throws (p_shutdown p) (p_alert p);
      Some (let! t := r in Ret (set_alert t p))
  | T_shutdown_call =>
      match p_server p with
      | Serving => Some (Ret (set_shutdown p))
      | _ => None
      end
  end.

Inductive reachable : process → Prop :=
| reach_start : reachable process_start
| reach_move p m p' : reachable p → move m p = Some (Ret p') → reachable p'.

(** ** What holds in every reachable state *)

Definition started (t : thread) : Prop := ∃ w, t = Running w.

Definition process_inv (p : process) : Prop :=
  match p_main p with
  | M_service_start => p_server p = Not_built ∧ p_speed p = Not_started ∧ p_alert p = Not_started
  | M_log_construct => p_server p ≠ Not_built ∧ p_speed p = Not_started ∧ p_alert p = Not_started
  | M_wait_test | M_wait_sleep => p_server p ≠ Not_built ∧ started (p_speed p) ∧ started (p_alert p)
  | M_join_speed => p_shutdown p = true ∧ started (p_speed p) ∧ started (p_alert p)
  | M_join_alert => p_shutdown p = true ∧ p_speed p = Joined ∧ started (p_alert p)
  | M_service_stop => p_shutdown p = true ∧ p_speed p = Joined ∧ p_alert p = Joined
  | M_unwind_join_speed =>
      p_server p = Stopped ∧ p_shutdown p = true ∧ p_speed p = Joined ∧ p_alert p = Joined
  | M_unwind_join_alert | M_returned => False
  end ∧
  (p_server p = Not_built ∨ p_server p = Build_failed → p_shutdown p = false) ∧
  (p_server p = Stopped → p_main p = M_unwind_join_speed).

Lemma worker_step_running throws sd t t' :
  worker_step throws sd t = Some (Ret t') → started t ∧ started t'.
Proof. unfold worker_step, started. destruct t as [|[]|]; try destruct throws; naive_solver. Qed.

Lemma join_ok_inv t next p' : main_join t next = Some (Ret p') → t = Running Done ∧ p' = next.
Proof. unfold main_join, join_thread. destruct t as [|[]|]; naive_solver. Qed.

Lemma process_inv_move p m p' : process_inv p → move m p = Some (Ret p') → process_inv p'.
Proof.
  destruct p as [pc sd sv sp al]. intros Hinv Hm. destruct m as [built|throws|throws|]; simpl in Hm.
  - destruct pc; unfold main_step, process_inv in *; simpl in *;
      try (apply join_ok_inv in Hm as [-> ->]); unfold started in *;
      destruct sd, built, sv; simplify_eq/=; naive_solver.
  - apply bind_Some in Hm as (r & Hr & Hm). destruct r as [t|]; simplify_eq/=.
    apply worker_step_running in Hr as [[w ->] Ht]. unfold process_inv in *. simpl in *.
    destruct pc; naive_solver.
  - apply bind_Some in Hm as (r & Hr & Hm). destruct r as [t|]; simplify_eq/=.
    apply worker_step_running in Hr as [[w ->] Ht]. unfold process_inv in *. simpl in *.
    destruct pc; naive_solver.
  - destruct sv; simplify_eq/=. unfold process_inv in *. simpl in *. destruct pc; naive_solver.
Qed.

Lemma reachable_inv p : reachable p → process_inv p.
Proof.
  induction 1 as [|p m p' _ IH Hm]; [|by eapply process_inv_move].
  unfold process_inv. simpl. naive_solver.
Qed.

(** ** From the shutdown call to the end *)

Definition worker_left (t : thread) : nat :=
  match t with Running At_test => 1 | Running Asleep => 2 | _ => 0 end.

Definition main_left (pc : main_pc) : nat :=
  match pc with
  | M_service_start => 11 | M_log_construct => 9
  | M_wait_sleep => 6 | M_wait_test => 5 | M_join_speed => 4 | M_join_alert => 3
  | M_service_stop => 2 | M_unwind_join_speed => 1 | M_unwind_join_alert | M_returned => 0
  end.

(** The moves left once the flag is up. *)
Definition moves_left (p : process) : nat :=
  main_left (p_main p) + worker_left (p_speed p) + worker_left (p_alert p).

(** The moves of the process's own threads, when no report throws. *)
Definition own_move (m : mover) : Prop :=
  match m with T_main _ => True | T_speed throws | T_alert throws => throws = false | _ => False end.

Lemma shutdown_move m p :
  process_inv p → p_shutdown p = true → own_move m →
  match move m p with
  | Some (Ret p') => (moves_left p' < moves_left p)%nat ∧ p_shutdown p' = true
  | Some (Fault f) => f = Std_terminate ∧ p_main p = M_unwind_join_speed
  | None => True
  end.
Proof.
  destruct p as [pc sd sv sp al]. unfold process_inv, moves_left, started. simpl.
  intros Hinv -> Hown. destruct m as [built|throws|throws|]; simpl in *; [|subst throws..|done].
  - destruct pc; unfold main_step, main_join; simpl in *; try done;
      try (split; [lia|done]).
    + destruct Hinv as ((_ & [w ->] & _) & _). destruct w; simpl; try done. split; [lia|done].
    + destruct Hinv as ((_ & -> & [w ->]) & _). destruct w; simpl; try done. split; [lia|done].
    + destruct Hinv as ((_ & -> & ->) & Hsv & _).
      destruct sv; simpl; [by discriminate Hsv; left|by discriminate Hsv; right|..];
        (split; [lia|done]).
    + by destruct Hinv as ((-> & _ & -> & ->) & _).
    + naive_solver.
  - destruct sp as [|[]|]; simpl; try done; (split; [lia|done]).
  - destruct al as [|[]|]; simpl; try done; (split; [lia|done]).
Qed.

(** As long as main has not ended, some thread can move. *)
Lemma shutdown_progress p :
  process_inv p → p_shutdown p = true → ∃ m, own_move m ∧ move m p ≠ None.
Proof.
  destruct p as [pc sd sv sp al]. unfold process_inv, started. simpl. intros Hinv ->.
  destruct (decide (pc = M_join_speed)) as [->|Hns].
  { destruct Hinv as ((_ & [w ->] & _) & _).
    destruct w; [exists (T_speed false)|exists (T_speed false)|exists (T_main true)]; done. }
  destruct (decide (pc = M_join_alert)) as [->|Hna].
  { destruct Hinv as ((_ & -> & [w ->]) & _).
    destruct w; [exists (T_alert false)|exists (T_alert false)|exists (T_main true)]; done. }
  exists (T_main true). split; [done|]. unfold move, main_step, main_join. simpl.
  destruct pc; try done; [by destruct Hinv as ((_ & _ & -> & _) & _)|naive_solver..].
Qed.

(** Runs of the process's own threads, without a throwing report, and how they end. *)
Inductive own_run : process → nat → outcome process → Prop :=
| own_nil p : own_run p 0 (Ret p)
| own_fault p m f : own_move m → move m p = Some (Fault f) → own_run p 1 (Fault f)
| own_cons p m p1 n res :
    own_move m → move m p = Some (Ret p1) → own_run p1 n res → own_run p (S n) res.

Lemma own_run_ends p n res :
  own_run p n res → process_inv p → p_shutdown p = true →
  (n ≤ moves_left p)%nat ∧
  match res with
  | Fault f => f = Std_terminate
  | Ret p' => ∃ m, own_move m ∧ move m p' ≠ None
  end.
Proof.
  induction 1 as [p|p m f Hown Hm|p m p1 n res Hown Hm _ IH]; intros Hinv Hsd.
  - split; [lia|]. by apply shutdown_progress.
  - pose proof (shutdown_move m p Hinv Hsd Hown) as Hmv. rewrite Hm in Hmv.
    destruct Hmv as [-> Hpc].
    split; [|done]. unfold moves_left. rewrite Hpc. simpl. lia.
  - pose proof (shutdown_move m p Hinv Hsd Hown) as Hmv. rewrite Hm in Hmv.
    destruct Hmv as [Hlt Hsd1].
    destruct (IH (process_inv_move _ _ _ Hinv Hm) Hsd1) as [Hle Hres]. split; [lia|done].
Qed.

(** There are never more than thirteen. *)
Lemma moves_left_bound p : process_inv p → p_shutdown p = true → (moves_left p ≤ 13)%nat.
Proof.
  intros Hinv Hsd. destruct p as [pc sd sv sp al]. unfold moves_left, process_inv in *. simpl in *.
  destruct sp as [|[]|], al as [|[]|], pc; simpl in *; try lia; naive_solver.
Qed.

(** C32: main joins its reporting threads, and only after a shutdown call.  In every
    reachable state in which main stops the service, the flag is up and both
    reporting threads have ended and been joined; in none has it stopped the
    service with a thread still running. *)
Theorem workers_joined_before_stop p :
  reachable p → p_main p = M_service_stop ∨ p_server p = Stopped →
  p_shutdown p = true ∧ p_speed p = Joined ∧ p_alert p = Joined.
Proof.
  intros (Hpc & _ & Hst)%reachable_inv [E|E]; [rewrite E in Hpc; done|].
  rewrite (Hst E) in Hpc. naive_solver.
Qed.

(** C33: main never returns.  [log.join()] has joined both threads when [log] is
    destroyed, so the join in its destructor throws, and that ends the process:
    no reachable state is past it, and the only move of main there is
    std::terminate. *)
Theorem main_never_returns p :
  reachable p → p_main p ≠ M_returned ∧
  (p_main p = M_unwind_join_speed → ∀ built, move (T_main built) p = Some (Fault Std_terminate)).
Proof.
  intros (Hpc & _)%reachable_inv. split.
  - intros E. by rewrite E in Hpc.
  - intros E built. rewrite E in Hpc. destruct Hpc as (_ & _ & Hsp & _).
    unfold move, main_step, main_join. by rewrite E, Hsp.
Qed.

(** After a shutdown call the process ends.  Once the flag is up, and as long
    as no report throws, the threads of the process can take at most [moves_left]
    moves, in whatever order, always have one to take, and the run can only end
    in std::terminate. *)
Theorem shutdown_ends_the_process p n res :
  reachable p → p_shutdown p = true → own_run p n res →
  (n ≤ moves_left p ≤ 13)%nat ∧
  match res with
  | Fault f => f = Std_terminate
  | Ret p' => ∃ m, own_move m ∧ move m p' ≠ None
  end.
Proof.
  intros Hinv%reachable_inv Hsd Hrun. destruct (own_run_ends _ _ _ Hrun Hinv Hsd) as [Hle Hres].
  split; [|done]. split; [done|]. by apply moves_left_bound.
Qed.

(** Runs of everything that can move, a client's Shutdown call with it, and how they end *)
Inductive runs : process → list mover → outcome process → Prop :=
| runs_nil p : runs p [] (Ret p)
| runs_fault p m f : move m p = Some (Fault f) → runs p [m] (Fault f)
| runs_cons p m p1 ms res : move m p = Some (Ret p1) → runs p1 ms res → runs p (m :: ms) res.

(** No report throws. *)
Definition no_throw (m : mover) : Prop :=
  match m with T_speed throws | T_alert throws => throws = false | T_main _ | T_shutdown_call => True end.

(** Without a server: main on its way to the loop of [wait], or in it *)
Record waiting (p : process) : Prop := {
  wt_server : p_server p = Build_failed;
  wt_shutdown : p_shutdown p = false;
  wt_main : p_main p = M_log_construct ∨ p_main p = M_wait_test ∨ p_main p = M_wait_sleep;
}.

Lemma waiting_move m p r :
  waiting p → no_throw m → move m p = Some r → ∃ p', r = Ret p' ∧ waiting p'.
Proof.
  destruct p as [pc sd sv sp al]. intros [E1 E2 Hpc] Hm. simpl in *. subst sv sd.
  destruct m as [built|throws|throws|]; simpl in *; [|subst throws..|done].
  - destruct Hpc as [-> |[-> | ->]]; intros [= <-]; eexists; (split; [done|]); split; simpl; auto.
  - destruct sp as [|[]|]; intros [= <-]; eexists; (split; [done|]); by split.
  - destruct al as [|[]|]; intros [= <-]; eexists; (split; [done|]); by split.
Qed.

Lemma waiting_runs p ms res :
  runs p ms res → waiting p → Forall no_throw ms → ∃ p', res = Ret p' ∧ waiting p'.
Proof.
  induction 1 as [p|p m f Hm|p m p1 ms res Hm _ IH]; intros Hw Hms.
  - by exists p.
  - apply Forall_cons in Hms as [Hnt _]. by destruct (waiting_move _ _ _ Hw Hnt Hm) as (p' & ? & _).
  - apply Forall_cons in Hms as [Hnt Hms].
    destruct (waiting_move _ _ _ Hw Hnt Hm) as (p' & [= <-] & Hw'). by apply IH.
Qed.

(** C34: a service that does not start cannot be shut down.  If BuildAndStart fails,
    nothing reports it.  From then on, whatever the threads do and whatever a client
    tries, as long as no report throws, the run does not end: the flag stays down,
    main is in the loop of [wait] or on its way there, and its next step keeps it
    there. *)
Theorem failed_start_never_ends p ms res :
  reachable p → p_server p = Build_failed → runs p ms res → Forall no_throw ms →
  ∃ p', res = Ret p' ∧ p_server p' = Build_failed ∧ p_shutdown p' = false ∧
    ∀ built, ∃ p'', move (T_main built) p' = Some (Ret p'') ∧
      (p_main p'' = M_wait_test ∨ p_main p'' = M_wait_sleep).
Proof.
  intros (Hpc & Hsd & _)%reachable_inv E Hrun Hms.
  assert (waiting p) as Hw.
  { rewrite E in Hsd. assert (p_shutdown p = false) by (apply Hsd; by right). split; [done..|].
    destruct (p_main p); naive_solver congruence. }
  destruct (waiting_runs _ _ _ Hrun Hw Hms) as (p' & -> & Hw'). exists p'.
  destruct Hw' as [E1 E2 Hpc']. split_and!; [done..|]. intros built.
  unfold move, main_step, wait_test. rewrite E2.
  destruct Hpc' as [-> |[-> | ->]]; eexists; (split; [done|]); simpl; auto.
Qed.

(** The command line.  A parser error ends the process, [--help] and
    [--version] end it with code 0, and otherwise the session uses the raw-disk
    back end exactly when [--file] is not given, and listens on the address
    given, or on the default. *)
Lemma command_line_outcomes bpo_parse argv :
  main_setup bpo_parse argv =
    match bpo_parse argv with
    | None => Fault Std_terminate
    | Some vm =>
        if bpo_help vm || bpo_version vm then Fault (Process_exit 0)
        else let c := mkConfig (bpo_file vm) (default "127.0.0.1:50051" (bpo_listen vm)) in
             Ret (c, mkSessionParams true false false false true
                       (if bpo_file vm then Default_disk_io else Raw_disk_io))
    end.
Proof.
  unfold main_setup, parse_from_argv, main_session_params.
  destruct (bpo_parse argv) as [vm|]; [|done].
  destruct (bpo_help vm); [done|]. destruct (bpo_version vm); [done|]. simpl.
  by destruct (bpo_file vm).
Qed.

(** ** Witnesses: a run from start to end *)

Fixpoint run_moves (ms : list mover) (p : process) : option process :=
  match ms with
  | [] => Some p
  | m :: ms => match move m p with Some (Ret p') => run_moves ms p' | _ => None end
  end.

Lemma run_moves_reachable ms p p' : reachable p → run_moves ms p = Some p' → reachable p'.
Proof.
  revert p. induction ms as [|m ms IH]; intros p Hp Hrun; simpl in Hrun; [by simplify_eq|].
  destruct (move m p) as [[p1|]|] eqn:Hm; [|done..]. eapply IH; [by econstructor|done].
Qed.

Definition called_moves : list mover := [T_main true; T_main true; T_main true; T_shutdown_call].

Definition stop_moves : list mover :=
  called_moves ++ [T_speed false; T_alert false; T_main true; T_main true; T_main true; T_main true].

Definition after (ms : list mover) : process := default process_start (run_moves ms process_start).

Lemma after_reachable ms :
  run_moves ms process_start = Some (after ms) → reachable (after ms).
Proof. apply run_moves_reachable. constructor. Qed.

Lemma workers_joined_before_stop_witness :
  p_main (after stop_moves) = M_service_stop ∧ p_speed (after stop_moves) = Joined.
Proof.
  split; [reflexivity|].
  apply (workers_joined_before_stop (after stop_moves)); [by apply after_reachable|left; reflexivity].
Defined.

Lemma main_never_returns_witness :
  move (T_main true) (after (stop_moves ++ [T_main true])) = Some (Fault Std_terminate).
Proof.
  apply (main_never_returns (after (stop_moves ++ [T_main true]))); [by apply after_reachable|reflexivity].
Defined.

Lemma shutdown_ends_the_process_witness :
  (0 ≤ moves_left (after called_moves) ≤ 13)%nat ∧
  ∃ m, own_move m ∧ move m (after called_moves) ≠ None.
Proof.
  apply (shutdown_ends_the_process (after called_moves) 0 (Ret (after called_moves)));
    [by apply after_reachable|reflexivity|constructor].
Defined.

Lemma failed_start_never_ends_witness :
  ∃ p', p_shutdown p' = false ∧ runs (after [T_main false; T_main true]) [T_main true; T_main true] (Ret p').
Proof.
  assert (runs (after [T_main false; T_main true]) [T_main true; T_main true]
            (Ret (after [T_main false; T_main true; T_main true; T_main true]))) as Hrun
    by (do 2 (econstructor; [reflexivity|]); constructor).
  destruct (failed_start_never_ends (after [T_main false; T_main true]) [T_main true; T_main true]
    (Ret (after [T_main false; T_main true; T_main true; T_main true])))
    as (p' & E & _ & Hsd & _).
  - by apply after_reachable.
  - reflexivity.
  - exact Hrun.
  - by repeat constructor.
  - exists p'. split; [exact Hsd|]. rewrite <-E. exact Hrun.
Defined.
