(* ===== verification/System.v ===== *)
(** * The threads of the process (main.cpp with daemon, service and log)

    [Lifecycle] follows the threads and leaves open what they compute; here the
    daemon, the RPCs it serves and the lines it logs are put in.  The flag that
    the threads test is the daemon's own, a Shutdown call is one RPC among the
    others, and a reporting thread throws exactly when the daemon does.  The
    session may change between any two steps; its disk back end is put in by
    [Process]. *)

From Stdlib Require Import String SpecFloat.
From S2P Require Import Prelude Daemon Service ServiceSpec Log Lifecycle.

(** The objects of main: the daemon, the server and the log with its two threads,
    and the lines logged so far. *)
Record system (Ses : Type) := mkSystem {
  sy_main : main_pc;
  sy_daemon : ezio Ses;
  sy_server : server;
  sy_speed : thread;           (** log::m_speed *)
  sy_alert : thread;           (** log::m_alert *)
  sy_log : list log_line;
}.
Arguments mkSystem {Ses}.
Arguments sy_main {Ses}.
Arguments sy_daemon {Ses}.
Arguments sy_server {Ses}.
Arguments sy_speed {Ses}.
Arguments sy_alert {Ses}.
Arguments sy_log {Ses}.

(** The threads of it *)
Definition process_of {Ses} (y : system Ses) : process :=
  mkProcess (sy_main y) (get_shutdown (sy_daemon y)) (sy_server y) (sy_speed y) (sy_alert y).

Inductive event (Ses : Type) :=
| Y_main (built : bool)
| Y_speed (now : Z)
| Y_alert
| Y_call (now : Z) (q : rpc)
| Y_session (s : Ses).
Arguments Y_main {Ses} built.
Arguments Y_speed {Ses} now.
Arguments Y_alert {Ses}.
Arguments Y_call {Ses} now q.
Arguments Y_session {Ses} s.

Section system.
Context {Ses TH node ti sha1 float : Type} `{L : Libtorrent Ses TH node ti sha1 float double}.
Context `{Q : !AlertQueue Ses} (GIT_VERSION : string).
Abbreviation sys := (system Ses).
Implicit Types y : sys.

Definition system_start (s : Ses) : sys :=
  mkSystem M_service_start (new_ezio s) Not_built Not_started Not_started [].

(** The process with the threads as main left them *)
Definition with_process (p : process) (y : sys) : sys :=
  mkSystem (p_main p) (sy_daemon y) (p_server p) (p_speed p) (p_alert p) (sy_log y).

Definition set_daemon (e : ezio Ses) (y : sys) : sys :=
  mkSystem (sy_main y) e (sy_server y) (sy_speed y) (sy_alert y) (sy_log y).

Definition set_sy_speed (t : thread) (y : sys) : sys :=
  mkSystem (sy_main y) (sy_daemon y) (sy_server y) t (sy_alert y) (sy_log y).

Definition set_sy_alert (t : thread) (y : sys) : sys :=
  mkSystem (sy_main y) (sy_daemon y) (sy_server y) (sy_speed y) t (sy_log y).

Definition add_lines (ls : list log_line) (y : sys) : sys :=
  mkSystem (sy_main y) (sy_daemon y) (sy_server y) (sy_speed y) (sy_alert y) (sy_log y ++ ls).

(** while (!m_daemon.get_shutdown()) *)
Definition loop_test (y : sys) : thread :=
  Running (if get_shutdown (sy_daemon y) then Done else Asleep).

(** log::report_speed: the test, or the sleep and a turn; an exception leaves the
    thread's function. *)
Definition speed_step (now : Z) (y : sys) : option (outcome sys) :=
  match sy_speed y with
  | Running At_test => Some (Ret (set_sy_speed (loop_test y) y))
  | Running Asleep =>
      Some match report_speed now (sy_daemon y) with
           | inl _ => Fault Std_terminate
           | inr ls => Ret (set_sy_speed (Running At_test) (add_lines ls y))
           end
  | Running Done | Not_started | Joined => None
  end.

(** log::report_alert *)
Definition alert_step (y : sys) : option (outcome sys) :=
  match sy_alert y with
  | Running At_test => Some (Ret (set_sy_alert (loop_test y) y))
  | Running Asleep =>
      let '(ls, e) := report_alert (sy_daemon y) in
      Some (Ret (set_sy_alert (Running At_test) (add_lines ls (set_daemon e y))))
  | Running Done | Not_started | Joined => None
  end.

(** A call reaches the service while the server is up. *)
Definition call_step (now : Z) (q : rpc) (y : sys) : option (outcome sys) :=
  match sy_server y with
  | Serving => Some (Ret (set_daemon (snd (serve (double := double) GIT_VERSION now q (sy_daemon y))) y))
  | _ => None
  end.

Definition happen (ev : event Ses) (y : sys) : option (outcome sys) :=
  match ev with
  | Y_main built =>
      r ← main_step built (process_of y);
      Some (let! p := r in Ret (with_process p y))
  | Y_speed now => speed_step now y
  | Y_alert => alert_step y
  | Y_call now q => call_step now q y
  | Y_session s => Some (Ret (set_daemon (with_session (sy_daemon y) s) y))
  end.

(** Runs of the system, with how they end; [can] is what the session may become. *)
Inductive system_run (can : Ses → Ses → Prop) : sys → list (event Ses) → outcome sys → Prop :=
| run_nil y : system_run can y [] (Ret y)
| run_snoc y evs y1 ev res :
    system_run can y evs (Ret y1) → happen ev y1 = Some res →
    match ev with Y_session s => can (session_ (sy_daemon y1)) s | _ => True end →
    system_run can y (evs ++ [ev]) res.

(** ** The threads of the system are those of the process *)

(** The move of the process that an event is, if it is one. *)
Definition move_of (ev : event Ses) (y : sys) : option mover :=
  match ev with
  | Y_main built => Some (T_main built)
  | Y_speed now =>
      Some (T_speed (match report_speed now (sy_daemon y) with inl _ => true | inr _ => false end))
  | Y_alert => Some (T_alert false)
  | Y_call _ R_Shutdown => Some T_shutdown_call
  | Y_call _ _ | Y_session _ => None
  end.

Lemma guarded_shutdown (r : result (ezio Ses)) (e : ezio Ses) :
  (∀ e', r = inr e' → shutdown_ e' = shutdown_ e) → shutdown_ (snd (guarded r e)) = shutdown_ e.
Proof. intros Hr. destruct r as [ex|e']; [done|]. by apply Hr. Qed.

Lemma found_shutdown (found : option TH) (call : TH → result Ses) (e e' : ezio Ses) :
  match found with
  | Some h => match call h with inl ex => inl ex | inr s => inr (with_session e s) end
  | None => inr e
  end = inr e' → shutdown_ e' = shutdown_ e.
Proof. repeat case_match; naive_solver. Qed.

(** Only Shutdown moves the flag. *)
Lemma serve_shutdown now q e :
  shutdown_ (snd (serve (double := double) GIT_VERSION now q e)) =
    match q with R_Shutdown => true | _ => shutdown_ e end.
Proof.
  destruct q as [|hashes|rq|hash|hash|]; simpl; [done|..|done].
  - by destruct (GetTorrentStatus _ _ _) as [|[]].
  - unfold AddTorrent. destruct (guarded _ e) as [st e'] eqn:Hg. simpl.
    change e' with (snd (st, e')). rewrite <-Hg. apply guarded_shutdown.
    unfold add_torrent. intros e1. repeat case_match; naive_solver.
  - unfold PauseTorrent. destruct (guarded _ e) as [st e'] eqn:Hg. simpl.
    change e' with (snd (st, e')). rewrite <-Hg. apply guarded_shutdown.
    intros e1. apply found_shutdown.
  - unfold ResumeTorrent. destruct (guarded _ e) as [st e'] eqn:Hg. simpl.
    change e' with (snd (st, e')). rewrite <-Hg. apply guarded_shutdown.
    intros e1. apply found_shutdown.
Qed.

Lemma main_step_shutdown built p p' : main_step built p = Some (Ret p') → p_shutdown p' = p_shutdown p.
Proof.
  unfold main_step, main_join, service_stop.
  destruct (p_main p); try destruct (p_server p); repeat case_match; intros; by simplify_eq/=.
Qed.

(** What an event does, seen through [process_of]. *)
Lemma happen_moves ev y :
  match move_of ev y with
  | Some m => match happen ev y with
              | Some r => move m (process_of y) = Some (let! y' := r in Ret (process_of y'))
              | None => move m (process_of y) = None
              end
  | None => ∀ y', happen ev y = Some (Ret y') → process_of y' = process_of y
  end.
Proof.
  destruct ev as [built|now| |now q|s]; cbn [happen move_of move].
  - destruct (main_step built (process_of y)) as [[p|f]|] eqn:Hm; simpl; [|done..].
    rewrite <-Hm. apply main_step_shutdown in Hm as Hsd. rewrite Hm. unfold process_of. simpl.
    destruct p; simpl in *. by rewrite Hsd.
  - unfold speed_step, process_of. simpl. destruct (sy_speed y) as [|[]|]; try done; simpl.
    by destruct (report_speed _ _).
  - unfold alert_step, process_of. simpl. destruct (sy_alert y) as [|[]|]; try done; simpl.
    unfold report_alert, pop_alerts. by destruct (lt_pop_alerts _).
  - assert (q ≠ R_Shutdown → ∀ y', call_step now q y = Some (Ret y') → process_of y' = process_of y)
      as Hother.
    { intros Hq y'. unfold call_step. destruct (sy_server y) eqn:Hsv; try done. intros [= <-].
      unfold process_of, get_shutdown. cbn [set_daemon sy_main sy_daemon sy_server sy_speed sy_alert].
      rewrite serve_shutdown, Hsv. by destruct q. }
    destruct q; try (by apply Hother). unfold call_step, process_of. simpl.
    destruct (sy_server y) eqn:Hsv; try done. simpl. by rewrite Hsv.
  - intros y' [= <-]. done.
Qed.

(** Every state of the system is one of the process. *)
Lemma system_run_reachable can s evs res :
  system_run can (system_start s) evs res → ∀ y, res = Ret y → reachable (process_of y).
Proof.
  remember (system_start s) as y0 eqn:Hy0.
  induction 1 as [y0|y0 evs y1 ev res Hrun IH Hev Hcan]; intros y' E; subst.
  - injection E as <-. constructor.
  - specialize (IH eq_refl y1 eq_refl). pose proof (happen_moves ev y1) as Hm.
    destruct (move_of ev y1) as [m|]; [|by rewrite (Hm _ Hev)].
    rewrite Hev in Hm. by eapply reach_move.
Qed.
End system.

(** ** With libtorrent's laws *)

Section lawful.
Context {Ses TH node ti sha1 float : Type} `{L : Libtorrent Ses TH node ti sha1 float double}.
Context `{F : !TorrentFiles ti sha1} `{!SessionLaws Ses TH node ti sha1 float double}.
Context `{Q : !AlertQueue Ses} (GIT_VERSION : string).
Abbreviation sys := (system Ses).
Implicit Types y : sys.

(** Each torrent of the session answers, so the report has nothing to throw. *)
Lemma report_speed_returns now (e : ezio Ses) : ∃ ls, report_speed now e = inr ls.
Proof.
  unfold report_speed. destruct (get_torrent_status now [] e) as [ex|m] eqn:Hm; [|eauto].
  apply collect_status_throws in Hm as (h & Hh & Hex).
  destruct (lt_status_total h _ Hh) as [en Hen]. unfold shown in Hen. by rewrite Hex in Hen.
Qed.

(** The events of the process's own threads *)
Definition own_event (ev : event Ses) : bool :=
  match ev with Y_main _ | Y_speed _ | Y_alert => true | Y_call _ _ | Y_session _ => false end.

Lemma own_event_move ev y :
  own_event ev = true → ∃ m, move_of ev y = Some m ∧ own_move m.
Proof.
  destruct ev; try done; intros _; simpl; eexists; (split; [done|]); simpl; [done| |done].
  destruct (report_speed_returns now (sy_daemon y)) as [ls ->]. done.
Qed.

Lemma own_move_event m y : own_move m → ∃ ev, own_event ev = true ∧ move_of ev y = Some m.
Proof.
  destruct m as [built|throws|throws|]; simpl; [|intros ->..|done].
  - by exists (Y_main built).
  - exists (Y_speed 0). split; [done|]. simpl.
    destruct (report_speed_returns 0 (sy_daemon y)) as [ls ->]. done.
  - by exists Y_alert.
Qed.

(** The flag stays up. *)
Lemma happen_shutdown ev y y' :
  happen GIT_VERSION ev y = Some (Ret y') → get_shutdown (sy_daemon y) = true →
  get_shutdown (sy_daemon y') = true.
Proof.
  intros Hev Hsd. destruct ev as [built|now| |now q|s]; simpl in Hev.
  - destruct (main_step _ _) as [[p|]|]; simplify_eq/=. done.
  - unfold speed_step in Hev. repeat case_match; simplify_eq/=; done.
  - unfold alert_step, report_alert, pop_alerts in Hev. repeat case_match; simplify_eq/=; done.
  - unfold call_step in Hev. case_match; simplify_eq/=. unfold get_shutdown in *.
    rewrite serve_shutdown. by destruct q.
  - by simplify_eq/=.
Qed.

(** The faults of the process: the join in ~log, of a thread joined before. *)
Lemma move_fault m p f :
  process_inv p → own_move m → move m p = Some (Fault f) →
  f = Std_terminate ∧ p_main p = M_unwind_join_speed.
Proof.
  destruct p as [pc sd sv sp al]. unfold process_inv, started. simpl. intros Hinv Hown Hm.
  destruct m as [built|throws|throws|]; simpl in *; [|subst throws..|done].
  - destruct pc; unfold main_step, main_join in Hm; simpl in *; try done.
    + destruct Hinv as ((_ & [w ->] & _) & _). by destruct w.
    + destruct Hinv as ((_ & _ & [w ->]) & _). by destruct w.
    + destruct Hinv as ((-> & _) & Hsv & _). destruct sv; try done; [discriminate Hsv; by left|].
      discriminate Hsv. by right.
    + destruct Hinv as ((_ & _ & -> & _) & _). naive_solver.
    + naive_solver.
  - destruct sp as [|[]|]; naive_solver.
  - destruct al as [|[]|]; naive_solver.
Qed.

(** What is left of the process after a shutdown call *)
Lemma system_shutdown can y evs res :
  process_inv (process_of y) → get_shutdown (sy_daemon y) = true →
  system_run GIT_VERSION can y evs res →
  match res with
  | Fault f => f = Std_terminate ∧
      (length (filter (λ ev, own_event ev = true) evs) ≤ moves_left (process_of y))%nat
  | Ret y' => process_inv (process_of y') ∧ get_shutdown (sy_daemon y') = true ∧
      (length (filter (λ ev, own_event ev = true) evs) + moves_left (process_of y') ≤
       moves_left (process_of y))%nat
  end.
Proof.
  intros Hinv Hsd. induction 1 as [y|y evs y1 ev res Hrun IH Hev Hcan]; [split_and!; done|].
  destruct (IH Hinv Hsd) as (Hinv1 & Hsd1 & Hle). clear IH.
  rewrite filter_app, length_app. pose proof (happen_moves GIT_VERSION ev y1) as Hm.
  rewrite Hev in Hm. destruct (own_event ev) eqn:Hown.
  - rewrite filter_cons_True, filter_nil by done. simpl.
    destruct (own_event_move ev y1 Hown) as (m & Em & Hm_own). rewrite Em in Hm.
    pose proof (shutdown_move m _ Hinv1 Hsd1 Hm_own) as Hmv. rewrite Hm in Hmv.
    destruct res as [y2|f]; simpl in Hmv.
    + destruct Hmv as [Hlt _]. split_and!; [|by eapply happen_shutdown|lia].
      by eapply process_inv_move.
    + destruct Hmv as [-> Hpc]. split; [done|].
      assert (1 ≤ moves_left (process_of y1))%nat; [|lia].
      unfold moves_left, process_of. simpl. rewrite Hpc. simpl. lia.
  - rewrite filter_cons_False, filter_nil by (by rewrite Hown). simpl. rewrite Nat.add_0_r.
    destruct res as [y2|f].
    + split; [|split; [by eapply happen_shutdown|]].
      * destruct (move_of ev y1); [by eapply process_inv_move|]. by rewrite (Hm _ eq_refl).
      * assert (moves_left (process_of y2) = moves_left (process_of y1)) as ->; [|done].
        destruct ev as [| | |now q|s]; try done; simpl in Hev.
        -- unfold call_step in Hev. destruct (sy_server y1); simplify_eq/=. done.
        -- by simplify_eq/=.
    + destruct ev as [| | |now q|s]; try done. simpl in Hev. unfold call_step in Hev.
      by destruct (sy_server y1).
Qed.
End lawful.

(** ** Alerts *)

(** The alerts that the log has *)
Definition reported_alert (l : log_line) : list alert :=
  match l with Alert_line what message => [mkAlert what message] | Speed_line _ _ _ _ _ _ _ _ _ => [] end.

Definition reported {Ses} (y : system Ses) : list alert := concat (reported_alert <$> sy_log y).

Section alerts.
Context {Ses TH node ti sha1 float : Type} `{L : Libtorrent Ses TH node ti sha1 float double}.
Context `{Q : !AlertQueue Ses}.

(** Alerts are queued behind those that wait. *)
Definition posts (s s' : Ses) : Prop := ∃ new, lt_pending s' = lt_pending s ++ new.

Class AlertPosting : Prop := {
  lt_add_posts atp s s' : lt_add_torrent atp s = inr s' → posts s s';
  lt_pause_posts h s s' : lt_pause h s = inr s' → posts s s';
  lt_resume_posts h s s' : lt_resume h s = inr s' → posts s s';
}.

#[global] Instance posts_preorder : PreOrder posts.
Proof.
  split.
  - intros s. exists []. by rewrite app_nil_r.
  - intros s1 s2 s3 [n1 E1] [n2 E2]. exists (n1 ++ n2). by rewrite E2, E1, <-app_assoc.
Qed.

Context `{!AlertQueueLaws Ses} `{!AlertPosting} (GIT_VERSION : string).
Implicit Types y : system Ses.

Lemma guarded_posts (r : result (ezio Ses)) (e : ezio Ses) :
  (∀ e', r = inr e' → posts (session_ e) (session_ e')) →
  posts (session_ e) (session_ (snd (guarded r e))).
Proof. intros Hr. destruct r as [ex|e']; [done|]. by apply Hr. Qed.

Lemma found_posts (found : option TH) (call : TH → Ses → result Ses) (e e' : ezio Ses) :
  (∀ h s s', call h s = inr s' → posts s s') →
  match found with
  | Some h => match call h (session_ e) with inl ex => inl ex | inr s => inr (with_session e s) end
  | None => inr e
  end = inr e' → posts (session_ e) (session_ e').
Proof.
  intros Hcall. destruct found as [h|]; [|by intros [= <-]].
  destruct (call h (session_ e)) eqn:Hc; [done|]. intros [= <-]. by eapply Hcall.
Qed.

Lemma serve_posts now q (e : ezio Ses) :
  posts (session_ e) (session_ (snd (serve (double := double) GIT_VERSION now q e))).
Proof.
  destruct q as [|hashes|rq|hash|hash|]; simpl; [done|..|done].
  - by destruct (GetTorrentStatus _ _ _) as [|[]].
  - unfold AddTorrent. destruct (guarded _ e) as [st e'] eqn:Hg. simpl.
    change e' with (snd (st, e')). rewrite <-Hg. apply guarded_posts.
    unfold add_torrent. intros e1 Ha. repeat case_match; simplify_eq/=; by eapply lt_add_posts.
  - unfold PauseTorrent. destruct (guarded _ e) as [st e'] eqn:Hg. simpl.
    change e' with (snd (st, e')). rewrite <-Hg. apply guarded_posts.
    intros e1. apply found_posts, lt_pause_posts.
  - unfold ResumeTorrent. destruct (guarded _ e) as [st e'] eqn:Hg. simpl.
    change e' with (snd (st, e')). rewrite <-Hg. apply guarded_posts.
    intros e1. apply found_posts, lt_resume_posts.
Qed.

(** Everything that was ever queued: logged, or still waiting. *)
Definition accounted_alerts y : list alert := reported y ++ lt_pending (session_ (sy_daemon y)).

Lemma reported_alerts y e alerts :
  reported (add_lines ((λ a, Alert_line (alert_what a) (alert_message a)) <$> alerts) (set_daemon e y)) =
  reported y ++ alerts.
Proof.
  unfold reported. simpl. rewrite fmap_app, concat_app. f_equal.
  induction alerts as [|[w m] alerts IH]; simpl; [done|]. f_equal. exact IH.
Qed.

Lemma reported_speed y now e ls : report_speed now e = inr ls → reported (add_lines ls y) = reported y.
Proof.
  unfold report_speed. destruct (get_torrent_status now [] e) as [|m]; [done|]. intros [= <-].
  unfold reported. simpl. rewrite fmap_app, concat_app.
  enough (concat (reported_alert <$> ((λ '(_, t_stat), speed_line t_stat) <$> m)) = []) as ->
    by by rewrite app_nil_r.
  induction m as [|[k v] m IH]; done.
Qed.

(** A turn of report_alert logs what waits, and nothing waits then. *)
Lemma alert_turn y :
  sy_alert y = Running Asleep →
  ∃ y', alert_step y = Some (Ret y') ∧ reported y' = accounted_alerts y ∧
    lt_pending (session_ (sy_daemon y')) = [].
Proof.
  intros Hal. unfold alert_step. rewrite Hal. unfold report_alert, pop_alerts.
  pose proof (lt_pop_gives (session_ (sy_daemon y))) as Hg.
  pose proof (lt_pop_empties (session_ (sy_daemon y))) as He.
  destruct (lt_pop_alerts _) as [alerts s]. simpl in *. eexists. split; [done|].
  split; [|done]. unfold accounted_alerts. rewrite <-Hg.
  exact (reported_alerts y (with_session (sy_daemon y) s) alerts).
Qed.

Lemma happen_alerts ev y y' :
  happen GIT_VERSION ev y = Some (Ret y') →
  match ev with Y_session s => posts (session_ (sy_daemon y)) s | _ => True end →
  ∃ new, accounted_alerts y' = accounted_alerts y ++ new.
Proof.
  assert (∀ s, posts (session_ (sy_daemon y)) s → sy_log y' = sy_log y →
    session_ (sy_daemon y') = s → ∃ new, accounted_alerts y' = accounted_alerts y ++ new) as Hposts.
  { intros s [new E] El <-. exists new. unfold accounted_alerts, reported. rewrite El, E.
    by rewrite app_assoc. }
  intros Hev Hs. destruct ev as [built|now| |now q|s]; simpl in Hev.
  - destruct (main_step _ _) as [[p|]|]; simplify_eq/=. by eapply Hposts.
  - unfold speed_step in Hev. destruct (sy_speed y) as [|[]|]; try done.
    + simplify_eq/=. by eapply Hposts.
    + destruct (report_speed _ _) as [|ls] eqn:Hr; [done|]. injection Hev as <-. exists [].
      rewrite app_nil_r. unfold accounted_alerts.
      by rewrite <-(reported_speed y _ _ _ Hr).
  - destruct (sy_alert y) as [|[]|] eqn:Hal; unfold alert_step in Hev; rewrite Hal in Hev; try done.
    + simplify_eq/=. by eapply Hposts.
    + destruct (alert_turn y Hal) as (y1 & Hy1 & Hrep & Hnil). unfold alert_step in Hy1.
      rewrite Hal in Hy1. rewrite Hy1 in Hev. simplify_eq. exists [].
      unfold accounted_alerts at 1. by rewrite Hrep, Hnil, !app_nil_r.
  - unfold call_step in Hev. destruct (sy_server y); try done. injection Hev as <-.
    eapply Hposts; [apply serve_posts|done..].
  - injection Hev as <-. by eapply Hposts.
Qed.
End alerts.
Arguments AlertPosting Ses TH node ti sha1 float {L Q}.

(** The threads fault nowhere but at the join in [log]'s destructor: main is at its end
    then, with both reporting threads joined and the server stopped. *)
Lemma system_fault {Ses TH node ti sha1 float}
    `{L : Libtorrent Ses TH node ti sha1 float double} `{F : !TorrentFiles ti sha1}
    `{!SessionLaws Ses TH node ti sha1 float double} `{Q : !AlertQueue Ses}
    GIT_VERSION (y : system Ses) ev f :
  reachable (process_of y) → happen GIT_VERSION ev y = Some (Fault f) →
  f = Std_terminate ∧ own_event ev = true ∧ get_shutdown (sy_daemon y) = true ∧
  sy_server y = Stopped ∧ sy_speed y = Joined ∧ sy_alert y = Joined.
Proof.
  intros Hinv%reachable_inv Hev. pose proof (happen_moves GIT_VERSION ev y) as Hm.
  rewrite Hev in Hm. destruct (own_event ev) eqn:Hown.
  - destruct (own_event_move ev y Hown) as (m & Em & Hm_own). rewrite Em in Hm.
    destruct (move_fault _ _ _ Hinv Hm_own Hm) as [-> Hpc]. split; [done|]. split; [done|].
    unfold process_inv in Hinv. rewrite Hpc in Hinv. naive_solver.
  - destruct ev as [| | |now q|s']; try done. simpl in Hev. unfold call_step in Hev.
    by destruct (sy_server y).
Qed.

(** C19: a Shutdown call ends the process.  After the call, with other calls and the
    session's own changes in between, the threads of the process take at most
    thirteen more steps, always have one to take, and the run ends in
    std::terminate. *)
Theorem shutdown_call_ends_process {Ses TH node ti sha1 float}
    `{L : Libtorrent Ses TH node ti sha1 float double} `{F : !TorrentFiles ti sha1}
    `{!SessionLaws Ses TH node ti sha1 float double} `{Q : !AlertQueue Ses}
    GIT_VERSION can (s : Ses) evs y now y1 evs' res :
  system_run GIT_VERSION can (system_start s) evs (Ret y) →
  happen GIT_VERSION (Y_call now R_Shutdown) y = Some (Ret y1) →
  system_run GIT_VERSION can y1 evs' res →
  (length (filter (λ ev, own_event ev = true) evs') ≤ 13)%nat ∧
  match res with
  | Fault f => f = Std_terminate
  | Ret y' => ∃ ev, own_event ev = true ∧ happen GIT_VERSION ev y' ≠ None
  end.
Proof.
  intros Hrun Hcall Hrun'.
  assert (system_run GIT_VERSION can (system_start s) (evs ++ [Y_call now R_Shutdown]) (Ret y1))
    as Hrun1 by by econstructor.
  pose proof (reachable_inv _ (system_run_reachable _ _ _ _ _ Hrun1 y1 eq_refl)) as Hinv.
  assert (get_shutdown (sy_daemon y1) = true) as Hsd.
  { simpl in Hcall. unfold call_step in Hcall. destruct (sy_server y); simplify_eq/=. done. }
  pose proof (moves_left_bound _ Hinv Hsd) as Hle.
  pose proof (system_shutdown GIT_VERSION can y1 evs' res Hinv Hsd Hrun') as Hend.
  destruct res as [y'|f].
  - destruct Hend as (Hinv' & Hsd' & Hsum). split; [lia|].
    destruct (shutdown_progress _ Hinv' Hsd') as (m & Hown & Hmove).
    destruct (own_move_event m y' Hown) as (ev & Hev & Em). exists ev. split; [done|].
    intros Hnone. pose proof (happen_moves GIT_VERSION ev y') as Hm. by rewrite Em, Hnone in Hm.
  - destruct Hend as [-> Hn]. split; [lia|done].
Qed.

(** C20: every alert is logged once, in order.  Whatever runs, the alerts logged and
    those that wait in the session's queue are, in this order, those logged and
    waiting before, followed by new ones: none is lost, logged twice or overtaken;
    and a turn of the alert thread logs all that wait. *)
Theorem alerts_logged_in_order {Ses TH node ti sha1 float}
    `{L : Libtorrent Ses TH node ti sha1 float double} `{Q : !AlertQueue Ses}
    `{!AlertQueueLaws Ses} `{!AlertPosting Ses TH node ti sha1 float}
    GIT_VERSION (y : system Ses) evs y' :
  system_run GIT_VERSION posts y evs (Ret y') →
  (∃ new, reported y' ++ lt_pending (session_ (sy_daemon y')) =
          (reported y ++ lt_pending (session_ (sy_daemon y))) ++ new) ∧
  (sy_alert y' = Running Asleep →
   ∃ y'', happen GIT_VERSION Y_alert y' = Some (Ret y'') ∧
     reported y'' = reported y' ++ lt_pending (session_ (sy_daemon y')) ∧
     lt_pending (session_ (sy_daemon y'')) = []).
Proof.
  intros Hrun. split; [|by apply alert_turn].
  change (∃ new, accounted_alerts y' = accounted_alerts y ++ new).
  remember (Ret y') as res eqn:Hres. revert y' Hres.
  induction Hrun as [y|y evs y1 ev res _ IH Hev Hcan]; intros y' E; subst.
  - injection E as <-. exists []. by rewrite app_nil_r.
  - destruct (IH y1 eq_refl) as [n1 E1]. destruct (happen_alerts GIT_VERSION ev y1 y' Hev) as [n2 E2].
    { by destruct ev. }
    exists (n1 ++ n2). by rewrite E2, E1, app_assoc.
Qed.

(** ** Witnesses: a session in memory with a queue of alerts *)

Module ToySystem.
Import ToySession.

Record toy_session := mkToySession {
  toy_torrents_of : session;
  toy_queue : list alert;
}.

Definition lift (r : result session) (news : list alert) (s : toy_session) : result toy_session :=
  match r with inl ex => inl ex | inr t => inr (mkToySession t (toy_queue s ++ news)) end.

#[export] Instance toy_system :
    Libtorrent toy_session string (list byte) (list byte) string Z double := {
  lt_bdecode := lt_bdecode (Libtorrent := toy);
  lt_torrent_info := lt_torrent_info (Libtorrent := toy);
  lt_add_torrent atp s :=
    lift (lt_add_torrent (Libtorrent := toy) atp (toy_torrents_of s)) [mkAlert "add_torrent" "added"] s;
  lt_get_torrents s := lt_get_torrents (Libtorrent := toy) (toy_torrents_of s);
  lt_info_hash := lt_info_hash (Libtorrent := toy);
  lt_status_of h s := lt_status_of (Libtorrent := toy) h (toy_torrents_of s);
  lt_find_torrent h s := lt_find_torrent (Libtorrent := toy) h (toy_torrents_of s);
  lt_pause h s := lift (lt_pause (Libtorrent := toy) h (toy_torrents_of s)) [mkAlert "torrent_paused" h] s;
  lt_resume h s := lift (lt_resume (Libtorrent := toy) h (toy_torrents_of s)) [mkAlert "torrent_resumed" h] s;
  lt_print_hash h := h;
  lt_scan_hash k := k;
  lt_widen := double_of;
}.

#[export] Instance toy_alerts : AlertQueue toy_session := {
  lt_pending := toy_queue;
  lt_pop_alerts s := (toy_queue s, mkToySession (toy_torrents_of s) []);
}.

#[export] Instance toy_alert_laws : AlertQueueLaws toy_session.
Proof. by split. Qed.

Lemma lift_inv r news s s' :
  lift r news s = inr s' →
  r = inr (toy_torrents_of s') ∧ toy_queue s' = toy_queue s ++ news.
Proof. destruct r; [done|]. by intros [= <-]. Qed.

#[export] Instance toy_posting : AlertPosting toy_session string (list byte) (list byte) string Z.
Proof.
  split; intros ? s s' [_ E]%lift_inv; eexists; exact E.
Qed.

#[export] Instance toy_system_laws :
  SessionLaws toy_session string (list byte) (list byte) string Z double.
Proof.
  split.
  - intros h s. apply (lt_status_total (L := toy) h (toy_torrents_of s)).
  - intros atp s s' [Ha _]%lift_inv. apply (lt_add_new (L := toy) atp _ _ Ha).
  - intros atp s s' Hdup [Ha _]%lift_inv Hf. by destruct (lt_add_known (L := toy) atp _ _ Hdup Ha Hf).
  - intros h s s' Hh [Ha _]%lift_inv. by destruct (lt_pause_row (L := toy) h _ _ Hh Ha) as [[] ?].
  - intros h s s' Hh [Ha _]%lift_inv. by destruct (lt_resume_row (L := toy) h _ _ Hh Ha) as [[] ?].
Qed.

Abbreviation toy_event := (event toy_session).

Definition toy_start : system toy_session := system_start (mkToySession ∅ []).

Fixpoint play (evs : list toy_event) (y : system toy_session) : option (outcome (system toy_session)) :=
  match evs with
  | [] => Some (Ret y)
  | ev :: evs =>
      match ev, evs with
      | Y_session _, _ => None
      | _, [] => happen "1.0" ev y
      | _, _ => match happen "1.0" ev y with Some (Ret y) => play evs y | _ => None end
      end
  end.

Lemma play_run can evs : ∀ y0 before y res,
  system_run "1.0" can y0 before (Ret y) → play evs y = Some res →
  system_run "1.0" can y0 (before ++ evs) res.
Proof.
  induction evs as [|ev evs IH]; intros y0 before y res Hrun Hplay.
  - injection Hplay as <-. by rewrite app_nil_r.
  - assert (∃ r, happen "1.0" ev y = Some r ∧ match ev with Y_session _ => False | _ => True end ∧
      match evs with [] => r = res | _ => ∃ y1, r = Ret y1 ∧ play evs y1 = Some res end)
      as (r & Hev & Hns & Hrest).
    { cbn [play] in Hplay. destruct ev, evs; try done;
        match type of Hplay with
        | match ?h with _ => _ end = _ => destruct h as [[y1|]|] eqn:Hh; try done; by eauto 6
        | _ => by eauto
        end. }
    assert (system_run "1.0" can y0 (before ++ [ev]) r) as Hr.
    { econstructor; [done..|]. by destruct ev. }
    destruct evs as [|ev' evs]; [by subst|]. destruct Hrest as (y1 & -> & Hplay1).
    rewrite (app_assoc before [ev] (ev' :: evs) : before ++ ev :: ev' :: evs = _). by eapply IH.
Qed.

Definition start_events : list toy_event := [Y_main true; Y_main true; Y_main true].

(** A torrent is added and both threads report once. *)
Definition report_events : list toy_event :=
  start_events ++ [Y_call 7 (R_AddTorrent toy_request); Y_speed 7; Y_speed 7; Y_alert].

(** A shutdown call, and everything up to the end. *)
Definition ending_events : list toy_event :=
  [Y_speed 8; Y_alert; Y_alert; Y_main true; Y_main true; Y_main true; Y_main true; Y_main true;
   Y_main true].

Definition toy_after (evs : list toy_event) : system toy_session :=
  match play evs toy_start with Some (Ret y) => y | _ => toy_start end.

Lemma toy_after_run can evs :
  play evs toy_start = Some (Ret (toy_after evs)) →
  system_run "1.0" can toy_start evs (Ret (toy_after evs)).
Proof. apply (play_run can evs toy_start []). constructor. Qed.
End ToySystem.
Import ToySystem.

Lemma alerts_logged_in_order_witness :
  sy_alert (toy_after report_events) = Running Asleep ∧
  reported (toy_after report_events) = [] ∧
  ∃ y, happen "1.0" Y_alert (toy_after report_events) = Some (Ret y) ∧
       reported y = [mkAlert "add_torrent" "added"].
Proof.
  split; [reflexivity|]. split; [reflexivity|].
  destruct (proj2 (alerts_logged_in_order "1.0" toy_start report_events (toy_after report_events)
    (toy_after_run _ report_events eq_refl)) eq_refl) as (y & Hy & Hrep & _).
  exists y. split; [exact Hy|]. rewrite Hrep. reflexivity.
Defined.

Definition toy_called : system toy_session := toy_after (report_events ++ [Y_call 8 R_Shutdown]).

Lemma toy_ends can :
  system_run "1.0" can toy_called ending_events (Fault Std_terminate).
Proof. apply (play_run can ending_events toy_called [] toy_called); [constructor|reflexivity]. Qed.

Lemma shutdown_call_ends_process_witness :
  (length (filter (λ ev, own_event ev = true) ending_events) ≤ 13)%nat ∧ Std_terminate = Std_terminate.
Proof.
  exact (shutdown_call_ends_process "1.0" posts (mkToySession ∅ []) report_events
    (toy_after report_events) 8 toy_called ending_events (Fault Std_terminate)
    (toy_after_run _ report_events eq_refl) eq_refl (toy_ends posts)).
Defined.
