(* ===== verification/Process.v ===== *)
(** * The whole process (main.cpp without --file)

    [System] has the threads of main with the daemon, the service and the log;
    [RawDiskIO] the disk back end that main gives the session.  Here they run
    together, in one process: what ends one ends the other.  libtorrent calls
    [new_torrent] with the save path of a torrent it has, and a path that cannot be
    opened ends the process from inside the constructor of partition_storage. *)

From Stdlib Require Import String SpecFloat.
From S2P Require Import Prelude Memory Kernel PartitionStorage RawDiskIO RawDiskIOSteps.
From S2P Require Import RawDiskIODemo RawDiskIOSpec RawDiskIOInv.
From S2P Require Import Daemon Service ServiceSpec Log Lifecycle System.

Record running (Ses K HS digest : Type) := mkRunning {
  ru_system : system Ses;
  ru_disk : disk_io K HS digest;
}.
Arguments mkRunning {Ses K HS digest}.
Arguments ru_system {Ses K HS digest}.
Arguments ru_disk {Ses K HS digest}.

(** A step of a thread of [System], or a call or a job of the back end *)
Inductive happening (Ses : Type) :=
| H_system (ev : event Ses)
| H_disk (l : label).
Arguments H_system {Ses} ev.
Arguments H_disk {Ses} l.

(** Popping the alerts changes no torrent. *)
Class AlertQueueFrame (Ses TH node ti sha1 float : Type)
    `{L : Libtorrent Ses TH node ti sha1 float double} `{Q : !AlertQueue Ses} : Prop := {
  lt_pop_same s : same_but None s (snd (lt_pop_alerts s));
}.

Section process.
Context {Ses TH node ti sha1 float : Type} `{L : Libtorrent Ses TH node ti sha1 float double}.
Context `{Q : !AlertQueue Ses} (GIT_VERSION : string).
Context {K HS digest : Type} `{Kernel K} `{Hasher HS digest}.
Abbreviation proc := (running Ses K HS digest).
Implicit Types p : proc.

(** main up to service.start: the session with its back end, and the daemon *)
Definition process_begin (s : Ses) (h : heap) (k : K) : proc :=
  mkRunning (system_start s) (new_raw_disk_io h k).

Definition process_step (x : happening Ses) (p : proc) : option (outcome proc) :=
  match x with
  | H_system ev =>
      r ← happen GIT_VERSION ev (ru_system p);
      Some (let! y := r in Ret (mkRunning y (ru_disk p)))
  | H_disk l => Some (let! d := exec l (ru_disk p) in Ret (mkRunning (ru_system p) d))
  end.

(** The save path of a torrent of the session *)
Definition save_path_of (path : string) (s : Ses) : Prop :=
  ∃ t en, t ∈ lt_get_torrents s ∧ shown t s = Some en ∧ en_save_path en = path.

(** What libtorrent keeps to: of its own it adds, removes and moves no torrent; it
    gives the back end the torrents it has, whether their paths can be opened or not,
    and otherwise calls it as [disciplined] says. *)
Definition keeps_to (x : happening Ses) (p : proc) : Prop :=
  match x with
  | H_system (Y_session s) => same_but None (session_ (sy_daemon (ru_system p))) s
  | H_system _ => True
  | H_disk (L_new_torrent path files) =>
      save_path_of path (session_ (sy_daemon (ru_system p))) ∧ files_ok files
  | H_disk l => disciplined l (ru_disk p)
  end.

(** Runs of the process, with how they end *)
Inductive process_run : proc → list (happening Ses) → outcome proc → Prop :=
| process_nil p : process_run p [] (Ret p)
| process_snoc p xs p1 x res :
    process_run p xs (Ret p1) → process_step x p1 = Some res → keeps_to x p1 →
    process_run p (xs ++ [x]) res.

(** A run of the threads is a run of the process with an idle back end. *)
Lemma system_run_process y evs res (d : disk_io K HS digest) :
  system_run GIT_VERSION (same_but None) y evs res →
  process_run (mkRunning y d) (H_system <$> evs) (let! y := res in Ret (mkRunning y d)).
Proof.
  induction 1 as [y|y evs y1 ev res _ IH Hev Hcan]; [constructor|].
  rewrite fmap_app. eapply process_snoc; [exact IH|simpl; by rewrite Hev|by destruct ev].
Qed.
End process.

(** ** Which calls the state goes back to *)

Section invariant.
Context {Ses TH node ti sha1 float : Type} `{L : Libtorrent Ses TH node ti sha1 float double}.
Context `{F : !TorrentFiles ti sha1} `{!LibtorrentLaws Ses TH node ti sha1 float double}.
Context `{!SessionLaws Ses TH node ti sha1 float double} `{Q : !AlertQueue Ses}.
Context `{!AlertQueueFrame Ses TH node ti sha1 float} (GIT_VERSION : string).
Context {K HS digest : Type} `{KernelLaws K} `{Hasher HS digest}.
Abbreviation proc := (running Ses K HS digest).
Implicit Types (p : proc) (xs : list (happening Ses)).

Definition shutdown_called xs : Prop := ∃ now, H_system (Y_call now R_Shutdown) ∈ xs.

(** A client asked for a torrent with this path. *)
Definition path_asked xs (path : string) : Prop :=
  ∃ now rq, H_system (Y_call now (R_AddTorrent rq)) ∈ xs ∧ path = lt_complete (add_save_path rq).

(** The table of torrents goes back to calls. *)
Record asked xs (t : table) : Prop := {
  ask_shutdown : tb_shutdown t = true → shutdown_called xs;
  ask_path k en : tb_rows t !! k = Some en → path_asked xs (en_save_path en);
}.

Lemma asked_more xs x t : asked xs t → asked (xs ++ [x]) t.
Proof.
  intros [Hs Hp]. split.
  - intros E. destruct (Hs E) as [now ?]. exists now. apply elem_of_snoc. auto.
  - intros k en Hk. destruct (Hp k en Hk) as (now & rq & ? & ?). exists now, rq.
    rewrite elem_of_snoc. auto.
Qed.

Lemma asked_call xs now q a t t' :
  asked xs t → allowed (double := double) GIT_VERSION t q a t' →
  asked (xs ++ [H_system (Y_call now q)]) t'.
Proof.
  intros Hask Hal. pose proof (asked_more xs (H_system (Y_call now q)) t Hask) as Hmore.
  assert (∀ f k0, (∀ en, en_save_path (f en) = en_save_path en) →
    asked (xs ++ [H_system (Y_call now q)]) (mkTable (alter f k0 (tb_rows t)) (tb_shutdown t))) as Halter.
  { intros f k0 Hf. split; [apply Hmore|]. intros k en. simpl. rewrite lookup_alter_Some.
    intros [(_ & en' & Hk & ->)|[_ Hk]]; [rewrite Hf|]; by eapply (ask_path _ _ Hmore). }
  destruct Hal; try done; try (by apply Halter).
  - split; [|apply Hmore]. intros _. exists now. apply elem_of_snoc. auto.
  - split; [apply Hmore|]. intros k en. simpl. unfold add_row.
    destruct (tb_rows t !! lt_print_hash _); [apply Hmore|]. rewrite lookup_insert_Some.
    intros [[_ <-]|[_ Hk]]; [|by eapply (ask_path _ _ Hmore)].
    exists now, rq. rewrite elem_of_snoc. auto.
Qed.

(** What holds in every state of a run *)
Record process_ok xs p : Prop := {
  pok_threads : reachable (process_of (ru_system p));
  pok_disk : io_inv (ru_disk p);
  pok_asked : ∃ t, represents (sy_daemon (ru_system p)) t ∧ asked xs t;
}.

Lemma happen_asked xs ev y y' t :
  represents (sy_daemon y) t → asked xs t → happen GIT_VERSION ev y = Some (Ret y') →
  match ev with Y_session s => same_but None (session_ (sy_daemon y)) s | _ => True end →
  ∃ t', represents (sy_daemon y') t' ∧ asked (xs ++ [H_system ev]) t'.
Proof.
  intros Hrep Hask Hev Hs. pose proof (asked_more xs (H_system ev) t Hask) as Hmore.
  destruct ev as [built|now| |now q|s]; simpl in Hev.
  - destruct (main_step _ _) as [[pr|]|]; simplify_eq/=. eauto.
  - unfold speed_step in Hev. repeat case_match; simplify_eq/=; eauto.
  - unfold alert_step, report_alert, pop_alerts in Hev.
    pose proof (lt_pop_same (session_ (sy_daemon y))) as Hpop.
    destruct (lt_pop_alerts _) as [alerts s]. destruct (sy_alert y) as [|[]|]; simplify_eq/=; eauto.
    exists t. split; [|done]. by apply rep_same.
  - unfold call_step in Hev. destruct (sy_server y); try done. injection Hev as <-.
    destruct (serve_allowed GIT_VERSION now q _ t Hrep) as (t' & Hal & Hrep').
    exists t'. split; [done|]. by eapply asked_call.
  - injection Hev as <-. exists t. split; [|done]. by apply rep_same.
Qed.

Lemma process_run_ok s h (k : K) xs res p :
  lt_get_torrents s = [] → process_run GIT_VERSION (process_begin s h k) xs res → res = Ret p →
  process_ok xs p.
Proof.
  intros Hs Hrun. remember (process_begin s h k) as p0 eqn:Hp0. revert p.
  induction Hrun as [p0|p0 xs p1 x res _ IH Hstep Hkeep]; intros p E; subst.
  - injection E as <-. split; [constructor|apply io_inv_new|].
    exists (mkTable ∅ false). split; [by apply represents_new|].
    split; [done|]. intros k0 en. simpl. by rewrite lookup_empty.
  - destruct (IH eq_refl p1 eq_refl) as [Hth Hd (t & Hrep & Hask)].
    destruct x as [ev|l]; simpl in Hstep.
    + destruct (happen GIT_VERSION ev (ru_system p1)) as [[y|f]|] eqn:Hev; simplify_eq/=.
      split; simpl; [|done|by eapply happen_asked; [..|destruct ev]].
      pose proof (happen_moves GIT_VERSION ev (ru_system p1)) as Hm. rewrite Hev in Hm.
      destruct (move_of ev _); [by eapply reach_move|by rewrite (Hm _ eq_refl)].
    + destruct (exec l (ru_disk p1)) as [d|] eqn:Hex; simplify_eq/=.
      split; simpl; [done| |exists t; split; [done|by apply asked_more]].
      destruct (step_safe l (ru_disk p1) Hd) as (d' & Hex' & Hd'); [|rewrite Hex in Hex'; by injection Hex' as ->].
      destruct l; simpl in Hkeep; try done. split; [|apply Hkeep].
      unfold exec, new_torrent, new_partition_storage in Hex.
      destruct (k_open _ _) as [fd k1], (free_slots_ _); simpl in *; destruct (Z.ltb_spec fd 0); done || lia.
Qed.

(** A step of the back end faults only where a path cannot be opened. *)
Lemma disk_fault l p f :
  io_inv (ru_disk p) → keeps_to (H_disk l) p → exec l (ru_disk p) = Fault f →
  f = Process_exit 1 ∧ ∃ path files, l = L_new_torrent path files ∧
    save_path_of path (session_ (sy_daemon (ru_system p))) ∧
    fst (k_open path (kernel_ (ru_disk p))) < 0.
Proof.
  intros Hd Hkeep Hex.
  assert (¬ disciplined l (ru_disk p)) as Hnot.
  { intros Hl. destruct (step_safe l _ Hd Hl) as (d & Hex' & _). by rewrite Hex in Hex'. }
  destruct l; try (by destruct (Hnot Hkeep)). destruct Hkeep as [Hpath Hfiles].
  assert (fst (k_open path (kernel_ (ru_disk p))) < 0) as Hopen.
  { apply Z.nle_gt. intros ?. by apply Hnot. }
  split; [|eauto]. unfold exec, new_torrent, new_partition_storage in Hex.
  destruct (k_open _ _) as [fd k'], (free_slots_ _); simpl in *;
    rewrite (proj2 (Z.ltb_lt fd 0)) in Hex by done; by injection Hex.
Qed.
End invariant.

(** C15: the process ends only when it was asked to, or for a path it was asked to open.
    From a session without torrents, whatever calls arrive, whatever libtorrent does
    within what it keeps to ([keeps_to]: it gives the back end the torrents it has and
    calls it as [disciplined] says), and in whatever order the threads run: a run that faults ends
    in the join of [log]'s destructor, a client having called Shutdown, with both
    reporting threads joined and the server stopped; or in the exit(1) of
    partition_storage's constructor, on the path of an AddTorrent call that cannot be
    opened. *)
Theorem process_ends_only_on_request {Ses TH node ti sha1 float}
    `{L : Libtorrent Ses TH node ti sha1 float double} `{F : !TorrentFiles ti sha1}
    `{!LibtorrentLaws Ses TH node ti sha1 float double}
    `{!SessionLaws Ses TH node ti sha1 float double} `{Q : !AlertQueue Ses}
    `{!AlertQueueFrame Ses TH node ti sha1 float}
    {K HS digest} `{KernelLaws K} `{Hasher HS digest} GIT_VERSION (s : Ses) h (k : K) xs f :
  lt_get_torrents s = [] →
  process_run (HS := HS) (digest := digest) GIT_VERSION (process_begin s h k) xs (Fault f) →
  ∃ xs0 x p, xs = xs0 ++ [x] ∧ process_run GIT_VERSION (process_begin s h k) xs0 (Ret p) ∧
    ((f = Std_terminate ∧ (∃ built, x = H_system (Y_main built)) ∧
      (∃ now, H_system (Y_call now R_Shutdown) ∈ xs0) ∧
      sy_server (ru_system p) = Stopped ∧
      sy_speed (ru_system p) = Joined ∧ sy_alert (ru_system p) = Joined) ∨
     (f = Process_exit 1 ∧ ∃ path files now rq, x = H_disk (L_new_torrent path files) ∧
      H_system (Y_call now (R_AddTorrent rq)) ∈ xs0 ∧ path = lt_complete (add_save_path rq) ∧
      fst (k_open path (kernel_ (ru_disk p))) < 0)).
Proof.
  intros Hs Hrun. inversion Hrun as [|? xs0 p x res Hrun0 Hstep Hkeep]; subst.
  exists xs0, x, p. do 2 (split; [done|]).
  destruct (process_run_ok GIT_VERSION s h k xs0 _ p Hs Hrun0 eq_refl) as [Hth Hd (t & Hrep & Hask)].
  destruct x as [ev|l]; simpl in Hstep.
  - left. destruct (happen GIT_VERSION ev (ru_system p)) as [[|f']|] eqn:Hev; simplify_eq/=.
    destruct (system_fault _ _ _ _ Hth Hev) as (-> & Hown & Hsd & Hsv & Hsp & Hal).
    split_and!; [done| |apply Hask; by rewrite (rep_shutdown _ _ Hrep)|done..].
    destruct ev as [built|now| | |]; try done; [eauto|..]; simpl in Hev;
      [unfold speed_step in Hev; by rewrite Hsp in Hev|unfold alert_step in Hev; by rewrite Hal in Hev].
  - right. destruct (exec l (ru_disk p)) as [|f'] eqn:Hex; simplify_eq/=.
    destruct (disk_fault l p f Hd Hkeep Hex) as (-> & path & files & -> & (h' & en & Hh & Hen & <-) & Hopen).
    split; [done|]. destruct (ask_path _ _ Hask (printed h') en) as (now & rq & Hin & Hpath).
    { rewrite (rep_row _ _ _ Hrep Hh). done. }
    exists (en_save_path en), files, now, rq. done.
Qed.


(** ** Witnesses: a partition that is not there *)

Module ToyProcess.
Import ToySession ToySystem RamDisk.

#[export] Instance toy_system_lt_laws :
  LibtorrentLaws toy_session string (list byte) (list byte) string Z double.
Proof. split; [done|]. intros h s t. apply (lt_find_spec (L := toy)). Qed.

#[export] Instance toy_frame : AlertQueueFrame toy_session string (list byte) (list byte) string Z.
Proof. by split. Qed.

Abbreviation toy_running := (running toy_session ramdisk (list byte) (list byte)).

Definition nowhere : AddRequest := mkAddRequest [x00; x01] "/dev/sdz9" false 0 0 false.

(** The service is up, with an idle back end. *)
Definition toy_up : toy_running := mkRunning (toy_after start_events) demo_start.

Definition add_events : list toy_event := start_events ++ [Y_call 7 (R_AddTorrent nowhere)].

Definition toy_added : toy_running := mkRunning (toy_after add_events) demo_start.

Lemma toy_added_run :
  process_run "1.0" (process_begin (mkToySession ∅ []) ∅ demo_partition) (H_system <$> add_events)
    (Ret toy_added).
Proof.
  apply (system_run_process "1.0" toy_start add_events (Ret (toy_after add_events))).
  by apply toy_after_run.
Qed.

Lemma toy_shutdown_run :
  process_run "1.0" (process_begin (mkToySession ∅ []) ∅ demo_partition : toy_running)
    (H_system <$> (report_events ++ [Y_call 8 R_Shutdown] ++ ending_events)) (Fault Std_terminate).
Proof.
  apply (system_run_process "1.0" toy_start (report_events ++ [Y_call 8 R_Shutdown] ++ ending_events)
    (Fault Std_terminate)).
  apply (play_run _ _ toy_start [] toy_start); [constructor|reflexivity].
Qed.
End ToyProcess.
Import ToyProcess ToySession ToySystem RamDisk.


Lemma process_ends_only_on_request_witness :
  (∃ now rq, H_system (Y_call now (R_AddTorrent rq)) ∈ H_system <$> add_events ∧
     "/dev/sdz9" = lt_complete (add_save_path rq)) ∧
  ∃ p : toy_running, sy_server (ru_system p) = Stopped ∧ sy_speed (ru_system p) = Joined.
Proof.
  split.
  - destruct (process_ends_only_on_request "1.0" (mkToySession ∅ []) ∅ demo_partition
      ((H_system <$> add_events) ++ [H_disk (L_new_torrent "/dev/sdz9" demo_files)]) (Process_exit 1))
      as (xs0 & x & p & E & _ & Hend).
    + reflexivity.
    + eapply process_snoc; [exact toy_added_run|vm_compute; reflexivity|].
      split; [|apply demo_files_ok]. exists "aa", (mkEntry "/dev/sdz9" false).
      split; [|split; reflexivity]. apply (toy_torrents (toy_torrents_of _)). vm_compute. eauto.
    + apply app_inj_tail in E as [<- <-].
      destruct Hend as [(? & _)|(_ & path & files & now & rq & [= <- <-] & Hin & Hpath & _)]; [discriminate|].
      exists now, rq. split; [exact Hin|exact Hpath].
  - destruct (process_ends_only_on_request "1.0" (mkToySession ∅ []) ∅ demo_partition
      (H_system <$> (report_events ++ [Y_call 8 R_Shutdown] ++ ending_events)) Std_terminate)
      as (xs0 & x & p & _ & _ & Hend); [reflexivity|exact toy_shutdown_run|].
    destruct Hend as [(_ & _ & _ & Hst & Hsp & _)|(? & _)]; [|discriminate].
    exists p. split; [exact Hst|exact Hsp].
Defined.
